(** * Risk-style game engine: a shallow embedding of [RiskGame] and of the
    battle-session handler of the server

    The JavaScript sources keep every quantity (troops, pools, dice counts)
    in a [Number].  Numbers held in the match state are always finite, so
    they are embedded as rationals [Q]; a value that reaches the engine from
    a client goes through [Number(...)] first and is embedded as
    [JS.number], which adds [NaN] and the two infinities.

    Sums and differences of troops and pools are taken to be exact, which
    is what the code computes on whole numbers of magnitude up to [2^52]
    ([wholeNumber]: their sums and differences are doubles); the statements
    that give the value of such a sum or difference say so.
    The products with [Math.random()] and the arithmetic of the reward
    schedule are rounded to a double as the code rounds them ([fl]).

    Identifiers (socket ids, territory ids, card types) are strings, and a
    field that may be [null] is an [option].

    [Math.random()] is embedded as an oracle [rnd : nat -> Q]: [rnd k] is
    the value returned by the [k]-th call made during one operation. *)

From Stdlib Require Import List String Ascii Bool Arith ZArith QArith Qround Qpower.
From Stdlib Require Import Lia Lqa Permutation Sorted DecimalString DecimalNat.
Import ListNotations.

Set Implicit Arguments.

(** ** Numbers *)

Definition Qleb (a b : Q) : bool := Qle_bool a b.
Definition Qltb (a b : Q) : bool := negb (Qle_bool b a).
Definition Qeqb (a b : Q) : bool := Qeq_bool a b.

(** [Math.max] and [Math.min] on two finite numbers. *)
Definition Math_max (a b : Q) : Q := if Qleb a b then b else a.
Definition Math_min (a b : Q) : Q := if Qleb a b then a else b.

(** The natural number [n] as a JavaScript number. *)
Definition Qnat (n : nat) : Q := inject_Z (Z.of_nat n).

(** *** Rounding to a double

    A double is a multiple [k * 2^e] of a power of two with [|k| < 2^53]
    and [e >= -1074].  The result of an operation is the double nearest
    to the exact result, the one with an even [k] when two are equally
    near.  No quantity of a match comes anywhere near [2^1024], and
    overflow to [Infinity] is left out. *)

Definition pow2 (e : Z) : Q := 2 ^ e.

(** [floor(log2 x)] for [x > 0]. *)
Definition binade (x : Q) : Z :=
  let e := (Z.log2 (Qnum x) - Z.log2 (Zpos (Qden x)))%Z in
  if Qle_bool (pow2 e) x then e else (e - 1)%Z.

(** The nearest integer, the even one of the two when [m] lies half way. *)
Definition roundHalfEven (m : Q) : Z :=
  let f := Qfloor m in
  let r := m - inject_Z f in
  if Qle_bool r (1 # 2) then
    if Qle_bool (1 # 2) r then (if Z.even f then f else (f + 1)%Z) else f
  else (f + 1)%Z.

(** The exponent of the unit in the last place of the doubles around [x]:
    53 significant bits, and [2^-1074] for the subnormal numbers. *)
Definition ulpExponent (x : Q) : Z := Z.max (binade x - 52) (-1074).

Definition roundPositive (x : Q) : Q :=
  let ex := ulpExponent x in
  Qred (inject_Z (roundHalfEven (x * pow2 (- ex))) * pow2 ex).

(** The double nearest to [x]. *)
Definition fl (x : Q) : Q :=
  if Qle_bool x 0 then (if Qle_bool 0 x then 0 else - roundPositive (- x))
  else roundPositive x.

(** The number is a double: rounding leaves it as it is. *)
Definition isDouble (x : Q) : Prop := fl x == x.

Module JS.

(** The result of [Number(x)] for an arbitrary client value [x]. *)
Inductive number : Type :=
| Fin (q : Q)
| NaN
| PosInf
| NegInf.

Definition isFinite (x : number) : bool :=
  match x with Fin _ => true | _ => false end.

(** Truthiness of a number: [0] and [NaN] are falsy. *)
Definition truthy (x : number) : bool :=
  match x with
  | Fin q => negb (Qeqb q 0)
  | NaN => false
  | PosInf | NegInf => true
  end.

(** [x || y] on numbers. *)
Definition or (x y : number) : number := if truthy x then x else y.

(** [Math.max(x, y)]. *)
Definition max (x y : number) : number :=
  match x, y with
  | NaN, _ | _, NaN => NaN
  | PosInf, _ | _, PosInf => PosInf
  | NegInf, z | z, NegInf => z
  | Fin a, Fin b => Fin (Math_max a b)
  end.

(** [Math.min(x, y)]. *)
Definition min (x y : number) : number :=
  match x, y with
  | NaN, _ | _, NaN => NaN
  | NegInf, _ | _, NegInf => NegInf
  | PosInf, z | z, PosInf => z
  | Fin a, Fin b => Fin (Math_min a b)
  end.

(** [x <= y]; every comparison with [NaN] is false. *)
Definition le (x y : number) : bool :=
  match x, y with
  | NaN, _ | _, NaN => false
  | NegInf, _ | _, PosInf => true
  | _, NegInf | PosInf, _ => false
  | Fin a, Fin b => Qleb a b
  end.

(** [x > y]. *)
Definition gt (x y : number) : bool :=
  match x, y with
  | NaN, _ | _, NaN => false
  | _, PosInf | NegInf, _ => false
  | PosInf, _ | _, NegInf => true
  | Fin a, Fin b => Qltb b a
  end.

(** Truthiness of a string and of a nullable string. *)
Definition truthy_str (s : string) : bool := negb (String.eqb s "").

Definition truthy_opt (o : option string) : bool :=
  match o with Some s => truthy_str s | None => false end.

(** [o === s] for a nullable string [o] and a string [s]. *)
Definition opt_is (o : option string) (s : string) : bool :=
  match o with Some s' => String.eqb s' s | None => false end.

End JS.

(** ** Constants of the module *)

Definition NEUTRAL_ID : string := "neutral".
Definition CARD_TYPES : list string := ["INFANTRY"; "CAVALRY"; "ARTILLERY"]%string.
Definition WILD_TYPE : string := "WILD".

(** ** Data model *)

Inductive Phase : Type :=
| LOBBY
| SETUP
| GLOBAL_REINFORCE
| TURN_ATTACK
| TURN_FORTIFY.

Definition Phase_eqb (a b : Phase) : bool :=
  match a, b with
  | LOBBY, LOBBY | SETUP, SETUP | GLOBAL_REINFORCE, GLOBAL_REINFORCE
  | TURN_ATTACK, TURN_ATTACK | TURN_FORTIFY, TURN_FORTIFY => true
  | _, _ => false
  end.

(** A territory of the live map: the record of [mapData.territories]
    extended by [ownerId] and [troops]. *)
Record Territory : Type := mkTerritory {
  t_id : string;
  t_name : string;
  t_continent : string;
  t_neighbors : list string;
  ownerId : option string;
  troops : Q
}.

Record Continent : Type := mkContinent {
  c_name : string;
  c_bonus : Q
}.

(** A card; [card_uid] is set once the card is drawn into a hand. *)
Record Card : Type := mkCard {
  card_territoryId : option string;
  card_territoryName : string;
  card_type : string;
  card_uid : option string
}.

Record CardDeck : Type := mkDeck {
  nextUid : nat;
  baseCards : list Card;
  drawPile : list Card;
  discardPile : list Card
}.

Record Player : Type := mkPlayer {
  p_id : string;
  displayName : string;
  color : string;
  pool : Q;
  p_troops : Q;
  ready : bool;
  hand : list Card;
  conqueredThisTurn : bool
}.

(** The summary stored in [lastAttack] and in [battleHistory]; [attack]
    returns the same fields without [a_id], [a_attackerId], [a_fromId] and
    [a_toId]. *)
Record AttackRecord : Type := mkAttack {
  a_id : nat;
  a_attackerId : string;
  a_fromId : string;
  a_toId : string;
  attackTroopCount : Q;
  attackerDice : list Z;
  defenderDice : list Z;
  attackerLosses : nat;
  defenderLosses : nat;
  conquered : bool;
  a_winnerId : option string
}.

Record Game : Type := mkGame {
  players : list Player;
  phase : Phase;
  isFirstRound : bool;
  currentPlayerIndex : nat;
  lastAttack : option AttackRecord;
  lastAttackId : nat;
  winnerId : option string;
  battleHistory : list AttackRecord;
  globalTradeInCount : nat;
  pendingCardEarned : option (string * Card);
  deck : CardDeck;
  map : list Territory
}.

(** *** Field updates *)

Definition set_ownerId (o : option string) (t : Territory) : Territory :=
  mkTerritory (t_id t) (t_name t) (t_continent t) (t_neighbors t) o (troops t).

Definition set_troops (n : Q) (t : Territory) : Territory :=
  mkTerritory (t_id t) (t_name t) (t_continent t) (t_neighbors t) (ownerId t) n.

Definition set_pool (n : Q) (p : Player) : Player :=
  mkPlayer (p_id p) (displayName p) (color p) n (p_troops p) (ready p)
           (hand p) (conqueredThisTurn p).

Definition set_ready (b : bool) (p : Player) : Player :=
  mkPlayer (p_id p) (displayName p) (color p) (pool p) (p_troops p) b
           (hand p) (conqueredThisTurn p).

Definition set_hand (h : list Card) (p : Player) : Player :=
  mkPlayer (p_id p) (displayName p) (color p) (pool p) (p_troops p) (ready p)
           h (conqueredThisTurn p).

Definition set_conqueredThisTurn (b : bool) (p : Player) : Player :=
  mkPlayer (p_id p) (displayName p) (color p) (pool p) (p_troops p) (ready p)
           (hand p) b.

Definition set_players (ps : list Player) (g : Game) : Game :=
  mkGame ps (phase g) (isFirstRound g) (currentPlayerIndex g) (lastAttack g)
         (lastAttackId g) (winnerId g) (battleHistory g) (globalTradeInCount g)
         (pendingCardEarned g) (deck g) (map g).

Definition set_phase (ph : Phase) (g : Game) : Game :=
  mkGame (players g) ph (isFirstRound g) (currentPlayerIndex g) (lastAttack g)
         (lastAttackId g) (winnerId g) (battleHistory g) (globalTradeInCount g)
         (pendingCardEarned g) (deck g) (map g).

Definition set_isFirstRound (b : bool) (g : Game) : Game :=
  mkGame (players g) (phase g) b (currentPlayerIndex g) (lastAttack g)
         (lastAttackId g) (winnerId g) (battleHistory g) (globalTradeInCount g)
         (pendingCardEarned g) (deck g) (map g).

Definition set_currentPlayerIndex (i : nat) (g : Game) : Game :=
  mkGame (players g) (phase g) (isFirstRound g) i (lastAttack g)
         (lastAttackId g) (winnerId g) (battleHistory g) (globalTradeInCount g)
         (pendingCardEarned g) (deck g) (map g).

Definition set_lastAttack (a : option AttackRecord) (g : Game) : Game :=
  mkGame (players g) (phase g) (isFirstRound g) (currentPlayerIndex g) a
         (lastAttackId g) (winnerId g) (battleHistory g) (globalTradeInCount g)
         (pendingCardEarned g) (deck g) (map g).

Definition set_lastAttackId (n : nat) (g : Game) : Game :=
  mkGame (players g) (phase g) (isFirstRound g) (currentPlayerIndex g)
         (lastAttack g) n (winnerId g) (battleHistory g) (globalTradeInCount g)
         (pendingCardEarned g) (deck g) (map g).

Definition set_winnerId (w : option string) (g : Game) : Game :=
  mkGame (players g) (phase g) (isFirstRound g) (currentPlayerIndex g)
         (lastAttack g) (lastAttackId g) w (battleHistory g)
         (globalTradeInCount g) (pendingCardEarned g) (deck g) (map g).

Definition set_battleHistory (h : list AttackRecord) (g : Game) : Game :=
  mkGame (players g) (phase g) (isFirstRound g) (currentPlayerIndex g)
         (lastAttack g) (lastAttackId g) (winnerId g) h (globalTradeInCount g)
         (pendingCardEarned g) (deck g) (map g).

Definition set_globalTradeInCount (n : nat) (g : Game) : Game :=
  mkGame (players g) (phase g) (isFirstRound g) (currentPlayerIndex g)
         (lastAttack g) (lastAttackId g) (winnerId g) (battleHistory g) n
         (pendingCardEarned g) (deck g) (map g).

Definition set_pendingCardEarned (c : option (string * Card)) (g : Game) : Game :=
  mkGame (players g) (phase g) (isFirstRound g) (currentPlayerIndex g)
         (lastAttack g) (lastAttackId g) (winnerId g) (battleHistory g)
         (globalTradeInCount g) c (deck g) (map g).

Definition set_deck (d : CardDeck) (g : Game) : Game :=
  mkGame (players g) (phase g) (isFirstRound g) (currentPlayerIndex g)
         (lastAttack g) (lastAttackId g) (winnerId g) (battleHistory g)
         (globalTradeInCount g) (pendingCardEarned g) d (map g).

Definition set_map (m : list Territory) (g : Game) : Game :=
  mkGame (players g) (phase g) (isFirstRound g) (currentPlayerIndex g)
         (lastAttack g) (lastAttackId g) (winnerId g) (battleHistory g)
         (globalTradeInCount g) (pendingCardEarned g) (deck g) m.

(** *** Objects held in arrays

    [arr.find(p)] returns the first element satisfying [p]; a later
    assignment to a field of that object changes that element in place. *)

Fixpoint update_first (A : Type) (p : A -> bool) (f : A -> A) (l : list A) : list A :=
  match l with
  | [] => []
  | x :: r => if p x then f x :: r else x :: update_first p f r
  end.

Fixpoint update_nth (A : Type) (i : nat) (f : A -> A) (l : list A) : list A :=
  match l, i with
  | [], _ => []
  | x :: r, O => f x :: r
  | x :: r, S j => x :: update_nth j f r
  end.

Definition has_id (i : string) (t : Territory) : bool := String.eqb (t_id t) i.
Definition is_player (i : string) (p : Player) : bool := String.eqb (p_id p) i.

Definition getCurrentPlayer (g : Game) : option Player :=
  nth_error (players g) (currentPlayerIndex g).

Definition getPlayer (g : Game) (playerId : string) : option Player :=
  find (is_player playerId) (players g).

Definition getTerritory (g : Game) (territoryId : string) : option Territory :=
  find (has_id territoryId) (map g).

(** Assignment to fields of the object returned by [getTerritory],
    [getPlayer] or [getCurrentPlayer]. *)
Definition modTerritory (territoryId : string) (f : Territory -> Territory) (g : Game) : Game :=
  set_map (update_first (has_id territoryId) f (map g)) g.

Definition modPlayer (playerId : string) (f : Player -> Player) (g : Game) : Game :=
  set_players (update_first (is_player playerId) f (players g)) g.

Definition modCurrentPlayer (f : Player -> Player) (g : Game) : Game :=
  set_players (update_nth (currentPlayerIndex g) f (players g)) g.

(** [this.getCurrentPlayer()?.id !== playerId] for a string [playerId]. *)
Definition notCurrentPlayer (g : Game) (playerId : string) : bool :=
  match getCurrentPlayer g with
  | Some p => negb (String.eqb (p_id p) playerId)
  | None => true
  end.

(** [pushCapped(list, entry, cap)]. *)
Definition pushCapped (A : Type) (l : list A) (entry : A) (cap : nat) : list A :=
  let l' := l ++ [entry] in
  if cap <? List.length l' then tl l' else l'.

(** ** Card economy *)

Definition getTradeInReward (tradeNumber : JS.number) : JS.number :=
  match JS.max (JS.Fin 1) (JS.or tradeNumber (JS.Fin 1)) with
  | JS.Fin n =>
      if Qleb n 5 then JS.Fin (fl (fl (2 * n) + 2))
      else JS.Fin (fl (15 + fl (fl (n - 6) * 5)))
  | JS.PosInf => JS.PosInf
  | JS.NegInf => JS.NegInf
  | JS.NaN => JS.NaN
  end.

Definition isWild (c : Card) : bool := String.eqb (card_type c) WILD_TYPE.

Definition isNonWild (c : Card) : bool :=
  JS.truthy_str (card_type c) && negb (String.eqb (card_type c) WILD_TYPE).

Definition set_has (s : list string) (x : string) : bool := existsb (String.eqb x) s.

Definition isValidTradeSet (cards : list Card) : bool :=
  if negb (List.length cards =? 3) then false else
  let wildCount := List.length (filter isWild cards) in
  let nonWildTypes := List.map card_type (filter isNonWild cards) in
  let sameType :=
    (List.length nonWildTypes =? 0) || (List.length (nodup string_dec nonWildTypes) =? 1) in
  if sameType then true else
  let present := nonWildTypes in
  let missingCount := List.length (filter (fun type => negb (set_has present type)) CARD_TYPES) in
  missingCount <=? wildCount.

(** ** Card deck *)

(** [[arr[i], arr[j]] = [arr[j], arr[i]]]; both indices are inside the array
    whenever the random numbers lie in [0, 1). *)
Definition swap (A : Type) (i j : nat) (arr : list A) : list A :=
  match nth_error arr i, nth_error arr j with
  | Some x, Some y => update_nth i (fun _ => y) (update_nth j (fun _ => x) arr)
  | _, _ => arr
  end.

(** The loop of [shuffle], from index [i] down to 1; [k] counts the calls
    to [Math.random()] made so far. *)
Fixpoint shuffle_from (A : Type) (rnd : nat -> Q) (k i : nat) (arr : list A) : list A :=
  match i with
  | O => arr
  | S i' =>
      let j := Z.to_nat (Qfloor (fl (rnd k * Qnat (i + 1)))) in
      shuffle_from rnd (S k) i' (swap i j arr)
  end.

Definition shuffle (A : Type) (rnd : nat -> Q) (cards : list A) : list A :=
  shuffle_from rnd 0 (List.length cards - 1) cards.

Definition card_uid_of (n : nat) : string :=
  ("card_" ++ NilEmpty.string_of_uint (Nat.to_uint n))%string.

Definition with_uid (u : string) (c : Card) : Card :=
  mkCard (card_territoryId c) (card_territoryName c) (card_type c) (Some u).

Definition deck_reset (rnd : nat -> Q) (d : CardDeck) : CardDeck :=
  mkDeck 1 (baseCards d) (shuffle rnd (baseCards d)) [].

(** [draw()]: the drawn card, if any, and the deck afterwards. *)
Definition draw (rnd : nat -> Q) (d : CardDeck) : option Card * CardDeck :=
  let d1 :=
    if (List.length (drawPile d) =? 0) && negb (List.length (discardPile d) =? 0)
    then mkDeck (nextUid d) (baseCards d) (shuffle rnd (discardPile d)) []
    else d in
  match rev (drawPile d1) with
  | [] => (None, d1)
  | card :: below =>
      (Some (with_uid (card_uid_of (nextUid d1)) card),
       mkDeck (S (nextUid d1)) (baseCards d1) (rev below) (discardPile d1))
  end.

(** The copy of a card that [discard] pushes on the discard pile. *)
Definition discarded (c : Card) : Card :=
  mkCard (if JS.truthy_opt (card_territoryId c) then card_territoryId c else None)
         (if JS.truthy_str (card_territoryName c) then card_territoryName c else "Unknown"%string)
         (if JS.truthy_str (card_type c) then card_type c else WILD_TYPE)
         None.

Definition discard (cards : list Card) (d : CardDeck) : CardDeck :=
  mkDeck (nextUid d) (baseCards d) (drawPile d) (discardPile d ++ List.map discarded cards).

(** ** The game *)

(** A record of [mapData.territories]. *)
Record MapTerritory : Type := mkMapTerritory {
  m_id : string;
  m_name : string;
  m_continent : string;
  m_neighbors : list string
}.

Definition fresh (m : MapTerritory) : Territory :=
  mkTerritory (m_id m) (m_name m) (m_continent m) (m_neighbors m) None 0.

Definition owns (playerId : string) (t : Territory) : bool :=
  JS.opt_is (ownerId t) playerId.

Definition getStartingPool (playerCount : nat) : Q :=
  if playerCount =? 2 then 30 else if playerCount =? 3 then 25 else 20.

Definition areAllPlayersReady (g : Game) : bool :=
  if List.length (players g) <? 2 then false else forallb ready (players g).

Definition canStartGame (g : Game) : bool :=
  Phase_eqb (phase g) LOBBY && areAllPlayersReady g.

Definition areAllPoolsEmpty (g : Game) : bool :=
  forallb (fun p => Qeqb (pool p) 0) (players g).

Definition getPlayerTerritoryCount (g : Game) (playerId : string) : nat :=
  List.length (filter (owns playerId) (map g)).

(** [checkForWinner(playerId)]: the returned winner and the game. *)
Definition checkForWinner (playerId : string) (g : Game) : option string * Game :=
  if negb (JS.truthy_str playerId) then (None, g)
  else if List.length (map g) <=? getPlayerTerritoryCount g playerId
       then (Some playerId, set_winnerId (Some playerId) g)
       else (None, g).

Definition neutralizePlayerTerritories (playerId : string) (g : Game) : Game :=
  set_map (List.map (fun t => if owns playerId t then set_ownerId (Some NEUTRAL_ID) t else t)
                    (map g)) g.

(** [this.currentPlayerIndex = (this.currentPlayerIndex + 1) % this.players.length];
    every call site has at least one player. *)
Definition advanceCursor (g : Game) : Game :=
  set_currentPlayerIndex ((currentPlayerIndex g + 1) mod List.length (players g)) g.

(** *** Dice *)

(** [Math.floor(Math.random() * 6) + 1] for the random number [u]; the
    product is a double. *)
Definition rollDie (u : Q) : Z := (Qfloor (fl (u * 6)) + 1)%Z.

Fixpoint insert_desc (x : Z) (l : list Z) : list Z :=
  match l with
  | [] => [x]
  | y :: r => if (y <? x)%Z then x :: y :: r else y :: insert_desc x r
  end.

(** [arr.sort((a, b) => b - a)]. *)
Definition sort_desc (l : list Z) : list Z := fold_right insert_desc [] l.

(** [rollDice(count)], the [k]-th die using the random number [rnd (off + k)]. *)
Definition rollDice (rnd : nat -> Q) (off count : nat) : list Z :=
  sort_desc (List.map (fun k => rollDie (rnd (off + k)%nat)) (seq 0 count)).

(** The comparison loop of [attack]: [(attackerLosses, defenderLosses)]. *)
Fixpoint compareDice (attackerDice defenderDice : list Z) : nat * nat :=
  match attackerDice, defenderDice with
  | a :: attackerDice', d :: defenderDice' =>
      let '(al, dl) := compareDice attackerDice' defenderDice' in
      if (d <? a)%Z then (al, S dl) else (S al, dl)
  | _, _ => (O, O)
  end.

(** The length of [Array.from({ length: count })] for a validated dice
    count, which lies in [1, 3]. *)
Definition toLength (count : Q) : nat := Z.to_nat (Qfloor count).

(** [territory.troops] of the object found by id, as read after earlier
    assignments. *)
Definition troopsOf (g : Game) (territoryId : string) : Q :=
  match getTerritory g territoryId with
  | Some t => troops t
  | None => 0
  end.

(** The two assignments [from.troops -= attackerLosses] and
    [to.troops -= defenderLosses]. *)
Definition applyLosses (fromId toId : string) (aLosses dLosses : nat) (g : Game) : Game :=
  modTerritory toId (fun t => set_troops (troops t - Qnat dLosses) t)
               (modTerritory fromId (fun t => set_troops (troops t - Qnat aLosses) t) g).

(** [Math.max(1, Math.max(0, requested - attackerLosses))] *)
Definition moveCountOf (requested : Q) (aLosses : nat) : Q :=
  let survivors := Math_max 0 (requested - Qnat aLosses) in
  Math_max 1 survivors.

(** The body of [if (to.troops <= 0)]: the winner found by the win check
    and the game. *)
Definition conquer (playerId fromId toId : string) (requested : Q) (aLosses : nat)
           (g : Game) : option string * Game :=
  let h1 := modTerritory toId (set_ownerId (Some playerId)) g in
  let h2 := modPlayer playerId (set_conqueredThisTurn true) h1 in
  let moveCount := moveCountOf requested aLosses in
  let h3 := modTerritory fromId (fun t => set_troops (troops t - moveCount) t) h2 in
  let h4 := modTerritory toId (set_troops moveCount) h3 in
  checkForWinner playerId h4.

(** [this.lastAttackId += 1; this.lastAttack = {...};
    this.pushCapped(this.battleHistory, this.lastAttack, 50)] *)
Definition recordAttack (playerId fromId toId : string) (attackerDiceCount : Q)
           (aDice dDice : list Z) (aLosses dLosses : nat) (isConquered : bool)
           (winner : option string) (g : Game) : AttackRecord * Game :=
  let g1 := set_lastAttackId (lastAttackId g + 1) g in
  let summary :=
    mkAttack (lastAttackId g1) playerId fromId toId attackerDiceCount
             aDice dDice aLosses dLosses isConquered winner in
  let g2 := set_lastAttack (Some summary) g1 in
  (summary, set_battleHistory (pushCapped (battleHistory g2) summary 50) g2).

(** The part of [attack] that follows the checks, for the validated dice
    count [requested] and the target territory [to]. *)
Definition resolveBattle (rnd : nat -> Q) (g : Game) (playerId fromId toId : string)
           (requested : Q) (to : Territory) : AttackRecord * Game :=
  let attackerDiceCount := requested in
  let defenderDiceCount := if Qleb 2 (troops to) then 2%nat else 1%nat in
  let aDice := rollDice rnd 0 (toLength attackerDiceCount) in
  let dDice := rollDice rnd (toLength attackerDiceCount) defenderDiceCount in
  let '(aLosses, dLosses) := compareDice aDice dDice in
  let g1 := applyLosses fromId toId aLosses dLosses g in
  let '(isConquered, winner, g2) :=
    if Qleb (troopsOf g1 toId) 0 then
      let '(w, h) := conquer playerId fromId toId requested aLosses g1 in (true, w, h)
    else (false, None, g1) in
  recordAttack playerId fromId toId attackerDiceCount aDice dDice aLosses dLosses
               isConquered winner g2.

(** [attack(playerId, fromId, toId, attackTroopCount)]; [attackTroopCount]
    stands for [Number(attackTroopCount)]. *)
Definition attack (rnd : nat -> Q) (g : Game) (playerId fromId toId : string)
           (attackTroopCount : JS.number) : option AttackRecord * Game :=
  if JS.truthy_opt (winnerId g) then (None, g) else
  if negb (Phase_eqb (phase g) TURN_ATTACK) then (None, g) else
  if notCurrentPlayer g playerId then (None, g) else
  match getTerritory g fromId, getTerritory g toId with
  | Some from, Some to =>
      let isNeutralTarget := JS.opt_is (ownerId to) NEUTRAL_ID in
      let isEnemyPlayerTarget :=
        JS.truthy_opt (ownerId to) && negb (JS.opt_is (ownerId to) playerId) in
      if negb (owns playerId from) || (negb isNeutralTarget && negb isEnemyPlayerTarget)
      then (None, g) else
      if negb (set_has (t_neighbors from) toId) then (None, g) else
      let maxAttackable := troops from - 1 in
      if Qltb maxAttackable 1 then (None, g) else
      match attackTroopCount with
      | JS.Fin requested =>
          if Qltb requested 1 then (None, g) else
          if Qltb maxAttackable requested then (None, g) else
          if Qltb 3 requested then (None, g) else
          let '(summary, g') := resolveBattle rnd g playerId fromId toId requested to in
          (Some summary, g')
      | _ => (None, g)
      end
  | _, _ => (None, g)
  end.

(** *** Fortify connectivity *)

Definition ownedIds (g : Game) (playerId : string) : list string :=
  List.map t_id (filter (owns playerId) (map g)).

(** The body of the [for] loop over the neighbours of the territory just
    taken from the queue: the pair is [(visited, queue)]. *)
Definition visitOne (owned : list string) (acc : list string * list string)
           (neighborId : string) : list string * list string :=
  if negb (set_has owned neighborId) || set_has (fst acc) neighborId
  then acc
  else (neighborId :: fst acc, snd acc ++ [neighborId]).

Definition visitNeighbors (owned : list string) (neighborIds : list string)
           (vq : list string * list string) : list string * list string :=
  fold_left (visitOne owned) neighborIds vq.

(** The [while (queue.length)] loop of [isConnected].  Each iteration takes
    one identifier from the queue; [fuel] bounds the number of iterations and
    [None] means that the bound was reached. *)
Fixpoint searchQueue (g : Game) (owned : list string) (toId : string)
         (fuel : nat) (queue visited : list string) : option bool :=
  match fuel with
  | O => None
  | S fuel' =>
      match queue with
      | [] => Some false
      | currentId :: rest =>
          if String.eqb currentId toId then Some true else
          match getTerritory g currentId with
          | None => searchQueue g owned toId fuel' rest visited
          | Some current =>
              let '(visited', queue') :=
                visitNeighbors owned (t_neighbors current) (visited, rest) in
              searchQueue g owned toId fuel' queue' visited'
          end
      end
  end.

(** An identifier enters the queue at most once and only if the player owns
    it, so the loop runs at most once per territory of the map (plus once
    for [fromId]); [isConnected_fuel] is never exhausted, see
    [searchQueue_total]. *)
Definition isConnected_fuel (g : Game) : nat := 2 * List.length (map g) + 2.

Definition isConnected (g : Game) (playerId fromId toId : string) : bool :=
  let owned := ownedIds g playerId in
  if negb (set_has owned fromId) || negb (set_has owned toId) then false else
  match searchQueue g owned toId (isConnected_fuel g) [fromId] [fromId] with
  | Some b => b
  | None => false
  end.

Section WithMapData.

(** [mapData.territories] and [mapData.continents] of
    [data/mapData.json]. *)
Variable mapData_territories : list MapTerritory.
Variable mapData_continents : list Continent.

(** The computation of a display name ([sanitizeDisplayName]) only
    produces the [displayName] field and is kept abstract. *)
Variable sanitizeDisplayName : list Player -> string -> string.

Definition PLAYER_COLORS : list string :=
  ["#00FFFF"; "#FF4444"; "#44FF44"; "#FFFF00"]%string.

Definition createFreshMap : list Territory := List.map fresh mapData_territories.

Definition getContinentBonus (g : Game) (playerId : string) : Q :=
  fold_left
    (fun totalBonus continent =>
       let territories :=
         filter (fun t => String.eqb (t_continent t) (c_name continent)) (map g) in
       if List.length territories =? 0 then totalBonus
       else if forallb (owns playerId) territories
            then (totalBonus + c_bonus continent)%Q
            else totalBonus)
    mapData_continents 0%Q.

Definition calculateReinforcements (g : Game) (playerId : string) : Q :=
  let owned := filter (owns playerId) (map g) in
  let reinforcements := (List.length owned / 3)%nat in
  let reinforcements := if (reinforcements <? 3)%nat then 3%nat else reinforcements in
  (Qnat reinforcements + getContinentBonus g playerId)%Q.

Definition startNewRound (g : Game) : Game :=
  let g1 :=
    set_players
      (List.map (fun player => set_pool (calculateReinforcements g (p_id player)) player)
                (players g)) g in
  set_currentPlayerIndex 0 (set_phase GLOBAL_REINFORCE g1).

(** [Math.max(1, Number(count) || 0)] *)
Definition deployAmount (count : JS.number) : JS.number :=
  JS.max (JS.Fin 1) (JS.or count (JS.Fin 0)).

(** [territory.troops += amount; player.pool -= amount] *)
Definition deployMove (playerId territoryId : string) (amount : Q) (g : Game) : Game :=
  modPlayer playerId (fun p => set_pool (pool p - amount) p)
            (modTerritory territoryId (fun t => set_troops (troops t + amount) t) g).

(** The phase-specific end of [deploy]; [poolNow] is [player.pool] after
    the move. *)
Definition deployCompletion (poolNow : Q) (g : Game) : Game :=
  match phase g with
  | SETUP =>
      if areAllPoolsEmpty g then
        let g1 := set_currentPlayerIndex 0 g in
        if isFirstRound g1 then set_phase TURN_ATTACK g1 else startNewRound g1
      else if Qeqb poolNow 0 then advanceCursor g
      else g
  | GLOBAL_REINFORCE =>
      if Qeqb poolNow 0 then
        let g1 := advanceCursor g in
        if (currentPlayerIndex g1 =? 0)%nat
        then set_currentPlayerIndex 0 (set_phase TURN_ATTACK g1)
        else g1
      else g
  | _ => g
  end.

(** [deploy(playerId, territoryId, count)]; [count] stands for
    [Number(count)].  [deployAmount] is a finite number or [Infinity]
    ([deployAmount_range]), and [Infinity > player.pool] holds. *)
Definition deploy (g : Game) (playerId territoryId : string) (count : JS.number)
  : bool * Game :=
  if JS.truthy_opt (winnerId g) then (false, g) else
  match getPlayer g playerId with
  | None => (false, g)
  | Some player =>
      if notCurrentPlayer g playerId then (false, g) else
      match getTerritory g territoryId with
      | None => (false, g)
      | Some territory =>
          if negb (owns playerId territory) then (false, g) else
          match deployAmount count with
          | JS.Fin amount =>
              if Qltb (pool player) amount then (false, g) else
              (true, deployCompletion (pool player - amount)
                                      (deployMove playerId territoryId amount g))
          | _ => (false, g)
          end
      end
  end.

(** [grantTurnCardIfEligible(player)] for the current player. *)
Definition grantTurnCardIfEligible (rnd : nat -> Q) (player : Player) (g : Game)
  : option Card * Game :=
  if negb (conqueredThisTurn player) then (None, g) else
  match draw rnd (deck g) with
  | (None, d) => (None, set_deck d g)
  | (Some card, d) =>
      (Some card, modCurrentPlayer (fun p => set_hand (hand p ++ [card]) p) (set_deck d g))
  end.

Definition nextTurn (rnd : nat -> Q) (g : Game) : Game :=
  if List.length (players g) =? 0 then set_currentPlayerIndex 0 g else
  let g1 := set_pendingCardEarned None g in
  let g2 :=
    match getCurrentPlayer g1 with
    | Some currentPlayer =>
        let '(earnedCard, h) := grantTurnCardIfEligible rnd currentPlayer g1 in
        let h1 :=
          match earnedCard with
          | Some card => set_pendingCardEarned (Some (p_id currentPlayer, card)) h
          | None => h
          end in
        modCurrentPlayer (set_conqueredThisTurn false) h1
    | None => g1
    end in
  let g3 := advanceCursor g2 in
  if currentPlayerIndex g3 =? 0 then
    startNewRound (if isFirstRound g3 then set_isFirstRound false g3 else g3)
  else set_phase TURN_ATTACK g3.

Definition nextPhase (rnd : nat -> Q) (g : Game) : bool * Game :=
  if JS.truthy_opt (winnerId g) then (false, g) else
  match phase g with
  | GLOBAL_REINFORCE =>
      match getCurrentPlayer g with
      | Some currentPlayer =>
          if Qeqb (pool currentPlayer) 0 then
            let g1 := advanceCursor g in
            if currentPlayerIndex g1 =? 0 then (true, set_phase TURN_ATTACK g1)
            else (true, g1)
          else (true, g)
      | None => (true, g)
      end
  | TURN_ATTACK => (true, set_phase TURN_FORTIFY g)
  | TURN_FORTIFY => (true, nextTurn rnd g)
  | _ => (true, g)
  end.

(** [Math.max(1, Number(count) || 1)] *)
Definition fortifyAmount (count : JS.number) : JS.number :=
  JS.max (JS.Fin 1) (JS.or count (JS.Fin 1)).

(** [fortify(playerId, fromId, toId, count)]; [count] stands for
    [Number(count)].  [fortifyAmount] is a finite number or [Infinity]
    ([fortifyAmount_range]), and [from.troops <= Infinity] holds. *)
Definition fortify (rnd : nat -> Q) (g : Game) (playerId fromId toId : string)
           (count : JS.number) : bool * Game :=
  if JS.truthy_opt (winnerId g) then (false, g) else
  if negb (Phase_eqb (phase g) TURN_FORTIFY) then (false, g) else
  if notCurrentPlayer g playerId then (false, g) else
  if negb (JS.truthy_str fromId) || negb (JS.truthy_str toId) || String.eqb fromId toId
  then (false, g) else
  match getTerritory g fromId, getTerritory g toId with
  | Some from, Some to =>
      if negb (owns playerId from) || negb (owns playerId to) then (false, g) else
      if negb (isConnected g playerId fromId toId) then (false, g) else
      match fortifyAmount count with
      | JS.Fin moveCount =>
          if Qleb (troops from) moveCount then (false, g) else
          let g1 := modTerritory fromId (fun t => set_troops (troops t - moveCount) t) g in
          let g2 := modTerritory toId (fun t => set_troops (troops t + moveCount) t) g1 in
          (true, nextTurn rnd g2)
      | _ => (false, g)
      end
  | _, _ => (false, g)
  end.

(** *** Lobby, start and end of a match *)

Definition addPlayer (g : Game) (socketId requestedName : string) : bool * Game :=
  if negb (Phase_eqb (phase g) LOBBY) then (false, g) else
  if (4 <=? List.length (players g))%nat then (false, g) else
  let playerId := socketId in
  if negb (JS.truthy_str playerId) then (false, g) else
  if existsb (is_player playerId) (players g) then (false, g) else
  let color := nth (List.length (players g) mod 4) PLAYER_COLORS ""%string in
  let displayName := sanitizeDisplayName (players g) requestedName in
  (true,
   set_players (players g ++ [mkPlayer playerId displayName color 0 0 false [] false]) g).

Fixpoint findIndex (A : Type) (p : A -> bool) (l : list A) : option nat :=
  match l with
  | [] => None
  | x :: r => if p x then Some O else option_map S (findIndex p r)
  end.

(** [arr.splice(index, 1)] *)
Fixpoint splice1 (A : Type) (index : nat) (l : list A) : list A :=
  match l, index with
  | [], _ => []
  | _ :: r, O => r
  | x :: r, S i => x :: splice1 i r
  end.

Definition removePlayer (g : Game) (socketId : string) : bool * Game :=
  match findIndex (is_player socketId) (players g) with
  | None => (false, g)
  | Some index =>
      let g1 :=
        match nth_error (players g) index with
        | Some player =>
            if negb (List.length (hand player) =? 0)%nat
            then set_deck (discard (hand player) (deck g)) g else g
        | None => g
        end in
      if negb (Phase_eqb (phase g1) LOBBY) then
        let g2 := neutralizePlayerTerritories socketId g1 in
        let g3 := set_players (splice1 index (players g2)) g2 in
        if (0 <? List.length (players g3))%nat then
          if (index <? currentPlayerIndex g3)%nat
          then (true, set_currentPlayerIndex (currentPlayerIndex g3 - 1) g3)
          else if (List.length (players g3) <=? currentPlayerIndex g3)%nat
               then (true, set_currentPlayerIndex 0 g3)
               else (true, g3)
        else (true, set_currentPlayerIndex 0 g3)
      else (true, set_players (splice1 index (players g1)) g1)
  end.

Definition setPlayerReady (g : Game) (socketId : string) (readyValue : bool)
  : bool * Game :=
  if negb (Phase_eqb (phase g) LOBBY) then (false, g) else
  match getPlayer g socketId with
  | None => (false, g)
  | Some _ => (true, modPlayer socketId (set_ready readyValue) g)
  end.

Definition togglePlayerReady (g : Game) (socketId : string) : bool * Game :=
  if negb (Phase_eqb (phase g) LOBBY) then (false, g) else
  match getPlayer g socketId with
  | None => (false, g)
  | Some _ => (true, modPlayer socketId (fun p => set_ready (negb (ready p)) p) g)
  end.

(** Stable insertion by ascending sort key, as [sort((a, b) => a.sortKey -
    b.sortKey)] orders the pairs (map position, sort key). *)
Fixpoint insert_key (x : nat * Q) (l : list (nat * Q)) : list (nat * Q) :=
  match l with
  | [] => [x]
  | y :: r => if Qleb (snd x) (snd y) then x :: y :: r else y :: insert_key x r
  end.

Definition sort_keys (l : list (nat * Q)) : list (nat * Q) :=
  fold_right insert_key [] l.

(** [shuffleAndDistribute()]; the sort key of the [k]-th territory of the
    map is [rnd k].  It is only called by [startGame], with at least two
    players. *)
Definition shuffleAndDistribute (rnd : nat -> Q) (g : Game) : Game :=
  let n := List.length (map g) in
  let shuffled := List.map fst (sort_keys (combine (seq 0 n) (List.map rnd (seq 0 n)))) in
  let playerCount := if (List.length (players g) =? 0)%nat then 1%nat
                     else List.length (players g) in
  let m :=
    fold_left
      (fun m (entry : nat * nat) =>
         let '(index, position) := entry in
         match nth_error (players g) (index mod playerCount) with
         | Some owner =>
             update_nth position
                        (fun t => set_troops 1 (set_ownerId (Some (p_id owner)) t)) m
         | None => m
         end)
      (combine (seq 0 n) shuffled) (map g) in
  let g1 := set_map m g in
  set_players
    (List.map
       (fun player =>
          set_pool (Math_max 0 (pool player - Qnat (getPlayerTerritoryCount g1 (p_id player))))
                   player)
       (players g1)) g1.

(** [startGame()]: [deck.reset()] draws its random numbers first. *)
Definition startGame (rnd : nat -> Q) (g : Game) : bool * Game :=
  if negb (canStartGame g) then (false, g) else
  let g1 := set_pendingCardEarned None
              (set_winnerId None (set_isFirstRound true (set_phase SETUP g))) in
  let startingPool := getStartingPool (List.length (players g1)) in
  let g2 :=
    set_players
      (List.map
         (fun player =>
            set_conqueredThisTurn false (set_ready false (set_pool startingPool player)))
         (players g1)) g1 in
  let g3 := set_globalTradeInCount 0 g2 in
  let g4 := set_deck (deck_reset rnd (deck g3)) g3 in
  let used := (List.length (baseCards (deck g3)) - 1)%nat in
  let g5 := shuffleAndDistribute (fun k => rnd (used + k)%nat) g4 in
  (true, set_currentPlayerIndex 0 g5).

Definition consumeCardEarned (g : Game) : option (string * Card) * Game :=
  (pendingCardEarned g, set_pendingCardEarned None g).

(** [[...new Set(uids)]]: the first occurrence of every element, in order. *)
Fixpoint uniq (seen l : list string) : list string :=
  match l with
  | [] => []
  | x :: r => if set_has seen x then uniq seen r else x :: uniq (x :: seen) r
  end.

Definition hasUid (uid : string) (c : Card) : bool := JS.opt_is (card_uid c) uid.

Definition inUidSet (uids : list string) (c : Card) : bool :=
  match card_uid c with
  | Some u => set_has uids u
  | None => false
  end.

Fixpoint somes (A : Type) (l : list (option A)) : list A :=
  match l with
  | [] => []
  | Some x :: r => x :: somes r
  | None :: r => somes r
  end.

(** [tradeCards(playerId, selectedCardUids)] for an array of strings; the
    result is [(troopsAwarded, globalTradeInCount, nextTradeValue)]. *)
Definition tradeCards (g : Game) (playerId : string) (selectedCardUids : list string)
  : option (JS.number * nat * JS.number) * Game :=
  if JS.truthy_opt (winnerId g) || Phase_eqb (phase g) LOBBY then (None, g) else
  match getPlayer g playerId with
  | None => (None, g)
  | Some player =>
      if notCurrentPlayer g playerId then (None, g) else
      if (List.length (hand player) <? 3)%nat then (None, g) else
      let uniqueUids := filter JS.truthy_str (uniq [] selectedCardUids) in
      if negb (List.length uniqueUids =? 3)%nat then (None, g) else
      let selectedCards :=
        somes (List.map (fun uid => find (hasUid uid) (hand player)) uniqueUids) in
      if negb (List.length selectedCards =? 3)%nat then (None, g) else
      if negb (isValidTradeSet selectedCards) then (None, g) else
      let g1 := modPlayer playerId
                  (fun p => set_hand (filter (fun c => negb (inUidSet uniqueUids c)) (hand p)) p)
                  g in
      let g2 := set_deck (discard selectedCards (deck g1)) g1 in
      let g3 := set_globalTradeInCount (globalTradeInCount g2 + 1) g2 in
      let troopsAwarded := getTradeInReward (JS.Fin (Qnat (globalTradeInCount g3))) in
      match troopsAwarded with
      | JS.Fin awarded =>
          (Some (troopsAwarded, globalTradeInCount g3,
                 getTradeInReward (JS.Fin (Qnat (globalTradeInCount g3 + 1)))),
           modPlayer playerId (fun p => set_pool (pool p + awarded) p) g3)
      | _ => (None, g)
      end
  end.

Definition resetGame (rnd : nat -> Q) (g : Game) : Game :=
  let lobbyPlayers :=
    List.map (fun player =>
                mkPlayer (p_id player) (displayName player) (color player)
                         0 0 false [] false) (players g) in
  mkGame (filter (fun player => JS.truthy_str (p_id player)) lobbyPlayers)
         LOBBY true 0 None 0 None [] 0 None
         (deck_reset rnd (deck g)) createFreshMap.

End WithMapData.

(** ** Battle session of the server *)

Record Battle : Type := mkBattle {
  battleId : string;
  b_attackerId : string;
  b_defenderId : string;
  b_fromId : string;
  b_toId : string;
  fromName : string;
  toName : string;
  maxAttackerDice : Q;
  maxDefenderDice : Q;
  attackerRolled : bool;
  defenderRolled : bool;
  b_attackerDice : Q;
  b_defenderDice : Q;
  defenderAuto : bool
}.

Definition commitAttacker (dice : Q) (b : Battle) : Battle :=
  mkBattle (battleId b) (b_attackerId b) (b_defenderId b) (b_fromId b) (b_toId b)
           (fromName b) (toName b) (maxAttackerDice b) (maxDefenderDice b)
           true (defenderRolled b) dice (b_defenderDice b) (defenderAuto b).

Definition commitDefender (dice : Q) (b : Battle) : Battle :=
  mkBattle (battleId b) (b_attackerId b) (b_defenderId b) (b_fromId b) (b_toId b)
           (fromName b) (toName b) (maxAttackerDice b) (maxDefenderDice b)
           (attackerRolled b) true (b_attackerDice b) dice (defenderAuto b).

(** What the handlers send or arm, in order. *)
Inductive Effect : Type :=
| ResetInactivityTimer
| CombatArenaUpdate (id : string) (attackerRolled defenderRolled : bool)
| BattleCancelled
| BattleResult (result : AttackRecord) (reason : string)
| RefreshTurnTimer
| GameUpdate
| GameOver (winner : string).

(** The module-level variables [activeBattle] and [game]. *)
Record Server : Type := mkServer {
  activeBattle : option Battle;
  game : Game
}.

(** What the clients are told when the session is resolved. *)
Definition resolutionEffects (answer : option AttackRecord) : list Effect :=
  match answer with
  | None => [BattleCancelled; RefreshTurnTimer; GameUpdate]
  | Some r =>
      [ResetInactivityTimer; BattleResult r "both_committed"; RefreshTurnTimer; GameUpdate]
        ++ match a_winnerId r with
           | Some w => if JS.truthy_str w then [GameOver w] else []
           | None => []
           end
  end.

Section BattleSession.

(** [game.resolveAttack(attackerId, fromId, toId, attackerDiceCount,
    defenderDiceCount)] is called by the server but defined in none of the
    source files. *)
Variable resolveAttack :
  Game -> string -> string -> string -> Q -> Q -> option AttackRecord * Game.

(** [pruneInactivePlayers()], run by [refreshTurnTimer] and
    [emitGameUpdateToAll]: with no session open it touches the game only
    (it removes the players whose socket is gone, and resets or ends the
    match when none or one is left); which sockets are gone depends on the
    transport.  Timers and the notices it sends are not part of the
    model. *)
Variable pruneInactivePlayers : Game -> Game.

(** [x || y] for two finite numbers. *)
Definition orElse (x y : Q) : Q := if Qeqb x 0 then y else x.

Definition emitCombatArenaUpdate (s : Server) : list Effect :=
  match activeBattle s with
  | Some b => [CombatArenaUpdate (battleId b) (attackerRolled b) (defenderRolled b)]
  | None => []
  end.

Definition resolveActiveBattle (reason : string) (s : Server) : Server * list Effect :=
  match activeBattle s with
  | None => (s, [])
  | Some battle =>
      let attackerDiceCount := orElse (b_attackerDice battle) (maxAttackerDice battle) in
      let defenderDiceCount := orElse (b_defenderDice battle) (maxDefenderDice battle) in
      match resolveAttack (game s) (b_attackerId battle) (b_fromId battle) (b_toId battle)
                          attackerDiceCount defenderDiceCount with
      | (None, g) =>
          (mkServer None (pruneInactivePlayers (pruneInactivePlayers g)),
           [BattleCancelled; RefreshTurnTimer; GameUpdate])
      | (Some result, g) =>
          (mkServer None (pruneInactivePlayers (pruneInactivePlayers g)),
           [ResetInactivityTimer; BattleResult result reason; RefreshTurnTimer; GameUpdate]
             ++ match a_winnerId result with
                | Some w => if JS.truthy_str w then [GameOver w] else []
                | None => []
                end)
      end
  end.

Definition maybeResolveActiveBattle (reason : string) (s : Server) : Server * list Effect :=
  match activeBattle s with
  | None => (s, [])
  | Some b =>
      if negb (attackerRolled b) || negb (defenderRolled b) then (s, [])
      else resolveActiveBattle reason s
  end.

(** The [commit_roll] handler of the socket [socketId]; [battleId] is the
    identifier sent by the client, if any, and [dice] stands for
    [Number(dice)]. *)
Definition commit_roll (s : Server) (socketId : string) (sentId : option string)
           (dice : JS.number) : Server * list Effect :=
  match activeBattle s with
  | None => (s, [])
  | Some b =>
      if JS.truthy_opt sentId && JS.truthy_str (battleId b)
         && negb (JS.opt_is sentId (battleId b))
      then (s, []) else
      match dice with
      | JS.Fin requestedDice =>
          let committed :=
            if String.eqb socketId (b_attackerId b) then
              let capped := Math_max 1 (Math_min (maxAttackerDice b) requestedDice) in
              Some (commitAttacker capped b)
            else if String.eqb socketId (b_defenderId b) && negb (defenderAuto b) then
              let capped := Math_max 1 (Math_min (maxDefenderDice b) requestedDice) in
              Some (commitDefender capped b)
            else None in
          match committed with
          | None => (s, [])
          | Some b' =>
              let s1 := mkServer (Some b') (game s) in
              let '(s2, effects) := maybeResolveActiveBattle "both_committed" s1 in
              (s2, ResetInactivityTimer :: emitCombatArenaUpdate s1 ++ effects)
          end
      | _ => (s, [])
      end
  end.

End BattleSession.

(** ** The trade-set rule in the words of the specification *)

(** All non-wild cards share one type. *)
Definition shareOneType (cards : list Card) : Prop :=
  exists type, forall c, In c cards -> card_type c <> WILD_TYPE -> card_type c = type.

(** The number of troop types that no non-wild card of the set has. *)
Definition absentTypeCount (cards : list Card) : nat :=
  List.length
    (filter (fun type =>
               negb (existsb (fun c => negb (String.eqb (card_type c) WILD_TYPE)
                                       && String.eqb (card_type c) type) cards))
            CARD_TYPES).

Definition wildCardCount (cards : list Card) : nat :=
  List.length (filter (fun c => String.eqb (card_type c) WILD_TYPE) cards).

Definition validTradeSet (cards : list Card) : Prop :=
  List.length cards = 3%nat
  /\ (shareOneType cards \/ (absentTypeCount cards <= wildCardCount cards)%nat).

(** The cards of the list that carry a type tag. *)
Definition tagged (cards : list Card) : list Card :=
  filter (fun c => negb (String.eqb (card_type c) "")) cards.

(** The rule with the cards that carry no type tag left out of the two
    tests on the types. *)
Definition validTaggedTradeSet (cards : list Card) : Prop :=
  List.length cards = 3%nat
  /\ (shareOneType (tagged cards)
      \/ (absentTypeCount (tagged cards) <= wildCardCount cards)%nat).

(** The reward schedule in the words of the specification. *)
Definition rewardSchedule (N : Z) : Z :=
  if (N <=? 5)%Z then (2 * N + 2)%Z else (15 + 5 * (N - 6))%Z.

(** ** Dice in the words of the specification *)

(** Every random number is a double in [0, 1), as [Math.random()]
    promises. *)
Definition validRandom (rnd : nat -> Q) : Prop :=
  forall k, isDouble (rnd k) /\ 0 <= rnd k /\ rnd k < 1.

(** Sorted from the highest die to the lowest. *)
Definition descending (l : list Z) : Prop := Sorted (fun a b => (b <= a)%Z) l.

(** The [count] dice rolled from the random numbers [off], [off + 1], ...,
    before they are sorted. *)
Definition rolled (rnd : nat -> Q) (off count : nat) : list Z :=
  List.map (fun k => rollDie (rnd (off + k)%nat)) (seq 0 count).

(** ** The preconditions of an attack *)

Definition isInteger (q : Q) : Prop := exists z : Z, q == inject_Z z.

(** A whole number of at most [2^52]: the sums and the differences of two
    such numbers are doubles, so the code computes them without rounding
    ([wholeNumber_exact]). *)
Definition wholeNumber (q : Q) : Prop :=
  exists z : Z, q == inject_Z z /\ (Z.abs z <= 2 ^ 52)%Z.

(** The dice count is a finite number in [1, 3] that leaves one troop
    behind. *)
Definition diceCountAllowed (from : Territory) (count : JS.number) : Prop :=
  exists requested,
    count = JS.Fin requested
    /\ 1 <= requested /\ requested <= 3 /\ requested <= troops from - 1.

(** No winner, phase TURN_ATTACK, the caller is the current player, both
    territories exist, [from] is the attacker's, [to] is neutral or held by
    another player, [to] is a neighbour of [from], and the dice count is
    allowed. *)
Definition attackAllowed (g : Game) (playerId fromId toId : string)
           (count : JS.number) : Prop :=
  JS.truthy_opt (winnerId g) = false
  /\ phase g = TURN_ATTACK
  /\ (exists p, getCurrentPlayer g = Some p /\ p_id p = playerId)
  /\ exists from to,
      getTerritory g fromId = Some from
      /\ getTerritory g toId = Some to
      /\ ownerId from = Some playerId
      /\ (ownerId to = Some NEUTRAL_ID
          \/ exists o, ownerId to = Some o /\ o <> ""%string /\ o <> playerId)
      /\ In toId (t_neighbors from)
      /\ diceCountAllowed from count.

(** The preconditions with the dice count required to be an integer. *)
Definition attackAllowedInteger (g : Game) (playerId fromId toId : string)
           (count : JS.number) : Prop :=
  attackAllowed g playerId fromId toId count
  /\ exists requested, count = JS.Fin requested /\ isInteger requested.

(** ** Troop totals *)

(** The sum of the weights of the territories. *)
Definition total (w : Territory -> Q) (m : list Territory) : Q :=
  fold_right (fun t acc => w t + acc) 0 m.


(** The territory has an owner, a player or the neutral one. *)
Definition isOwned (t : Territory) : bool :=
  match ownerId t with Some _ => true | None => false end.



(** ** Connectivity in the words of the specification *)

(** [b] is a neighbour of the territory found under the identifier [a]. *)
Definition adjacent (g : Game) (a b : string) : Prop :=
  exists t, getTerritory g a = Some t /\ In b (t_neighbors t).

(** A path of adjacent territories from [a] to [b] that runs exclusively
    through territories owned by the player. *)
Inductive ownedPath (g : Game) (playerId : string) : string -> string -> Prop :=
| path_end (a : string) :
    In a (ownedIds g playerId) -> ownedPath g playerId a a
| path_step (a b c : string) :
    In a (ownedIds g playerId) -> adjacent g a b -> ownedPath g playerId b c ->
    ownedPath g playerId a c.

(** The part of the owned territories not yet visited, which bounds the
    remaining work of the search. *)
Definition unvisited (owned visited : list string) : nat :=
  List.length (filter (fun x => negb (set_has visited x)) owned).

(** ** The garrison invariant and the operations of the game *)

(** An owned territory has at least one troop. *)
Definition garrisoned (t : Territory) : Prop :=
  isOwned t = true -> 1 <= troops t.

(** An owned territory has a whole number of troops, at least one. *)
Definition wholeGarrison (t : Territory) : Prop :=
  isOwned t = true -> isInteger (troops t) /\ 1 <= troops t.

(** An owned territory has troops: more than none. *)
Definition positiveGarrison (t : Territory) : Prop :=
  isOwned t = true -> 0 < troops t.

(** A count sent by a client that, when it is a finite number, is an
    integer. *)
Definition wholeCount (count : JS.number) : Prop :=
  forall q, count = JS.Fin q -> isInteger q.

(** One call of a method of [RiskGame] that assigns to the match (the
    methods that only read, such as [getState] and [getHandState], are left
    out); the counts of [deploy], [attack] and [fortify] are constrained by
    [admissible]. *)
Inductive operation (mapData_territories : list MapTerritory)
          (mapData_continents : list Continent)
          (sanitizeDisplayName : list Player -> string -> string)
          (admissible : JS.number -> Prop) : Game -> Game -> Prop :=
| op_addPlayer g socketId requestedName :
    operation mapData_territories mapData_continents sanitizeDisplayName admissible
              g (snd (addPlayer sanitizeDisplayName g socketId requestedName))
| op_removePlayer g socketId :
    operation mapData_territories mapData_continents sanitizeDisplayName admissible
              g (snd (removePlayer g socketId))
| op_setPlayerReady g socketId readyValue :
    operation mapData_territories mapData_continents sanitizeDisplayName admissible
              g (snd (setPlayerReady g socketId readyValue))
| op_togglePlayerReady g socketId :
    operation mapData_territories mapData_continents sanitizeDisplayName admissible
              g (snd (togglePlayerReady g socketId))
| op_startGame rnd g :
    operation mapData_territories mapData_continents sanitizeDisplayName admissible
              g (snd (startGame rnd g))
| op_startNewRound g :
    operation mapData_territories mapData_continents sanitizeDisplayName admissible
              g (startNewRound mapData_continents g)
| op_deploy g playerId territoryId count :
    admissible count ->
    operation mapData_territories mapData_continents sanitizeDisplayName admissible
              g (snd (deploy mapData_continents g playerId territoryId count))
| op_nextPhase rnd g :
    operation mapData_territories mapData_continents sanitizeDisplayName admissible
              g (snd (nextPhase mapData_continents rnd g))
| op_nextTurn rnd g :
    operation mapData_territories mapData_continents sanitizeDisplayName admissible
              g (nextTurn mapData_continents rnd g)
| op_consumeCardEarned g :
    operation mapData_territories mapData_continents sanitizeDisplayName admissible
              g (snd (consumeCardEarned g))
| op_tradeCards g playerId selectedCardUids :
    operation mapData_territories mapData_continents sanitizeDisplayName admissible
              g (snd (tradeCards g playerId selectedCardUids))
| op_attack rnd g playerId fromId toId count :
    admissible count ->
    operation mapData_territories mapData_continents sanitizeDisplayName admissible
              g (snd (attack rnd g playerId fromId toId count))
| op_fortify rnd g playerId fromId toId count :
    admissible count ->
    operation mapData_territories mapData_continents sanitizeDisplayName admissible
              g (snd (fortify mapData_continents rnd g playerId fromId toId count))
| op_resetGame rnd g :
    operation mapData_territories mapData_continents sanitizeDisplayName admissible
              g (resetGame mapData_territories rnd g).

(** ** The constructors and the methods that only read *)

Definition PLAYER_CALLSIGNS : list string :=
  ["General Alpha"; "Commander Bravo"; "Marshal Charlie"; "Captain Delta";
   "Admiral Echo"; "Colonel Foxtrot"; "Sentinel Gamma"; "Vanguard Helix"]%string.

(** [CARD_TYPES[index % CARD_TYPES.length]] *)
Definition cardTypeAt (index : nat) : string :=
  nth (index mod List.length CARD_TYPES) CARD_TYPES ""%string.

Definition territoryCard (index : nat) (territory : MapTerritory) : Card :=
  mkCard (Some (m_id territory))
         (if JS.truthy_str (m_name territory) then m_name territory else m_id territory)
         (cardTypeAt index) None.

Definition wildCard : Card := mkCard None "Wild Card" WILD_TYPE None.

(** [territories.map((territory, index) => ...)] from the index [index] on. *)
Fixpoint territoryCards (index : nat) (territories : list MapTerritory) : list Card :=
  match territories with
  | [] => []
  | territory :: rest => territoryCard index territory :: territoryCards (S index) rest
  end.

Definition buildBaseDeck (territories : list MapTerritory) : list Card :=
  territoryCards 0 territories ++ [wildCard; wildCard].

(** [new CardDeck(territories)] *)
Definition newCardDeck (rnd : nat -> Q) (territories : list MapTerritory) : CardDeck :=
  deck_reset rnd (mkDeck 1 (buildBaseDeck territories) [] []).

(** [new RiskGame()] for the territories of [mapData]. *)
Definition newRiskGame (rnd : nat -> Q) (territories : list MapTerritory) : Game :=
  mkGame [] LOBBY true 0 None 0 None [] 0 None
         (newCardDeck rnd territories) (createFreshMap territories).

(** The innermost loop of [canTradeAnySet], over [k]. *)
Definition anyThird (first second : Card) (later : list Card) : bool :=
  existsb (fun third => isValidTradeSet [first; second; third]) later.

(** The loop over [j]. *)
Fixpoint anySecond (first : Card) (later : list Card) : bool :=
  match later with
  | [] => false
  | second :: rest => anyThird first second rest || anySecond first rest
  end.

(** The loop over [i]. *)
Fixpoint anyFirst (cards : list Card) : bool :=
  match cards with
  | [] => false
  | first :: rest => anySecond first rest || anyFirst rest
  end.

Definition canTradeAnySet (cards : list Card) : bool :=
  if (List.length cards <? 3)%nat then false else anyFirst cards.

Record HandState : Type := mkHandState {
  hs_hand : list Card;
  handCount : nat;
  mustTrade : bool;
  hs_canTradeAnySet : bool;
  nextTradeValue : JS.number;
  hs_globalTradeInCount : nat
}.

Definition getHandState (g : Game) (playerId : string) : HandState :=
  let hand := match getPlayer g playerId with Some player => hand player | None => [] end in
  let nextTradeValue := getTradeInReward (JS.Fin (Qnat (globalTradeInCount g + 1))) in
  mkHandState hand (List.length hand) (5 <=? List.length hand)%nat
              (canTradeAnySet hand) nextTradeValue (globalTradeInCount g).

(** [getNextDisplayName()] *)
Definition getNextDisplayName (g : Game) : string :=
  let usedNames := filter JS.truthy_str (List.map displayName (players g)) in
  match find (fun name => negb (set_has usedNames name)) PLAYER_CALLSIGNS with
  | Some available => available
  | None =>
      ("Commander "
         ++ NilEmpty.string_of_uint (Nat.to_uint (List.length (players g) + 1)))%string
  end.





(** ** The deal of the territories *)




(** ** Invariants of the match *)

(** The cards held by the players, in the order of the players. *)
Definition allHands (g : Game) : list Card := List.concat (List.map hand (players g)).

(** Every card outside the base deck: the two piles and the hands. *)
Definition cardsInPlay (g : Game) : list Card :=
  drawPile (deck g) ++ discardPile (deck g) ++ allHands g.

(** The card carries the uid minted for a number below [n]. *)
Definition mintedBelow (n : nat) (c : Card) : Prop :=
  exists k, (k < n)%nat /\ card_uid c = Some (card_uid_of k).

(** Up to the fields that [discard] normalises, the piles and the hands hold
    the cards of the base deck, and the cards in the hands carry distinct
    uids minted by the deck. *)
Definition cardsConserved (g : Game) : Prop :=
  Permutation (List.map discarded (cardsInPlay g))
              (List.map discarded (baseCards (deck g)))
  /\ Forall (mintedBelow (nextUid (deck g))) (allHands g)
  /\ NoDup (List.map card_uid (allHands g)).

(** The cards are conserved, and nobody holds a card in the lobby. *)
Definition deckInvariant (g : Game) : Prop :=
  cardsConserved g /\ (phase g = LOBBY -> allHands g = []).

(** The turn cursor is 0, or a match is running and the cursor designates a
    player. *)
Definition turnCursorOk (g : Game) : Prop :=
  currentPlayerIndex g = 0%nat
  \/ (phase g <> LOBBY /\ (currentPlayerIndex g < List.length (players g))%nat).

(** At most four players, whose ids are non-empty and pairwise distinct. *)
Definition playersOk (g : Game) : Prop :=
  (List.length (players g) <= 4)%nat
  /\ Forall (fun p => p_id p <> ""%string) (players g)
  /\ NoDup (List.map p_id (players g)).

Definition poolsNonNegative (g : Game) : Prop :=
  Forall (fun p => 0 <= pool p) (players g).

(** The battle history holds at most 50 records, their ids increase
    strictly and none exceeds [lastAttackId]. *)
Definition historyOk (g : Game) : Prop :=
  (List.length (battleHistory g) <= 50)%nat
  /\ StronglySorted lt (List.map a_id (battleHistory g))
  /\ Forall (fun a => (a_id a <= lastAttackId g)%nat) (battleHistory g).

(** The statements of [nextTurn] that precede the move of the cursor, in a
    match that has players. *)
Definition turnEnd (rnd : nat -> Q) (g : Game) : Game :=
  let g1 := set_pendingCardEarned None g in
  match getCurrentPlayer g1 with
  | Some currentPlayer =>
      let '(earnedCard, h) := grantTurnCardIfEligible rnd currentPlayer g1 in
      let h1 :=
        match earnedCard with
        | Some card => set_pendingCardEarned (Some (p_id currentPlayer, card)) h
        | None => h
        end in
      modCurrentPlayer (set_conqueredThisTurn false) h1
  | None => g1
  end.

(** The statements of [nextTurn] that follow. *)
Definition turnStart (continents : list Continent) (g : Game) : Game :=
  let g3 := advanceCursor g in
  if (currentPlayerIndex g3 =? 0)%nat then
    startNewRound continents (if isFirstRound g3 then set_isFirstRound false g3 else g3)
  else set_phase TURN_ATTACK g3.

(** The card the player who moved draws at the end of the turn, if any. *)
Definition turnCard (rnd : nat -> Q) (g : Game) (current : Player) : option Card :=
  if conqueredThisTurn current then fst (draw rnd (deck g)) else None.

(** The territory [t'] is the territory [t] with the same troops; its
    owner is the same, or was the player [leaver] and is now the neutral
    one. *)
Definition sameButNeutral (leaver : string) (t t' : Territory) : Prop :=
  t_id t' = t_id t /\ t_name t' = t_name t /\ t_continent t' = t_continent t
  /\ t_neighbors t' = t_neighbors t /\ troops t' = troops t
  /\ (ownerId t' = ownerId t
      \/ (ownerId t = Some leaver /\ ownerId t' = Some NEUTRAL_ID)).

(** Every count a client may send. *)
Definition anyCount (count : JS.number) : Prop := True.

(** ** Concrete matches *)

Module Example.

Definition territory (id : string) (neighbors : list string)
           (owner : option string) (n : Q) : Territory :=
  mkTerritory id id "Mainland" neighbors owner n.

Definition player (id : string) (n : Q) : Player :=
  mkPlayer id id "#00FFFF" n 0 false [] false.

Definition emptyDeck : CardDeck := mkDeck 1 [] [] [].

Definition continents : list Continent := [mkContinent "Mainland" 2].

(** A chain A - B - C: p1 holds A, p2 holds B, C is neutral. *)
Definition board : list Territory :=
  [territory "A" ["B"]%string (Some "p1"%string) 3;
   territory "B" ["A"; "C"]%string (Some "p2"%string) 2;
   territory "C" ["B"]%string (Some NEUTRAL_ID) 2].

Definition inPhase (ph : Phase) (cursor : nat) (m : list Territory) : Game :=
  mkGame [player "p1" 5; player "p2" 5] ph true cursor None 0 None [] 0 None emptyDeck m.

Definition setupGame : Game := inPhase SETUP 0 board.
Definition reinforceGame : Game := inPhase GLOBAL_REINFORCE 0 board.
Definition attackGame : Game := inPhase TURN_ATTACK 0 board.
Definition fortifyGame : Game := inPhase TURN_FORTIFY 0 board.

Definition card (type : string) : Card := mkCard None "Wild Card" type None.

(** A session for the attack of p1 from A on B, nothing committed yet. *)
Definition battle : Battle :=
  mkBattle "battle_1" "p1" "p2" "A" "B" "A" "B" 2 2 false false 0 0 false.

Definition server : Server := mkServer (Some battle) attackGame.

(** Stand-ins for the two operations the session handler is given. *)
Definition cancelAttack (g : Game) (_ _ _ : string) (_ _ : Q)
  : option AttackRecord * Game := (None, g).

Definition nobodyStale (g : Game) : Game := g.



(** p1 holds A and B, which are adjacent, and D behind p2's C. *)
Definition homeland : list Territory :=
  [territory "A" ["B"]%string (Some "p1"%string) 2;
   territory "B" ["A"; "C"]%string (Some "p1"%string) 1;
   territory "C" ["B"; "D"]%string (Some "p2"%string) 1;
   territory "D" ["C"]%string (Some "p1"%string) 4].

Definition homelandGame : Game := inPhase TURN_FORTIFY 0 homeland.


(** Every die shows [6] with [high] and with [steady], and [1] with
    [low]. *)
Definition high : nat -> Q := fun _ => 7 # 8.
Definition low : nat -> Q := fun _ => 0.
Definition steady : nat -> Q := fun _ => 7 # 8.

(** Always a quarter, and the double just below five sixths. *)
Definition quarter : nat -> Q := fun _ => 1 # 4.
Definition belowFiveSixths : Q := 3752999689475413 # 4503599627370496.

(** A card as it sits in a hand, under the uid minted for the number [n]. *)
Definition held (n : nat) (type : string) : Card := with_uid (card_uid_of n) (card type).

(** A deck of five cards of which three have been drawn. *)
Definition tradeDeck : CardDeck :=
  mkDeck 4 [card "WILD"; card "WILD"; card "INFANTRY"; card "CAVALRY"; card "ARTILLERY"]
         [card "WILD"; card "WILD"] [].

(** p1 holding the given cards, after a conquest. *)
Definition cardHolder (cards : list Card) : Player :=
  mkPlayer "p1" "p1" "#00FFFF" 5 0 false cards true.

(** p1 holds one card of each troop type. *)
Definition tradeGame : Game :=
  mkGame [cardHolder [held 1 "INFANTRY"; held 2 "CAVALRY"; held 3 "ARTILLERY"];
          player "p2" 5]
         TURN_ATTACK true 0 None 0 None [] 0 None tradeDeck board.

(** p1 holds five cards. *)
Definition fullHandGame : Game :=
  mkGame [cardHolder [held 1 "INFANTRY"; held 2 "INFANTRY"; held 3 "CAVALRY";
                      held 4 "CAVALRY"; held 5 "WILD"];
          player "p2" 5]
         TURN_ATTACK true 0 None 0 None [] 0 None emptyDeck board.

(** A lobby of two players who are ready, before the chain A - B - C is
    dealt. *)
Definition readyPlayer (id : string) : Player :=
  mkPlayer id id "#00FFFF" 0 0 true [] false.

Definition lobbyGame : Game :=
  mkGame [readyPlayer "p1"; readyPlayer "p2"] LOBBY true 0 None 0 None [] 0 None emptyDeck
         [territory "A" ["B"]%string None 0;
          territory "B" ["A"; "C"]%string None 0;
          territory "C" ["B"]%string None 0].

(** The match that p1 has won. *)
Definition wonGame : Game := set_winnerId (Some "p1"%string) attackGame.

(** The session of [server] once the defender has committed two dice. *)
Definition defended : Server := mkServer (Some (commitDefender 2 battle)) attackGame.

End Example.

(** * Properties *)

(** ** Comparisons of finite numbers *)

Lemma Qleb_le (a b : Q) : Qleb a b = true <-> a <= b.
Proof. apply Qle_bool_iff. Qed.

Lemma Qleb_gt (a b : Q) : Qleb a b = false <-> b < a.
Proof.
  unfold Qleb. split; intro H.
  - apply Qnot_le_lt. intro Hle. apply Qle_bool_iff in Hle. congruence.
  - destruct (Qle_bool a b) eqn:E; [|reflexivity].
    apply Qle_bool_iff in E. apply Qle_not_lt in E. contradiction.
Qed.

Lemma Qltb_lt (a b : Q) : Qltb a b = true <-> a < b.
Proof.
  unfold Qltb. rewrite negb_true_iff. apply (Qleb_gt b a).
Qed.

Lemma Qltb_ge (a b : Q) : Qltb a b = false <-> b <= a.
Proof.
  unfold Qltb. rewrite negb_false_iff. apply (Qleb_le b a).
Qed.

Lemma Qeqb_eq (a b : Q) : Qeqb a b = true <-> a == b.
Proof. apply Qeq_bool_iff. Qed.

Lemma Qeqb_neq (a b : Q) : Qeqb a b = false <-> ~ a == b.
Proof.
  unfold Qeqb. split; intro H.
  - intro E. apply Qeq_bool_iff in E. congruence.
  - destruct (Qeq_bool a b) eqn:E; [|reflexivity].
    apply Qeq_bool_iff in E. contradiction.
Qed.

(** Case analysis on one comparison of the goal, leaving its meaning as a
    hypothesis. *)
Ltac qcase :=
  match goal with
  | |- context [Qleb ?a ?b] =>
      let E := fresh "E" in
      destruct (Qleb a b) eqn:E;
      [apply Qleb_le in E | apply Qleb_gt in E]
  | |- context [Qltb ?a ?b] =>
      let E := fresh "E" in
      destruct (Qltb a b) eqn:E;
      [apply Qltb_lt in E | apply Qltb_ge in E]
  | |- context [Qeqb ?a ?b] =>
      let E := fresh "E" in
      destruct (Qeqb a b) eqn:E;
      [apply Qeqb_eq in E | apply Qeqb_neq in E]
  end.

Lemma Math_max_spec (a b : Q) :
  (a <= b /\ Math_max a b = b) \/ (b < a /\ Math_max a b = a).
Proof. unfold Math_max. qcase; auto. Qed.

Lemma Math_min_spec (a b : Q) :
  (a <= b /\ Math_min a b = a) \/ (b < a /\ Math_min a b = b).
Proof. unfold Math_min. qcase; auto. Qed.

Lemma Math_max_lower (a b : Q) : a <= Math_max a b.
Proof. destruct (Math_max_spec a b) as [[H ->]|[H ->]]; lra. Qed.

Lemma Qnat_nonneg (n : nat) : 0 <= Qnat n.
Proof.
  unfold Qnat. change 0 with (inject_Z 0). rewrite <- Zle_Qle. lia.
Qed.

Lemma Qnat_le (n m : nat) : (n <= m)%nat -> Qnat n <= Qnat m.
Proof. intro H. unfold Qnat. rewrite <- Zle_Qle. lia. Qed.

Lemma Qnat_plus (n m : nat) : Qnat (n + m) == Qnat n + Qnat m.
Proof. unfold Qnat. rewrite Nat2Z.inj_add, inject_Z_plus. reflexivity. Qed.

Lemma Qnat_S (n : nat) : Qnat (S n) == Qnat n + 1.
Proof. rewrite <- Nat.add_1_r, Qnat_plus. reflexivity. Qed.

(** ** Rounding to a double *)

Unset Implicit Arguments.

(** *** Powers of two *)
Lemma pow2_pos (e : Z) : 0 < pow2 e.
Proof. apply Qpower_0_lt. reflexivity. Qed.

Lemma pow2_plus (a b : Z) : pow2 (a + b) == pow2 a * pow2 b.
Proof. apply Qpower_plus. discriminate. Qed.

Lemma pow2_opp (a : Z) : pow2 (- a) == / pow2 a.
Proof. apply Qpower_opp. Qed.

Lemma pow2_cancel (a : Z) : pow2 (- a) * pow2 a == 1.
Proof.
  rewrite <- pow2_plus. replace (- a + a)%Z with 0%Z by lia. reflexivity.
Qed.

Lemma pow2_le (a b : Z) : (a <= b)%Z -> pow2 a <= pow2 b.
Proof. intro H. apply Qpower_le_compat_l; [exact H|]. discriminate. Qed.

Lemma pow2_lt (a b : Z) : (a < b)%Z -> pow2 a < pow2 b.
Proof. intro H. apply Qpower_lt_compat_l; [exact H|]. reflexivity. Qed.

Lemma pow2_lt_inv (a b : Z) : pow2 a < pow2 b -> (a < b)%Z.
Proof. intro H. apply Qpower_lt_compat_l_inv with (q := 2); [exact H|reflexivity]. Qed.

Lemma pow2_Z (n : Z) : (0 <= n)%Z -> pow2 n == inject_Z (2 ^ n).
Proof. intro H. unfold pow2. rewrite Zpower_Qpower by exact H. reflexivity. Qed.

Lemma pow2_S (a : Z) : pow2 (a + 1) == 2 * pow2 a.
Proof. rewrite pow2_plus. change (pow2 1) with 2. ring. Qed.

(** *** The binade of a positive number *)
Lemma binade_spec (x : Q) : 0 < x -> pow2 (binade x) <= x /\ x < pow2 (binade x + 1).
Proof.
  intro Hx. destruct x as [p q]. 
  assert (Hp : (0 < p)%Z).
  { unfold Qlt in Hx. simpl in Hx. lia. }
  unfold binade. cbn [Qnum Qden].
  set (a := Z.log2 p). set (b := Z.log2 (Z.pos q)).
  destruct (Z.log2_spec p Hp) as [Pa Pb]. fold a in Pa, Pb.
  destruct (Z.log2_spec (Z.pos q) eq_refl) as [Qa Qb]. fold b in Qa, Qb.
  assert (Ha : (0 <= a)%Z) by apply Z.log2_nonneg.
  assert (Hb : (0 <= b)%Z) by apply Z.log2_nonneg.
  assert (Ex : p # q == inject_Z p / inject_Z (Z.pos q)) by (apply Qmake_Qdiv).
  assert (Hq0 : 0 < inject_Z (Z.pos q)) by reflexivity.
  assert (E1 : inject_Z p == (p # q) * inject_Z (Z.pos q)).
  { rewrite Ex. field. intro H. rewrite H in Hq0. discriminate. }
  assert (PA : pow2 a <= inject_Z p) by (rewrite pow2_Z by lia; rewrite <- Zle_Qle; exact Pa).
  assert (PB : inject_Z p < pow2 (a + 1)).
  { rewrite pow2_Z by lia. rewrite <- Zlt_Qlt. replace (a + 1)%Z with (Z.succ a) by lia. exact Pb. }
  assert (QA : pow2 b <= inject_Z (Z.pos q)) by (rewrite pow2_Z by lia; rewrite <- Zle_Qle; exact Qa).
  assert (QB : inject_Z (Z.pos q) < pow2 (b + 1)).
  { rewrite pow2_Z by lia. rewrite <- Zlt_Qlt. replace (b + 1)%Z with (Z.succ b) by lia. exact Qb. }
  assert (Eab : pow2 a == pow2 (a - b) * pow2 b).
  { rewrite <- pow2_plus. replace (a - b + b)%Z with a by lia. reflexivity. }
  assert (Eab1 : pow2 (a + 1) == pow2 (a - b + 1) * pow2 b).
  { rewrite <- pow2_plus. replace (a - b + 1 + b)%Z with (a + 1)%Z by lia. reflexivity. }
  assert (Eab2 : pow2 a == pow2 (a - b - 1) * pow2 (b + 1)).
  { rewrite <- pow2_plus. replace (a - b - 1 + (b + 1))%Z with a by lia. reflexivity. }
  pose proof (pow2_pos b) as Pb0. pose proof (pow2_pos (a - b)) as Pab0.
  pose proof (pow2_pos (a - b - 1)) as Pab1. pose proof (pow2_pos (a - b + 1)) as Pab2.
  destruct (Qle_bool (pow2 (a - b)) (p # q)) eqn:E.
  - apply Qle_bool_iff in E. split; [exact E|].
    destruct (Qlt_le_dec (p # q) (pow2 (a - b + 1))) as [L|L]; [exact L|exfalso].
    assert (pow2 (a + 1) <= inject_Z p).
    { rewrite Eab1, E1. apply Qle_trans with ((p # q) * pow2 b).
      - apply Qmult_le_compat_r; [exact L | apply Qlt_le_weak; exact Pb0].
      - rewrite (Qmult_comm (p # q) (pow2 b)), (Qmult_comm (p # q)).
        apply Qmult_le_compat_r; [exact QA | apply Qlt_le_weak; exact Hx]. }
    apply (Qlt_irrefl (inject_Z p)). eapply Qlt_le_trans; eauto.
  - assert (E' : p # q < pow2 (a - b)).
    { apply Qnot_le_lt. intro H. apply Qle_bool_iff in H. congruence. }
    replace (a - b - 1 + 1)%Z with (a - b)%Z by lia. split; [|exact E'].
    destruct (Qlt_le_dec (p # q) (pow2 (a - b - 1))) as [L|L]; [exfalso|exact L].
    assert (inject_Z p < pow2 a).
    { rewrite Eab2, E1. apply Qlt_trans with ((p # q) * pow2 (b + 1)).
      - rewrite (Qmult_comm (p # q) _), (Qmult_comm (p # q)).
        apply Qmult_lt_compat_r; [exact Hx | exact QB].
      - apply Qmult_lt_compat_r; [apply pow2_pos | exact L]. }
    apply (Qlt_irrefl (inject_Z p)). eapply Qlt_le_trans; eauto.
Qed.

Lemma binade_unique (x : Q) (e : Z) :
  pow2 e <= x -> x < pow2 (e + 1) -> binade x = e.
Proof.
  intros H1 H2.
  assert (Hx : 0 < x) by (eapply Qlt_le_trans; [apply (pow2_pos e) | exact H1]).
  destruct (binade_spec x Hx) as [B1 B2].
  assert (A : (e < binade x + 1)%Z) by (apply pow2_lt_inv; eapply Qle_lt_trans; eauto).
  assert (B : (binade x < e + 1)%Z) by (apply pow2_lt_inv; eapply Qle_lt_trans; eauto).
  lia.
Qed.

Lemma binade_comp (x y : Q) : 0 < x -> x == y -> binade x = binade y.
Proof.
  intros Hx E. destruct (binade_spec x Hx) as [B1 B2].
  symmetry. apply binade_unique; rewrite <- E; assumption.
Qed.

Lemma binade_mono (x y : Q) : 0 < x -> x <= y -> (binade x <= binade y)%Z.
Proof.
  intros Hx H.
  assert (Hy : 0 < y) by (eapply Qlt_le_trans; eauto).
  destruct (binade_spec x Hx) as [B1 _]. destruct (binade_spec y Hy) as [_ B2].
  assert (A : (binade x < binade y + 1)%Z).
  { apply pow2_lt_inv. eapply Qle_lt_trans; [exact B1|]. eapply Qle_lt_trans; eauto. }
  lia.
Qed.

Lemma binade_lt (x : Q) (e : Z) : 0 < x -> x < pow2 e -> (binade x < e)%Z.
Proof.
  intros Hx H. destruct (binade_spec x Hx) as [B1 _].
  apply pow2_lt_inv. eapply Qle_lt_trans; eauto.
Qed.

Lemma binade_ge (x : Q) (e : Z) : pow2 e <= x -> (e <= binade x)%Z.
Proof.
  intro H.
  assert (Hx : 0 < x) by (eapply Qlt_le_trans; [apply (pow2_pos e) | exact H]).
  destruct (binade_spec x Hx) as [_ B2].
  assert (A : (e < binade x + 1)%Z) by (apply pow2_lt_inv; eapply Qle_lt_trans; eauto).
  lia.
Qed.

(** *** Rounding to an integer *)
Lemma floor_frac (m : Q) : 0 <= m - inject_Z (Qfloor m) /\ m - inject_Z (Qfloor m) < 1.
Proof.
  pose proof (Qfloor_le m) as H1. pose proof (Qlt_floor m) as H2.
  rewrite inject_Z_plus in H2. change (inject_Z 1) with 1 in H2.
  generalize dependent (inject_Z (Qfloor m)). intros. split; lra.
Qed.

Lemma roundHalfEven_cases (m : Q) :
  let f := Qfloor m in
  let r := m - inject_Z f in
  (roundHalfEven m = f /\ (r < 1 # 2 \/ (r == 1 # 2 /\ Z.even f = true)))
  \/ (roundHalfEven m = (f + 1)%Z /\ ((1 # 2) < r \/ (r == 1 # 2 /\ Z.even f = false))).
Proof.
  cbv zeta. unfold roundHalfEven.
  destruct (Qle_bool (m - inject_Z (Qfloor m)) (1 # 2)) eqn:E1.
  - apply Qle_bool_iff in E1.
    destruct (Qle_bool (1 # 2) (m - inject_Z (Qfloor m))) eqn:E2.
    + apply Qle_bool_iff in E2.
      assert (E : m - inject_Z (Qfloor m) == 1 # 2) by (apply Qle_antisym; assumption).
      destruct (Z.even (Qfloor m)); [left|right]; auto.
    + left. split; [reflexivity|]. left. apply Qnot_le_lt. intro H.
      apply Qle_bool_iff in H. congruence.
  - right. split; [reflexivity|]. left. apply Qnot_le_lt. intro H.
    apply Qle_bool_iff in H. congruence.
Qed.

Lemma roundHalfEven_near (m : Q) :
  m - (1 # 2) <= inject_Z (roundHalfEven m) /\ inject_Z (roundHalfEven m) <= m + (1 # 2).
Proof.
  destruct (floor_frac m) as [F1 F2].
  destruct (roundHalfEven_cases m) as [[-> H]|[-> H]]; cbv zeta in H.
  - generalize dependent (inject_Z (Qfloor m)). intros f F1 F2 H. split; destruct H as [H|[H _]]; lra.
  - rewrite inject_Z_plus. change (inject_Z 1) with 1.
    generalize dependent (inject_Z (Qfloor m)). intros f F1 F2 H. split; destruct H as [H|[H _]]; lra.
Qed.

Lemma roundHalfEven_Z (z : Z) : roundHalfEven (inject_Z z) = z.
Proof.
  destruct (roundHalfEven_cases (inject_Z z)) as [[-> H]|[E H]]; cbv zeta in H.
  - apply Qfloor_Z.
  - rewrite Qfloor_Z in H. exfalso. destruct H as [H|[H _]].
    + assert (inject_Z z - inject_Z z == 0) by ring. lra.
    + assert (inject_Z z - inject_Z z == 0) by ring. lra.
Qed.

Lemma roundHalfEven_comp (m m' : Q) : m == m' -> roundHalfEven m = roundHalfEven m'.
Proof.
  intro E. unfold roundHalfEven. rewrite (Qfloor_comp _ _ E).
  assert (E' : m - inject_Z (Qfloor m') == m' - inject_Z (Qfloor m')) by (rewrite E; reflexivity).
  assert (A : Qle_bool (m - inject_Z (Qfloor m')) (1 # 2) = Qle_bool (m' - inject_Z (Qfloor m')) (1 # 2)).
  { apply eq_true_iff_eq. rewrite !Qle_bool_iff, E'. reflexivity. }
  assert (B : Qle_bool (1 # 2) (m - inject_Z (Qfloor m')) = Qle_bool (1 # 2) (m' - inject_Z (Qfloor m'))).
  { apply eq_true_iff_eq. rewrite !Qle_bool_iff, E'. reflexivity. }
  rewrite A, B. reflexivity.
Qed.

Lemma roundHalfEven_mono (m m' : Q) : m <= m' -> (roundHalfEven m <= roundHalfEven m')%Z.
Proof.
  intro H.
  pose proof (Qfloor_resp_le _ _ H) as Hf.
  destruct (floor_frac m) as [F1 F2]. destruct (floor_frac m') as [G1 G2].
  destruct (roundHalfEven_cases m) as [[-> A]|[-> A]];
    destruct (roundHalfEven_cases m') as [[-> B]|[-> B]]; cbv zeta in A, B; try lia.
  destruct (Z.eq_dec (Qfloor m) (Qfloor m')) as [E|E]; [|lia].
  exfalso. rewrite <- E in B, G1, G2.
  destruct A as [A|[A A']], B as [B|[B B']]; try congruence;
    revert F1 F2 G1 G2 A B; generalize (inject_Z (Qfloor m)); intros; lra.
Qed.

Lemma roundHalfEven_le (m : Q) (z : Z) : m <= inject_Z z -> (roundHalfEven m <= z)%Z.
Proof. intro H. rewrite <- (roundHalfEven_Z z). apply roundHalfEven_mono. exact H. Qed.

Lemma roundHalfEven_ge (m : Q) (z : Z) : inject_Z z <= m -> (z <= roundHalfEven m)%Z.
Proof. intro H. rewrite <- (roundHalfEven_Z z) at 1. apply roundHalfEven_mono. exact H. Qed.

Lemma roundHalfEven_lt (m : Q) (z : Z) : m < inject_Z z - (1 # 2) -> (roundHalfEven m < z)%Z.
Proof.
  intro H. destruct (roundHalfEven_near m) as [_ N].
  rewrite Zlt_Qlt. generalize dependent (inject_Z (roundHalfEven m)). intros. lra.
Qed.

(** *** Rounding to a double *)
Lemma ulpExponent_bounds (x : Q) :
  (binade x - 52 <= ulpExponent x)%Z /\ (-1074 <= ulpExponent x)%Z
  /\ (ulpExponent x = binade x - 52 \/ ulpExponent x = -1074)%Z.
Proof. unfold ulpExponent. lia. Qed.

Lemma scaled_pos (x : Q) (ex : Z) : 0 < x -> 0 < x * pow2 (- ex).
Proof. intro H. apply Qmult_lt_0_compat; [exact H | apply pow2_pos]. Qed.

Lemma scaled_back (x : Q) (ex : Z) : x * pow2 (- ex) * pow2 ex == x.
Proof. rewrite <- Qmult_assoc, pow2_cancel. ring. Qed.

Lemma scaled_lt (x : Q) (ex e : Z) : x < pow2 e -> x * pow2 (- ex) < pow2 (e - ex).
Proof.
  intro H. unfold Z.sub. rewrite pow2_plus.
  apply Qmult_lt_compat_r; [apply pow2_pos | exact H].
Qed.

Lemma scaled_le (x : Q) (ex e : Z) : pow2 e <= x -> pow2 (e - ex) <= x * pow2 (- ex).
Proof.
  intro H. unfold Z.sub. rewrite pow2_plus.
  apply Qmult_le_compat_r; [exact H | apply Qlt_le_weak, pow2_pos].
Qed.

Lemma roundPositive_nonneg (x : Q) : 0 < x -> 0 <= roundPositive x.
Proof.
  intro H. unfold roundPositive. cbv zeta. rewrite Qred_correct.
  apply Qmult_le_0_compat; [|apply Qlt_le_weak, pow2_pos].
  change 0 with (inject_Z 0). rewrite <- Zle_Qle. apply roundHalfEven_ge.
  apply Qlt_le_weak. apply scaled_pos. exact H.
Qed.

Lemma roundPositive_upper (x : Q) : 0 < x -> roundPositive x <= pow2 (ulpExponent x + 53).
Proof.
  intro H. unfold roundPositive. cbv zeta. rewrite Qred_correct.
  destruct (binade_spec x H) as [_ B]. destruct (ulpExponent_bounds x) as [U _].
  rewrite (Z.add_comm _ 53), pow2_plus.
  apply Qmult_le_compat_r; [|apply Qlt_le_weak, pow2_pos].
  rewrite (pow2_Z 53) by lia. rewrite <- Zle_Qle. apply roundHalfEven_le.
  rewrite <- pow2_Z by lia. apply Qlt_le_weak.
  eapply Qlt_le_trans; [apply (scaled_lt x (ulpExponent x) (binade x + 1) B)|].
  apply pow2_le. lia.
Qed.

Lemma roundPositive_lower (x : Q) :
  0 < x -> ulpExponent x = (binade x - 52)%Z -> pow2 (binade x) <= roundPositive x.
Proof.
  intros H E. unfold roundPositive. cbv zeta. rewrite Qred_correct.
  destruct (binade_spec x H) as [B _].
  assert (P : pow2 (binade x) == pow2 52 * pow2 (ulpExponent x)).
  { rewrite <- pow2_plus. rewrite E. replace (52 + (binade x - 52))%Z with (binade x) by lia.
    reflexivity. }
  rewrite P. apply Qmult_le_compat_r; [|apply Qlt_le_weak, pow2_pos].
  rewrite (pow2_Z 52) by lia. rewrite <- Zle_Qle. apply roundHalfEven_ge.
  rewrite <- pow2_Z by lia.
  eapply Qle_trans; [|apply (scaled_le x (ulpExponent x) (binade x) B)].
  apply pow2_le. lia.
Qed.

Lemma roundPositive_mono (x y : Q) : 0 < x -> x <= y -> roundPositive x <= roundPositive y.
Proof.
  intros Hx H.
  assert (Hy : 0 < y) by (eapply Qlt_le_trans; eauto).
  pose proof (binade_mono x y Hx H) as Hb.
  destruct (Z.eq_dec (ulpExponent x) (ulpExponent y)) as [E|E].
  - unfold roundPositive. cbv zeta. rewrite !Qred_correct. rewrite E.
    apply Qmult_le_compat_r; [|apply Qlt_le_weak, pow2_pos].
    rewrite <- Zle_Qle. apply roundHalfEven_mono.
    apply Qmult_le_compat_r; [exact H | apply Qlt_le_weak, pow2_pos].
  - assert (L : (ulpExponent x < ulpExponent y)%Z) by (unfold ulpExponent in *; lia).
    assert (Ey : ulpExponent y = (binade y - 52)%Z) by (unfold ulpExponent in *; lia).
    eapply Qle_trans; [apply roundPositive_upper; exact Hx|].
    eapply Qle_trans; [|apply roundPositive_lower; assumption].
    apply pow2_le. lia.
Qed.

Lemma roundPositive_comp (x y : Q) : 0 < x -> x == y -> roundPositive x == roundPositive y.
Proof.
  intros Hx E. unfold roundPositive, ulpExponent. cbv zeta. rewrite !Qred_correct.
  rewrite (binade_comp x y Hx E).
  rewrite (roundHalfEven_comp (x * pow2 (- Z.max (binade y - 52) (-1074)))
                              (y * pow2 (- Z.max (binade y - 52) (-1074)))).
  - reflexivity.
  - rewrite E. reflexivity.
Qed.

Lemma roundPositive_near (x : Q) :
  0 < x ->
  x - pow2 (ulpExponent x - 1) <= roundPositive x
  /\ roundPositive x <= x + pow2 (ulpExponent x - 1).
Proof.
  intro H. unfold roundPositive. cbv zeta. rewrite Qred_correct. set (ex := ulpExponent x).
  destruct (roundHalfEven_near (x * pow2 (- ex))) as [N1 N2].
  assert (Ex : x == x * pow2 (- ex) * pow2 ex) by (symmetry; apply scaled_back).
  assert (Eh : pow2 (ex - 1) == (1 # 2) * pow2 ex).
  { replace (ex - 1)%Z with (ex + (-1))%Z by lia.
    rewrite pow2_plus. change (pow2 (-1)) with (1 # 2). ring. }
  pose proof (pow2_pos ex) as P.
  rewrite Eh. split.
  - apply Qle_trans with ((x * pow2 (- ex) - (1 # 2)) * pow2 ex).
    + rewrite Ex at 1. ring_simplify. apply Qle_refl.
    + apply Qmult_le_compat_r; [exact N1 | apply Qlt_le_weak, P].
  - apply Qle_trans with ((x * pow2 (- ex) + (1 # 2)) * pow2 ex).
    + apply Qmult_le_compat_r; [exact N2 | apply Qlt_le_weak, P].
    + rewrite Ex at 2. ring_simplify. apply Qle_refl.
Qed.

(** A positive number that is a multiple of its unit in the last place is
    left unchanged. *)
Lemma roundPositive_exact (x : Q) (k : Z) :
  0 < x -> x == inject_Z k * pow2 (ulpExponent x) -> roundPositive x == x.
Proof.
  intros H E. unfold roundPositive. cbv zeta. rewrite Qred_correct.
  set (ex := ulpExponent x) in *.
  rewrite (roundHalfEven_comp (x * pow2 (- ex)) (inject_Z k)).
  - symmetry. rewrite roundHalfEven_Z. exact E.
  - rewrite E. rewrite <- Qmult_assoc, (Qmult_comm (pow2 ex)), pow2_cancel. ring.
Qed.

Lemma fl_cases (x : Q) :
  (x == 0 /\ fl x = 0)
  \/ (0 < x /\ fl x = roundPositive x)
  \/ (x < 0 /\ fl x = - roundPositive (- x)).
Proof.
  unfold fl. destruct (Qle_bool x 0) eqn:E1.
  - apply Qle_bool_iff in E1. destruct (Qle_bool 0 x) eqn:E2.
    + apply Qle_bool_iff in E2. left. split; [apply Qle_antisym; assumption | reflexivity].
    + right. right. split; [|reflexivity]. apply Qnot_le_lt. intro H.
      apply Qle_bool_iff in H. congruence.
  - right. left. split; [|reflexivity]. apply Qnot_le_lt. intro H.
    apply Qle_bool_iff in H. congruence.
Qed.

Lemma fl_pos (x : Q) : 0 < x -> fl x = roundPositive x.
Proof. intro H. destruct (fl_cases x) as [[E _]|[[_ E]|[E _]]]; [lra | exact E | lra]. Qed.

Lemma fl_neg (x : Q) : x < 0 -> fl x = - roundPositive (- x).
Proof. intro H. destruct (fl_cases x) as [[E _]|[[E _]|[_ E]]]; [lra | lra | exact E]. Qed.

Lemma fl_zero (x : Q) : x == 0 -> fl x = 0.
Proof. intro H. destruct (fl_cases x) as [[_ E]|[[E _]|[E _]]]; [exact E | lra | lra]. Qed.

Lemma fl_comp (x y : Q) : x == y -> fl x == fl y.
Proof.
  intro E. destruct (fl_cases x) as [[H ->]|[[H ->]|[H ->]]].
  - rewrite fl_zero by lra. reflexivity.
  - rewrite fl_pos by lra. apply roundPositive_comp; assumption.
  - rewrite fl_neg by lra. apply Qopp_comp. apply roundPositive_comp; [lra|].
    rewrite E. reflexivity.
Qed.

Lemma fl_opp (x : Q) : fl (- x) == - fl x.
Proof.
  destruct (fl_cases x) as [[H ->]|[[H ->]|[H ->]]].
  - rewrite fl_zero by lra. reflexivity.
  - rewrite fl_neg by lra. apply Qopp_comp. apply roundPositive_comp; [lra|]. ring.
  - rewrite fl_pos by lra. ring.
Qed.

Lemma fl_mono (x y : Q) : x <= y -> fl x <= fl y.
Proof.
  intro H.
  destruct (fl_cases x) as [[Hx ->]|[[Hx ->]|[Hx ->]]];
    destruct (fl_cases y) as [[Hy ->]|[[Hy ->]|[Hy ->]]]; try lra.
  - apply roundPositive_nonneg. exact Hy.
  - apply roundPositive_mono; assumption.
  - pose proof (@roundPositive_nonneg (- x)). lra.
  - pose proof (@roundPositive_nonneg (- x)). pose proof (@roundPositive_nonneg y). lra.
  - assert (roundPositive (- y) <= roundPositive (- x)) by (apply roundPositive_mono; lra). lra.
Qed.

(** Integers up to [2^53] are doubles. *)
Lemma fl_integer (z : Z) : (Z.abs z <= 2 ^ 53)%Z -> fl (inject_Z z) == inject_Z z.
Proof.
  assert (P : forall p : Z, (0 < p <= 2 ^ 53)%Z -> roundPositive (inject_Z p) == inject_Z p).
  { intros p [H0 H1].
    assert (Hp : 0 < inject_Z p) by (change 0 with (inject_Z 0); rewrite <- Zlt_Qlt; exact H0).
    assert (L : (0 <= binade (inject_Z p))%Z).
    { apply binade_ge. change (pow2 0) with (inject_Z 1). rewrite <- Zle_Qle. lia. }
    destruct (Z.eq_dec p (2 ^ 53)) as [->|Hne].
    - assert (B : binade (inject_Z (2 ^ 53)) = 53%Z).
      { apply binade_unique.
        + rewrite pow2_Z by lia. apply Qle_refl.
        + rewrite !pow2_Z by lia. rewrite <- Zlt_Qlt. reflexivity. }
      apply roundPositive_exact with (k := (2 ^ 52)%Z); [exact Hp|].
      unfold ulpExponent. rewrite B. reflexivity.
    - assert (U : (binade (inject_Z p) < 53)%Z).
      { apply binade_lt; [exact Hp|]. rewrite pow2_Z by lia. rewrite <- Zlt_Qlt. lia. }
      set (ex := ulpExponent (inject_Z p)).
      assert (Hex : (-52 <= ex <= 0)%Z) by (unfold ex, ulpExponent; lia).
      apply roundPositive_exact with (k := (p * 2 ^ (- ex))%Z); [exact Hp|].
      fold ex. rewrite inject_Z_mult, <- pow2_Z by lia.
      rewrite <- Qmult_assoc, pow2_cancel. ring. }
  intro H. destruct (Z.lt_trichotomy z 0) as [L|[->|G]].
  - rewrite fl_neg by (change 0 with (inject_Z 0); rewrite <- Zlt_Qlt; exact L).
    rewrite (roundPositive_comp (- inject_Z z) (inject_Z (- z))).
    + rewrite P by lia. rewrite inject_Z_opp. ring.
    + rewrite <- inject_Z_opp. change 0 with (inject_Z 0). rewrite <- Zlt_Qlt. lia.
    + rewrite inject_Z_opp. reflexivity.
  - reflexivity.
  - rewrite fl_pos by (change 0 with (inject_Z 0); rewrite <- Zlt_Qlt; exact G).
    apply P. lia.
Qed.

(** Rounding does not cross an integer that is a double. *)
Lemma fl_le_integer (x : Q) (z : Z) :
  (Z.abs z <= 2 ^ 53)%Z -> x <= inject_Z z -> fl x <= inject_Z z.
Proof. intros Hz H. rewrite <- (fl_integer z Hz). apply fl_mono. exact H. Qed.

Lemma fl_ge_integer (x : Q) (z : Z) :
  (Z.abs z <= 2 ^ 53)%Z -> inject_Z z <= x -> inject_Z z <= fl x.
Proof. intros Hz H. rewrite <- (fl_integer z Hz). apply fl_mono. exact H. Qed.

(** The error of rounding a number below [2^(e+1)]. *)
Lemma fl_near (x : Q) (e : Z) :
  (-1022 <= e)%Z -> 0 <= x -> x < pow2 (e + 1) ->
  x - pow2 (e - 53) <= fl x /\ fl x <= x + pow2 (e - 53).
Proof.
  intros He H0 H.
  destruct (fl_cases x) as [[Hx ->]|[[Hx ->]|[Hx _]]]; [| |lra].
  - pose proof (pow2_pos (e - 53)). split; lra.
  - destruct (roundPositive_near x Hx) as [N1 N2].
    assert (B : (binade x < e + 1)%Z) by (apply binade_lt; assumption).
    assert (U : pow2 (ulpExponent x - 1) <= pow2 (e - 53)).
    { apply pow2_le. unfold ulpExponent. lia. }
    split; lra.
Qed.

(** The product of a double below 1 and an integer [n] is rounded to a
    double below [n]. *)
Lemma fl_below_integer (x : Q) (n : Z) :
  (1 <= n <= 2 ^ 53)%Z ->
  x <= inject_Z n - inject_Z n * pow2 (-53) ->
  fl x < inject_Z n.
Proof.
  intros [N1 N2] H.
  assert (Hn : 0 < inject_Z n) by (change 0 with (inject_Z 0); rewrite <- Zlt_Qlt; lia).
  pose proof (pow2_pos (-53)) as P53.
  assert (Hxn : x < inject_Z n).
  { assert (0 < inject_Z n * pow2 (-53)) by (apply Qmult_lt_0_compat; assumption). lra. }
  destruct (fl_cases x) as [[Hx ->]|[[Hx ->]|[Hx ->]]].
  - exact Hn.
  - unfold roundPositive. cbv zeta. rewrite Qred_correct. set (ex := ulpExponent x).
    destruct (binade_spec x Hx) as [B1 B2].
    assert (Bx : (binade x < 53)%Z).
    { apply binade_lt; [exact Hx|]. eapply Qlt_le_trans; [exact Hxn|].
      rewrite pow2_Z by lia. rewrite <- Zle_Qle. exact N2. }
    assert (Hex : (-1074 <= ex <= 0)%Z) by (unfold ex, ulpExponent; lia).
    assert (En : inject_Z n == inject_Z (n * 2 ^ (- ex)) * pow2 ex).
    { rewrite inject_Z_mult, <- pow2_Z by lia. rewrite <- Qmult_assoc, pow2_cancel. ring. }
    rewrite En. apply Qmult_lt_compat_r; [apply pow2_pos|].
    rewrite <- Zlt_Qlt. apply roundHalfEven_lt.
    rewrite inject_Z_mult, <- pow2_Z by lia.
    assert (G : (1 # 2) < inject_Z n * pow2 (-53) * pow2 (- ex)).
    { assert (Hlow : pow2 (ex + 52) < inject_Z n).
      { destruct (Z.eq_dec ex (binade x - 52)) as [E|E].
        - rewrite E. replace (binade x - 52 + 52)%Z with (binade x) by lia. lra.
        - assert (E' : ex = (-1074)%Z) by (unfold ex, ulpExponent in *; lia).
          rewrite E'. apply Qlt_le_trans with 1; [reflexivity|].
          change 1 with (inject_Z 1). rewrite <- Zle_Qle. exact N1. }
      assert (E2 : (1 # 2) == pow2 (ex + 52) * pow2 (-53) * pow2 (- ex)).
      { rewrite <- !pow2_plus. replace (ex + 52 + -53 + - ex)%Z with (-1)%Z by lia.
        reflexivity. }
      rewrite E2. apply Qmult_lt_compat_r; [apply pow2_pos|].
      apply Qmult_lt_compat_r; [apply pow2_pos|]. exact Hlow. }
    assert (S1 : x * pow2 (- ex) <= (inject_Z n - inject_Z n * pow2 (-53)) * pow2 (- ex)).
    { apply Qmult_le_compat_r; [exact H | apply Qlt_le_weak, pow2_pos]. }
    assert (S2 : (inject_Z n - inject_Z n * pow2 (-53)) * pow2 (- ex)
                 == inject_Z n * pow2 (- ex) - inject_Z n * pow2 (-53) * pow2 (- ex)) by ring.
    rewrite S2 in S1. clear S2.
    revert S1 G. generalize (inject_Z n * pow2 (-53) * pow2 (- ex)).
    generalize (inject_Z n * pow2 (- ex)). generalize (x * pow2 (- ex)). intros. lra.
  - pose proof (@roundPositive_nonneg (- x)). lra.
Qed.

(** A double below 1 is at most [1 - 2^-53]. *)
Lemma isDouble_below_one (u : Q) : isDouble u -> u < 1 -> u <= 1 - pow2 (-53).
Proof.
  intros D H. unfold isDouble in D.
  destruct (Qlt_le_dec 0 u) as [Hu|Hu].
  2:{ assert (pow2 (-53) < 1) by reflexivity. lra. }
  rewrite fl_pos in D by exact Hu.
  assert (B : (binade u < 0)%Z) by (apply binade_lt; [exact Hu | exact H]).
  destruct (Z.eq_dec (binade u) (-1)) as [E|E].
  - unfold roundPositive, ulpExponent in D. cbv zeta in D. rewrite Qred_correct, E in D.
    change (Z.max (-1 - 52) (-1074)) with (-53)%Z in D.
    set (k := roundHalfEven (u * pow2 (- -53))) in D.
    assert (K : (k < 2 ^ 53)%Z).
    { rewrite Zlt_Qlt. rewrite <- pow2_Z by lia.
      assert (E1 : pow2 53 == 1 * pow2 53) by ring.
      assert (E2 : inject_Z k == inject_Z k * pow2 (-53) * pow2 53).
      { assert (C : pow2 (-53) * pow2 53 == 1) by reflexivity.
        rewrite <- Qmult_assoc, C. ring. }
      rewrite E1, E2. apply Qmult_lt_compat_r; [apply pow2_pos|]. rewrite D. exact H. }
    assert (K' : inject_Z k <= inject_Z (2 ^ 53 - 1)) by (rewrite <- Zle_Qle; lia).
    rewrite <- D.
    apply Qle_trans with (inject_Z (2 ^ 53 - 1) * pow2 (-53)).
    + apply Qmult_le_compat_r; [exact K' | apply Qlt_le_weak, pow2_pos].
    + apply Qle_lteq. right. reflexivity.
  - destruct (binade_spec u Hu) as [_ B2].
    assert (L : pow2 (binade u + 1) <= pow2 (-1)) by (apply pow2_le; lia).
    assert (M : pow2 (-1) <= 1 - pow2 (-53)) by (apply Qle_bool_iff; reflexivity).
    lra.
Qed.

Set Implicit Arguments.

(** ** The amounts computed from client numbers *)

(** [Math.max(1, Number(count) || 0)] is a finite number not below 1, or
    [Infinity]. *)
Lemma deployAmount_range (count : JS.number) :
  (exists a, deployAmount count = JS.Fin a /\ 1 <= a) \/ deployAmount count = JS.PosInf.
Proof.
  unfold deployAmount, JS.or. destruct count as [q| | |]; simpl; auto.
  - destruct (Qeqb q 0); simpl; left; eexists; split; try reflexivity;
      apply Math_max_lower.
  - left. exists 1. split; [reflexivity | lra].
  - left. exists 1. split; [reflexivity | lra].
Qed.

Lemma fortifyAmount_range (count : JS.number) :
  (exists a, fortifyAmount count = JS.Fin a /\ 1 <= a) \/ fortifyAmount count = JS.PosInf.
Proof.
  unfold fortifyAmount, JS.or. destruct count as [q| | |]; simpl; auto.
  - destruct (Qeqb q 0); simpl; left; eexists; split; try reflexivity;
      apply Math_max_lower.
  - left. exists 1. split; [reflexivity | lra].
  - left. exists 1. split; [reflexivity | lra].
Qed.

(** ** Trade-in rewards *)

Lemma fl_of_integer (x : Q) (z : Z) :
  x == inject_Z z -> (Z.abs z <= 2 ^ 53)%Z -> fl x == inject_Z z.
Proof. intros E H. rewrite (fl_comp _ _ E). apply fl_integer. exact H. Qed.

(** The value computed for a trade number [N >= 1]. *)
Lemma getTradeInReward_value (N : nat) :
  (1 <= N)%nat ->
  getTradeInReward (JS.Fin (Qnat N))
  = JS.Fin (if (Z.of_nat N <=? 5)%Z then fl (fl (2 * Qnat N) + 2)
            else fl (15 + fl (fl (Qnat N - 6) * 5))).
Proof.
  intro H. unfold getTradeInReward, JS.or. simpl.
  assert (HN : 1 <= Qnat N) by (apply (Qnat_le H)).
  destruct (Qeqb (Qnat N) 0) eqn:E; [apply Qeqb_eq in E; lra|].
  simpl. unfold Math_max.
  destruct (Qleb 1 (Qnat N)) eqn:E1; [|apply Qleb_gt in E1; lra].
  destruct (Qleb (Qnat N) 5) eqn:E5.
  - apply Qleb_le in E5. unfold Qnat in E5. change 5 with (inject_Z 5) in E5.
    rewrite <- Zle_Qle in E5.
    destruct (Z.leb_spec (Z.of_nat N) 5); [reflexivity|lia].
  - apply Qleb_gt in E5. unfold Qnat in E5. change 5 with (inject_Z 5) in E5.
    rewrite <- Zlt_Qlt in E5.
    destruct (Z.leb_spec (Z.of_nat N) 5); [lia|reflexivity].
Qed.

(** As long as the reward does not exceed [2^53], no rounding occurs and
    the reward of the trade number [N >= 1] is the one of the schedule. *)
Lemma getTradeInReward_nat (N : nat) :
  (1 <= N)%nat -> (rewardSchedule (Z.of_nat N) <= 2 ^ 53)%Z ->
  exists r,
    getTradeInReward (JS.Fin (Qnat N)) = JS.Fin r
    /\ r == inject_Z (rewardSchedule (Z.of_nat N)).
Proof.
  intros H Hb. rewrite (getTradeInReward_value H). eexists. split; [reflexivity|].
  unfold rewardSchedule in *. unfold Qnat.
  destruct (Z.leb_spec (Z.of_nat N) 5) as [L|L].
  - assert (E1 : fl (2 * inject_Z (Z.of_nat N)) == inject_Z (2 * Z.of_nat N)).
    { apply fl_of_integer; [rewrite inject_Z_mult; reflexivity | lia]. }
    apply fl_of_integer; [|lia].
    rewrite E1, inject_Z_plus. reflexivity.
  - assert (E1 : fl (inject_Z (Z.of_nat N) - 6) == inject_Z (Z.of_nat N - 6)).
    { apply fl_of_integer; [|lia]. unfold Z.sub. rewrite inject_Z_plus. reflexivity. }
    assert (E2 : fl (fl (inject_Z (Z.of_nat N) - 6) * 5) == inject_Z (5 * (Z.of_nat N - 6))).
    { apply fl_of_integer; [|lia]. rewrite E1, inject_Z_mult. ring. }
    apply fl_of_integer; [|lia].
    rewrite E2, inject_Z_plus. reflexivity.
Qed.

(** Whatever is rounded, the reward of a trade number up to 5 lies between
    4 and 12, and from 6 on it is at least 15. *)
Lemma getTradeInReward_bounds (N : nat) :
  (1 <= N)%nat ->
  exists r,
    getTradeInReward (JS.Fin (Qnat N)) = JS.Fin r
    /\ 4 <= r
    /\ ((N <= 5)%nat -> r <= 12)
    /\ ((6 <= N)%nat -> 15 <= r).
Proof.
  intro H. rewrite (getTradeInReward_value H). eexists. split; [reflexivity|].
  assert (HN : 1 <= Qnat N) by (apply (Qnat_le H)).
  destruct (Z.leb_spec (Z.of_nat N) 5) as [L|L].
  - assert (H5 : Qnat N <= 5).
    { unfold Qnat. change 5 with (inject_Z 5). rewrite <- Zle_Qle. exact L. }
    assert (A : 2 <= fl (2 * Qnat N)).
    { apply (fl_ge_integer _ 2); [vm_compute; discriminate|]. change (inject_Z 2) with 2. lra. }
    assert (B : fl (2 * Qnat N) <= 10).
    { apply (fl_le_integer _ 10); [vm_compute; discriminate|]. change (inject_Z 10) with 10. lra. }
    split; [|split; [|intro; lia]].
    + apply (fl_ge_integer _ 4); [vm_compute; discriminate|]. change (inject_Z 4) with 4. lra.
    + intros _. apply (fl_le_integer _ 12); [vm_compute; discriminate|].
      change (inject_Z 12) with 12. lra.
  - assert (H6 : 6 <= Qnat N).
    { unfold Qnat. change 6 with (inject_Z 6). rewrite <- Zle_Qle. lia. }
    assert (A : 0 <= fl (Qnat N - 6)).
    { apply (fl_ge_integer _ 0); [vm_compute; discriminate|]. change (inject_Z 0) with 0. lra. }
    assert (B : 0 <= fl (fl (Qnat N - 6) * 5)).
    { apply (fl_ge_integer _ 0); [vm_compute; discriminate|]. change (inject_Z 0) with 0. lra. }
    assert (C : 15 <= fl (15 + fl (fl (Qnat N - 6) * 5))).
    { apply (fl_ge_integer _ 15); [vm_compute; discriminate|]. change (inject_Z 15) with 15. lra. }
    split; [lra|]. split; [intro; lia | intros _; exact C].
Qed.

(** The reward never decreases as the trade number grows: rounding keeps
    the order. *)
Lemma getTradeInReward_mono (N M : nat) :
  (1 <= N <= M)%nat ->
  JS.le (getTradeInReward (JS.Fin (Qnat N))) (getTradeInReward (JS.Fin (Qnat M))) = true.
Proof.
  intros [H1 H2].
  assert (HM : (1 <= M)%nat) by lia.
  assert (Hle : Qnat N <= Qnat M) by (apply Qnat_le; exact H2).
  destruct (le_lt_dec N 5) as [LN|LN]; destruct (le_lt_dec M 5) as [LM|LM].
  - rewrite (getTradeInReward_value H1), (getTradeInReward_value HM).
    destruct (Z.leb_spec (Z.of_nat N) 5); [|lia].
    destruct (Z.leb_spec (Z.of_nat M) 5); [|lia].
    simpl. apply Qleb_le. apply fl_mono.
    assert (fl (2 * Qnat N) <= fl (2 * Qnat M)) by (apply fl_mono; lra). lra.
  - destruct (getTradeInReward_bounds H1) as [r [-> [_ [Hr _]]]].
    destruct (getTradeInReward_bounds HM) as [r' [-> [_ [_ Hr']]]].
    simpl. apply Qleb_le. specialize (Hr LN). assert (15 <= r') by (apply Hr'; lia). lra.
  - lia.
  - rewrite (getTradeInReward_value H1), (getTradeInReward_value HM).
    destruct (Z.leb_spec (Z.of_nat N) 5); [lia|].
    destruct (Z.leb_spec (Z.of_nat M) 5); [lia|].
    simpl. apply Qleb_le. apply fl_mono.
    assert (A : fl (Qnat N - 6) <= fl (Qnat M - 6)) by (apply fl_mono; lra).
    assert (B : fl (fl (Qnat N - 6) * 5) <= fl (fl (Qnat M - 6) * 5)) by (apply fl_mono; lra).
    lra.
Qed.

Lemma rewardSchedule_mono (n m : Z) :
  (1 <= n <= m)%Z -> (rewardSchedule n <= rewardSchedule m)%Z.
Proof.
  intro H. unfold rewardSchedule.
  destruct (Z.leb_spec n 5), (Z.leb_spec m 5); lia.
Qed.

(** C7 (as the code has it): for every N >= 1 whose reward does not exceed
    2^53 -- every N up to 1801439850948201 -- the reward of the N-th
    trade-in is 2N+2 for N <= 5 and 15+5(N-6) from N = 6 on; the trades 1..7
    yield 4, 6, 8, 10, 12, 15, 20; and the reward never decreases as N
    grows, for trade numbers up to 2^53.  Beyond the bound the sums and
    products are rounded to doubles. *)
Theorem getTradeInReward_schedule (N : nat) :
  (1 <= N)%nat ->
  ((rewardSchedule (Z.of_nat N) <= 2 ^ 53)%Z <-> (Z.of_nat N <= 1801439850948201)%Z)
  /\ ((rewardSchedule (Z.of_nat N) <= 2 ^ 53)%Z ->
      exists r,
        getTradeInReward (JS.Fin (Qnat N)) = JS.Fin r
        /\ r == inject_Z (rewardSchedule (Z.of_nat N)))
  /\ List.map (fun n => getTradeInReward (JS.Fin (Qnat n))) [1; 2; 3; 4; 5; 6; 7]%nat
     = List.map JS.Fin [4; 6; 8; 10; 12; 15; 20]
  /\ (forall M, (N <= M)%nat -> (Z.of_nat M <= 2 ^ 53)%Z ->
        JS.le (getTradeInReward (JS.Fin (Qnat N)))
              (getTradeInReward (JS.Fin (Qnat M))) = true).
Proof.
  intro H. split; [|split; [|split]].
  - unfold rewardSchedule. destruct (Z.leb_spec (Z.of_nat N) 5); lia.
  - intro Hb. apply getTradeInReward_nat; assumption.
  - vm_compute. reflexivity.
  - intros M HM _. apply getTradeInReward_mono. lia.
Qed.

Lemma getTradeInReward_schedule_witness :
  (1 <= 6)%nat
  /\ exists r, getTradeInReward (JS.Fin (Qnat 6)) = JS.Fin r /\ r == 15.
Proof.
  split; [lia|].
  destruct (@getTradeInReward_schedule 6) as [_ [Hr _]]; [lia|].
  destruct Hr as [r [H1 H2]]; [vm_compute; discriminate|].
  exists r. split; [exact H1|]. rewrite H2. reflexivity.
Defined.

(** C7 as stated fails: the reward of the trade number 2^52 + 1 is
    22517998136852472, where 15 + 5(N - 6) is 22517998136852470: the
    product 5(N - 6) and the sum are rounded to doubles, which are 4 apart
    at that size. *)
Lemma getTradeInReward_rounded_counterexample :
  let N := Z.to_nat 4503599627370497 in
  (1 <= N)%nat
  /\ rewardSchedule (Z.of_nat N) = 22517998136852470%Z
  /\ exists r,
      getTradeInReward (JS.Fin (Qnat N)) = JS.Fin r
      /\ r == 22517998136852472
      /\ ~ r == inject_Z (rewardSchedule (Z.of_nat N)).
Proof.
  cbv zeta.
  assert (E : Z.of_nat (Z.to_nat 4503599627370497) = 4503599627370497%Z)
    by (apply Z2Nat.id; discriminate).
  split; [lia|]. split; [rewrite E; reflexivity|].
  unfold Qnat. rewrite E.
  eexists. split; [vm_compute; reflexivity|].
  split; [reflexivity | discriminate].
Qed.

(** ** Trade sets *)

Lemma set_has_In (s : list string) (x : string) : set_has s x = true <-> In x s.
Proof.
  unfold set_has. rewrite existsb_exists. split.
  - intros [y [Hy E]]. apply String.eqb_eq in E. subst. exact Hy.
  - intro H. exists x. split; [exact H | apply String.eqb_refl].
Qed.

Lemma NoDup_constant_length (l : list string) (x : string) :
  NoDup l -> (forall y, In y l -> y = x) -> (List.length l <= 1)%nat.
Proof.
  intros ND H. destruct l as [|a [|b r]]; simpl; try lia.
  exfalso. inversion ND as [|? ? Hnot _]; subst. apply Hnot.
  rewrite (H a), <- (H b); simpl; auto.
Qed.

(** [new Set(types).size === 1] says that the types are all the same and
    that there is at least one. *)
Lemma nodup_size_one (l : list string) :
  List.length (nodup string_dec l) = 1%nat
  <-> l <> [] /\ exists x, forall y, In y l -> y = x.
Proof.
  split.
  - intro H. split.
    + intro E. subst. discriminate.
    + destruct (nodup string_dec l) as [|x [|? ?]] eqn:E; try discriminate.
      exists x. intros y Hy. apply (nodup_In string_dec) in Hy.
      rewrite E in Hy. destruct Hy as [<-|[]]. reflexivity.
  - intros [Hne [x Hx]].
    assert (Hle : (List.length (nodup string_dec l) <= 1)%nat).
    { apply NoDup_constant_length with (x := x); [apply NoDup_nodup|].
      intros y Hy. apply Hx. apply (nodup_In string_dec). exact Hy. }
    destruct l as [|a r]; [congruence|].
    assert (Hin : In a (nodup string_dec (a :: r))) by (apply nodup_In; left; reflexivity).
    destruct (nodup string_dec (a :: r)); [destruct Hin | simpl in *; lia].
Qed.

Lemma isNonWild_typed (c : Card) :
  card_type c <> ""%string -> isNonWild c = negb (String.eqb (card_type c) WILD_TYPE).
Proof.
  intro H. unfold isNonWild, JS.truthy_str.
  apply String.eqb_neq in H. rewrite H. reflexivity.
Qed.

Lemma nonWildTypes_In (cards : list Card) (type : string) :
  (forall c, In c cards -> card_type c <> ""%string) ->
  In type (List.map card_type (filter isNonWild cards))
  <-> exists c, In c cards /\ card_type c <> WILD_TYPE /\ card_type c = type.
Proof.
  intro Hty. rewrite in_map_iff. split.
  - intros [c [E Hc]]. apply filter_In in Hc. destruct Hc as [Hc Hnw].
    rewrite (isNonWild_typed c (Hty c Hc)) in Hnw.
    apply negb_true_iff, String.eqb_neq in Hnw. eauto.
  - intros [c [Hc [Hnw E]]]. exists c. split; [exact E|].
    apply filter_In. split; [exact Hc|].
    rewrite (isNonWild_typed c (Hty c Hc)).
    apply negb_true_iff, String.eqb_neq. exact Hnw.
Qed.

Lemma missingCount_absent (cards : list Card) :
  (forall c, In c cards -> card_type c <> ""%string) ->
  List.length (filter (fun type =>
                         negb (set_has (List.map card_type (filter isNonWild cards)) type))
                      CARD_TYPES)
  = absentTypeCount cards.
Proof.
  intro Hty. unfold absentTypeCount. f_equal. apply filter_ext. intro type.
  f_equal. apply eq_true_iff_eq. rewrite set_has_In, (@nonWildTypes_In cards _ Hty).
  rewrite existsb_exists. split.
  - intros [c [Hc [Hnw E]]]. exists c. split; [exact Hc|].
    apply andb_true_iff. split.
    + apply negb_true_iff, String.eqb_neq. exact Hnw.
    + apply String.eqb_eq. exact E.
  - intros [c [Hc H]]. apply andb_true_iff in H. destruct H as [Hnw E].
    apply negb_true_iff, String.eqb_neq in Hnw. apply String.eqb_eq in E. eauto.
Qed.

Lemma sameType_shareOneType (cards : list Card) :
  (forall c, In c cards -> card_type c <> ""%string) ->
  let nonWildTypes := List.map card_type (filter isNonWild cards) in
  (List.length nonWildTypes =? 0)%nat
  || (List.length (nodup string_dec nonWildTypes) =? 1)%nat = true
  <-> shareOneType cards.
Proof.
  intros Hty nonWildTypes. rewrite orb_true_iff, !Nat.eqb_eq, nodup_size_one.
  unfold shareOneType. split.
  - intros [H|[_ [x Hx]]].
    + exists ""%string. intros c Hc Hnw. exfalso.
      apply length_zero_iff_nil in H.
      assert (Hin : In (card_type c) nonWildTypes)
        by (apply (@nonWildTypes_In cards _ Hty); eauto).
      rewrite H in Hin. destruct Hin.
    + exists x. intros c Hc Hnw. apply Hx. apply (@nonWildTypes_In cards _ Hty). eauto.
  - intros [x Hx]. destruct nonWildTypes as [|a r] eqn:E; [left; reflexivity|].
    right. split; [discriminate|]. exists x. intros y Hy.
    fold nonWildTypes in E. rewrite <- E in Hy.
    apply (@nonWildTypes_In cards _ Hty) in Hy. destruct Hy as [c [Hc [Hnw <-]]].
    apply Hx; assumption.
Qed.

Lemma tagged_typed (cards : list Card) :
  forall c, In c (tagged cards) -> card_type c <> ""%string.
Proof.
  intros c Hc. apply filter_In in Hc. destruct Hc as [_ Hc].
  apply negb_true_iff, String.eqb_neq in Hc. exact Hc.
Qed.

Lemma tagged_all (cards : list Card) :
  (forall c, In c cards -> card_type c <> ""%string) -> tagged cards = cards.
Proof.
  intro H. unfold tagged. induction cards as [|c r IH]; simpl; [reflexivity|].
  assert (E : String.eqb (card_type c) "" = false).
  { apply String.eqb_neq. apply H. now left. }
  rewrite E. simpl. rewrite IH; [reflexivity|]. intros x Hx. apply H. now right.
Qed.

Lemma filter_tagged (p : Card -> bool) (cards : list Card) :
  (forall c, p c = true -> card_type c <> ""%string) ->
  filter p (tagged cards) = filter p cards.
Proof.
  intro H. unfold tagged. induction cards as [|c r IH]; simpl; [reflexivity|].
  destruct (String.eqb (card_type c) "") eqn:E; simpl.
  - destruct (p c) eqn:Ep; [|exact IH].
    apply H in Ep. apply String.eqb_eq in E. contradiction.
  - rewrite IH. reflexivity.
Qed.

Lemma isNonWild_tagged (cards : list Card) :
  filter isNonWild (tagged cards) = filter isNonWild cards.
Proof.
  apply filter_tagged. intros c H. unfold isNonWild, JS.truthy_str in H.
  apply andb_true_iff in H. destruct H as [H _].
  apply negb_true_iff, String.eqb_neq in H. exact H.
Qed.

(** C6 (as the code has it): [isValidTradeSet] returns true exactly when
    the list has 3 cards and, the cards without a type tag left aside,
    either all non-wild cards share one type or the number of troop types
    absent among the non-wild cards does not exceed the number of wild
    cards.  On cards that all carry a type tag -- the only ones the deck
    produces -- this is the rule of the specification. *)
Theorem isValidTradeSet_iff (cards : list Card) :
  (isValidTradeSet cards = true <-> validTaggedTradeSet cards)
  /\ ((forall c, In c cards -> card_type c <> ""%string) ->
      (isValidTradeSet cards = true <-> validTradeSet cards)).
Proof.
  assert (H : isValidTradeSet cards = true <-> validTaggedTradeSet cards).
  { unfold isValidTradeSet, validTaggedTradeSet. cbv zeta.
    pose proof (@sameType_shareOneType (tagged cards) (tagged_typed cards)) as Hsame.
    cbv zeta in Hsame.
    pose proof (@missingCount_absent (tagged cards) (tagged_typed cards)) as Hmiss.
    rewrite isNonWild_tagged in Hsame, Hmiss. rewrite Hmiss.
    change (List.length (filter isWild cards)) with (wildCardCount cards).
    destruct (Nat.eqb_spec (List.length cards) 3) as [E3|E3]; cbn [negb].
    2:{ split; [discriminate | intros [H _]; contradiction]. }
    destruct ((List.length (List.map card_type (filter isNonWild cards)) =? 0)%nat
              || (List.length (nodup string_dec (List.map card_type (filter isNonWild cards)))
                  =? 1)%nat)
      eqn:Es.
    - split; [|reflexivity]. intros _. split; [exact E3|]. left. apply Hsame. reflexivity.
    - rewrite Nat.leb_le. split.
      + intro H. split; [exact E3|]. right. exact H.
      + intros [_ [H|H]]; [|exact H]. apply Hsame in H. discriminate. }
  split; [exact H|].
  intro Hty. rewrite H. unfold validTaggedTradeSet, validTradeSet.
  rewrite (tagged_all cards Hty). reflexivity.
Qed.

Lemma isValidTradeSet_iff_witness :
  let cards := [Example.card "INFANTRY"; Example.card "WILD"; Example.card "CAVALRY"] in
  (forall c, In c cards -> card_type c <> ""%string)
  /\ isValidTradeSet cards = true
  /\ validTradeSet cards.
Proof.
  intro cards.
  assert (Hty : forall c, In c cards -> card_type c <> ""%string).
  { intros c [<-|[<-|[<-|[]]]]; discriminate. }
  split; [exact Hty|]. split; [reflexivity|].
  apply (proj2 (@isValidTradeSet_iff cards) Hty). reflexivity.
Defined.

(** C6 as stated fails: a card without a type tag next to two INFANTRY
    cards is accepted, although the three cards do not share one type --
    the untagged card is not a wild card -- and two troop types are absent
    with no wild card in the set. *)
Lemma isValidTradeSet_untagged_counterexample :
  let cards := [Example.card ""; Example.card "INFANTRY"; Example.card "INFANTRY"] in
  isValidTradeSet cards = true
  /\ ~ shareOneType cards
  /\ absentTypeCount cards = 2%nat /\ wildCardCount cards = 0%nat
  /\ ~ validTradeSet cards.
Proof.
  cbv zeta.
  assert (Hs : ~ shareOneType [Example.card ""; Example.card "INFANTRY";
                               Example.card "INFANTRY"]).
  { intros [type H].
    assert (E1 : card_type (Example.card "") = type).
    { apply H; [left; reflexivity | discriminate]. }
    assert (E2 : card_type (Example.card "INFANTRY") = type).
    { apply H; [right; left; reflexivity | discriminate]. }
    simpl in E1, E2. congruence. }
  split; [reflexivity|]. split; [exact Hs|]. split; [reflexivity|]. split; [reflexivity|].
  intros [_ [H|H]]; [exact (Hs H)|]. vm_compute in H. lia.
Qed.

(** ** Objects found and changed in an array *)

Lemma find_update_first_hit (A : Type) (p : A -> bool) (f : A -> A) (l : list A) (x : A) :
  find p l = Some x -> p (f x) = true ->
  find p (update_first p f l) = Some (f x).
Proof.
  induction l as [|y r IH]; simpl; [discriminate|].
  destruct (p y) eqn:E; intros H Hf.
  - injection H as ->. simpl. rewrite Hf. reflexivity.
  - simpl. rewrite E. apply IH; assumption.
Qed.

Lemma find_update_first_other (A : Type) (p q : A -> bool) (f : A -> A) (l : list A) :
  (forall x, q (f x) = q x) ->
  (forall x, p x = true -> q x = false) ->
  find q (update_first p f l) = find q l.
Proof.
  intros Hq Hpq. induction l as [|y r IH]; simpl; [reflexivity|].
  destruct (p y) eqn:E; simpl.
  - rewrite Hq, (Hpq y E). reflexivity.
  - destruct (q y); [reflexivity | exact IH].
Qed.

Lemma find_update_first_none (A : Type) (p : A -> bool) (f : A -> A) (l : list A) :
  find p l = None -> update_first p f l = l.
Proof.
  induction l as [|y r IH]; simpl; [reflexivity|].
  destruct (p y); [discriminate|]. intro H. rewrite (IH H). reflexivity.
Qed.

Lemma has_id_other (i j : string) (t : Territory) :
  i <> j -> has_id i t = true -> has_id j t = false.
Proof.
  unfold has_id. intros Hij H. apply String.eqb_eq in H. apply String.eqb_neq. congruence.
Qed.

Lemma getTerritory_has_id (g : Game) (i : string) (t : Territory) :
  getTerritory g i = Some t -> t_id t = i /\ In t (map g).
Proof.
  unfold getTerritory. intro H. apply find_some in H. destruct H as [Hin H].
  apply String.eqb_eq in H. auto.
Qed.

(** Reading a territory after an assignment to one of its fields. *)
Lemma getTerritory_modTerritory_same (g : Game) (i : string) (f : Territory -> Territory)
      (t : Territory) :
  (forall x, t_id (f x) = t_id x) ->
  getTerritory g i = Some t ->
  getTerritory (modTerritory i f g) i = Some (f t).
Proof.
  intros Hf H. unfold getTerritory, modTerritory. simpl.
  apply find_update_first_hit; [exact H|].
  unfold has_id. rewrite Hf. apply getTerritory_has_id in H. destruct H as [-> _].
  apply String.eqb_refl.
Qed.

Lemma getTerritory_modTerritory_other (g : Game) (i j : string) (f : Territory -> Territory) :
  (forall x, t_id (f x) = t_id x) ->
  i <> j ->
  getTerritory (modTerritory i f g) j = getTerritory g j.
Proof.
  intros Hf Hij. unfold getTerritory, modTerritory. simpl.
  apply find_update_first_other.
  - intro x. unfold has_id. rewrite Hf. reflexivity.
  - intro x. apply has_id_other. exact Hij.
Qed.

Lemma getPlayer_modPlayer_same (g : Game) (i : string) (f : Player -> Player) (p : Player) :
  (forall x, p_id (f x) = p_id x) ->
  getPlayer g i = Some p ->
  getPlayer (modPlayer i f g) i = Some (f p).
Proof.
  intros Hf H. unfold getPlayer, modPlayer. simpl.
  apply find_update_first_hit; [exact H|].
  unfold is_player. rewrite Hf. unfold getPlayer in H. apply find_some in H.
  destruct H as [_ H]. exact H.
Qed.

(** ** Deploy *)

(** C1 (as the code has it): in every phase, SETUP and GLOBAL_REINFORCE
    included, [deploy] requires the acting player to be the current player;
    a deploy by any other player returns false and leaves the match
    unchanged. *)
Theorem deploy_requires_current_player
        (continents : list Continent) (g : Game) (playerId territoryId : string)
        (count : JS.number) :
  (forall p, getCurrentPlayer g = Some p -> p_id p <> playerId) ->
  deploy continents g playerId territoryId count = (false, g).
Proof.
  intro H. unfold deploy.
  destruct (JS.truthy_opt (winnerId g)); [reflexivity|].
  destruct (getPlayer g playerId) as [player|]; [|reflexivity].
  assert (E : notCurrentPlayer g playerId = true).
  { unfold notCurrentPlayer. destruct (getCurrentPlayer g) as [p|]; [|reflexivity].
    apply negb_true_iff, String.eqb_neq. apply H. reflexivity. }
  rewrite E. reflexivity.
Qed.

Lemma deploy_requires_current_player_witness :
  phase Example.setupGame = SETUP
  /\ (forall p, getCurrentPlayer Example.setupGame = Some p -> p_id p <> "p2"%string)
  /\ deploy Example.continents Example.setupGame "p2" "B" (JS.Fin 1)
     = (false, Example.setupGame).
Proof.
  assert (H : forall p, getCurrentPlayer Example.setupGame = Some p -> p_id p <> "p2"%string).
  { intros p E. injection E as <-. discriminate. }
  split; [reflexivity|]. split; [exact H|].
  apply (@deploy_requires_current_player Example.continents Example.setupGame
           "p2" "B" (JS.Fin 1) H).
Defined.

(** C1 as stated fails: in SETUP and in GLOBAL_REINFORCE the player p2 has
    a pool of 5 and owns B, yet p2's deploy onto B is rejected because the
    turn cursor is on p1. *)
Lemma deploy_any_player_counterexample :
  let independent (g : Game) :=
    forall playerId territoryId p t,
      (phase g = SETUP \/ phase g = GLOBAL_REINFORCE) ->
      getPlayer g playerId = Some p -> 1 <= pool p ->
      getTerritory g territoryId = Some t -> ownerId t = Some playerId ->
      fst (deploy Example.continents g playerId territoryId (JS.Fin 1)) = true in
  ~ independent Example.setupGame /\ ~ independent Example.reinforceGame.
Proof.
  split; intro H.
  - specialize (H "p2"%string "B"%string (Example.player "p2" 5)
                  (Example.territory "B" ["A"; "C"]%string (Some "p2"%string) 2)
                  (or_introl eq_refl) eq_refl).
    assert (E : 1 <= pool (Example.player "p2" 5)) by (simpl; lra).
    specialize (H E eq_refl eq_refl). discriminate H.
  - specialize (H "p2"%string "B"%string (Example.player "p2" 5)
                  (Example.territory "B" ["A"; "C"]%string (Some "p2"%string) 2)
                  (or_intror eq_refl) eq_refl).
    assert (E : 1 <= pool (Example.player "p2" 5)) by (simpl; lra).
    specialize (H E eq_refl eq_refl). discriminate H.
Qed.

(** The amount deployed for a count that is 0, negative or not a number. *)
Lemma deployAmount_coerced (count : JS.number) :
  (count = JS.NaN \/ count = JS.NegInf \/ exists q, count = JS.Fin q /\ q <= 0) ->
  deployAmount count = JS.Fin 1.
Proof.
  intros [->|[->|[q [-> Hq]]]]; try reflexivity.
  unfold deployAmount, JS.or. simpl.
  destruct (Qeqb q 0) eqn:E; simpl; unfold Math_max.
  - reflexivity.
  - destruct (Qleb 1 q) eqn:E1; [apply Qleb_le in E1; lra | reflexivity].
Qed.

(** ** Attack: rejected requests *)

Lemma opt_is_eq (o : option string) (s : string) : JS.opt_is o s = true <-> o = Some s.
Proof.
  destruct o as [s'|]; simpl.
  - rewrite String.eqb_eq. split; congruence.
  - split; discriminate.
Qed.

Lemma opt_is_neq (o : option string) (s : string) : JS.opt_is o s = false <-> o <> Some s.
Proof.
  rewrite <- (opt_is_eq o s). destruct (JS.opt_is o s); split; congruence.
Qed.

Lemma notCurrentPlayer_false (g : Game) (playerId : string) :
  notCurrentPlayer g playerId = false
  <-> exists p, getCurrentPlayer g = Some p /\ p_id p = playerId.
Proof.
  unfold notCurrentPlayer. destruct (getCurrentPlayer g) as [p|].
  - rewrite negb_false_iff, String.eqb_eq. split.
    + intro H. exists p. auto.
    + intros [p' [E H]]. injection E as <-. exact H.
  - split; [discriminate | intros [p [E _]]; discriminate].
Qed.

Lemma truthy_opt_true (o : option string) :
  JS.truthy_opt o = true <-> exists s, o = Some s /\ s <> ""%string.
Proof.
  destruct o as [s|]; simpl.
  - unfold JS.truthy_str. rewrite negb_true_iff, String.eqb_neq. split.
    + intro H. exists s. auto.
    + intros [s' [E H]]. injection E as <-. exact H.
  - split; [discriminate | intros [s [E _]]; discriminate].
Qed.

(** The tests of [attack], read as the preconditions. *)
Lemma attack_tests_allowed (g : Game) (playerId fromId toId : string)
      (from to : Territory) (requested : Q) :
  JS.truthy_opt (winnerId g) = false ->
  Phase_eqb (phase g) TURN_ATTACK = true ->
  notCurrentPlayer g playerId = false ->
  getTerritory g fromId = Some from ->
  getTerritory g toId = Some to ->
  negb (owns playerId from)
  || (negb (JS.opt_is (ownerId to) NEUTRAL_ID)
      && negb (JS.truthy_opt (ownerId to) && negb (JS.opt_is (ownerId to) playerId)))
  = false ->
  set_has (t_neighbors from) toId = true ->
  Qltb requested 1 = false ->
  Qltb (troops from - 1) requested = false ->
  Qltb 3 requested = false ->
  attackAllowed g playerId fromId toId (JS.Fin requested).
Proof.
  intros Hw Hp Hc Hf Ht Ho Hn H1 H2 H3.
  split; [exact Hw|]. split; [destruct (phase g); try discriminate; reflexivity|].
  split; [apply notCurrentPlayer_false; exact Hc|].
  exists from, to. split; [exact Hf|]. split; [exact Ht|].
  apply orb_false_iff in Ho. destruct Ho as [Ho1 Ho2].
  apply negb_false_iff in Ho1. apply opt_is_eq in Ho1.
  split; [exact Ho1|]. split.
  - apply andb_false_iff in Ho2. destruct Ho2 as [Ho2|Ho2]; apply negb_false_iff in Ho2.
    + left. apply opt_is_eq. exact Ho2.
    + right. apply andb_true_iff in Ho2. destruct Ho2 as [Ha Hb].
      apply truthy_opt_true in Ha. destruct Ha as [o [Eo Hne]]. exists o.
      split; [exact Eo|]. split; [exact Hne|].
      apply negb_true_iff, opt_is_neq in Hb. congruence.
  - split.
    + unfold set_has in Hn. apply existsb_exists in Hn. destruct Hn as [y [Hy E]].
      apply String.eqb_eq in E. subst. exact Hy.
    + exists requested. apply Qltb_ge in H1, H2, H3. auto.
Qed.

(** C2 (as the code has it): whenever a precondition of [attack] fails --
    an existing winner, a phase other than TURN_ATTACK, a caller who is not
    the current player, a missing territory, a source not owned by the
    attacker, a target that is neither neutral nor held by another player, a
    target that is not adjacent, or a dice count that is not a finite number
    in [1, 3] and at most [from.troops - 1] -- the call returns null and the
    match is unchanged. *)
Theorem attack_rejected_unchanged
        (rnd : nat -> Q) (g : Game) (playerId fromId toId : string) (count : JS.number) :
  ~ attackAllowed g playerId fromId toId count ->
  attack rnd g playerId fromId toId count = (None, g).
Proof.
  intro H. unfold attack.
  destruct (JS.truthy_opt (winnerId g)) eqn:Hw; [reflexivity|].
  destruct (Phase_eqb (phase g) TURN_ATTACK) eqn:Hp; [|reflexivity]. cbn [negb].
  destruct (notCurrentPlayer g playerId) eqn:Hc; [reflexivity|].
  destruct (getTerritory g fromId) as [from|] eqn:Hf; [|reflexivity].
  destruct (getTerritory g toId) as [to|] eqn:Ht; [|reflexivity].
  cbv zeta.
  match goal with |- context [if ?c then (None, g) else _] => destruct c eqn:Ho end;
    [reflexivity|].
  destruct (set_has (t_neighbors from) toId) eqn:Hn; [|reflexivity]. cbn [negb].
  destruct (Qltb (troops from - 1) 1) eqn:Hm; [reflexivity|].
  destruct count as [requested| | |]; try reflexivity.
  destruct (Qltb requested 1) eqn:H1; [reflexivity|].
  destruct (Qltb (troops from - 1) requested) eqn:H2; [reflexivity|].
  destruct (Qltb 3 requested) eqn:H3; [reflexivity|].
  exfalso. apply H.
  apply (@attack_tests_allowed g playerId fromId toId from to requested); assumption.
Qed.

Lemma attack_rejected_unchanged_witness :
  ~ attackAllowed Example.attackGame "p1" "A" "B" (JS.Fin 4)
  /\ attack Example.high Example.attackGame "p1" "A" "B" (JS.Fin 4)
     = (None, Example.attackGame).
Proof.
  assert (H : ~ attackAllowed Example.attackGame "p1" "A" "B" (JS.Fin 4)).
  { intros [_ [_ [_ [from [to [_ [_ [_ [_ [_ [r [E [_ [Hr _]]]]]]]]]]]]]].
    injection E as <-. lra. }
  split; [exact H|].
  apply (@attack_rejected_unchanged Example.high Example.attackGame "p1" "A" "B"
           (JS.Fin 4) H).
Defined.

Lemma isInteger_three_halves : ~ isInteger (3 # 2).
Proof.
  intros [z Hz]. unfold Qeq in Hz. simpl in Hz. lia.
Qed.

(** C2 as stated fails: the dice count 3/2 is not an integer, so the
    preconditions with an integer dice count do not hold, yet the attack of
    p1 from A (3 troops) on B is resolved: one die is rolled and the match
    changes. *)
Lemma attack_fractional_dice_counterexample :
  ~ attackAllowedInteger Example.attackGame "p1" "A" "B" (JS.Fin (3 # 2))
  /\ attack Example.high Example.attackGame "p1" "A" "B" (JS.Fin (3 # 2))
     <> (None, Example.attackGame).
Proof.
  split.
  - intros [_ [r [E Hr]]]. injection E as <-. exact (isInteger_three_halves Hr).
  - vm_compute. discriminate.
Qed.

(** ** Battle session: commit-roll *)

Lemma clamp_range (maxDice requested : Q) :
  let capped := Math_max 1 (Math_min maxDice requested) in
  1 <= capped
  /\ (1 <= maxDice -> capped <= maxDice)
  /\ (1 <= requested -> requested <= maxDice -> capped == requested)
  /\ orElse capped maxDice = capped.
Proof.
  cbv zeta. unfold Math_max, Math_min, orElse.
  destruct (Qleb maxDice requested) eqn:E1.
  - apply Qleb_le in E1. destruct (Qleb 1 maxDice) eqn:E2.
    + apply Qleb_le in E2. repeat split; try lra.
      destruct (Qeqb maxDice 0) eqn:E3; [|reflexivity].
      apply Qeqb_eq in E3. lra.
    + apply Qleb_gt in E2. repeat split; lra.
  - apply Qleb_gt in E1. destruct (Qleb 1 requested) eqn:E2.
    + apply Qleb_le in E2. repeat split; try lra.
      destruct (Qeqb requested 0) eqn:E3; [|reflexivity].
      apply Qeqb_eq in E3. lra.
    + apply Qleb_gt in E2. repeat split; lra.
Qed.

Section CommitRoll.

Variable resolveAttack :
  Game -> string -> string -> string -> Q -> Q -> option AttackRecord * Game.
Variable pruneInactivePlayers : Game -> Game.

(** C5 (as the code has it): a side may commit more than once.  While the
    other side has not committed, a commit-roll from the attacker, or from
    a defender whose roll was not auto-committed, replaces that side's
    committed dice count by the new count clamped into [1, max] -- whether
    or not the side had committed before -- leaves every other field of
    the session as it is, and the session stays open.  The commit-roll of
    a defender whose roll was auto-committed is ignored, as is the one of a
    socket that is neither side.  The commit-roll that completes the pair,
    from the attacker or from the defender, closes the session and has the
    engine resolve the attack with the two committed counts; the clients
    are told of the commitment and of the result, or that the battle is
    cancelled when the engine refuses. *)
Theorem commit_roll_replaces_commitment
        (s : Server) (b : Battle) (socketId : string) (sentId : option string)
        (requested : Q) :
  activeBattle s = Some b ->
  JS.truthy_opt sentId && JS.truthy_str (battleId b)
    && negb (JS.opt_is sentId (battleId b)) = false ->
  let roll :=
    commit_roll resolveAttack pruneInactivePlayers s socketId sentId (JS.Fin requested) in
  let attackerCount := Math_max 1 (Math_min (maxAttackerDice b) requested) in
  let defenderCount := Math_max 1 (Math_min (maxDefenderDice b) requested) in
  (socketId = b_attackerId b -> defenderRolled b = false ->
   exists b',
     roll = (mkServer (Some b') (game s),
             [ResetInactivityTimer; CombatArenaUpdate (battleId b) true false])
     /\ b_attackerDice b' = attackerCount /\ attackerRolled b' = true
     /\ b_defenderDice b' = b_defenderDice b /\ defenderRolled b' = false
     /\ battleId b' = battleId b /\ b_attackerId b' = b_attackerId b
     /\ b_defenderId b' = b_defenderId b /\ b_fromId b' = b_fromId b
     /\ b_toId b' = b_toId b /\ maxAttackerDice b' = maxAttackerDice b
     /\ maxDefenderDice b' = maxDefenderDice b /\ defenderAuto b' = defenderAuto b)
  /\ (socketId <> b_attackerId b -> socketId = b_defenderId b ->
      defenderAuto b = false -> attackerRolled b = false ->
      exists b',
        roll = (mkServer (Some b') (game s),
                [ResetInactivityTimer; CombatArenaUpdate (battleId b) false true])
        /\ b_defenderDice b' = defenderCount /\ defenderRolled b' = true
        /\ b_attackerDice b' = b_attackerDice b /\ attackerRolled b' = false
        /\ battleId b' = battleId b /\ b_attackerId b' = b_attackerId b
        /\ b_defenderId b' = b_defenderId b /\ b_fromId b' = b_fromId b
        /\ b_toId b' = b_toId b /\ maxAttackerDice b' = maxAttackerDice b
        /\ maxDefenderDice b' = maxDefenderDice b /\ defenderAuto b' = defenderAuto b)
  /\ (socketId <> b_attackerId b -> defenderAuto b = true -> roll = (s, []))
  /\ (socketId <> b_attackerId b -> socketId <> b_defenderId b -> roll = (s, []))
  /\ (socketId = b_attackerId b -> defenderRolled b = true ->
      let answer :=
        resolveAttack (game s) (b_attackerId b) (b_fromId b) (b_toId b) attackerCount
                      (orElse (b_defenderDice b) (maxDefenderDice b)) in
      roll = (mkServer None (pruneInactivePlayers (pruneInactivePlayers (snd answer))),
              [ResetInactivityTimer; CombatArenaUpdate (battleId b) true true]
                ++ resolutionEffects (fst answer)))
  /\ (socketId <> b_attackerId b -> socketId = b_defenderId b ->
      defenderAuto b = false -> attackerRolled b = true ->
      let answer :=
        resolveAttack (game s) (b_attackerId b) (b_fromId b) (b_toId b)
                      (orElse (b_attackerDice b) (maxAttackerDice b)) defenderCount in
      roll = (mkServer None (pruneInactivePlayers (pruneInactivePlayers (snd answer))),
              [ResetInactivityTimer; CombatArenaUpdate (battleId b) true true]
                ++ resolutionEffects (fst answer))).
Proof.
  intros Hs Hid. cbv zeta. unfold commit_roll. rewrite Hs, Hid.
  destruct (clamp_range (maxAttackerDice b) requested) as [_ [_ [_ CA]]].
  destruct (clamp_range (maxDefenderDice b) requested) as [_ [_ [_ CD]]].
  cbv zeta in CA, CD.
  split; [|split; [|split; [|split; [|split]]]].
  - intros -> Hd. rewrite String.eqb_refl.
    unfold maybeResolveActiveBattle, emitCombatArenaUpdate. simpl.
    rewrite Hd. simpl. eexists. split; [reflexivity|]. simpl. rewrite Hd.
    repeat split; reflexivity.
  - intros Hne -> Ha Hr. apply String.eqb_neq in Hne. rewrite Hne.
    rewrite String.eqb_refl, Ha.
    unfold maybeResolveActiveBattle, emitCombatArenaUpdate. simpl.
    rewrite Hr. simpl. eexists. split; [reflexivity|]. simpl. rewrite Hr.
    repeat split; try reflexivity. exact Ha.
  - intros Hne Ha. apply String.eqb_neq in Hne. rewrite Hne, Ha.
    rewrite andb_false_r. reflexivity.
  - intros Hne Hnd. apply String.eqb_neq in Hne, Hnd. rewrite Hne, Hnd. reflexivity.
  - intros -> Hd. rewrite String.eqb_refl.
    unfold maybeResolveActiveBattle, resolveActiveBattle, emitCombatArenaUpdate.
    cbn [activeBattle game attackerRolled defenderRolled commitAttacker negb orb
         b_attackerDice b_defenderDice maxAttackerDice maxDefenderDice b_attackerId
         b_fromId b_toId battleId].
    rewrite Hd. cbn [negb orb]. rewrite CA.
    destruct (resolveAttack (game s) (b_attackerId b) (b_fromId b) (b_toId b)
                (Math_max 1 (Math_min (maxAttackerDice b) requested))
                (orElse (b_defenderDice b) (maxDefenderDice b))) as [[r|] g1];
      reflexivity.
  - intros Hne -> Ha Hr. apply String.eqb_neq in Hne. rewrite Hne.
    rewrite String.eqb_refl, Ha.
    unfold maybeResolveActiveBattle, resolveActiveBattle, emitCombatArenaUpdate.
    cbn [activeBattle game attackerRolled defenderRolled commitDefender negb orb andb
         b_attackerDice b_defenderDice maxAttackerDice maxDefenderDice b_attackerId
         b_fromId b_toId battleId].
    rewrite Hr. cbn [negb orb]. rewrite CD.
    destruct (resolveAttack (game s) (b_attackerId b) (b_fromId b) (b_toId b)
                (orElse (b_attackerDice b) (maxAttackerDice b))
                (Math_max 1 (Math_min (maxDefenderDice b) requested))) as [[r|] g1];
      reflexivity.
Qed.

End CommitRoll.

Lemma commit_roll_replaces_commitment_witness :
  let first := fst (commit_roll Example.cancelAttack Example.nobodyStale
                                Example.server "p1" None (JS.Fin 1)) in
  activeBattle first = Some (commitAttacker 1 Example.battle)
  /\ exists b',
      commit_roll Example.cancelAttack Example.nobodyStale first "p1" None (JS.Fin 2)
      = (mkServer (Some b') Example.attackGame,
         [ResetInactivityTimer; CombatArenaUpdate "battle_1" true false])
      /\ b_attackerDice b' = 2 /\ attackerRolled b' = true.
Proof.
  intro first. split; [reflexivity|].
  destruct (@commit_roll_replaces_commitment Example.cancelAttack Example.nobodyStale
              first (commitAttacker 1 Example.battle) "p1"%string None 2
              eq_refl eq_refl) as [H _].
  destruct (H eq_refl eq_refl) as [b' [E [D [R _]]]].
  exists b'. split; [exact E|]. split; [exact D | exact R].
Defined.

(** C5 as stated fails: p1 commits 1 die and then, the defender not having
    committed, sends a second commit-roll with 2 dice; the second one is not
    ignored, the committed dice count of the attacker goes from 1 to 2. *)
Lemma commit_roll_twice_counterexample :
  let roll := commit_roll Example.cancelAttack Example.nobodyStale in
  let first := fst (roll Example.server "p1"%string None (JS.Fin 1)) in
  let second := fst (roll first "p1"%string None (JS.Fin 2)) in
  option_map attackerRolled (activeBattle first) = Some true
  /\ option_map b_attackerDice (activeBattle first) = Some 1
  /\ option_map b_attackerDice (activeBattle second) = Some 2
  /\ second <> first
  /\ snd (roll first "p1"%string None (JS.Fin 2)) <> [].
Proof.
  cbv zeta. repeat split; try reflexivity; vm_compute; discriminate.
Qed.

(** ** Dice *)

Lemma Qfloor_spec (x : Q) (z : Z) :
  Qfloor x = z <-> inject_Z z <= x /\ x < inject_Z z + 1.
Proof.
  split.
  - intros <-. split; [apply Qfloor_le|].
    pose proof (Qlt_floor x) as H. rewrite inject_Z_plus in H. exact H.
  - intros [H1 H2].
    assert (Ha : (z <= Qfloor x)%Z).
    { apply Qfloor_resp_le in H1. rewrite Qfloor_Z in H1. exact H1. }
    assert (Hb : (Qfloor x < z + 1)%Z).
    { rewrite Zlt_Qlt, inject_Z_plus. apply Qle_lt_trans with x; [apply Qfloor_le | exact H2]. }
    lia.
Qed.

Lemma inject_Z_sub (a b : Z) : inject_Z (a - b) == inject_Z a - inject_Z b.
Proof. unfold Z.sub. rewrite inject_Z_plus, inject_Z_opp. reflexivity. Qed.

(** The product [6u] for [u] in [0, 1) is below 8, where the doubles are
    [2^-50] apart: rounding moves it by [2^-51] at most. *)
Lemma fl_six_near (u : Q) :
  0 <= u -> u < 1 ->
  u * 6 - pow2 (-51) <= fl (u * 6) /\ fl (u * 6) <= u * 6 + pow2 (-51).
Proof.
  intros H0 H1. apply (fl_near (u * 6) 2); [lia | lra|].
  change (pow2 (2 + 1)) with 8. lra.
Qed.

(** The die shows the face [k] for every [u] of the [k]-th sixth of
    [0, 1) except, possibly, those within [2^-53] of its upper end, where
    the product [6u] may be rounded up to [k]; and it shows [k] for no other
    [u] than those of the [k]-th sixth and those within [2^-53] below
    it. *)
Lemma rollDie_uniform (u : Q) (k : Z) :
  0 <= u -> u < 1 ->
  ((inject_Z k - 1) / 6 <= u /\ u < inject_Z k / 6 - pow2 (-53) -> rollDie u = k)
  /\ (rollDie u = k ->
      (inject_Z k - 1) / 6 - pow2 (-53) <= u /\ u < inject_Z k / 6).
Proof.
  intros H0 H1. unfold rollDie.
  destruct (fl_six_near H0 H1) as [N1 N2].
  assert (E : forall z, (Qfloor (fl (u * 6)) + 1 = z)%Z <-> Qfloor (fl (u * 6)) = (z - 1)%Z)
    by (intro; lia).
  rewrite E, Qfloor_spec. clear E. rewrite inject_Z_sub. change (inject_Z 1) with 1.
  unfold Qdiv. setoid_replace (/ 6) with (1 # 6) by reflexivity.
  change (pow2 (-53)) with (1 # 9007199254740992).
  change (pow2 (-51)) with (1 # 2251799813685248) in N1, N2.
  split.
  - intros [A B].
    assert (K : (1 <= k <= 6)%Z).
    { assert (K1 : 0 < inject_Z k /\ inject_Z k < 7).
      { set (q := inject_Z k) in *. clearbody q. split; lra. }
      destruct K1 as [K1 K2].
      change 0 with (inject_Z 0) in K1. change 7 with (inject_Z 7) in K2.
      rewrite <- Zlt_Qlt in K1, K2. lia. }
    assert (L : inject_Z (k - 1) <= fl (u * 6)).
    { apply fl_ge_integer; [lia|]. rewrite inject_Z_sub. change (inject_Z 1) with 1.
      set (q := inject_Z k) in *. clearbody q. lra. }
    rewrite inject_Z_sub in L. change (inject_Z 1) with 1 in L.
    set (q := inject_Z k) in *. clearbody q. split; lra.
  - intros [A B].
    assert (F0 : 0 <= fl (u * 6)).
    { apply (fl_ge_integer _ 0); [vm_compute; discriminate|]. change (inject_Z 0) with 0. lra. }
    assert (K : (1 <= k <= 7)%Z).
    { assert (K1 : 0 < inject_Z k /\ inject_Z k < 8).
      { set (q := inject_Z k) in *. clearbody q. split; lra. }
      destruct K1 as [K1 K2].
      change 0 with (inject_Z 0) in K1. change 8 with (inject_Z 8) in K2.
      rewrite <- Zlt_Qlt in K1, K2. lia. }
    assert (U : u * 6 < inject_Z k).
    { destruct (Qlt_le_dec (u * 6) (inject_Z k)) as [L|L]; [exact L|exfalso].
      assert (inject_Z k <= fl (u * 6)) by (apply fl_ge_integer; [lia | exact L]).
      set (q := inject_Z k) in *. clearbody q. lra. }
    set (q := inject_Z k) in *. clearbody q. split; lra.
Qed.

(** The die never shows less as the random number grows. *)
Lemma rollDie_mono (u v : Q) : u <= v -> (rollDie u <= rollDie v)%Z.
Proof.
  intro H. unfold rollDie.
  assert (fl (u * 6) <= fl (v * 6)) by (apply fl_mono; lra).
  assert (Qfloor (fl (u * 6)) <= Qfloor (fl (v * 6)))%Z by (apply Qfloor_resp_le; assumption).
  lia.
Qed.

Lemma rollDie_range (u : Q) : isDouble u -> 0 <= u -> u < 1 -> (1 <= rollDie u <= 6)%Z.
Proof.
  intros D H0 H1. unfold rollDie.
  pose proof (isDouble_below_one u D H1) as Hu.
  assert (L : 0 <= fl (u * 6)).
  { apply (fl_ge_integer _ 0); [vm_compute; discriminate|]. change (inject_Z 0) with 0. lra. }
  assert (U : fl (u * 6) < 6).
  { apply (fl_below_integer _ 6); [lia|]. change (inject_Z 6) with 6.
    change (pow2 (-53)) with (1 # 9007199254740992) in *. lra. }
  assert (A : (0 <= Qfloor (fl (u * 6)))%Z).
  { apply Qfloor_resp_le in L. exact L. }
  assert (B : (Qfloor (fl (u * 6)) < 6)%Z).
  { rewrite Zlt_Qlt. eapply Qle_lt_trans; [apply Qfloor_le|exact U]. }
  lia.
Qed.

(** The double just below five sixths: the product with 6 is rounded up to
    5, and the die shows 6. *)
Lemma rollDie_rounds_up :
  isDouble Example.belowFiveSixths
  /\ Example.belowFiveSixths < 5 # 6
  /\ rollDie Example.belowFiveSixths = 6%Z.
Proof. split; [vm_compute; reflexivity|]. split; reflexivity. Qed.

Lemma example_steady_valid : validRandom Example.steady.
Proof.
  intro k. split; [vm_compute; reflexivity|]. unfold Example.steady. split; lra.
Qed.

Lemma insert_desc_perm (x : Z) (l : list Z) : Permutation (insert_desc x l) (x :: l).
Proof.
  induction l as [|y r IH]; simpl; [apply Permutation_refl|].
  destruct (y <? x)%Z; [apply Permutation_refl|].
  apply Permutation_trans with (y :: x :: r); [|apply perm_swap].
  apply perm_skip. exact IH.
Qed.

Lemma insert_desc_sorted (x : Z) (l : list Z) : descending l -> descending (insert_desc x l).
Proof.
  unfold descending. induction l as [|y r IH]; simpl; intro H.
  - constructor; constructor.
  - destruct (Z.ltb_spec y x) as [Hlt|Hge].
    + constructor; [exact H|]. constructor. lia.
    + inversion H as [|? ? Hr Hhd]; subst. constructor; [apply IH; exact Hr|].
      destruct r as [|z r']; simpl.
      * constructor. exact Hge.
      * destruct (Z.ltb_spec z x); constructor; try exact Hge.
        inversion Hhd; subst. assumption.
Qed.

Lemma sort_desc_perm (l : list Z) : Permutation (sort_desc l) l.
Proof.
  induction l as [|x r IH]; simpl; [constructor|].
  apply Permutation_trans with (x :: sort_desc r); [apply insert_desc_perm|].
  apply perm_skip. exact IH.
Qed.

Lemma sort_desc_sorted (l : list Z) : descending (sort_desc l).
Proof.
  induction l as [|x r IH]; simpl; [constructor|]. apply insert_desc_sorted. exact IH.
Qed.

Lemma rollDice_perm (rnd : nat -> Q) (off count : nat) :
  Permutation (rollDice rnd off count)
              (List.map (fun k => rollDie (rnd (off + k)%nat)) (seq 0 count)).
Proof. apply sort_desc_perm. Qed.

Lemma rollDice_length (rnd : nat -> Q) (off count : nat) :
  List.length (rollDice rnd off count) = count.
Proof.
  rewrite (Permutation_length (rollDice_perm rnd off count)), length_map, length_seq.
  reflexivity.
Qed.

Lemma rollDice_faces (rnd : nat -> Q) (off count : nat) :
  validRandom rnd -> Forall (fun d => (1 <= d <= 6)%Z) (rollDice rnd off count).
Proof.
  intro H. apply Forall_forall. intros d Hd.
  apply (Permutation_in _ (rollDice_perm rnd off count)) in Hd.
  apply in_map_iff in Hd. destruct Hd as [k [<- _]].
  destruct (H (off + k)%nat) as [D [H0 H1]]. apply rollDie_range; assumption.
Qed.

(** The comparison loop counts, over the paired dice, the pairs won by the
    attacker (strictly higher die) and those won by the defender (ties
    included). *)
Lemma compareDice_counts (a d : list Z) :
  compareDice a d
  = (List.length (filter (fun ad => (fst ad <=? snd ad)%Z) (combine a d)),
     List.length (filter (fun ad => (snd ad <? fst ad)%Z) (combine a d))).
Proof.
  revert d. induction a as [|x a IH]; intros [|y d]; simpl; try reflexivity.
  rewrite IH. destruct (Z.ltb_spec y x), (Z.leb_spec x y); try lia; reflexivity.
Qed.

Lemma compareDice_total (a d : list Z) :
  (fst (compareDice a d) + snd (compareDice a d) = Nat.min (List.length a) (List.length d))%nat.
Proof.
  revert d. induction a as [|x a IH]; intros [|y d]; simpl; try reflexivity.
  specialize (IH d). destruct (compareDice a d) as [al dl]. simpl in IH.
  destruct (y <? x)%Z; simpl; lia.
Qed.

Lemma toLength_le (q : Q) : 0 <= q -> Qnat (toLength q) <= q.
Proof.
  intro H. unfold toLength, Qnat.
  assert (L : (0 <= Qfloor q)%Z).
  { apply Qfloor_resp_le in H. exact H. }
  rewrite Z2Nat.id by exact L. apply Qfloor_le.
Qed.

Lemma toLength_pos (q : Q) : 1 <= q -> (1 <= toLength q)%nat.
Proof.
  intro H. unfold toLength.
  apply Qfloor_resp_le in H. change (Qfloor 1) with 1%Z in H. lia.
Qed.

Lemma toLength_integer (n : nat) : toLength (Qnat n) = n.
Proof. unfold toLength, Qnat. rewrite Qfloor_Z. apply Nat2Z.id. Qed.

(** ** Successive assignments to objects of an array *)

Lemma update_first_twice (A : Type) (p : A -> bool) (f h : A -> A) (l : list A) :
  (forall x, p (f x) = p x) ->
  update_first p h (update_first p f l) = update_first p (fun x => h (f x)) l.
Proof.
  intro Hp. induction l as [|y r IH]; simpl; [reflexivity|].
  destruct (p y) eqn:E; simpl.
  - rewrite Hp, E. reflexivity.
  - rewrite E, IH. reflexivity.
Qed.

Lemma update_first_comm (A : Type) (p q : A -> bool) (f h : A -> A) (l : list A) :
  (forall x, p x = true -> q x = false) ->
  (forall x, q (f x) = q x) ->
  (forall x, p (h x) = p x) ->
  update_first p f (update_first q h l) = update_first q h (update_first p f l).
Proof.
  intros Hpq Hq Hp. induction l as [|y r IH]; simpl; [reflexivity|].
  destruct (p y) eqn:Ep.
  - rewrite (Hpq y Ep). simpl. rewrite Ep, Hq, (Hpq y Ep). reflexivity.
  - destruct (q y) eqn:Eq; simpl.
    + rewrite Hp, Ep, Eq. reflexivity.
    + rewrite Ep, Eq, IH. reflexivity.
Qed.

Lemma update_first_ext (A : Type) (p : A -> bool) (f h : A -> A) (l : list A) :
  (forall x, f x = h x) -> update_first p f l = update_first p h l.
Proof.
  intro H. induction l as [|y r IH]; simpl; [reflexivity|].
  rewrite H, IH. reflexivity.
Qed.

Lemma update_first_length (A : Type) (p : A -> bool) (f : A -> A) (l : list A) :
  List.length (update_first p f l) = List.length l.
Proof.
  induction l as [|y r IH]; simpl; [reflexivity|].
  destruct (p y); simpl; congruence.
Qed.

Lemma update_first_Forall (A : Type) (P : A -> Prop) (p : A -> bool) (f : A -> A) (l : list A) :
  Forall P l -> (forall x, In x l -> p x = true -> P x -> P (f x)) ->
  Forall P (update_first p f l).
Proof.
  induction l as [|y r IH]; simpl; intros H Hf; [constructor|].
  inversion H as [|? ? Hy Hr]; subst.
  destruct (p y) eqn:E.
  - constructor; [apply Hf; auto | exact Hr].
  - constructor; [exact Hy|]. apply IH; [exact Hr|]. intros x Hx. apply Hf. right. exact Hx.
Qed.

(** The map after two territories [i <> j] were assigned to. *)
Section TwoTerritories.

Variables (i j : string) (f h : Territory -> Territory) (m : list Territory).
Hypothesis Hij : i <> j.
Hypothesis Hf : forall x, t_id (f x) = t_id x.
Hypothesis Hh : forall x, t_id (h x) = t_id x.

Lemma find_two_first (x : Territory) :
  find (has_id i) m = Some x -> find (has_id i) (update_first (has_id j) h (update_first (has_id i) f m)) = Some (f x).
Proof.
  intro H. rewrite find_update_first_other.
  - apply find_update_first_hit; [exact H|].
    unfold has_id. rewrite Hf. apply find_some in H. apply H.
  - intro y. unfold has_id. rewrite Hh. reflexivity.
  - intro y. apply has_id_other. congruence.
Qed.

Lemma find_two_second (y : Territory) :
  find (has_id j) m = Some y -> find (has_id j) (update_first (has_id j) h (update_first (has_id i) f m)) = Some (h y).
Proof.
  intro H. apply find_update_first_hit.
  - rewrite find_update_first_other; [exact H| |].
    + intro x. unfold has_id. rewrite Hf. reflexivity.
    + intro x. apply has_id_other. exact Hij.
  - unfold has_id. rewrite Hh. apply find_some in H. apply H.
Qed.

Lemma find_two_other (k : string) :
  k <> i -> k <> j -> find (has_id k) (update_first (has_id j) h (update_first (has_id i) f m))
  = find (has_id k) m.
Proof.
  intros Hi Hj. rewrite !find_update_first_other; try reflexivity.
  - intro x. unfold has_id. rewrite Hf. reflexivity.
  - intro x. apply has_id_other. congruence.
  - intro x. unfold has_id. rewrite Hh. reflexivity.
  - intro x. apply has_id_other. congruence.
Qed.

End TwoTerritories.

(** ** Attack: the resolution *)

Lemma moveCountOf_max (requested : Q) (aLosses : nat) :
  moveCountOf requested aLosses = Math_max 1 (requested - Qnat aLosses).
Proof.
  unfold moveCountOf, Math_max.
  destruct (Qleb 0 (requested - Qnat aLosses)) eqn:E0; [reflexivity|].
  apply Qleb_gt in E0.
  destruct (Qleb 1 (requested - Qnat aLosses)) eqn:E1; [apply Qleb_le in E1; lra|].
  destruct (Qleb 1 0) eqn:E2; [apply Qleb_le in E2; lra | reflexivity].
Qed.

(** The territories after the losses were subtracted. *)
Lemma applyLosses_to (g : Game) (fromId toId : string) (aL dL : nat) (to : Territory) :
  fromId <> toId ->
  getTerritory g toId = Some to ->
  getTerritory (applyLosses fromId toId aL dL g) toId
  = Some (set_troops (troops to - Qnat dL) to).
Proof.
  intros Hne Ht. unfold getTerritory, applyLosses, modTerritory. simpl.
  apply (@find_two_second fromId toId
           (fun t => set_troops (troops t - Qnat aL) t)
           (fun t => set_troops (troops t - Qnat dL) t) (map g) Hne); auto.
Qed.

(** The map when the target was conquered: the source lost its losses and
    the troops moved, the target has the new owner and the troops moved. *)
Lemma conquer_map (g : Game) (playerId fromId toId : string) (requested : Q) (aL dL : nat) :
  fromId <> toId ->
  map (snd (conquer playerId fromId toId requested aL (applyLosses fromId toId aL dL g)))
  = update_first (has_id toId)
      (fun t => set_troops (moveCountOf requested aL) (set_ownerId (Some playerId) t))
      (update_first (has_id fromId)
         (fun t => set_troops (troops t - Qnat aL - moveCountOf requested aL) t) (map g)).
Proof.
  intro Hne.
  assert (E : map (snd (conquer playerId fromId toId requested aL
                                (applyLosses fromId toId aL dL g)))
              = update_first (has_id toId) (set_troops (moveCountOf requested aL))
                  (update_first (has_id fromId)
                     (fun t => set_troops (troops t - moveCountOf requested aL) t)
                     (update_first (has_id toId) (set_ownerId (Some playerId))
                        (update_first (has_id toId)
                           (fun t => set_troops (troops t - Qnat dL) t)
                           (update_first (has_id fromId)
                              (fun t => set_troops (troops t - Qnat aL) t) (map g)))))).
  { unfold conquer, checkForWinner. cbv zeta.
    destruct (negb (JS.truthy_str playerId)); [reflexivity|].
    match goal with |- context [if ?c then _ else _] => destruct c end; reflexivity. }
  rewrite E.
  rewrite (@update_first_twice _ (has_id toId)) by reflexivity.
  rewrite (@update_first_comm _ (has_id fromId) (has_id toId)).
  2:{ intro x. apply has_id_other. exact Hne. }
  2,3: reflexivity.
  rewrite (@update_first_twice _ (has_id fromId)) by reflexivity.
  rewrite (@update_first_twice _ (has_id toId)) by reflexivity.
  reflexivity.
Qed.

Lemma conquer_players (g : Game) (playerId fromId toId : string) (requested : Q) (aL : nat) :
  players (snd (conquer playerId fromId toId requested aL g))
  = update_first (is_player playerId) (set_conqueredThisTurn true) (players g).
Proof.
  unfold conquer, checkForWinner. cbv zeta.
  destruct (negb (JS.truthy_str playerId)); [reflexivity|].
  match goal with |- context [if ?c then _ else _] => destruct c end; reflexivity.
Qed.

(** The win check at the end of a conquest. *)
Lemma conquer_winner (g : Game) (playerId fromId toId : string) (requested : Q) (aL : nat) :
  let g' := snd (conquer playerId fromId toId requested aL g) in
  let ownsAll :=
    JS.truthy_str playerId
    && (List.length (map g') <=? getPlayerTerritoryCount g' playerId)%nat in
  fst (conquer playerId fromId toId requested aL g)
  = (if ownsAll then Some playerId else None)
  /\ winnerId g' = (if ownsAll then Some playerId else winnerId g).
Proof.
  unfold conquer, checkForWinner. cbv zeta.
  destruct (JS.truthy_str playerId); simpl; [|split; reflexivity].
  match goal with |- context [if ?c then _ else _] => destruct c eqn:E end; simpl.
  - unfold getPlayerTerritoryCount in *. simpl in *. rewrite E. split; reflexivity.
  - unfold getPlayerTerritoryCount in *. simpl in *. rewrite E. split; reflexivity.
Qed.

Lemma conquer_frame (g : Game) (playerId fromId toId : string) (requested : Q) (aL : nat) :
  let g' := snd (conquer playerId fromId toId requested aL g) in
  phase g' = phase g
  /\ currentPlayerIndex g' = currentPlayerIndex g
  /\ lastAttackId g' = lastAttackId g.
Proof.
  unfold conquer, checkForWinner. cbv zeta.
  destruct (negb (JS.truthy_str playerId)); [repeat split|].
  match goal with |- context [if ?c then _ else _] => destruct c end; repeat split.
Qed.

(** What [resolveBattle] does to the match, for two distinct territories. *)
Lemma resolveBattle_effect
      (rnd : nat -> Q) (g : Game) (playerId fromId toId : string) (requested : Q)
      (to : Territory) :
  fromId <> toId ->
  getTerritory g toId = Some to ->
  let r := fst (resolveBattle rnd g playerId fromId toId requested to) in
  let g' := snd (resolveBattle rnd g playerId fromId toId requested to) in
  let aL := attackerLosses r in
  let dL := defenderLosses r in
  attackerDice r = rollDice rnd 0 (toLength requested)
  /\ defenderDice r
     = rollDice rnd (toLength requested) (if Qleb 2 (troops to) then 2 else 1)
  /\ compareDice (attackerDice r) (defenderDice r) = (aL, dL)
  /\ attackTroopCount r = requested
  /\ conquered r = Qleb (troops to - Qnat dL) 0
  /\ (conquered r = true ->
      map g'
      = update_first (has_id toId)
          (fun t => set_troops (moveCountOf requested aL) (set_ownerId (Some playerId) t))
          (update_first (has_id fromId)
             (fun t => set_troops (troops t - Qnat aL - moveCountOf requested aL) t)
             (map g))
      /\ players g'
         = update_first (is_player playerId) (set_conqueredThisTurn true) (players g)
      /\ let ownsAll :=
           JS.truthy_str playerId
           && (List.length (map g') <=? getPlayerTerritoryCount g' playerId)%nat in
         a_winnerId r = (if ownsAll then Some playerId else None)
         /\ winnerId g' = (if ownsAll then Some playerId else winnerId g))
  /\ (conquered r = false ->
      map g'
      = update_first (has_id toId) (fun t => set_troops (troops t - Qnat dL) t)
          (update_first (has_id fromId) (fun t => set_troops (troops t - Qnat aL) t)
             (map g))
      /\ players g' = players g
      /\ a_winnerId r = None
      /\ winnerId g' = winnerId g)
  /\ phase g' = phase g
  /\ currentPlayerIndex g' = currentPlayerIndex g
  /\ lastAttack g' = Some r
  /\ a_id r = (lastAttackId g + 1)%nat.
Proof.
  intros Hne Ht. unfold resolveBattle. cbv zeta.
  destruct (compareDice (rollDice rnd 0 (toLength requested))
                        (rollDice rnd (toLength requested)
                                  (if Qleb 2 (troops to) then 2%nat else 1%nat)))
    as [aL dL] eqn:Ec.
  unfold troopsOf. rewrite (@applyLosses_to g fromId toId aL dL to Hne Ht).
  cbn [troops set_troops].
  destruct (Qleb (troops to - Qnat dL) 0) eqn:Eq.
  - pose proof (@conquer_map g playerId fromId toId requested aL dL Hne) as Hm.
    pose proof (@conquer_players (applyLosses fromId toId aL dL g)
                  playerId fromId toId requested aL) as Hp.
    pose proof (@conquer_winner (applyLosses fromId toId aL dL g)
                  playerId fromId toId requested aL) as Hw.
    pose proof (@conquer_frame (applyLosses fromId toId aL dL g)
                  playerId fromId toId requested aL) as Hfr.
    cbv zeta in Hw, Hfr.
    destruct (conquer playerId fromId toId requested aL
                      (applyLosses fromId toId aL dL g)) as [w h].
    cbn [fst snd] in Hm, Hp, Hw, Hfr. destruct Hfr as [Hf1 [Hf2 Hf3]].
    unfold recordAttack.
    cbn -[getPlayerTerritoryCount moveCountOf]. rewrite Eq.
    do 5 (split; [first [reflexivity | exact Ec]|]).
    split; [intros _|]. 
    { split; [exact Hm|]. split; [exact Hp|]. exact Hw. }
    split; [discriminate|].
    rewrite Hf1, Hf2, Hf3. repeat split; reflexivity.
  - unfold recordAttack. cbn. rewrite Eq.
    do 5 (split; [first [reflexivity | exact Ec]|]).
    split; [discriminate|].
    repeat split; reflexivity.
Qed.

(** An allowed attack passes every check and is resolved. *)
Lemma attack_allowed_runs
      (rnd : nat -> Q) (g : Game) (playerId fromId toId : string) (requested : Q)
      (to : Territory) :
  getTerritory g toId = Some to ->
  attackAllowed g playerId fromId toId (JS.Fin requested) ->
  attack rnd g playerId fromId toId (JS.Fin requested)
  = (Some (fst (resolveBattle rnd g playerId fromId toId requested to)),
     snd (resolveBattle rnd g playerId fromId toId requested to)).
Proof.
  intros Ht [Hw [Hp [Hc [from [to' [Hf [Ht' [Ho [Hto [Hn [r [Er [H1 [H3 Hm]]]]]]]]]]]]]].
  rewrite Ht in Ht'. injection Ht' as <-. injection Er as <-.
  unfold attack. rewrite Hw, Hp. cbn [Phase_eqb negb].
  apply notCurrentPlayer_false in Hc. rewrite Hc, Hf, Ht. cbv zeta.
  assert (Eo : owns playerId from = true) by (apply opt_is_eq; exact Ho).
  rewrite Eo. cbn [negb orb].
  assert (Et : negb (JS.opt_is (ownerId to) NEUTRAL_ID)
               && negb (JS.truthy_opt (ownerId to)
                        && negb (JS.opt_is (ownerId to) playerId)) = false).
  { destruct Hto as [E|[o [E [Hne Hnp]]]]; rewrite E.
    - reflexivity.
    - apply andb_false_iff. right. apply negb_false_iff, andb_true_iff. split.
      + apply truthy_opt_true. exists o. auto.
      + apply negb_true_iff, opt_is_neq. congruence. }
  rewrite Et.
  assert (En : set_has (t_neighbors from) toId = true) by (apply set_has_In; exact Hn).
  rewrite En. cbn [negb].
  assert (E1 : Qltb (troops from - 1) 1 = false) by (apply Qltb_ge; lra).
  assert (E2 : Qltb requested 1 = false) by (apply Qltb_ge; lra).
  assert (E3 : Qltb (troops from - 1) requested = false) by (apply Qltb_ge; lra).
  assert (E4 : Qltb 3 requested = false) by (apply Qltb_ge; lra).
  rewrite E1, E2, E3, E4.
  destruct (resolveBattle rnd g playerId fromId toId requested to). reflexivity.
Qed.

(** A player other than the neutral owner attacks a territory other than
    the source. *)
Lemma attackAllowed_distinct (g : Game) (playerId fromId toId : string) (count : JS.number) :
  playerId <> NEUTRAL_ID ->
  attackAllowed g playerId fromId toId count ->
  fromId <> toId.
Proof.
  intros Hn [_ [_ [_ [from [to [Hf [Ht [Ho [Hto _]]]]]]]]] ->.
  rewrite Hf in Ht. injection Ht as <-. rewrite Ho in Hto.
  destruct Hto as [E|[o [E [_ Hne]]]]; congruence.
Qed.

Lemma currentPlayer_found (g : Game) (playerId : string) :
  (exists p, getCurrentPlayer g = Some p /\ p_id p = playerId) ->
  exists p, getPlayer g playerId = Some p.
Proof.
  intros [p [Hp E]]. unfold getPlayer.
  destruct (find (is_player playerId) (players g)) as [p'|] eqn:F; [eauto|].
  exfalso. apply nth_error_In in Hp.
  pose proof (find_none _ _ F p Hp) as H. unfold is_player in H.
  rewrite E, String.eqb_refl in H. discriminate.
Qed.

(** The sum and the difference of two whole numbers are doubles: the code
    computes them without rounding. *)
Lemma wholeNumber_exact (a b : Q) :
  wholeNumber a -> wholeNumber b ->
  fl (a + b) == a + b /\ fl (a - b) == a - b.
Proof.
  intros [x [Ex Hx]] [y [Ey Hy]].
  assert (P : (2 ^ 53 = 2 * 2 ^ 52)%Z) by reflexivity.
  split.
  - rewrite (fl_of_integer (z := (x + y)%Z)).
    + rewrite inject_Z_plus, Ex, Ey. reflexivity.
    + rewrite inject_Z_plus, Ex, Ey. reflexivity.
    + lia.
  - rewrite (fl_of_integer (z := (x - y)%Z)).
    + rewrite inject_Z_sub, Ex, Ey. reflexivity.
    + rewrite inject_Z_sub, Ex, Ey. reflexivity.
    + lia.
Qed.

Lemma wholeNumber_Qnat (n : nat) : (Z.of_nat n <= 2 ^ 52)%Z -> wholeNumber (Qnat n).
Proof. intro H. exists (Z.of_nat n). split; [reflexivity | lia]. Qed.

Lemma wholeNumber_comp (a b : Q) : a == b -> wholeNumber a -> wholeNumber b.
Proof. intros E [z [Ez Hz]]. exists z. split; [rewrite <- E; exact Ez | exact Hz]. Qed.

(** A whole number between two whole numbers. *)
Lemma wholeNumber_between (x : Q) (z : Z) (lo hi : Z) :
  x == inject_Z z -> (lo <= z <= hi)%Z -> (- 2 ^ 52 <= lo)%Z -> (hi <= 2 ^ 52)%Z ->
  wholeNumber x.
Proof. intros E H L U. exists z. split; [exact E | lia]. Qed.

Lemma filter_length_le (A : Type) (f : A -> bool) (l : list A) :
  (List.length (filter f l) <= List.length l)%nat.
Proof.
  induction l as [|x l IH]; simpl; [lia|]. destruct (f x); simpl; lia.
Qed.

(** Every element passes the filter exactly when the filter keeps the
    length. *)
Lemma filter_all (A : Type) (p : A -> bool) (l : list A) :
  (List.length l <=? List.length (filter p l))%nat = true
  <-> forall x, In x l -> p x = true.
Proof.
  rewrite Nat.leb_le. induction l as [|x l IH]; simpl.
  - split; [intros _ y [] | lia].
  - pose proof (filter_length_le p l) as Hle.
    destruct (p x) eqn:E; simpl.
    + split.
      * intros H y [<-|Hy]; [exact E|]. apply IH; [lia | exact Hy].
      * intro H. assert (List.length l <= List.length (filter p l))%nat; [|lia].
        apply IH. intros y Hy. apply H. now right.
    + split; [lia|]. intro H. specialize (H x (or_introl eq_refl)). congruence.
Qed.

(** The losses of a battle never exceed the dice rolled. *)
Lemma losses_bound (rnd : nat -> Q) (n m : nat) (aL dL : nat) :
  compareDice (rollDice rnd 0 n) (rollDice rnd n m) = (aL, dL) ->
  (aL + dL = Nat.min n m)%nat.
Proof.
  intro H. pose proof (compareDice_total (rollDice rnd 0 n) (rollDice rnd n m)) as T.
  rewrite H, !rollDice_length in T. exact T.
Qed.

Lemma getPlayer_update_first_other (ps : list Player) (i j : string) (f : Player -> Player) :
  (forall p, p_id (f p) = p_id p) -> i <> j ->
  find (is_player i) (update_first (is_player j) f ps) = find (is_player i) ps.
Proof.
  intros Hf Hne. apply find_update_first_other.
  - intro p. unfold is_player. rewrite Hf. reflexivity.
  - intro p. unfold is_player. intro E. apply String.eqb_eq in E.
    apply String.eqb_neq. congruence.
Qed.

(** C3: an allowed attack is resolved.  Each side rolls its dice -- as many
    as the requested count for the attacker (its integer part), two or one
    for the defender.  Every die is [floor(6u) + 1] for a random number
    [u], the product being a double: it shows 1..6, never less as [u]
    grows, and each face has one sixth of [0, 1), up to the [2^-53] below
    the upper end of a sixth, where the product may be rounded up to the
    next face.  Both rolls are sorted descending and compared position by
    position, [min(attackerCount, defenderCount)] times; a strictly higher
    attacker die costs the defender one troop, anything else (ties
    included) costs the attacker one.  Nothing changes but the troops of
    the two territories and, on a conquest, the owner of the target, the
    attacker's flag and the winner.  If the defender is left with no
    troops, the territory goes to the attacker, the attacker's
    [conqueredThisTurn] flag is set and the win check runs: the attacker
    wins exactly when every territory of the map is now the attacker's.
    On whole numbers, where the code computes without rounding, the losses
    are subtracted from the troops of the two territories, and on a
    conquest [max(1, requested - attackerLosses)] troops move from the
    source into the target. *)
Theorem attack_resolution
        (rnd : nat -> Q) (g : Game) (playerId fromId toId : string) (requested : Q)
        (from to : Territory) :
  validRandom rnd ->
  playerId <> NEUTRAL_ID ->
  getTerritory g fromId = Some from ->
  getTerritory g toId = Some to ->
  attackAllowed g playerId fromId toId (JS.Fin requested) ->
  exists r g' from' to',
    attack rnd g playerId fromId toId (JS.Fin requested) = (Some r, g')
    /\ getTerritory g' fromId = Some from'
    /\ getTerritory g' toId = Some to'
    /\ (let n := toLength requested in
        let m := if Qleb 2 (troops to) then 2%nat else 1%nat in
        let pairs := combine (attackerDice r) (defenderDice r) in
        (forall N : nat, requested == Qnat N -> n = N)
        /\ Permutation (attackerDice r) (rolled rnd 0 n)
        /\ Permutation (defenderDice r) (rolled rnd n m)
        /\ (forall u k, 0 <= u -> u < 1 ->
              ((inject_Z k - 1) / 6 <= u /\ u < inject_Z k / 6 - pow2 (-53) -> rollDie u = k)
              /\ (rollDie u = k ->
                  (inject_Z k - 1) / 6 - pow2 (-53) <= u /\ u < inject_Z k / 6))
        /\ (forall u v, u <= v -> (rollDie u <= rollDie v)%Z)
        /\ Forall (fun d => (1 <= d <= 6)%Z) (attackerDice r ++ defenderDice r)
        /\ descending (attackerDice r)
        /\ descending (defenderDice r)
        /\ List.length pairs = Nat.min n m
        /\ defenderLosses r
           = List.length (filter (fun ad => (snd ad <? fst ad)%Z) pairs)
        /\ attackerLosses r
           = List.length (filter (fun ad => (fst ad <=? snd ad)%Z) pairs))
    /\ (t_id from' = t_id from /\ t_name from' = t_name from
        /\ t_continent from' = t_continent from /\ t_neighbors from' = t_neighbors from
        /\ ownerId from' = ownerId from)
    /\ (t_id to' = t_id to /\ t_name to' = t_name to
        /\ t_continent to' = t_continent to /\ t_neighbors to' = t_neighbors to)
    /\ (forall id, id <> fromId -> id <> toId -> getTerritory g' id = getTerritory g id)
    /\ (forall id, id <> playerId -> getPlayer g' id = getPlayer g id)
    /\ phase g' = phase g
    /\ currentPlayerIndex g' = currentPlayerIndex g
    /\ (0 < troops to - Qnat (defenderLosses r) ->
        conquered r = false
        /\ ownerId to' = ownerId to
        /\ players g' = players g
        /\ a_winnerId r = None
        /\ winnerId g' = winnerId g)
    /\ (troops to - Qnat (defenderLosses r) <= 0 ->
        conquered r = true
        /\ ownerId to' = Some playerId
        /\ (exists p p',
              getPlayer g playerId = Some p
              /\ getPlayer g' playerId = Some p'
              /\ conqueredThisTurn p' = true
              /\ p_id p' = p_id p /\ displayName p' = displayName p /\ color p' = color p
              /\ pool p' = pool p /\ p_troops p' = p_troops p /\ ready p' = ready p
              /\ hand p' = hand p)
        /\ (a_winnerId r = Some playerId
            <-> playerId <> ""%string
                /\ forall t, In t (map g') -> ownerId t = Some playerId)
        /\ (a_winnerId r = Some playerId \/ a_winnerId r = None)
        /\ winnerId g' = match a_winnerId r with
                         | Some w => Some w
                         | None => winnerId g
                         end)
    /\ (wholeNumber (troops from) -> wholeNumber (troops to) -> wholeNumber requested ->
        wholeNumber (troops from') /\ wholeNumber (troops to')
        /\ (0 < troops to - Qnat (defenderLosses r) ->
            troops from' = troops from - Qnat (attackerLosses r)
            /\ troops to' = troops to - Qnat (defenderLosses r))
        /\ (troops to - Qnat (defenderLosses r) <= 0 ->
            let moveCount := Math_max 1 (requested - Qnat (attackerLosses r)) in
            troops to' = moveCount
            /\ troops from' = troops from - Qnat (attackerLosses r) - moveCount)).
Proof.
  intros Hrnd Hneutral Hf Ht Hallowed.
  pose proof (attackAllowed_distinct Hneutral Hallowed) as Hne.
  rewrite (@attack_allowed_runs rnd g playerId fromId toId requested to Ht Hallowed).
  pose proof (@resolveBattle_effect rnd g playerId fromId toId requested to Hne Ht) as H.
  cbv zeta in H.
  destruct (resolveBattle rnd g playerId fromId toId requested to) as [r g'].
  cbn [fst snd] in H.
  destruct H as [Ha [Hd [Hc [_ [Hq [Hyes [Hno [Hph [Hcur _]]]]]]]]].
  (* the bounds of an allowed attack *)
  assert (Hreq : 1 <= requested /\ requested <= 3 /\ requested <= troops from - 1).
  { destruct Hallowed as [_ [_ [_ [from0 [to0 [Hf0 [_ [_ [_ [_ [q [Eq Hq0]]]]]]]]]]]].
    rewrite Hf in Hf0. injection Hf0 as <-. injection Eq as <-. exact Hq0. }
  destruct Hreq as [R1 [R3 Rf]].
  assert (Hlosses : (attackerLosses r + defenderLosses r
                     = Nat.min (toLength requested)
                               (if Qleb 2 (troops to) then 2 else 1))%nat).
  { rewrite Ha, Hd in Hc. exact (losses_bound _ _ _ Hc). }
  set (fFrom := fun t : Territory =>
                  if conquered r
                  then set_troops (troops t - Qnat (attackerLosses r)
                                   - moveCountOf requested (attackerLosses r)) t
                  else set_troops (troops t - Qnat (attackerLosses r)) t).
  set (fTo := fun t : Territory =>
                if conquered r
                then set_troops (moveCountOf requested (attackerLosses r))
                                (set_ownerId (Some playerId) t)
                else set_troops (troops t - Qnat (defenderLosses r)) t).
  assert (Hmap : map g' = update_first (has_id toId) fTo
                            (update_first (has_id fromId) fFrom (map g))).
  { unfold fFrom, fTo. destruct (conquered r) eqn:E.
    - apply (Hyes eq_refl).
    - apply (Hno eq_refl). }
  assert (IdF : forall x, t_id (fFrom x) = t_id x).
  { intro x. unfold fFrom. destruct (conquered r); reflexivity. }
  assert (IdT : forall x, t_id (fTo x) = t_id x).
  { intro x. unfold fTo. destruct (conquered r); reflexivity. }
  assert (Hfrom' : getTerritory g' fromId = Some (fFrom from)).
  { unfold getTerritory. rewrite Hmap.
    apply (@find_two_first fromId toId fFrom fTo (map g) Hne IdF IdT). exact Hf. }
  assert (Hto' : getTerritory g' toId = Some (fTo to)).
  { unfold getTerritory. rewrite Hmap.
    apply (@find_two_second fromId toId fFrom fTo (map g) Hne IdF IdT). exact Ht. }
  assert (Hplayers : players g'
                     = if conquered r
                       then update_first (is_player playerId) (set_conqueredThisTurn true)
                                         (players g)
                       else players g).
  { destruct (conquered r) eqn:E.
    - apply (Hyes eq_refl).
    - apply (Hno eq_refl). }
  exists r, g', (fFrom from), (fTo to).
  split; [reflexivity|]. split; [exact Hfrom'|]. split; [exact Hto'|].
  split.
  { cbv zeta. rewrite Ha, Hd.
    split.
    { intros N EN. unfold toLength. rewrite (Qfloor_comp _ _ EN).
      apply toLength_integer. }
    split; [apply rollDice_perm|]. split; [apply rollDice_perm|].
    split; [intros; apply rollDie_uniform; assumption|].
    split; [apply rollDie_mono|].
    split; [apply Forall_app; split; apply rollDice_faces; exact Hrnd|].
    split; [apply sort_desc_sorted|]. split; [apply sort_desc_sorted|].
    split; [rewrite length_combine, !rollDice_length; reflexivity|].
    rewrite <- Ha, <- Hd. rewrite compareDice_counts in Hc.
    injection Hc as Hc1 Hc2. auto. }
  split.
  { unfold fFrom. destruct (conquered r); repeat split; reflexivity. }
  split.
  { unfold fTo. destruct (conquered r); repeat split; reflexivity. }
  split.
  { intros id H1 H2. unfold getTerritory. rewrite Hmap.
    apply (@find_two_other fromId toId fFrom fTo (map g) IdF IdT); assumption. }
  split.
  { intros id Hid. unfold getPlayer. rewrite Hplayers.
    destruct (conquered r); [|reflexivity].
    apply getPlayer_update_first_other; [reflexivity | exact Hid]. }
  split; [exact Hph|]. split; [exact Hcur|].
  split.
  { intro Hpos.
    assert (E : conquered r = false) by (rewrite Hq; apply Qleb_gt; exact Hpos).
    destruct (Hno E) as [_ [Hp [Hw1 Hw2]]].
    split; [exact E|]. split; [unfold fTo; rewrite E; reflexivity|].
    split; [exact Hp|]. split; assumption. }
  split.
  { intro Hzero.
    assert (E : conquered r = true) by (rewrite Hq; apply Qleb_le; exact Hzero).
    destruct (Hyes E) as [_ [Hp [Hw1 Hw2]]].
    split; [exact E|]. split; [unfold fTo; rewrite E; reflexivity|].
    split.
    { destruct Hallowed as [_ [_ [Hcp _]]].
      destruct (@currentPlayer_found g playerId Hcp) as [p Hfound].
      exists p, (set_conqueredThisTurn true p). split; [exact Hfound|].
      split; [|repeat split; reflexivity].
      unfold getPlayer. rewrite Hp.
      apply find_update_first_hit; [exact Hfound|].
      unfold getPlayer in Hfound. apply find_some in Hfound. apply Hfound. }
    cbv zeta in Hw1, Hw2.
    assert (Hall : (List.length (map g') <=? getPlayerTerritoryCount g' playerId)%nat = true
                   <-> forall t, In t (map g') -> ownerId t = Some playerId).
    { unfold getPlayerTerritoryCount. rewrite filter_all. split.
      - intros Hx t Hin. apply opt_is_eq. apply (Hx t Hin).
      - intros Hx t Hin. apply opt_is_eq. apply (Hx t Hin). }
    assert (Htruthy : JS.truthy_str playerId = true <-> playerId <> ""%string).
    { unfold JS.truthy_str. rewrite negb_true_iff. apply String.eqb_neq. }
    destruct (JS.truthy_str playerId
              && (List.length (map g') <=? getPlayerTerritoryCount g' playerId)%nat) eqn:Eo.
    - apply andb_true_iff in Eo. destruct Eo as [E1 E2].
      rewrite Hw1, Hw2. split; [|split; [left; reflexivity | reflexivity]].
      split; [intros _|reflexivity]. split; [apply Htruthy, E1 | apply Hall, E2].
    - rewrite Hw1, Hw2. split; [|split; [right; reflexivity | reflexivity]].
      split; [discriminate|]. intros [H1 H2]. exfalso.
      apply Htruthy in H1. apply Hall in H2. rewrite H1, H2 in Eo. discriminate. }
  intros [zf [Ezf Hzf]] [zt [Ezt Hzt]] [zr [Ezr Hzr]].
  assert (HaL : (attackerLosses r <= 2)%nat) by (destruct (Qleb 2 (troops to)); lia).
  assert (HdL : (defenderLosses r <= 2)%nat) by (destruct (Qleb 2 (troops to)); lia).
  assert (EaL : Qnat (attackerLosses r) == inject_Z (Z.of_nat (attackerLosses r)))
    by reflexivity.
  assert (EdL : Qnat (defenderLosses r) == inject_Z (Z.of_nat (defenderLosses r)))
    by reflexivity.
  assert (Bzr : (1 <= zr <= 3)%Z).
  { rewrite Ezr in R1, R3. change 1 with (inject_Z 1) in R1. change 3 with (inject_Z 3) in R3.
    rewrite <- Zle_Qle in R1, R3. lia. }
  assert (Bzf : (zr + 1 <= zf)%Z).
  { rewrite Ezr, Ezf in Rf.
    assert (Rf' : inject_Z (zr + 1) <= inject_Z zf).
    { rewrite inject_Z_plus. change (inject_Z 1) with 1.
      revert Rf. generalize (inject_Z zr), (inject_Z zf). intros. lra. }
    rewrite <- Zle_Qle in Rf'. exact Rf'. }
  assert (HaLr : (Z.of_nat (attackerLosses r) <= zr)%Z).
  { assert (Hn : (Z.of_nat (toLength requested) <= zr)%Z).
    { unfold toLength. rewrite (Qfloor_comp _ _ Ezr), Qfloor_Z. lia. }
    lia. }
  assert (Emove : moveCountOf requested (attackerLosses r)
                  == inject_Z (Z.max 1 (zr - Z.of_nat (attackerLosses r)))).
  { rewrite moveCountOf_max.
    destruct (Math_max_spec 1 (requested - Qnat (attackerLosses r))) as [[Hm ->]|[Hm ->]].
    - rewrite Ezr, EaL, <- inject_Z_sub in Hm. change 1 with (inject_Z 1) in Hm.
      rewrite <- Zle_Qle in Hm. rewrite Z.max_r by exact Hm.
      rewrite Ezr, EaL, <- inject_Z_sub. reflexivity.
    - rewrite Ezr, EaL, <- inject_Z_sub in Hm. change 1 with (inject_Z 1) in Hm.
      rewrite <- Zlt_Qlt in Hm. rewrite Z.max_l by lia. reflexivity. }
  destruct (conquered r) eqn:E.
  - assert (Hzero : troops to - Qnat (defenderLosses r) <= 0).
    { apply Qleb_le. rewrite <- Hq. reflexivity. }
    split; [|split; [|split]].
    + unfold fFrom. cbn [troops set_troops].
      apply (@wholeNumber_between _
               (zf - Z.of_nat (attackerLosses r)
                - Z.max 1 (zr - Z.of_nat (attackerLosses r))) (- 6) zf);
        [|lia|vm_compute; discriminate|lia].
      rewrite Ezf, EaL, Emove, !inject_Z_sub. reflexivity.
    + unfold fTo. cbn [troops set_troops].
      apply (@wholeNumber_between _ (Z.max 1 (zr - Z.of_nat (attackerLosses r))) 0 3);
        [exact Emove|lia|vm_compute; discriminate|vm_compute; discriminate].
    + intro Hpos. exfalso. lra.
    + intros _. cbv zeta. rewrite <- moveCountOf_max. unfold fTo, fFrom.
      split; reflexivity.
  - assert (Hpos : 0 < troops to - Qnat (defenderLosses r)).
    { apply Qleb_gt. rewrite <- Hq. reflexivity. }
    split; [|split; [|split]].
    + unfold fFrom. cbn [troops set_troops].
      apply (@wholeNumber_between _ (zf - Z.of_nat (attackerLosses r)) 0 zf);
        [|lia|vm_compute; discriminate|lia].
      rewrite Ezf, EaL, inject_Z_sub. reflexivity.
    + unfold fTo. cbn [troops set_troops].
      assert (Bzt : (0 < zt - Z.of_nat (defenderLosses r))%Z).
      { rewrite Ezt, EdL, <- inject_Z_sub in Hpos. change 0 with (inject_Z 0) in Hpos.
        rewrite <- Zlt_Qlt in Hpos. exact Hpos. }
      apply (@wholeNumber_between _ (zt - Z.of_nat (defenderLosses r)) 0 zt);
        [|lia|vm_compute; discriminate|lia].
      rewrite Ezt, EdL, inject_Z_sub. reflexivity.
    + intros _. unfold fTo, fFrom. split; reflexivity.
    + intro Hzero. exfalso. lra.
Qed.

(** ** Troop totals across an attack *)

Lemma total_update_first (w : Territory -> Q) (p : Territory -> bool)
      (f : Territory -> Territory) (l : list Territory) (x : Territory) :
  find p l = Some x ->
  total w (update_first p f l) == total w l - w x + w (f x).
Proof.
  induction l as [|y r IH]; simpl; [discriminate|].
  destruct (p y) eqn:E; intro H.
  - injection H as ->. simpl. ring.
  - simpl. rewrite (IH H). ring.
Qed.





(** At least one pair of dice is compared. *)
Lemma losses_positive (rnd : nat -> Q) (requested : Q) (m : nat) (aL dL : nat) :
  1 <= requested -> (1 <= m)%nat ->
  compareDice (rollDice rnd 0 (toLength requested)) (rollDice rnd (toLength requested) m)
  = (aL, dL) ->
  (1 <= aL + dL)%nat /\ (aL + dL <= toLength requested)%nat /\ (aL + dL <= m)%nat.
Proof.
  intros Hr Hm E.
  pose proof (compareDice_total (rollDice rnd 0 (toLength requested))
                                (rollDice rnd (toLength requested) m)) as H.
  rewrite E, !rollDice_length in H. simpl in H.
  pose proof (toLength_pos Hr). lia.
Qed.


(** ** Attacks on the example boards *)

Lemma example_attack_allowed :
  attackAllowed Example.attackGame "p1" "A" "B" (JS.Fin 2).
Proof.
  split; [reflexivity|]. split; [reflexivity|].
  split; [exists (Example.player "p1" 5); split; reflexivity|].
  exists (Example.territory "A" ["B"]%string (Some "p1"%string) 3),
         (Example.territory "B" ["A"; "C"]%string (Some "p2"%string) 2).
  split; [reflexivity|]. split; [reflexivity|]. split; [reflexivity|].
  split; [right; exists "p2"%string; repeat split; discriminate|].
  split; [left; reflexivity|].
  exists 2. simpl. repeat split; lra.
Qed.

Lemma attack_resolution_witness :
  exists r g',
    attack Example.steady Example.attackGame "p1" "A" "B" (JS.Fin 2) = (Some r, g')
    /\ attackerDice r = [6; 6]%Z /\ defenderDice r = [6; 6]%Z
    /\ attackerLosses r = 2%nat /\ troopsOf g' "A" = 3 - Qnat 2.
Proof.
  assert (Hn : "p1"%string <> NEUTRAL_ID) by discriminate.
  destruct (@attack_resolution Example.steady Example.attackGame "p1" "A" "B" 2
              (Example.territory "A" ["B"]%string (Some "p1"%string) 3)
              (Example.territory "B" ["A"; "C"]%string (Some "p2"%string) 2)
              example_steady_valid Hn eq_refl eq_refl example_attack_allowed)
    as [r [g' [from' [to' [E [Ef [_ [_ [_ [_ [_ [_ [_ [_ [_ [_ W]]]]]]]]]]]]]]]].
  exists r, g'. split; [exact E|].
  assert (E' : attack Example.steady Example.attackGame "p1" "A" "B" (JS.Fin 2)
               = (Some r, g')) by exact E.
  vm_compute in E'. injection E' as <- <-.
  split; [reflexivity|]. split; [reflexivity|]. split; [reflexivity|].
  reflexivity.
Defined.



(** ** Fortify connectivity: the search *)

Section Search.

Variables (g : Game) (playerId : string).
Local Abbreviation owned := (ownedIds g playerId).

Lemma visitNeighbors_cons (n : string) (ns : list string) (vq : list string * list string) :
  visitNeighbors owned (n :: ns) vq = visitNeighbors owned ns (visitOne owned vq n).
Proof. reflexivity. Qed.

Lemma visitOne_cases (vq : list string * list string) (n : string) :
  (visitOne owned vq n = vq /\ (set_has owned n = false \/ In n (fst vq)))
  \/ (visitOne owned vq n = (n :: fst vq, snd vq ++ [n])
      /\ In n owned /\ ~ In n (fst vq)).
Proof.
  unfold visitOne.
  destruct (set_has owned n) eqn:Eo; simpl; [|left; auto].
  destruct (set_has (fst vq) n) eqn:Ev; [left|right].
  - split; [reflexivity|]. right. apply set_has_In. exact Ev.
  - split; [reflexivity|]. split; [apply set_has_In; exact Eo|].
    intro H. apply set_has_In in H. congruence.
Qed.

(** Whatever enters the queue is an owned neighbour. *)
Lemma visitNeighbors_queue (ns : list string) (vq : list string * list string) (x : string) :
  In x (snd (visitNeighbors owned ns vq)) ->
  In x (snd vq) \/ (In x ns /\ In x owned).
Proof.
  revert vq. induction ns as [|n ns IH]; intros vq H; [left; exact H|].
  rewrite visitNeighbors_cons in H. apply IH in H.
  destruct H as [H|[H1 H2]]; [|right; split; [right|]; assumption].
  destruct (visitOne_cases vq n) as [[E _]|[E [Ho _]]]; rewrite E in H.
  - left. exact H.
  - simpl in H. apply in_app_or in H. destruct H as [H|[<-|[]]].
    + left. exact H.
    + right. split; [left; reflexivity | exact Ho].
Qed.

Lemma set_has_cons (n : string) (visited : list string) (z : string) :
  set_has (n :: visited) z = String.eqb z n || set_has visited z.
Proof. reflexivity. Qed.

Lemma unvisited_le (l visited : list string) (n : string) :
  (unvisited l (n :: visited) <= unvisited l visited)%nat.
Proof.
  unfold unvisited. induction l as [|z l IH]; [apply Nat.le_refl|].
  cbn [filter]. rewrite set_has_cons.
  destruct (String.eqb z n); destruct (set_has visited z);
    cbn [negb orb List.length]; lia.
Qed.

Lemma unvisited_cons (l visited : list string) (n : string) :
  In n l -> ~ In n visited ->
  (unvisited l (n :: visited) < unvisited l visited)%nat.
Proof.
  intros Hin Hv. induction l as [|y l IH]; [destruct Hin|].
  unfold unvisited in *. cbn [filter]. rewrite set_has_cons.
  destruct (String.eqb_spec y n) as [->|Hne].
  - assert (Ev : set_has visited n = false).
    { destruct (set_has visited n) eqn:E; [|reflexivity].
      apply set_has_In in E. contradiction. }
    rewrite Ev. cbn [negb orb List.length]. pose proof (unvisited_le l visited n) as Hle.
    unfold unvisited in Hle. lia.
  - destruct Hin as [->|Hin]; [congruence|]. specialize (IH Hin).
    destruct (set_has visited y); cbn [negb orb List.length]; lia.
Qed.

(** The loop over the neighbours never increases the remaining work. *)
Lemma visitNeighbors_measure (ns : list string) (vq : list string * list string) :
  let vq' := visitNeighbors owned ns vq in
  (2 * unvisited owned (fst vq') + List.length (snd vq')
   <= 2 * unvisited owned (fst vq) + List.length (snd vq))%nat.
Proof.
  revert vq. induction ns as [|n ns IH]; intro vq; [simpl; lia|].
  rewrite visitNeighbors_cons. cbv zeta in *.
  eapply Nat.le_trans; [apply IH|].
  destruct (visitOne_cases vq n) as [[E _]|[E [Ho Hv]]]; rewrite E; [lia|].
  simpl fst. simpl snd. rewrite length_app. simpl.
  pose proof (@unvisited_cons owned (fst vq) n Ho Hv). lia.
Qed.

(** The bound on the iterations is never reached. *)
Lemma searchQueue_total (toId : string) (fuel : nat) (queue visited : list string) :
  (2 * unvisited owned visited + List.length queue < fuel)%nat ->
  searchQueue g owned toId fuel queue visited <> None.
Proof.
  revert queue visited. induction fuel as [|fuel IH]; intros queue visited H; [lia|].
  simpl. destruct queue as [|currentId rest]; [discriminate|].
  destruct (String.eqb currentId toId); [discriminate|].
  simpl in H. destruct (getTerritory g currentId) as [current|].
  - pose proof (visitNeighbors_measure (t_neighbors current) (visited, rest)) as M.
    cbv zeta in M. simpl fst in M. simpl snd in M.
    destruct (visitNeighbors owned (t_neighbors current) (visited, rest)) as [visited' queue'].
    apply IH. simpl in M. lia.
  - apply IH. lia.
Qed.

Lemma ownedPath_snoc (a b c : string) :
  ownedPath g playerId a b -> adjacent g b c -> In c owned ->
  ownedPath g playerId a c.
Proof.
  intros H Hbc Hc. induction H as [a Ha | a b' c' Ha Hab _ IH].
  - apply path_step with c; [exact Ha | exact Hbc |]. apply path_end. exact Hc.
  - apply path_step with b'; [exact Ha | exact Hab |]. apply IH. exact Hbc.
Qed.

(** Every identifier taken from the queue is reached from [fromId] through
    owned territories, so a successful search yields such a path. *)
Lemma searchQueue_sound (fromId toId : string) (fuel : nat) (queue visited : list string) :
  (forall x, In x queue -> ownedPath g playerId fromId x) ->
  searchQueue g owned toId fuel queue visited = Some true ->
  ownedPath g playerId fromId toId.
Proof.
  revert queue visited. induction fuel as [|fuel IH]; intros queue visited Hq; [discriminate|].
  simpl. destruct queue as [|currentId rest]; [discriminate|].
  destruct (String.eqb_spec currentId toId) as [->|Hne].
  - intros _. apply Hq. left. reflexivity.
  - destruct (getTerritory g currentId) as [current|] eqn:Hc.
    + pose proof (@visitNeighbors_queue (t_neighbors current) (visited, rest)) as Hin.
      destruct (visitNeighbors owned (t_neighbors current) (visited, rest))
        as [visited' queue'].
      apply IH. intros x Hx. apply Hin in Hx. simpl in Hx.
      destruct Hx as [Hx|[Hx Ho]]; [apply Hq; right; exact Hx|].
      apply ownedPath_snoc with currentId; [apply Hq; left; reflexivity | | exact Ho].
      exists current. auto.
    + apply IH. intros x Hx. apply Hq. right. exact Hx.
Qed.

(** The loop over the neighbours only adds identifiers, to both lists at
    once, and leaves every owned neighbour visited. *)
Lemma visitNeighbors_grows (ns : list string) (vq : list string * list string) :
  let vq' := visitNeighbors owned ns vq in
  (forall x, In x (fst vq) -> In x (fst vq'))
  /\ (forall x, In x (snd vq) -> In x (snd vq'))
  /\ (forall x, In x ns -> In x owned -> In x (fst vq'))
  /\ (forall x, In x (fst vq') -> In x (fst vq) \/ In x (snd vq'))
  /\ (forall x, In x (snd vq') -> In x (snd vq) \/ In x (fst vq')).
Proof.
  revert vq. induction ns as [|n ns IH]; intro vq.
  - simpl. repeat split; auto. intros x [].
  - rewrite visitNeighbors_cons. cbv zeta in *.
    destruct (IH (visitOne owned vq n)) as [I1 [I2 [I3 [I4 I5]]]].
    destruct (visitOne_cases vq n) as [[E Hn]|[E [Ho Hv]]]; rewrite E in *.
    + repeat split; auto.
      intros x [<-|Hx] Hox; [|auto].
      destruct Hn as [Hn|Hn]; [|auto].
      apply set_has_In in Hox. congruence.
    + simpl fst in *. simpl snd in *. split; [|split; [|split; [|split]]].
      * intros x Hx. apply I1. right. exact Hx.
      * intros x Hx. apply I2. apply in_or_app. left. exact Hx.
      * intros x [<-|Hx] Hox; [apply I1; left; reflexivity | auto].
      * intros x Hx. destruct (I4 x Hx) as [[<-|H]|H]; auto.
        right. apply I2. apply in_or_app. right. left. reflexivity.
      * intros x Hx. destruct (I5 x Hx) as [H|H]; auto.
        apply in_app_or in H. destruct H as [H|[<-|[]]]; auto.
        right. apply I1. left. reflexivity.
Qed.

Lemma ownedPath_start (a b : string) : ownedPath g playerId a b -> In a owned.
Proof. intro H. destruct H; assumption. Qed.

Lemma ownedPath_finish (a b : string) : ownedPath g playerId a b -> In b owned.
Proof. intro H. induction H; assumption. Qed.

(** The search only gives up when the visited set is closed under owned
    neighbours and does not contain [toId]. *)
Lemma searchQueue_complete (fromId toId : string) (fuel : nat) (queue visited : list string) :
  In fromId visited ->
  (forall x, In x queue -> In x visited) ->
  (forall x, In x visited -> ~ In x queue ->
             x <> toId /\ forall y, adjacent g x y -> In y owned -> In y visited) ->
  searchQueue g owned toId fuel queue visited = Some false ->
  ~ ownedPath g playerId fromId toId.
Proof.
  revert queue visited. induction fuel as [|fuel IH]; intros queue visited H1 H2 H3;
    [discriminate|].
  simpl. destruct queue as [|currentId rest].
  - intros _ Hpath.
    assert (Hclosed : forall a c, ownedPath g playerId a c -> In a visited -> In c visited).
    { intros a c P. induction P as [a _ | a b c _ Hab P IHP]; intro Ha; [exact Ha|].
      apply IHP. destruct (H3 a Ha) as [_ Hn]; [intros []|].
      apply Hn; [exact Hab | apply (ownedPath_start P)]. }
    destruct (H3 toId (Hclosed _ _ Hpath H1)) as [Hne _]; [intros []|].
    apply Hne. reflexivity.
  - destruct (String.eqb_spec currentId toId) as [->|Hne]; [discriminate|].
    destruct (getTerritory g currentId) as [current|] eqn:Hc.
    + pose proof (visitNeighbors_grows (t_neighbors current) (visited, rest)) as G.
      cbv zeta in G. simpl fst in G. simpl snd in G.
      destruct (visitNeighbors owned (t_neighbors current) (visited, rest))
        as [visited' queue'].
      simpl fst in G. simpl snd in G. destruct G as [G1 [G2 [G3 [G4 G5]]]].
      apply IH.
      * apply G1. exact H1.
      * intros x Hx. destruct (G5 x Hx) as [H|H]; [|exact H].
        apply G1. apply H2. right. exact H.
      * intros x Hx Hnq.
        assert (Hv : In x visited) by (destruct (G4 x Hx) as [H|H]; [exact H | contradiction]).
        destruct (String.eqb_spec x currentId) as [->|Hxc].
        -- split; [exact Hne|]. intros y [t [Et Hy]] Hoy.
           rewrite Hc in Et. injection Et as <-. apply G3; assumption.
        -- destruct (H3 x Hv) as [Hx1 Hx2].
           { intros [E|Hin]; [congruence|]. apply Hnq. apply G2. exact Hin. }
           split; [exact Hx1|]. intros y Hy Hoy. apply G1. apply Hx2; assumption.
    + apply IH.
      * exact H1.
      * intros x Hx. apply H2. right. exact Hx.
      * intros x Hx Hnq.
        destruct (String.eqb_spec x currentId) as [->|Hxc].
        -- split; [exact Hne|]. intros y [t [Et _]]. congruence.
        -- apply H3; [exact Hx|]. intros [E|Hin]; [congruence | contradiction].
Qed.

Lemma ownedIds_length : (List.length owned <= List.length (map g))%nat.
Proof.
  unfold ownedIds. rewrite length_map. apply filter_length_le.
Qed.

Lemma unvisited_bound (l visited : list string) :
  (unvisited l visited <= List.length l)%nat.
Proof. unfold unvisited. apply filter_length_le. Qed.

(** [isConnected] decides whether an owned path exists. *)
Lemma isConnected_iff (fromId toId : string) :
  isConnected g playerId fromId toId = true <-> ownedPath g playerId fromId toId.
Proof.
  unfold isConnected.
  assert (Hfuel : (2 * unvisited owned [fromId] + List.length [fromId]
                   < isConnected_fuel g)%nat).
  { unfold isConnected_fuel. simpl List.length.
    pose proof (unvisited_bound owned [fromId]). pose proof ownedIds_length. lia. }
  pose proof (@searchQueue_total toId _ _ _ Hfuel) as Htotal.
  split.
  - destruct (set_has owned fromId) eqn:Ef; [|discriminate].
    destruct (set_has owned toId) eqn:Et; [|discriminate]. simpl.
    destruct (searchQueue g owned toId (isConnected_fuel g) [fromId] [fromId])
      as [[|]|] eqn:E; try discriminate.
    intros _. apply (@searchQueue_sound fromId toId _ _ _) with (2 := E).
    intros x [<-|[]]. apply path_end. apply set_has_In. exact Ef.
  - intro P.
    assert (Ef : set_has owned fromId = true)
      by (apply set_has_In; apply (ownedPath_start P)).
    assert (Et : set_has owned toId = true)
      by (apply set_has_In; apply (ownedPath_finish P)).
    rewrite Ef, Et. simpl.
    destruct (searchQueue g owned toId (isConnected_fuel g) [fromId] [fromId])
      as [[|]|] eqn:E; [reflexivity | | congruence].
    exfalso. revert P. apply (@searchQueue_complete fromId toId _ _ _) with (4 := E).
    + left. reflexivity.
    + auto.
    + intros x [<-|[]] Hn. exfalso. apply Hn. left. reflexivity.
Qed.

End Search.

(** ** Fortify *)

Lemma isInteger_pos (q : Q) : isInteger q -> 0 < q -> 1 <= q.
Proof.
  intros [z Hz] H. rewrite Hz in *. change 0 with (inject_Z 0) in H.
  change 1 with (inject_Z 1). rewrite <- Zlt_Qlt in H. rewrite <- Zle_Qle. lia.
Qed.

Lemma isInteger_minus (a b : Q) : isInteger a -> isInteger b -> isInteger (a - b).
Proof.
  intros [x Hx] [y Hy]. exists (x - y)%Z. rewrite Hx, Hy.
  unfold Z.sub. rewrite inject_Z_plus, inject_Z_opp. reflexivity.
Qed.

Lemma isInteger_plus (a b : Q) : isInteger a -> isInteger b -> isInteger (a + b).
Proof.
  intros [x Hx] [y Hy]. exists (x + y)%Z. rewrite Hx, Hy, inject_Z_plus. reflexivity.
Qed.

Lemma isInteger_Qnat (n : nat) : isInteger (Qnat n).
Proof. exists (Z.of_nat n). reflexivity. Qed.

Lemma isInteger_one : isInteger 1.
Proof. exists 1%Z. reflexivity. Qed.

Lemma fortifyAmount_given (c : Q) : 1 <= c -> fortifyAmount (JS.Fin c) = JS.Fin c.
Proof.
  intro H. unfold fortifyAmount, JS.or. simpl.
  destruct (Qeqb c 0) eqn:E; [apply Qeqb_eq in E; lra|]. simpl.
  unfold Math_max. destruct (Qleb 1 c) eqn:E1; [reflexivity|].
  apply Qleb_gt in E1. lra.
Qed.

(** What a successful call of [fortify] implies. *)
Lemma fortify_accepted
        (continents : list Continent) (rnd : nat -> Q) (g g' : Game)
        (playerId fromId toId : string) (count : JS.number) :
  fortify continents rnd g playerId fromId toId count = (true, g') ->
  JS.truthy_opt (winnerId g) = false
  /\ phase g = TURN_FORTIFY
  /\ (exists p, getCurrentPlayer g = Some p /\ p_id p = playerId)
  /\ fromId <> toId
  /\ ownedPath g playerId fromId toId
  /\ exists from to moveCount,
      getTerritory g fromId = Some from
      /\ getTerritory g toId = Some to
      /\ ownerId from = Some playerId
      /\ ownerId to = Some playerId
      /\ fortifyAmount count = JS.Fin moveCount
      /\ 1 <= moveCount
      /\ (forall c, count = JS.Fin c -> 1 <= c -> moveCount = c)
      /\ 0 < troops from - moveCount
      /\ (isInteger (troops from) -> isInteger moveCount -> 1 <= troops from - moveCount)
      /\ let moved :=
           modTerritory toId (fun t => set_troops (troops t + moveCount) t)
             (modTerritory fromId (fun t => set_troops (troops t - moveCount) t) g) in
         getTerritory moved fromId = Some (set_troops (troops from - moveCount) from)
         /\ getTerritory moved toId = Some (set_troops (troops to + moveCount) to)
         /\ g' = nextTurn continents rnd moved.
Proof.
  unfold fortify.
  destruct (JS.truthy_opt (winnerId g)) eqn:Hw; [discriminate|].
  destruct (Phase_eqb (phase g) TURN_FORTIFY) eqn:Hp; [|discriminate]. cbn [negb].
  destruct (notCurrentPlayer g playerId) eqn:Hc; [discriminate|].
  destruct (negb (JS.truthy_str fromId) || negb (JS.truthy_str toId) || String.eqb fromId toId)
    eqn:Hids; [discriminate|].
  destruct (getTerritory g fromId) as [from|] eqn:Hf; [|discriminate].
  destruct (getTerritory g toId) as [to|] eqn:Ht; [|discriminate].
  destruct (negb (owns playerId from) || negb (owns playerId to)) eqn:Ho; [discriminate|].
  destruct (isConnected g playerId fromId toId) eqn:Hconn; [|discriminate]. cbn [negb].
  destruct (fortifyAmount count) as [moveCount| | |] eqn:Hamount; try discriminate.
  destruct (Qleb (troops from) moveCount) eqn:Hleave; [discriminate|].
  intro H. injection H as <-.
  apply orb_false_iff in Hids. destruct Hids as [_ Hne]. apply String.eqb_neq in Hne.
  apply orb_false_iff in Ho. destruct Ho as [Ho1 Ho2].
  apply negb_false_iff, opt_is_eq in Ho1. apply negb_false_iff, opt_is_eq in Ho2.
  apply Qleb_gt in Hleave.
  split; [reflexivity|]. split; [destruct (phase g); try discriminate; reflexivity|].
  split; [apply notCurrentPlayer_false; exact Hc|].
  split; [exact Hne|]. split; [apply isConnected_iff; exact Hconn|].
  exists from, to, moveCount.
  repeat (split; [first [reflexivity | assumption]|]).
  assert (H1 : 1 <= moveCount).
  { destruct (fortifyAmount_range count) as [[a [E Ha]]|E]; rewrite E in Hamount;
      [injection Hamount as <-; exact Ha | discriminate]. }
  split; [exact H1|]. split.
  { intros c -> Hc1. rewrite (fortifyAmount_given Hc1) in Hamount. congruence. }
  split; [lra|]. split.
  { intros Ia Ib. apply isInteger_pos; [apply isInteger_minus; assumption | lra]. }
  cbv zeta. unfold getTerritory, modTerritory. simpl.
  split; [|split; [|reflexivity]].
  - apply (@find_two_first fromId toId
             (fun t => set_troops (troops t - moveCount) t)
             (fun t => set_troops (troops t + moveCount) t) (map g) Hne); auto.
  - apply (@find_two_second fromId toId
             (fun t => set_troops (troops t - moveCount) t)
             (fun t => set_troops (troops t + moveCount) t) (map g) Hne); auto.
Qed.




(** A failed call leaves the match as it was; in particular a call for two
    territories that no owned path connects. *)
Lemma fortify_rejected_unchanged
      (continents : list Continent) (rnd : nat -> Q) (g : Game)
      (playerId fromId toId : string) (count : JS.number) :
  fst (fortify continents rnd g playerId fromId toId count) = false ->
  fortify continents rnd g playerId fromId toId count = (false, g).
Proof.
  unfold fortify.
  repeat match goal with
         | |- context [if ?c then (false, g) else _] => destruct c; [reflexivity|]
         | |- context [match ?x with _ => _ end] => destruct x; try reflexivity
         end.
  discriminate.
Qed.

Lemma fortify_unconnected
      (continents : list Continent) (rnd : nat -> Q) (g : Game)
      (playerId fromId toId : string) (count : JS.number) :
  ~ ownedPath g playerId fromId toId ->
  fortify continents rnd g playerId fromId toId count = (false, g).
Proof.
  intro H. apply fortify_rejected_unchanged.
  destruct (fortify continents rnd g playerId fromId toId count) as [[|] g'] eqn:E;
    [|reflexivity].
  exfalso. apply H. apply (fortify_accepted _ _ _ _ _ _ _ E).
Qed.



(** ** The garrison invariant *)

(** *** Operations that leave the map alone *)

(** Case analysis on every test of the goal. *)
Ltac split_tests :=
  repeat match goal with
         | |- context [if ?c then _ else _] => destruct c
         | |- context [match ?x with _ => _ end] => destruct x
         end.

Lemma map_addPlayer (sanitize : list Player -> string -> string) (g : Game)
      (socketId requestedName : string) :
  map (snd (addPlayer sanitize g socketId requestedName)) = map g.
Proof. unfold addPlayer. split_tests; reflexivity. Qed.

Lemma map_setPlayerReady (g : Game) (socketId : string) (readyValue : bool) :
  map (snd (setPlayerReady g socketId readyValue)) = map g.
Proof. unfold setPlayerReady. split_tests; reflexivity. Qed.

Lemma map_togglePlayerReady (g : Game) (socketId : string) :
  map (snd (togglePlayerReady g socketId)) = map g.
Proof. unfold togglePlayerReady. split_tests; reflexivity. Qed.

Lemma map_startNewRound (continents : list Continent) (g : Game) :
  map (startNewRound continents g) = map g.
Proof. reflexivity. Qed.

Lemma map_grantTurnCardIfEligible (rnd : nat -> Q) (player : Player) (g : Game) :
  map (snd (grantTurnCardIfEligible rnd player g)) = map g.
Proof.
  unfold grantTurnCardIfEligible.
  destruct (negb (conqueredThisTurn player)); [reflexivity|].
  destruct (draw rnd (deck g)) as [[card|] d]; reflexivity.
Qed.

Lemma map_nextTurn (continents : list Continent) (rnd : nat -> Q) (g : Game) :
  map (nextTurn continents rnd g) = map g.
Proof.
  unfold nextTurn. destruct (List.length (players g) =? 0)%nat; [reflexivity|].
  cbv zeta.
  match goal with |- context [advanceCursor ?x] => set (h := x) end.
  assert (Hh : map h = map g).
  { unfold h.
    destruct (getCurrentPlayer (set_pendingCardEarned None g)) as [p|]; [|reflexivity].
    pose proof (map_grantTurnCardIfEligible rnd p (set_pendingCardEarned None g)) as M.
    destruct (grantTurnCardIfEligible rnd p (set_pendingCardEarned None g)) as [[c|] h'];
      exact M. }
  clearbody h.
  destruct (currentPlayerIndex (advanceCursor h) =? 0)%nat.
  - rewrite map_startNewRound. destruct (isFirstRound (advanceCursor h)); exact Hh.
  - exact Hh.
Qed.

Lemma map_nextPhase (continents : list Continent) (rnd : nat -> Q) (g : Game) :
  map (snd (nextPhase continents rnd g)) = map g.
Proof.
  unfold nextPhase. destruct (JS.truthy_opt (winnerId g)); [reflexivity|].
  destruct (phase g); try reflexivity.
  - destruct (getCurrentPlayer g); [|reflexivity].
    destruct (Qeqb _ _); [|reflexivity]. cbv zeta.
    destruct (_ =? 0)%nat; reflexivity.
  - apply map_nextTurn.
Qed.

Lemma map_tradeCards (g : Game) (playerId : string) (selectedCardUids : list string) :
  map (snd (tradeCards g playerId selectedCardUids)) = map g.
Proof.
  unfold tradeCards.
  destruct (JS.truthy_opt (winnerId g) || Phase_eqb (phase g) LOBBY); [reflexivity|].
  destruct (getPlayer g playerId); [|reflexivity].
  destruct (notCurrentPlayer g playerId); [reflexivity|].
  destruct (_ <? 3)%nat; [reflexivity|]. cbv zeta.
  destruct (negb (_ =? 3)%nat); [reflexivity|].
  destruct (negb (_ =? 3)%nat); [reflexivity|].
  destruct (negb (isValidTradeSet _)); [reflexivity|].
  destruct (getTradeInReward _); reflexivity.
Qed.

Lemma map_deployCompletion (continents : list Continent) (poolNow : Q) (g : Game) :
  map (deployCompletion continents poolNow g) = map g.
Proof.
  unfold deployCompletion. destruct (phase g); try reflexivity.
  - destruct (areAllPoolsEmpty g).
    + cbv zeta. destruct (isFirstRound _); reflexivity.
    + destruct (Qeqb poolNow 0); reflexivity.
  - destruct (Qeqb poolNow 0); [|reflexivity]. cbv zeta.
    destruct (_ =? 0)%nat; reflexivity.
Qed.

(** *** Assignments that keep the invariant *)

Lemma update_first_Forall_found (A : Type) (P : A -> Prop) (p : A -> bool) (f : A -> A)
      (l : list A) (x : A) :
  find p l = Some x -> Forall P l -> P (f x) -> Forall P (update_first p f l).
Proof.
  induction l as [|y r IH]; simpl; [discriminate|].
  destruct (p y) eqn:E; intros H HF Hx; inversion HF; subst.
  - injection H as ->. constructor; assumption.
  - constructor; [assumption|]. apply IH; assumption.
Qed.

Lemma update_nth_Forall (A : Type) (P : A -> Prop) (i : nat) (f : A -> A) (l : list A) :
  Forall P l -> (forall x, P (f x)) -> Forall P (update_nth i f l).
Proof.
  intros HF Hf. revert i. induction HF as [|y r Hy Hr IH]; intro i; [destruct i; constructor|].
  destruct i; simpl; constructor; auto.
Qed.

Lemma Forall_two (P : Territory -> Prop) (i j : string) (f h : Territory -> Territory)
      (m : list Territory) (from to : Territory) :
  i <> j ->
  (forall x, t_id (f x) = t_id x) ->
  find (has_id i) m = Some from ->
  find (has_id j) m = Some to ->
  Forall P m -> P (f from) -> P (h to) ->
  Forall P (update_first (has_id j) h (update_first (has_id i) f m)).
Proof.
  intros Hij Hf Hi Hj HF Pf Ph.
  apply update_first_Forall_found with (x := to).
  - rewrite find_update_first_other; [exact Hj| |].
    + intro x. unfold has_id. rewrite Hf. reflexivity.
    + intro x. apply has_id_other. exact Hij.
  - apply update_first_Forall_found with (x := from); assumption.
  - exact Ph.
Qed.

Lemma find_Forall (A : Type) (P : A -> Prop) (p : A -> bool) (l : list A) (x : A) :
  find p l = Some x -> Forall P l -> P x.
Proof.
  intros H HF. apply find_some in H. destruct H as [Hin _].
  rewrite Forall_forall in HF. apply HF. exact Hin.
Qed.

Lemma isInteger_Math_max (a b : Q) : isInteger a -> isInteger b -> isInteger (Math_max a b).
Proof. intros Ha Hb. unfold Math_max. destruct (Qleb a b); assumption. Qed.

Lemma isInteger_zero : isInteger 0.
Proof. exists 0%Z. reflexivity. Qed.

Lemma deployAmount_whole (count : JS.number) (amount : Q) :
  wholeCount count -> deployAmount count = JS.Fin amount -> isInteger amount /\ 1 <= amount.
Proof.
  intros Hw E. split.
  - unfold deployAmount, JS.or in E. destruct count as [q| | |]; simpl in E.
    + destruct (Qeqb q 0); simpl in E; injection E as <-;
        apply isInteger_Math_max; auto using isInteger_one, isInteger_zero.
    + injection E as <-. apply isInteger_Math_max; auto using isInteger_one, isInteger_zero.
    + discriminate.
    + injection E as <-. apply isInteger_one.
  - destruct (deployAmount_range count) as [[a [Ea Ha]]|Ea]; rewrite Ea in E;
      [injection E as <-; exact Ha | discriminate].
Qed.

Lemma fortifyAmount_whole (count : JS.number) (amount : Q) :
  wholeCount count -> fortifyAmount count = JS.Fin amount -> isInteger amount /\ 1 <= amount.
Proof.
  intros Hw E. split.
  - unfold fortifyAmount, JS.or in E. destruct count as [q| | |]; simpl in E.
    + destruct (Qeqb q 0); simpl in E; injection E as <-;
        apply isInteger_Math_max; auto using isInteger_one.
    + injection E as <-. apply isInteger_Math_max; auto using isInteger_one.
    + discriminate.
    + injection E as <-. apply isInteger_one.
  - destruct (fortifyAmount_range count) as [[a [Ea Ha]]|Ea]; rewrite Ea in E;
      [injection E as <-; exact Ha | discriminate].
Qed.

(** *** Deploy, fortify and the operations on players *)

Lemma owns_isOwned (playerId : string) (t : Territory) :
  ownerId t = Some playerId -> isOwned t = true.
Proof. intro H. unfold isOwned. rewrite H. reflexivity. Qed.

Lemma deploy_keeps_garrison (continents : list Continent) (g : Game)
      (playerId territoryId : string) (count : JS.number) :
  wholeCount count ->
  Forall wholeGarrison (map g) ->
  Forall wholeGarrison (map (snd (deploy continents g playerId territoryId count))).
Proof.
  intros Hcount Hinv. unfold deploy.
  destruct (JS.truthy_opt (winnerId g)); [exact Hinv|].
  destruct (getPlayer g playerId) as [player|]; [|exact Hinv].
  destruct (notCurrentPlayer g playerId); [exact Hinv|].
  destruct (getTerritory g territoryId) as [territory|] eqn:Ht; [|exact Hinv].
  destruct (owns playerId territory) eqn:Ho; [|exact Hinv]. cbn [negb].
  destruct (deployAmount count) as [amount| | |] eqn:Ea; try exact Hinv.
  destruct (Qltb (pool player) amount); [exact Hinv|].
  cbn [snd]. rewrite map_deployCompletion. unfold deployMove, modPlayer, modTerritory. simpl.
  destruct (deployAmount_whole Hcount Ea) as [Ia Ha].
  apply update_first_Forall_found with (x := territory); [exact Ht | exact Hinv |].
  pose proof (@find_Forall _ wholeGarrison _ _ _ Ht Hinv) as Hold.
  intro Hown. destruct (Hold Hown) as [Io Ho1].
  split; [apply isInteger_plus; assumption | simpl; lra].
Qed.

Lemma fortify_keeps_garrison (continents : list Continent) (rnd : nat -> Q) (g : Game)
      (playerId fromId toId : string) (count : JS.number) :
  wholeCount count ->
  Forall wholeGarrison (map g) ->
  Forall wholeGarrison (map (snd (fortify continents rnd g playerId fromId toId count))).
Proof.
  intros Hcount Hinv.
  destruct (fortify continents rnd g playerId fromId toId count) as [[|] g'] eqn:E.
  - destruct (@fortify_accepted continents rnd g g' playerId fromId toId count E)
      as [_ [_ [_ [Hne [_ [from [to [mc [Hf [Ht [Hof [Hot [Ea [H1 [_ [Hpos [_ HM]]]]]]]]]]]]]]]]].
    cbv zeta in HM. destruct HM as [_ [_ ->]]. cbn [snd].
    rewrite map_nextTurn. unfold modTerritory. simpl.
    destruct (fortifyAmount_whole Hcount Ea) as [Im _].
    destruct (@find_Forall _ wholeGarrison _ _ _ Hf Hinv (@owns_isOwned playerId from Hof)) as [If Hf1].
    destruct (@find_Forall _ wholeGarrison _ _ _ Ht Hinv (@owns_isOwned playerId to Hot)) as [It Ht1].
    apply (@Forall_two wholeGarrison fromId toId _ _ (map g) from to Hne);
      auto; intros _; simpl.
    + split; [apply isInteger_minus; assumption|].
      apply isInteger_pos; [apply isInteger_minus; assumption | exact Hpos].
    + split; [apply isInteger_plus; assumption | lra].
  - assert (Hsame : g' = g).
    { revert E. unfold fortify. split_tests; intro E; congruence. }
    subst. exact Hinv.
Qed.

Lemma removePlayer_keeps_garrison (g : Game) (socketId : string) :
  Forall wholeGarrison (map g) ->
  Forall wholeGarrison (map (snd (removePlayer g socketId))).
Proof.
  intro Hinv.
  assert (Hn : forall h, map h = map g ->
                         Forall wholeGarrison (map (neutralizePlayerTerritories socketId h))).
  { intros h Hh. unfold neutralizePlayerTerritories. simpl. rewrite Hh.
    apply Forall_map. apply Forall_impl with (2 := Hinv).
    intros t Ht. destruct (owns socketId t) eqn:Ho; [|exact Ht].
    intros _. apply Ht. apply opt_is_eq in Ho. apply (@owns_isOwned socketId t Ho). }
  unfold removePlayer.
  destruct (findIndex (is_player socketId) (players g)) as [index|]; [|exact Hinv].
  cbv zeta.
  match goal with |- context [Phase_eqb (phase ?x) LOBBY] => set (g1 := x) end.
  assert (H1 : map g1 = map g) by (unfold g1; split_tests; reflexivity).
  clearbody g1. specialize (Hn g1 H1).
  destruct (negb (Phase_eqb (phase g1) LOBBY)).
  - split_tests; exact Hn.
  - cbn [snd]. simpl. rewrite H1. exact Hinv.
Qed.

Lemma fold_left_Forall (A B : Type) (P : A -> Prop) (f : list A -> B -> list A)
      (entries : list B) (m : list A) :
  (forall m b, Forall P m -> Forall P (f m b)) ->
  Forall P m -> Forall P (fold_left f entries m).
Proof.
  intro Hf. revert m. induction entries as [|b entries IH]; intros m Hm; [exact Hm|].
  simpl. apply IH. apply Hf. exact Hm.
Qed.

Lemma shuffleAndDistribute_keeps_garrison (rnd : nat -> Q) (g : Game) :
  Forall wholeGarrison (map g) ->
  Forall wholeGarrison (map (shuffleAndDistribute rnd g)).
Proof.
  intro Hinv. unfold shuffleAndDistribute. simpl map.
  apply fold_left_Forall; [|exact Hinv].
  intros m [index position] Hm.
  destruct (nth_error _ _) as [owner|]; [|exact Hm].
  apply update_nth_Forall; [exact Hm|].
  intros t _. split; [apply isInteger_one | simpl; lra].
Qed.

Lemma map_set_currentPlayerIndex (i : nat) (h : Game) :
  map (set_currentPlayerIndex i h) = map h.
Proof. reflexivity. Qed.

Lemma startGame_keeps_garrison (rnd : nat -> Q) (g : Game) :
  Forall wholeGarrison (map g) ->
  Forall wholeGarrison (map (snd (startGame rnd g))).
Proof.
  intro Hinv. unfold startGame. destruct (negb (canStartGame g)); [exact Hinv|].
  cbv zeta. unfold snd. rewrite map_set_currentPlayerIndex.
  apply shuffleAndDistribute_keeps_garrison. exact Hinv.
Qed.

Lemma resetGame_keeps_garrison (territories : list MapTerritory) (rnd : nat -> Q) (g : Game) :
  Forall wholeGarrison (map (resetGame territories rnd g)).
Proof.
  unfold resetGame, createFreshMap. simpl. apply Forall_map, Forall_forall.
  intros t _ H. discriminate H.
Qed.

(** *** Attack *)

(** An attack is either rejected or allowed. *)
Lemma attack_cases (rnd : nat -> Q) (g : Game) (playerId fromId toId : string)
      (count : JS.number) :
  attack rnd g playerId fromId toId count = (None, g)
  \/ exists requested from to,
      count = JS.Fin requested
      /\ getTerritory g fromId = Some from
      /\ getTerritory g toId = Some to
      /\ attackAllowed g playerId fromId toId (JS.Fin requested).
Proof.
  unfold attack.
  destruct (JS.truthy_opt (winnerId g)) eqn:Hw; [left; reflexivity|].
  destruct (Phase_eqb (phase g) TURN_ATTACK) eqn:Hp; [|left; reflexivity]. cbn [negb].
  destruct (notCurrentPlayer g playerId) eqn:Hc; [left; reflexivity|].
  destruct (getTerritory g fromId) as [from|] eqn:Hf; [|left; reflexivity].
  destruct (getTerritory g toId) as [to|] eqn:Ht; [|left; reflexivity].
  cbv zeta.
  match goal with |- context [if ?c then (None, g) else _] => destruct c eqn:Ho end;
    [left; reflexivity|].
  destruct (set_has (t_neighbors from) toId) eqn:Hn; [|left; reflexivity]. cbn [negb].
  destruct (Qltb (troops from - 1) 1) eqn:Hm; [left; reflexivity|].
  destruct count as [requested| | |]; try (left; reflexivity).
  destruct (Qltb requested 1) eqn:H1; [left; reflexivity|].
  destruct (Qltb (troops from - 1) requested) eqn:H2; [left; reflexivity|].
  destruct (Qltb 3 requested) eqn:H3; [left; reflexivity|].
  right. exists requested, from, to. repeat (split; [reflexivity|]).
  apply (@attack_tests_allowed g playerId fromId toId from to requested); assumption.
Qed.

(** The map after a battle of a territory with itself, which only the
    neutral owner could start. *)
Lemma resolveBattle_same
      (rnd : nat -> Q) (g : Game) (playerId toId : string) (requested : Q)
      (to : Territory) :
  getTerritory g toId = Some to ->
  exists aL dL,
    map (snd (resolveBattle rnd g playerId toId toId requested to))
    = update_first (has_id toId)
        (fun t => if Qleb (troops to - Qnat aL - Qnat dL) 0
                  then set_troops (moveCountOf requested aL)
                                  (set_ownerId (Some playerId) t)
                  else set_troops (troops t - Qnat aL - Qnat dL) t)
        (map g).
Proof.
  intro Ht. unfold resolveBattle. cbv zeta.
  destruct (compareDice _ _) as [aL dL]. exists aL, dL.
  assert (E1 : map (applyLosses toId toId aL dL g)
               = update_first (has_id toId)
                   (fun t => set_troops (troops t - Qnat aL - Qnat dL) t) (map g)).
  { unfold applyLosses, modTerritory. simpl.
    rewrite (@update_first_twice _ (has_id toId)) by reflexivity. reflexivity. }
  assert (E2 : troopsOf (applyLosses toId toId aL dL g) toId
               = troops to - Qnat aL - Qnat dL).
  { unfold troopsOf, getTerritory. rewrite E1.
    rewrite (@find_update_first_hit _ (has_id toId) _ (map g) to Ht); [reflexivity|].
    unfold getTerritory in Ht. apply find_some in Ht. apply Ht. }
  rewrite E2.
  destruct (Qleb (troops to - Qnat aL - Qnat dL) 0).
  - assert (E3 : map (snd (conquer playerId toId toId requested aL
                                   (applyLosses toId toId aL dL g)))
                 = update_first (has_id toId)
                     (fun t => set_troops (moveCountOf requested aL)
                                          (set_ownerId (Some playerId) t)) (map g)).
    { assert (E : map (snd (conquer playerId toId toId requested aL
                                    (applyLosses toId toId aL dL g)))
                  = update_first (has_id toId) (set_troops (moveCountOf requested aL))
                      (update_first (has_id toId)
                         (fun t => set_troops (troops t - moveCountOf requested aL) t)
                         (update_first (has_id toId) (set_ownerId (Some playerId))
                            (map (applyLosses toId toId aL dL g))))).
      { unfold conquer, checkForWinner. cbv zeta.
        destruct (negb (JS.truthy_str playerId)); [reflexivity|].
        match goal with |- context [if ?c then _ else _] => destruct c end; reflexivity. }
      rewrite E, E1.
      rewrite !(@update_first_twice _ (has_id toId)) by reflexivity. reflexivity. }
    destruct (conquer playerId toId toId requested aL (applyLosses toId toId aL dL g))
      as [w h].
    cbn [snd] in E3. unfold recordAttack. simpl. exact E3.
  - unfold recordAttack. simpl. exact E1.
Qed.

Lemma attack_keeps_garrison (rnd : nat -> Q) (g : Game) (playerId fromId toId : string)
      (count : JS.number) :
  wholeCount count ->
  Forall wholeGarrison (map g) ->
  Forall wholeGarrison (map (snd (attack rnd g playerId fromId toId count))).
Proof.
  intros Hcount Hinv.
  destruct (attack_cases rnd g playerId fromId toId count)
    as [E|[requested [from [to [-> [Hf [Ht Hallowed]]]]]]]; [rewrite E; exact Hinv|].
  rewrite (@attack_allowed_runs rnd g playerId fromId toId requested to Ht Hallowed).
  cbn [snd].
  pose proof (Hcount requested eq_refl) as Ireq.
  pose proof Hallowed as [_ [_ [_ [from' [to' [Hf' [Ht' [Hof [Hot [_ Hdice]]]]]]]]]].
  rewrite Hf in Hf'. injection Hf' as <-. rewrite Ht in Ht'. injection Ht' as <-.
  destruct Hdice as [q [Eq [Hq1 [_ Hq3]]]]. injection Eq as <-.
  assert (Oto : isOwned to = true).
  { unfold isOwned. destruct Hot as [E|[o [E _]]]; rewrite E; reflexivity. }
  destruct (@find_Forall _ wholeGarrison _ _ _ Hf Hinv (@owns_isOwned playerId from Hof))
    as [If Hf1].
  destruct (@find_Forall _ wholeGarrison _ _ _ Ht Hinv Oto) as [It Ht1].
  assert (Imove : forall aL, isInteger (moveCountOf requested aL)).
  { intro aL. unfold moveCountOf.
    apply isInteger_Math_max; [apply isInteger_one|].
    apply isInteger_Math_max; [apply isInteger_zero|].
    apply isInteger_minus; [exact Ireq | apply isInteger_Qnat]. }
  assert (Hmove : forall aL, 1 <= moveCountOf requested aL).
  { intro aL. unfold moveCountOf. apply Math_max_lower. }
  destruct (String.eqb_spec fromId toId) as [->|Hne].
  - (* a territory against itself *)
    destruct (@resolveBattle_same rnd g playerId toId requested to Ht) as [aL [dL ->]].
    apply update_first_Forall_found with (x := to); [exact Ht | exact Hinv |].
    destruct (Qleb (troops to - Qnat aL - Qnat dL) 0) eqn:E.
    + intros _. split; [apply Imove | apply Hmove].
    + apply Qleb_gt in E. intros _. simpl.
      assert (I : isInteger (troops to - Qnat aL - Qnat dL))
        by (repeat apply isInteger_minus; auto using isInteger_Qnat).
      split; [exact I | apply isInteger_pos; assumption].
  - pose proof (@resolveBattle_effect rnd g playerId fromId toId requested to Hne Ht) as H.
    cbv zeta in H.
    destruct (resolveBattle rnd g playerId fromId toId requested to) as [r g'].
    cbn [fst snd] in *.
    destruct H as [Ha [Hd [Hc [_ [Hq [Hyes [Hno _]]]]]]].
    rewrite Ha, Hd in Hc.
    assert (Hm : (1 <= (if Qleb 2 (troops to) then 2 else 1))%nat)
      by (destruct (Qleb 2 (troops to)); lia).
    destruct (losses_positive rnd Hq1 Hm Hc) as [L1 [L2 _]].
    assert (Q2 : Qnat (attackerLosses r) + Qnat (defenderLosses r) <= requested).
    { rewrite <- Qnat_plus. apply Qle_trans with (Qnat (toLength requested)).
      - apply (Qnat_le L2).
      - apply toLength_le. lra. }
    pose proof (Qnat_nonneg (attackerLosses r)) as Na.
    pose proof (Qnat_nonneg (defenderLosses r)) as Nd.
    destruct (conquered r) eqn:Econq.
    + destruct (Hyes eq_refl) as [-> _].
      symmetry in Hq. apply Qleb_le in Hq.
      assert (D1 : 1 <= Qnat (defenderLosses r)).
      { destruct (defenderLosses r) as [|k].
        - change (Qnat 0) with 0 in Hq. lra.
        - apply (Qnat_le (n := 1)). lia. }
      assert (Hmc : moveCountOf requested (attackerLosses r)
                    == requested - Qnat (attackerLosses r)).
      { rewrite moveCountOf_max.
        destruct (Math_max_spec 1 (requested - Qnat (attackerLosses r)))
          as [[_ ->]|[Hlt _]]; [reflexivity | lra]. }
      apply (@Forall_two wholeGarrison fromId toId _ _ (map g) from to Hne);
        auto; intros _; simpl.
      * split; [repeat apply isInteger_minus; auto using isInteger_Qnat | lra].
      * split; [apply Imove | apply Hmove].
    + destruct (Hno eq_refl) as [-> _].
      symmetry in Hq. apply Qleb_gt in Hq.
      apply (@Forall_two wholeGarrison fromId toId _ _ (map g) from to Hne);
        auto; intros _; simpl.
      * split; [apply isInteger_minus; auto using isInteger_Qnat | lra].
      * assert (I : isInteger (troops to - Qnat (defenderLosses r)))
          by (apply isInteger_minus; auto using isInteger_Qnat).
        split; [exact I | apply isInteger_pos; assumption].
Qed.

(** *** Troops kept for any count *)

Lemma deploy_keeps_troops (continents : list Continent) (g : Game)
      (playerId territoryId : string) (count : JS.number) :
  Forall positiveGarrison (map g) ->
  Forall positiveGarrison (map (snd (deploy continents g playerId territoryId count))).
Proof.
  intro Hinv. unfold deploy.
  destruct (JS.truthy_opt (winnerId g)); [exact Hinv|].
  destruct (getPlayer g playerId) as [player|]; [|exact Hinv].
  destruct (notCurrentPlayer g playerId); [exact Hinv|].
  destruct (getTerritory g territoryId) as [territory|] eqn:Ht; [|exact Hinv].
  destruct (owns playerId territory) eqn:Ho; [|exact Hinv]. cbn [negb].
  destruct (deployAmount_range count) as [[amount [Ea Ha]]|Ea]; rewrite Ea; [|exact Hinv].
  destruct (Qltb (pool player) amount); [exact Hinv|].
  cbn [snd]. rewrite map_deployCompletion. unfold deployMove, modPlayer, modTerritory. simpl.
  apply update_first_Forall_found with (x := territory); [exact Ht | exact Hinv |].
  pose proof (@find_Forall _ positiveGarrison _ _ _ Ht Hinv) as Hold.
  intro Hown. specialize (Hold Hown). simpl. lra.
Qed.

Lemma fortify_keeps_troops (continents : list Continent) (rnd : nat -> Q) (g : Game)
      (playerId fromId toId : string) (count : JS.number) :
  Forall positiveGarrison (map g) ->
  Forall positiveGarrison (map (snd (fortify continents rnd g playerId fromId toId count))).
Proof.
  intro Hinv.
  destruct (fortify continents rnd g playerId fromId toId count) as [[|] g'] eqn:E.
  - destruct (@fortify_accepted continents rnd g g' playerId fromId toId count E)
      as [_ [_ [_ [Hne [_ [from [to [mc [Hf [Ht [Hof [Hot [Ea [H1 [_ [Hpos [_ HM]]]]]]]]]]]]]]]]].
    cbv zeta in HM. destruct HM as [_ [_ ->]]. cbn [snd].
    rewrite map_nextTurn. unfold modTerritory. simpl.
    pose proof (@find_Forall _ positiveGarrison _ _ _ Ht Hinv (@owns_isOwned playerId to Hot))
      as Ht1.
    apply (@Forall_two positiveGarrison fromId toId _ _ (map g) from to Hne);
      auto; intros _; simpl; lra.
  - assert (Hsame : g' = g).
    { revert E. unfold fortify. split_tests; intro E; congruence. }
    subst. exact Hinv.
Qed.

Lemma removePlayer_keeps_troops (g : Game) (socketId : string) :
  Forall positiveGarrison (map g) ->
  Forall positiveGarrison (map (snd (removePlayer g socketId))).
Proof.
  intro Hinv.
  assert (Hn : forall h, map h = map g ->
                         Forall positiveGarrison (map (neutralizePlayerTerritories socketId h))).
  { intros h Hh. unfold neutralizePlayerTerritories. simpl. rewrite Hh.
    apply Forall_map. apply Forall_impl with (2 := Hinv).
    intros t Ht. destruct (owns socketId t) eqn:Ho; [|exact Ht].
    intros _. apply Ht. apply opt_is_eq in Ho. apply (@owns_isOwned socketId t Ho). }
  unfold removePlayer.
  destruct (findIndex (is_player socketId) (players g)) as [index|]; [|exact Hinv].
  cbv zeta.
  match goal with |- context [Phase_eqb (phase ?x) LOBBY] => set (g1 := x) end.
  assert (H1 : map g1 = map g) by (unfold g1; split_tests; reflexivity).
  clearbody g1. specialize (Hn g1 H1).
  destruct (negb (Phase_eqb (phase g1) LOBBY)).
  - split_tests; exact Hn.
  - cbn [snd]. simpl. rewrite H1. exact Hinv.
Qed.

Lemma startGame_keeps_troops (rnd : nat -> Q) (g : Game) :
  Forall positiveGarrison (map g) ->
  Forall positiveGarrison (map (snd (startGame rnd g))).
Proof.
  intro Hinv. unfold startGame. destruct (negb (canStartGame g)); [exact Hinv|].
  cbv zeta. unfold snd. rewrite map_set_currentPlayerIndex.
  unfold shuffleAndDistribute. simpl map.
  apply fold_left_Forall; [|exact Hinv].
  intros m [index position] Hm.
  destruct (nth_error _ _) as [owner|]; [|exact Hm].
  apply update_nth_Forall; [exact Hm|].
  intros t _. simpl. lra.
Qed.

Lemma resetGame_keeps_troops (territories : list MapTerritory) (rnd : nat -> Q) (g : Game) :
  Forall positiveGarrison (map (resetGame territories rnd g)).
Proof.
  unfold resetGame, createFreshMap. simpl. apply Forall_map, Forall_forall.
  intros t _ H. discriminate H.
Qed.

Lemma attack_keeps_troops (rnd : nat -> Q) (g : Game) (playerId fromId toId : string)
      (count : JS.number) :
  Forall positiveGarrison (map g) ->
  Forall positiveGarrison (map (snd (attack rnd g playerId fromId toId count))).
Proof.
  intro Hinv.
  destruct (attack_cases rnd g playerId fromId toId count)
    as [E|[requested [from [to [-> [Hf [Ht Hallowed]]]]]]]; [rewrite E; exact Hinv|].
  rewrite (@attack_allowed_runs rnd g playerId fromId toId requested to Ht Hallowed).
  cbn [snd].
  pose proof Hallowed as [_ [_ [_ [from' [to' [Hf' [Ht' [Hof [Hot [_ Hdice]]]]]]]]]].
  rewrite Hf in Hf'. injection Hf' as <-. rewrite Ht in Ht'. injection Ht' as <-.
  destruct Hdice as [q [Eq [Hq1 [_ Hq3]]]]. injection Eq as <-.
  assert (Oto : isOwned to = true).
  { unfold isOwned. destruct Hot as [E|[o [E _]]]; rewrite E; reflexivity. }
  pose proof (@find_Forall _ positiveGarrison _ _ _ Ht Hinv Oto) as Ht1.
  assert (Hmove : forall aL, 1 <= moveCountOf requested aL).
  { intro aL. unfold moveCountOf. apply Math_max_lower. }
  destruct (String.eqb_spec fromId toId) as [->|Hne].
  - destruct (@resolveBattle_same rnd g playerId toId requested to Ht) as [aL [dL ->]].
    apply update_first_Forall_found with (x := to); [exact Ht | exact Hinv |].
    destruct (Qleb (troops to - Qnat aL - Qnat dL) 0) eqn:E.
    + intros _. simpl. pose proof (Hmove aL). lra.
    + apply Qleb_gt in E. intros _. simpl. exact E.
  - pose proof (@resolveBattle_effect rnd g playerId fromId toId requested to Hne Ht) as H.
    cbv zeta in H.
    destruct (resolveBattle rnd g playerId fromId toId requested to) as [r g'].
    cbn [fst snd] in *.
    destruct H as [Ha [Hd [Hc [_ [Hq [Hyes [Hno _]]]]]]].
    rewrite Ha, Hd in Hc.
    assert (Hm : (1 <= (if Qleb 2 (troops to) then 2 else 1))%nat)
      by (destruct (Qleb 2 (troops to)); lia).
    destruct (losses_positive rnd Hq1 Hm Hc) as [L1 [L2 _]].
    assert (Q2 : Qnat (attackerLosses r) + Qnat (defenderLosses r) <= requested).
    { rewrite <- Qnat_plus. apply Qle_trans with (Qnat (toLength requested)).
      - apply (Qnat_le L2).
      - apply toLength_le. lra. }
    pose proof (Qnat_nonneg (attackerLosses r)) as Na.
    pose proof (Qnat_nonneg (defenderLosses r)) as Nd.
    destruct (conquered r) eqn:Econq.
    + destruct (Hyes eq_refl) as [-> _].
      symmetry in Hq. apply Qleb_le in Hq.
      assert (D1 : 1 <= Qnat (defenderLosses r)).
      { destruct (defenderLosses r) as [|k].
        - change (Qnat 0) with 0 in Hq. lra.
        - apply (Qnat_le (n := 1)). lia. }
      assert (Hmc : moveCountOf requested (attackerLosses r)
                    == requested - Qnat (attackerLosses r)).
      { rewrite moveCountOf_max.
        destruct (Math_max_spec 1 (requested - Qnat (attackerLosses r)))
          as [[_ ->]|[Hlt _]]; [reflexivity | lra]. }
      apply (@Forall_two positiveGarrison fromId toId _ _ (map g) from to Hne);
        auto; intros _; simpl.
      * lra.
      * pose proof (Hmove (attackerLosses r)). lra.
    + destruct (Hno eq_refl) as [-> _].
      symmetry in Hq. apply Qleb_gt in Hq.
      apply (@Forall_two positiveGarrison fromId toId _ _ (map g) from to Hne);
        auto; intros _; simpl; lra.
Qed.

(** *** Every operation *)

(** C9 (as the code has it): when the troop counts on the map are whole
    numbers and the counts passed to [deploy], [attack] and [fortify] are
    integers whenever they are finite numbers, every operation of the game
    keeps a whole number of troops, at least 1, on each territory that has
    an owner (a player or the neutral one): [deploy] only adds troops, a
    resolved attack leaves at least 1 troop in the source and in the
    destination, and [fortify] leaves at least 1 troop in the source.  For
    any counts, whole or not, every operation keeps more than no troops on
    each territory that has an owner. *)
Theorem operations_keep_garrison
        (territories : list MapTerritory) (continents : list Continent)
        (sanitize : list Player -> string -> string) (g g' : Game) :
  (operation territories continents sanitize wholeCount g g' ->
   Forall wholeGarrison (map g) ->
   Forall wholeGarrison (map g') /\ Forall garrisoned (map g'))
  /\ (operation territories continents sanitize anyCount g g' ->
      Forall positiveGarrison (map g) ->
      Forall positiveGarrison (map g')).
Proof.
  split.
  - intros Hop Hinv.
    assert (H : Forall wholeGarrison (map g')).
    { destruct Hop.
      - rewrite map_addPlayer. exact Hinv.
      - apply removePlayer_keeps_garrison. exact Hinv.
      - rewrite map_setPlayerReady. exact Hinv.
      - rewrite map_togglePlayerReady. exact Hinv.
      - apply startGame_keeps_garrison. exact Hinv.
      - rewrite map_startNewRound. exact Hinv.
      - apply deploy_keeps_garrison; assumption.
      - rewrite map_nextPhase. exact Hinv.
      - rewrite map_nextTurn. exact Hinv.
      - exact Hinv.
      - rewrite map_tradeCards. exact Hinv.
      - apply attack_keeps_garrison; assumption.
      - apply fortify_keeps_garrison; assumption.
      - apply resetGame_keeps_garrison. }
    split; [exact H|].
    apply Forall_impl with (2 := H). intros t Ht Ho. apply (Ht Ho).
  - intros Hop Hinv. destruct Hop.
    + rewrite map_addPlayer. exact Hinv.
    + apply removePlayer_keeps_troops. exact Hinv.
    + rewrite map_setPlayerReady. exact Hinv.
    + rewrite map_togglePlayerReady. exact Hinv.
    + apply startGame_keeps_troops. exact Hinv.
    + rewrite map_startNewRound. exact Hinv.
    + apply deploy_keeps_troops; assumption.
    + rewrite map_nextPhase. exact Hinv.
    + rewrite map_nextTurn. exact Hinv.
    + exact Hinv.
    + rewrite map_tradeCards. exact Hinv.
    + apply attack_keeps_troops; assumption.
    + apply fortify_keeps_troops; assumption.
    + apply resetGame_keeps_troops.
Qed.

Lemma isInteger_inject (z : Z) : isInteger (inject_Z z).
Proof. exists z. reflexivity. Qed.

Lemma example_board_garrison : Forall wholeGarrison Example.board.
Proof.
  unfold Example.board.
  apply Forall_cons; [intros _; split; [apply (isInteger_inject 3) | simpl; lra]|].
  apply Forall_cons; [intros _; split; [apply (isInteger_inject 2) | simpl; lra]|].
  apply Forall_cons; [intros _; split; [apply (isInteger_inject 2) | simpl; lra]|].
  apply Forall_nil.
Qed.

Lemma operations_keep_garrison_witness :
  Forall garrisoned
         (map (snd (deploy Example.continents Example.setupGame "p1" "A" (JS.Fin 2)))).
Proof.
  assert (Hc : wholeCount (JS.Fin 2)).
  { intros q E. injection E as <-. exists 2%Z. reflexivity. }
  apply (proj1 (@operations_keep_garrison [] Example.continents (fun _ s => s)
                  Example.setupGame _)
               (op_deploy [] Example.continents (fun _ s => s) wholeCount
                          Example.setupGame "p1" "A" (JS.Fin 2) Hc)
               example_board_garrison).
Defined.

(** C9 as stated fails: every owned territory of the match holds at least
    one troop; p1 fortifies from A, which holds 2 troops, with the count
    3/2, and A is left with half a troop. *)
Lemma fortify_breaks_garrison_counterexample :
  let g' := snd (fortify Example.continents Example.low Example.homelandGame
                         "p1" "A" "B" (JS.Fin (3 # 2))) in
  operation [] Example.continents (fun _ s => s) (fun _ => True)
            Example.homelandGame g'
  /\ Forall garrisoned (map Example.homelandGame)
  /\ ~ Forall garrisoned (map g').
Proof.
  cbv zeta. split; [apply op_fortify; exact I|]. split.
  - unfold Example.homelandGame, Example.homeland. simpl.
    repeat (apply Forall_cons; [intros _; simpl; lra|]). apply Forall_nil.
  - intro H. apply Forall_inv in H.
    assert (E : 1 <= 1 # 2) by (apply H; reflexivity).
    revert E. apply Qlt_not_le. reflexivity.
Qed.

(** * Further properties of the engine *)

(** ** The card deck *)

Lemma nth_error_update_nth (A : Type) (f : A -> A) (l : list A) (i k : nat) :
  nth_error (update_nth i f l) k
  = if (k =? i)%nat then option_map f (nth_error l k) else nth_error l k.
Proof.
  revert i k. induction l as [|x l IH]; intros [|i] [|k]; simpl; try reflexivity.
  - destruct (k =? i)%nat; reflexivity.
  - apply IH.
Qed.

Lemma update_nth_length (A : Type) (f : A -> A) (l : list A) (i : nat) :
  List.length (update_nth i f l) = List.length l.
Proof.
  revert i. induction l as [|x l IH]; intros [|i]; simpl; try reflexivity.
  now rewrite IH.
Qed.

Lemma swap_Permutation (A : Type) (i j : nat) (arr : list A) :
  Permutation (swap i j arr) arr.
Proof.
  unfold swap.
  destruct (nth_error arr i) as [x|] eqn:Ex; [|reflexivity].
  destruct (nth_error arr j) as [y|] eqn:Ey; [|reflexivity].
  apply Permutation_sym, Permutation_nth_error. split.
  - now rewrite !update_nth_length.
  - exists (fun k => if (k =? i)%nat then j else if (k =? j)%nat then i else k). split.
    + intros a b.
      destruct (a =? i)%nat eqn:Ai; destruct (b =? i)%nat eqn:Bi;
        destruct (a =? j)%nat eqn:Aj; destruct (b =? j)%nat eqn:Bj;
        repeat match goal with
               | H : (_ =? _)%nat = true |- _ => apply Nat.eqb_eq in H
               | H : (_ =? _)%nat = false |- _ => apply Nat.eqb_neq in H
               end; intro; subst; congruence.
    + intro n. rewrite !nth_error_update_nth.
      destruct (n =? i)%nat eqn:Ni.
      * apply Nat.eqb_eq in Ni. subst n. rewrite Ex.
        destruct (i =? j)%nat; simpl; congruence.
      * destruct (n =? j)%nat eqn:Nj; [|reflexivity].
        apply Nat.eqb_eq in Nj. subst n. rewrite Ey. simpl. congruence.
Qed.

Lemma shuffle_from_Permutation (A : Type) (rnd : nat -> Q) (i k : nat) (arr : list A) :
  Permutation (shuffle_from rnd k i arr) arr.
Proof.
  revert k arr. induction i as [|i IH]; intros k arr; simpl; [reflexivity|].
  rewrite IH. apply swap_Permutation.
Qed.

(** The index drawn by [shuffle] for the position [i] is one of [0..i]:
    the product of a double below 1 and [i + 1] is rounded to a double
    below [i + 1]. *)
Lemma shuffle_index_range (rnd : nat -> Q) (k i : nat) :
  validRandom rnd -> (Z.of_nat (i + 1) <= 2 ^ 53)%Z ->
  (Z.to_nat (Qfloor (fl (rnd k * Qnat (i + 1)))) <= i)%nat.
Proof.
  intros Hv Hb. destruct (Hv k) as [D [H0 H1]].
  pose proof (isDouble_below_one (rnd k) D H1) as Hu.
  assert (E : 0 < Qnat (i + 1)).
  { unfold Qnat. replace 0 with (inject_Z 0) by reflexivity.
    rewrite <- Zlt_Qlt. lia. }
  assert (U : fl (rnd k * Qnat (i + 1)) < Qnat (i + 1)).
  { unfold Qnat. apply fl_below_integer; [lia|]. fold (Qnat (i + 1)).
    apply Qle_trans with ((1 - pow2 (-53)) * Qnat (i + 1)).
    - apply Qmult_le_compat_r; [exact Hu | apply Qlt_le_weak, E].
    - apply Qle_lteq. right. ring. }
  assert (Hf : (Qfloor (fl (rnd k * Qnat (i + 1))) < Z.of_nat (i + 1))%Z).
  { rewrite Zlt_Qlt. eapply Qle_lt_trans; [apply Qfloor_le|exact U]. }
  lia.
Qed.

Lemma shuffle_Permutation (A : Type) (rnd : nat -> Q) (cards : list A) :
  Permutation (shuffle rnd cards) cards.
Proof. apply shuffle_from_Permutation. Qed.

Lemma card_uid_of_inj (n m : nat) : card_uid_of n = card_uid_of m -> n = m.
Proof.
  unfold card_uid_of. intro H. simpl in H. injection H as H.
  apply Unsigned.to_uint_inj.
  assert (E : Some (Nat.to_uint n) = Some (Nat.to_uint m)).
  { rewrite <- !NilEmpty.usu. now rewrite H. }
  now injection E.
Qed.

Lemma discarded_idem (c : Card) : discarded (discarded c) = discarded c.
Proof.
  destruct c as [tid name type uid]. unfold discarded. simpl.
  f_equal.
  - destruct tid as [s|]; simpl; [|reflexivity].
    destruct (JS.truthy_str s) eqn:E; simpl; [now rewrite E|reflexivity].
  - destruct (JS.truthy_str name) eqn:E; [now rewrite E|reflexivity].
  - destruct (JS.truthy_str type) eqn:E; [now rewrite E|reflexivity].
Qed.

Lemma map_discarded_idem (l : list Card) :
  List.map discarded (List.map discarded l) = List.map discarded l.
Proof.
  rewrite List.map_map. apply List.map_ext. intro c. apply discarded_idem.
Qed.

Lemma rev_cons_last (A : Type) (l below : list A) (x : A) :
  rev l = x :: below -> l = rev below ++ [x].
Proof.
  intro H. rewrite <- (rev_involutive l), H. reflexivity.
Qed.

(** What one call of [draw] does.  With both piles empty it returns
    nothing and leaves the deck alone.  Otherwise it hands out one card of
    the piles, stamped with the uid made from [nextUid], which it then
    increments; the other cards stay in the piles (the discard pile having
    been shuffled into the draw pile if that was empty). *)
Lemma draw_spec (rnd : nat -> Q) (d : CardDeck) :
  (drawPile d = [] /\ discardPile d = [] /\ draw rnd d = (None, d))
  \/ exists card d',
      draw rnd d = (Some (with_uid (card_uid_of (nextUid d)) card), d')
      /\ nextUid d' = S (nextUid d)
      /\ baseCards d' = baseCards d
      /\ Permutation (card :: drawPile d' ++ discardPile d')
                     (drawPile d ++ discardPile d)
      /\ (drawPile d <> [] ->
          drawPile d = drawPile d' ++ [card] /\ discardPile d' = discardPile d).
Proof.
  unfold draw.
  destruct (drawPile d) as [|x pile] eqn:Ed.
  - destruct (discardPile d) as [|y disc] eqn:Es.
    + left. simpl. rewrite Ed. simpl. repeat split.
    + right. cbn [List.length Nat.eqb andb negb].
      cbn [drawPile nextUid baseCards discardPile].
      destruct (rev (shuffle rnd (y :: disc))) as [|card below] eqn:Er.
      * exfalso.
        assert (H : Permutation (shuffle rnd (y :: disc)) (y :: disc))
          by apply shuffle_Permutation.
        apply (f_equal (@rev Card)) in Er. rewrite rev_involutive in Er.
        simpl in Er. rewrite Er in H. apply Permutation_nil in H. discriminate.
      * exists card. eexists. split; [reflexivity|]. simpl.
        split; [reflexivity|]. split; [reflexivity|].
        split; [|intro H; congruence].
        rewrite app_nil_r. apply rev_cons_last in Er.
        rewrite <- (shuffle_Permutation rnd (y :: disc)), Er.
        rewrite Permutation_app_comm. reflexivity.
  - right. cbn [List.length Nat.eqb andb]. rewrite Ed.
    destruct (rev (x :: pile)) as [|card below] eqn:Er.
    + apply (f_equal (@rev Card)) in Er. rewrite rev_involutive in Er. discriminate.
    + exists card. eexists. split; [reflexivity|]. simpl.
      split; [reflexivity|]. split; [reflexivity|].
      apply rev_cons_last in Er. split.
      * change (x :: pile ++ discardPile d) with ((x :: pile) ++ discardPile d).
        rewrite Er, <- app_assoc. simpl.
        apply Permutation_cons_app. reflexivity.
      * intros _. split; [exact Er|reflexivity].
Qed.

(** ** Trade sets in a hand *)

Lemma filter_Permutation (A : Type) (f : A -> bool) (l l' : list A) :
  Permutation l l' -> Permutation (filter f l) (filter f l').
Proof.
  induction 1 as [|x l l' _ IH|x y l|l l' l'' _ IH1 _ IH2]; simpl.
  - constructor.
  - destruct (f x); [constructor|]; exact IH.
  - destruct (f x), (f y); try reflexivity. constructor.
  - now rewrite IH1.
Qed.

Lemma nodup_length_Permutation (l l' : list string) :
  Permutation l l' ->
  List.length (nodup string_dec l) = List.length (nodup string_dec l').
Proof.
  intro H. apply Permutation_length, NoDup_Permutation; try apply NoDup_nodup.
  intro x. rewrite !nodup_In. split; apply Permutation_in; [|symmetry]; exact H.
Qed.

Lemma set_has_Permutation (l l' : list string) (x : string) :
  Permutation l l' -> set_has l x = set_has l' x.
Proof.
  intro H. apply eq_true_iff_eq. rewrite !set_has_In.
  split; apply Permutation_in; [|symmetry]; exact H.
Qed.

Lemma isValidTradeSet_Permutation (cards cards' : list Card) :
  Permutation cards cards' -> isValidTradeSet cards = isValidTradeSet cards'.
Proof.
  intro H. unfold isValidTradeSet.
  rewrite (Permutation_length H).
  rewrite (Permutation_length (filter_Permutation isWild H)).
  assert (Ht : Permutation (List.map card_type (filter isNonWild cards))
                           (List.map card_type (filter isNonWild cards'))).
  { apply Permutation_map, filter_Permutation, H. }
  rewrite (Permutation_length Ht), (nodup_length_Permutation Ht).
  rewrite (filter_ext _ _ (fun type => f_equal negb (set_has_Permutation type Ht))).
  reflexivity.
Qed.

Lemma anyThird_iff (first second : Card) (later : list Card) :
  anyThird first second later = true
  <-> exists l3 third l4,
      later = l3 ++ third :: l4 /\ isValidTradeSet [first; second; third] = true.
Proof.
  unfold anyThird. rewrite existsb_exists. split.
  - intros [third [Hin Hv]]. apply in_split in Hin. destruct Hin as [l3 [l4 E]].
    exists l3, third, l4. auto.
  - intros [l3 [third [l4 [E Hv]]]]. exists third. split; [|exact Hv].
    subst. apply in_elt.
Qed.

Lemma anySecond_iff (first : Card) (later : list Card) :
  anySecond first later = true
  <-> exists l2 second l3 third l4,
      later = l2 ++ second :: l3 ++ third :: l4
      /\ isValidTradeSet [first; second; third] = true.
Proof.
  induction later as [|x later IH]; simpl.
  - split; [discriminate|]. intros [l2 [? [? [? [? [E _]]]]]].
    destruct l2; discriminate.
  - rewrite orb_true_iff, anyThird_iff, IH. split.
    + intros [[l3 [third [l4 [E Hv]]]]|[l2 [second [l3 [third [l4 [E Hv]]]]]]].
      * exists [], x, l3, third, l4. subst. auto.
      * exists (x :: l2), second, l3, third, l4. subst. auto.
    + intros [l2 [second [l3 [third [l4 [E Hv]]]]]].
      destruct l2 as [|y l2]; simpl in E; injection E as -> ->.
      * left. exists l3, third, l4. auto.
      * right. exists l2, second, l3, third, l4. auto.
Qed.

Lemma anyFirst_iff (cards : list Card) :
  anyFirst cards = true
  <-> exists l1 first l2 second l3 third l4,
      cards = l1 ++ first :: l2 ++ second :: l3 ++ third :: l4
      /\ isValidTradeSet [first; second; third] = true.
Proof.
  induction cards as [|x cards IH]; simpl.
  - split; [discriminate|]. intros [l1 [? [? [? [? [? [? [E _]]]]]]]].
    destruct l1; discriminate.
  - rewrite orb_true_iff, anySecond_iff, IH. split.
    + intros [[l2 [second [l3 [third [l4 [E Hv]]]]]]
             |[l1 [first [l2 [second [l3 [third [l4 [E Hv]]]]]]]]].
      * exists [], x, l2, second, l3, third, l4. subst. auto.
      * exists (x :: l1), first, l2, second, l3, third, l4. subst. auto.
    + intros [l1 [first [l2 [second [l3 [third [l4 [E Hv]]]]]]]].
      destruct l1 as [|y l1]; simpl in E; injection E as -> ->.
      * left. exists l2, second, l3, third, l4. auto.
      * right. exists l1, first, l2, second, l3, third, l4. auto.
Qed.

(** [canTradeAnySet] finds a valid set exactly when three cards of the
    hand, taken in the order of the hand, form one. *)
Theorem canTradeAnySet_iff (cards : list Card) :
  canTradeAnySet cards = true
  <-> exists l1 first l2 second l3 third l4,
      cards = l1 ++ first :: l2 ++ second :: l3 ++ third :: l4
      /\ isValidTradeSet [first; second; third] = true.
Proof.
  unfold canTradeAnySet. destruct (List.length cards <? 3)%nat eqn:E.
  - split; [discriminate|].
    intros [l1 [first [l2 [second [l3 [third [l4 [-> _]]]]]]]].
    apply Nat.ltb_lt in E. rewrite !length_app in E. simpl in E.
    rewrite !length_app in E. simpl in E. rewrite !length_app in E. simpl in E. lia.
  - apply anyFirst_iff.
Qed.

Lemma anyFirst_app (cards rest : list Card) :
  anyFirst cards = true -> anyFirst (cards ++ rest) = true.
Proof.
  rewrite !anyFirst_iff.
  intros [l1 [first [l2 [second [l3 [third [l4 [-> Hv]]]]]]]].
  exists l1, first, l2, second, l3, third, (l4 ++ rest). split; [|exact Hv].
  repeat (rewrite <- app_assoc; simpl). reflexivity.
Qed.

Lemma five_typed_cards (a b c d e : Card) :
  (forall x, In x [a; b; c; d; e] -> In (card_type x) (CARD_TYPES ++ [WILD_TYPE])) ->
  anyFirst [a; b; c; d; e] = true.
Proof.
  intro H.
  pose proof (H a (or_introl eq_refl)) as Ha.
  pose proof (H b (or_intror (or_introl eq_refl))) as Hb.
  pose proof (H c (or_intror (or_intror (or_introl eq_refl)))) as Hc.
  pose proof (H d (or_intror (or_intror (or_intror (or_introl eq_refl))))) as Hd.
  pose proof (H e (or_intror (or_intror (or_intror (or_intror (or_introl eq_refl)))))) as He.
  clear H.
  destruct a as [? ? ta ?], b as [? ? tb ?], c as [? ? tc ?], d as [? ? td ?],
           e as [? ? te ?].
  simpl in Ha, Hb, Hc, Hd, He.
  repeat match goal with
         | H : _ \/ _ |- _ => destruct H
         | H : False |- _ => contradiction
         end; subst; reflexivity.
Qed.

(** A hand of five or more cards bearing the tags of the deck always
    holds a set that can be traded: when [getHandState] reports
    [mustTrade], it reports [canTradeAnySet] as well. *)
Theorem mustTrade_canTrade (g : Game) (playerId : string) :
  (forall c, In c (hs_hand (getHandState g playerId)) ->
             In (card_type c) (CARD_TYPES ++ [WILD_TYPE])) ->
  mustTrade (getHandState g playerId) = true ->
  hs_canTradeAnySet (getHandState g playerId) = true.
Proof.
  unfold getHandState. cbn [hs_hand mustTrade hs_canTradeAnySet].
  generalize (match getPlayer g playerId with Some player => hand player | None => [] end).
  intros cards Ht H5. apply Nat.leb_le in H5.
  destruct cards as [|a [|b [|c [|d [|e rest]]]]]; simpl in H5; try lia.
  unfold canTradeAnySet. cbn [List.length Nat.ltb Nat.leb].
  apply (anyFirst_app [a; b; c; d; e] rest), five_typed_cards.
  intros x Hx. apply Ht. simpl in Hx. simpl. tauto.
Qed.

(** ** Elements of an array found, changed and removed *)

Lemma nth_error_split_update (A : Type) (l : list A) (i : nat) (x : A) :
  nth_error l i = Some x ->
  exists l1 l2,
    l = l1 ++ x :: l2
    /\ List.length l1 = i
    /\ splice1 i l = l1 ++ l2
    /\ forall f, update_nth i f l = l1 ++ f x :: l2.
Proof.
  revert i. induction l as [|y l IH]; intros [|i] H; simpl in H; try discriminate.
  - injection H as ->. exists [], l. simpl. auto.
  - destruct (IH i H) as [l1 [l2 [E [Hl [Hs Hu]]]]].
    exists (y :: l1), l2. simpl. rewrite E at 1. rewrite Hl, Hs.
    repeat split; try reflexivity. intro f. now rewrite Hu.
Qed.

Lemma find_split_update (A : Type) (p : A -> bool) (l : list A) (x : A) :
  find p l = Some x ->
  exists l1 l2,
    l = l1 ++ x :: l2
    /\ findIndex p l = Some (List.length l1)
    /\ forall f, update_first p f l = l1 ++ f x :: l2.
Proof.
  induction l as [|y l IH]; simpl; [discriminate|].
  destruct (p y) eqn:E.
  - intro H. injection H as ->. exists [], l. simpl. auto.
  - intro H. destruct (IH H) as [l1 [l2 [El [Hi Hu]]]].
    exists (y :: l1), l2. simpl. rewrite El at 1. rewrite Hi.
    repeat split; try reflexivity. intro f. now rewrite Hu.
Qed.

Lemma findIndex_find (A : Type) (p : A -> bool) (l : list A) (i : nat) :
  findIndex p l = Some i ->
  exists x, find p l = Some x /\ nth_error l i = Some x /\ p x = true.
Proof.
  revert i. induction l as [|y l IH]; simpl; [discriminate|].
  intro i. destruct (p y) eqn:E.
  - intro H. injection H as <-. exists y. auto.
  - destruct (findIndex p l) as [j|]; [|discriminate].
    simpl. intro H. injection H as <-. destruct (IH j eq_refl) as [x Hx].
    exists x. exact Hx.
Qed.

Lemma findIndex_none (A : Type) (p : A -> bool) (l : list A) :
  findIndex p l = None <-> find p l = None.
Proof.
  induction l as [|y l IH]; simpl; [tauto|].
  destruct (p y); [split; discriminate|].
  destruct (findIndex p l); simpl; split; intro H; try discriminate.
  - destruct IH as [_ IH]. specialize (IH H). discriminate.
  - apply IH. reflexivity.
  - reflexivity.
Qed.

Lemma update_first_map (A B : Type) (h : A -> B) (p : A -> bool) (f : A -> A) (l : list A) :
  (forall x, h (f x) = h x) -> List.map h (update_first p f l) = List.map h l.
Proof.
  intro H. induction l as [|x l IH]; simpl; [reflexivity|].
  destruct (p x); simpl; [now rewrite H|now rewrite IH].
Qed.

Lemma update_nth_map (A B : Type) (h : A -> B) (i : nat) (f : A -> A) (l : list A) :
  (forall x, h (f x) = h x) -> List.map h (update_nth i f l) = List.map h l.
Proof.
  intro H. revert i. induction l as [|x l IH]; intros [|i]; simpl; try reflexivity.
  - now rewrite H.
  - now rewrite IH.
Qed.

Lemma map_map_same (A B : Type) (h : A -> B) (f : A -> A) (l : list A) :
  (forall x, h (f x) = h x) -> List.map h (List.map f l) = List.map h l.
Proof.
  intro H. rewrite List.map_map. apply List.map_ext. exact H.
Qed.

Lemma splice1_sublist_Forall (A : Type) (P : A -> Prop) (i : nat) (l : list A) :
  Forall P l -> Forall P (splice1 i l).
Proof.
  intro H. revert i. induction H as [|x l Hx H IH]; intros [|i]; simpl; auto.
Qed.

Lemma splice1_length (A : Type) (i : nat) (l : list A) :
  (i < List.length l)%nat -> S (List.length (splice1 i l)) = List.length l.
Proof.
  revert i. induction l as [|x l IH]; intros [|i] H; simpl in *; try lia.
  rewrite IH; [reflexivity|lia].
Qed.

Lemma splice1_NoDup (A : Type) (i : nat) (l : list A) :
  NoDup l -> NoDup (splice1 i l).
Proof.
  intro H. revert i. induction H as [|x l Hx H IH]; intros [|i]; simpl;
    [constructor|constructor|exact H|].
  constructor; [|apply IH]. intro Hin. apply Hx.
    clear -Hin. revert i Hin. induction l as [|y l IHl]; intros [|i] Hin; simpl in *; auto.
    destruct Hin as [->|Hin]; [now left|right; eapply IHl; exact Hin].
Qed.

Lemma splice1_map (A B : Type) (h : A -> B) (i : nat) (l : list A) :
  List.map h (splice1 i l) = splice1 i (List.map h l).
Proof.
  revert i. induction l as [|x l IH]; intros [|i]; simpl; try reflexivity.
  now rewrite IH.
Qed.

(** ** The shape of the operations *)

Lemma nextTurn_unfold (continents : list Continent) (rnd : nat -> Q) (g : Game) :
  nextTurn continents rnd g
  = if (List.length (players g) =? 0)%nat then set_currentPlayerIndex 0 g
    else turnStart continents (turnEnd rnd g).
Proof. reflexivity. Qed.

Lemma update_nth_twice (A : Type) (i : nat) (f h : A -> A) (l : list A) :
  update_nth i h (update_nth i f l) = update_nth i (fun x => h (f x)) l.
Proof.
  revert i. induction l as [|x l IH]; intros [|i]; simpl; try reflexivity.
  now rewrite IH.
Qed.

Lemma update_nth_none (A : Type) (i : nat) (f : A -> A) (l : list A) :
  nth_error l i = None -> update_nth i f l = l.
Proof.
  revert i. induction l as [|x l IH]; intros [|i] H; simpl in *; try reflexivity.
  - discriminate.
  - now rewrite IH.
Qed.

(** The fields that the end of a turn leaves alone. *)
Lemma turnEnd_frame (rnd : nat -> Q) (g : Game) :
  phase (turnEnd rnd g) = phase g
  /\ currentPlayerIndex (turnEnd rnd g) = currentPlayerIndex g
  /\ map (turnEnd rnd g) = map g
  /\ isFirstRound (turnEnd rnd g) = isFirstRound g
  /\ winnerId (turnEnd rnd g) = winnerId g
  /\ battleHistory (turnEnd rnd g) = battleHistory g
  /\ lastAttackId (turnEnd rnd g) = lastAttackId g
  /\ lastAttack (turnEnd rnd g) = lastAttack g
  /\ globalTradeInCount (turnEnd rnd g) = globalTradeInCount g
  /\ List.map p_id (players (turnEnd rnd g)) = List.map p_id (players g)
  /\ List.map pool (players (turnEnd rnd g)) = List.map pool (players g)
  /\ List.length (players (turnEnd rnd g)) = List.length (players g).
Proof.
  unfold turnEnd, grantTurnCardIfEligible.
  destruct (getCurrentPlayer (set_pendingCardEarned None g)) as [p|]; [|simpl; tauto].
  destruct (conqueredThisTurn p); simpl.
  - destruct (draw rnd (deck g)) as [[card|] d]; simpl;
      rewrite ?update_nth_twice, ?update_nth_length;
      repeat split; apply update_nth_map; reflexivity.
  - rewrite update_nth_length. repeat split; apply update_nth_map; reflexivity.
Qed.

(** The cards at the end of a turn: the player who conquered a territory
    draws one card if the deck has any, and nobody else draws. *)
Lemma turnEnd_cards (rnd : nat -> Q) (g : Game) :
  (deck (turnEnd rnd g) = deck g
   /\ List.map hand (players (turnEnd rnd g)) = List.map hand (players g)
   /\ pendingCardEarned (turnEnd rnd g) = None
   /\ forall p, getCurrentPlayer g = Some p -> conqueredThisTurn p = true ->
                drawPile (deck g) = [] /\ discardPile (deck g) = [])
  \/ exists p card d',
      getCurrentPlayer g = Some p
      /\ conqueredThisTurn p = true
      /\ draw rnd (deck g) = (Some card, d')
      /\ deck (turnEnd rnd g) = d'
      /\ players (turnEnd rnd g)
         = update_nth (currentPlayerIndex g)
             (fun q => set_conqueredThisTurn false (set_hand (hand q ++ [card]) q))
             (players g)
      /\ pendingCardEarned (turnEnd rnd g) = Some (p_id p, card).
Proof.
  unfold turnEnd, grantTurnCardIfEligible.
  change (getCurrentPlayer (set_pendingCardEarned None g)) with (getCurrentPlayer g).
  destruct (getCurrentPlayer g) as [p|] eqn:Ep.
  - destruct (conqueredThisTurn p) eqn:Ec.
    + change (deck (set_pendingCardEarned None g)) with (deck g).
      destruct (draw_spec rnd (deck g)) as [[H1 [H2 H3]]|[card [d' [H3 _]]]]; rewrite H3.
      * left. simpl. repeat split; auto.
        apply update_nth_map. reflexivity.
      * right. exists p, (with_uid (card_uid_of (nextUid (deck g))) card), d'.
        simpl. rewrite update_nth_twice. repeat split; auto.
    + left. simpl. split; [reflexivity|]. split; [|split; [reflexivity|]].
      * apply update_nth_map. reflexivity.
      * intros q Hq. injection Hq as <-. congruence.
  - left. simpl. split; [reflexivity|]. split; [reflexivity|]. split; [reflexivity|].
    intros q Hq. discriminate.
Qed.

(** After the end of a turn the conquest flag of the player who moved is
    cleared. *)
Lemma turnEnd_flag (rnd : nat -> Q) (g : Game) (p : Player) :
  getCurrentPlayer (turnEnd rnd g) = Some p -> conqueredThisTurn p = false.
Proof.
  unfold turnEnd, grantTurnCardIfEligible.
  change (getCurrentPlayer (set_pendingCardEarned None g)) with (getCurrentPlayer g).
  destruct (getCurrentPlayer g) as [q|] eqn:Eq.
  - assert (H : forall h, currentPlayerIndex h = currentPlayerIndex g ->
                          getCurrentPlayer (modCurrentPlayer (set_conqueredThisTurn false) h) = Some p ->
                          conqueredThisTurn p = false).
    { intros h Hc. unfold getCurrentPlayer, modCurrentPlayer. simpl.
      rewrite nth_error_update_nth, Nat.eqb_refl.
      destruct (nth_error (players h) (currentPlayerIndex h)); simpl; [|discriminate].
      intro E. injection E as <-. reflexivity. }
    destruct (conqueredThisTurn q).
    + destruct (draw rnd (deck (set_pendingCardEarned None g))) as [[card|] d];
        apply H; reflexivity.
    + apply H. reflexivity.
  - change (getCurrentPlayer (set_pendingCardEarned None g)) with (getCurrentPlayer g).
    congruence.
Qed.

Ltac frame_facts :=
  repeat match goal with
         | |- _ /\ _ => split
         | |- List.map _ (List.map _ _) = List.map _ _ => apply map_map_same; reflexivity
         | |- List.map _ (update_first _ _ _) = List.map _ _ => apply update_first_map; reflexivity
         | |- List.map _ (update_nth _ _ _) = List.map _ _ => apply update_nth_map; reflexivity
         | |- _ = _ => reflexivity
         | |- _ = LOBBY -> _ => let H := fresh in intro H; first [exact H | discriminate H | congruence]
         end.

Lemma startNewRound_frame (continents : list Continent) (g : Game) :
  let g' := startNewRound continents g in
  deck g' = deck g
  /\ List.map hand (players g') = List.map hand (players g)
  /\ List.map p_id (players g') = List.map p_id (players g)
  /\ battleHistory g' = battleHistory g
  /\ lastAttackId g' = lastAttackId g
  /\ map g' = map g
  /\ winnerId g' = winnerId g
  /\ phase g' = GLOBAL_REINFORCE
  /\ currentPlayerIndex g' = 0%nat.
Proof. unfold startNewRound. simpl. frame_facts. Qed.

Lemma turnStart_frame (continents : list Continent) (g : Game) :
  let g' := turnStart continents g in
  deck g' = deck g
  /\ List.map hand (players g') = List.map hand (players g)
  /\ List.map p_id (players g') = List.map p_id (players g)
  /\ battleHistory g' = battleHistory g
  /\ lastAttackId g' = lastAttackId g
  /\ map g' = map g
  /\ winnerId g' = winnerId g
  /\ phase g' <> LOBBY.
Proof.
  unfold turnStart.
  destruct (currentPlayerIndex (advanceCursor g) =? 0)%nat.
  - destruct (isFirstRound (advanceCursor g)); simpl; frame_facts; discriminate.
  - simpl. frame_facts. discriminate.
Qed.

Lemma nextTurn_frame (continents : list Continent) (rnd : nat -> Q) (g : Game) :
  let g' := nextTurn continents rnd g in
  List.map p_id (players g') = List.map p_id (players g)
  /\ battleHistory g' = battleHistory g
  /\ lastAttackId g' = lastAttackId g
  /\ map g' = map g
  /\ winnerId g' = winnerId g.
Proof.
  rewrite nextTurn_unfold. destruct (List.length (players g) =? 0)%nat.
  - simpl. frame_facts.
  - destruct (turnStart_frame continents (turnEnd rnd g))
      as [_ [_ [H1 [H2 [H3 [H4 [H5 _]]]]]]].
    destruct (turnEnd_frame rnd g) as [_ [_ [F1 [_ [F2 [F3 [F4 [_ [_ [F5 _]]]]]]]]]].
    cbv zeta. rewrite H1, H2, H3, H4, H5. auto.
Qed.

Lemma deployMove_frame (playerId territoryId : string) (amount : Q) (g : Game) :
  let g' := deployMove playerId territoryId amount g in
  deck g' = deck g
  /\ List.map hand (players g') = List.map hand (players g)
  /\ List.map p_id (players g') = List.map p_id (players g)
  /\ battleHistory g' = battleHistory g
  /\ lastAttackId g' = lastAttackId g
  /\ winnerId g' = winnerId g
  /\ phase g' = phase g
  /\ currentPlayerIndex g' = currentPlayerIndex g
  /\ isFirstRound g' = isFirstRound g.
Proof. unfold deployMove, modPlayer, modTerritory. simpl. frame_facts. Qed.

Lemma deployCompletion_frame (continents : list Continent) (poolNow : Q) (g : Game) :
  let g' := deployCompletion continents poolNow g in
  deck g' = deck g
  /\ List.map hand (players g') = List.map hand (players g)
  /\ List.map p_id (players g') = List.map p_id (players g)
  /\ battleHistory g' = battleHistory g
  /\ lastAttackId g' = lastAttackId g
  /\ map g' = map g
  /\ winnerId g' = winnerId g
  /\ (phase g' = LOBBY -> phase g = LOBBY).
Proof.
  unfold deployCompletion. destruct (phase g) eqn:Ep.
  - simpl. frame_facts.
  - destruct (areAllPoolsEmpty g).
    + destruct (isFirstRound (set_currentPlayerIndex 0 g)); simpl; frame_facts.
    + destruct (Qeqb poolNow 0); simpl; rewrite ?Ep; frame_facts.
  - destruct (Qeqb poolNow 0); [|simpl; rewrite ?Ep; frame_facts].
    destruct (currentPlayerIndex (advanceCursor g) =? 0)%nat; simpl; rewrite ?Ep; frame_facts.
  - simpl. frame_facts.
  - simpl. frame_facts.
Qed.

(** A call of [deploy] either changes nothing or moves a number of
    troops, at least 1 and at most the pool, from the pool of the current
    player to a territory that player owns. *)
Lemma deploy_cases (continents : list Continent) (g : Game) (playerId territoryId : string)
      (count : JS.number) :
  deploy continents g playerId territoryId count = (false, g)
  \/ exists player territory amount,
      JS.truthy_opt (winnerId g) = false
      /\ getPlayer g playerId = Some player
      /\ notCurrentPlayer g playerId = false
      /\ getTerritory g territoryId = Some territory
      /\ owns playerId territory = true
      /\ deployAmount count = JS.Fin amount
      /\ 1 <= amount
      /\ amount <= pool player
      /\ deploy continents g playerId territoryId count
         = (true, deployCompletion continents (pool player - amount)
                                   (deployMove playerId territoryId amount g)).
Proof.
  unfold deploy.
  destruct (JS.truthy_opt (winnerId g)) eqn:Ew; [now left|].
  destruct (getPlayer g playerId) as [player|] eqn:Epl; [|now left].
  destruct (notCurrentPlayer g playerId) eqn:Ec; [now left|].
  destruct (getTerritory g territoryId) as [territory|] eqn:Et; [|now left].
  destruct (owns playerId territory) eqn:Eo; [|now left]. simpl.
  destruct (deployAmount_range count) as [[a [Ea Ha]]|Ea]; rewrite Ea; [|now left].
  destruct (Qltb (pool player) a) eqn:El; [now left|].
  right. exists player, territory, a. apply Qltb_ge in El. repeat split; auto.
Qed.

Lemma nextPhase_cases (continents : list Continent) (rnd : nat -> Q) (g : Game) :
  let g' := snd (nextPhase continents rnd g) in
  g' = g
  \/ (phase g = GLOBAL_REINFORCE /\ players g <> []
      /\ (g' = advanceCursor g \/ g' = set_phase TURN_ATTACK (advanceCursor g)))
  \/ (phase g = TURN_ATTACK /\ g' = set_phase TURN_FORTIFY g)
  \/ (phase g = TURN_FORTIFY /\ g' = nextTurn continents rnd g).
Proof.
  unfold nextPhase. destruct (JS.truthy_opt (winnerId g)); [now left|].
  destruct (phase g) eqn:Ep; try (now left).
  - destruct (getCurrentPlayer g) as [p|] eqn:Ec; [|now left].
    destruct (Qeqb (pool p) 0); [|now left].
    right. left. split; [reflexivity|]. split.
    + unfold getCurrentPlayer in Ec. intro E. rewrite E in Ec.
      destruct (currentPlayerIndex g); discriminate.
    + destruct (currentPlayerIndex (advanceCursor g) =? 0)%nat; simpl; auto.
  - right. right. left. auto.
  - right. right. right. auto.
Qed.

(** The reward of a trade is a finite number, never below 4. *)
Lemma getTradeInReward_min (n : nat) :
  exists awarded,
    getTradeInReward (JS.Fin (Qnat (n + 1))) = JS.Fin awarded /\ 4 <= awarded.
Proof.
  destruct (@getTradeInReward_bounds (n + 1)) as [r [E [Hr _]]]; [lia|].
  exists r. split; [exact E | exact Hr].
Qed.

(** A call of [tradeCards] either changes nothing or, for the current
    player of a running match without a winner, takes the three selected
    cards out of the hand, puts them on the discard pile, counts the trade
    and adds the reward to the pool. *)
Lemma tradeCards_cases (g : Game) (playerId : string) (selectedCardUids : list string) :
  tradeCards g playerId selectedCardUids = (None, g)
  \/ exists player awarded,
      let uniqueUids := filter JS.truthy_str (uniq [] selectedCardUids) in
      let selectedCards :=
        somes (List.map (fun uid => find (hasUid uid) (hand player)) uniqueUids) in
      JS.truthy_opt (winnerId g) = false
      /\ phase g <> LOBBY
      /\ getPlayer g playerId = Some player
      /\ notCurrentPlayer g playerId = false
      /\ List.length uniqueUids = 3%nat
      /\ List.length selectedCards = 3%nat
      /\ isValidTradeSet selectedCards = true
      /\ getTradeInReward (JS.Fin (Qnat (globalTradeInCount g + 1))) = JS.Fin awarded
      /\ 4 <= awarded
      /\ tradeCards g playerId selectedCardUids
         = (Some (JS.Fin awarded, (globalTradeInCount g + 1)%nat,
                  getTradeInReward (JS.Fin (Qnat (globalTradeInCount g + 1 + 1)))),
            modPlayer playerId (fun p => set_pool (pool p + awarded) p)
              (set_globalTradeInCount (globalTradeInCount g + 1)
                 (set_deck (discard selectedCards (deck g))
                    (modPlayer playerId
                       (fun p => set_hand
                                   (filter (fun c => negb (inUidSet uniqueUids c)) (hand p)) p)
                       g)))).
Proof.
  unfold tradeCards.
  destruct (JS.truthy_opt (winnerId g)) eqn:Ew; [now left|].
  destruct (Phase_eqb (phase g) LOBBY) eqn:Ep; [now left|]. simpl.
  destruct (getPlayer g playerId) as [player|] eqn:Epl; [|now left].
  destruct (notCurrentPlayer g playerId) eqn:Ec; [now left|].
  destruct (List.length (hand player) <? 3)%nat; [now left|].
  destruct (List.length (filter JS.truthy_str (uniq [] selectedCardUids)) =? 3)%nat eqn:E3;
    [|now left].
  simpl.
  destruct (List.length
              (somes (List.map (fun uid => find (hasUid uid) (hand player))
                               (filter JS.truthy_str (uniq [] selectedCardUids)))) =? 3)%nat
    eqn:E4; [|now left].
  simpl.
  destruct (isValidTradeSet
              (somes (List.map (fun uid => find (hasUid uid) (hand player))
                               (filter JS.truthy_str (uniq [] selectedCardUids))))) eqn:Ev;
    [|now left].
  simpl.
  destruct (getTradeInReward_min (globalTradeInCount g)) as [awarded [Ea Ha]].
  rewrite Ea. right. exists player, awarded.
  apply Nat.eqb_eq in E3, E4.
  repeat split; auto.
  intro E. rewrite E in Ep. discriminate.
Qed.

Lemma removePlayer_absent (g : Game) (socketId : string) :
  findIndex (is_player socketId) (players g) = None ->
  removePlayer g socketId = (false, g).
Proof. unfold removePlayer. intros ->. reflexivity. Qed.

(** The effect of removing a player who is in the match. *)
Lemma removePlayer_effect (g : Game) (socketId : string) (index : nat) :
  findIndex (is_player socketId) (players g) = Some index ->
  exists player,
    nth_error (players g) index = Some player
    /\ p_id player = socketId
    /\ let g' := snd (removePlayer g socketId) in
       fst (removePlayer g socketId) = true
       /\ players g' = splice1 index (players g)
       /\ deck g'
          = (if (List.length (hand player) =? 0)%nat then deck g
             else discard (hand player) (deck g))
       /\ phase g' = phase g
       /\ battleHistory g' = battleHistory g
       /\ lastAttackId g' = lastAttackId g
       /\ winnerId g' = winnerId g
       /\ map g'
          = (if Phase_eqb (phase g) LOBBY then map g
             else map (neutralizePlayerTerritories socketId g))
       /\ currentPlayerIndex g'
          = (if Phase_eqb (phase g) LOBBY then currentPlayerIndex g
             else if (0 <? List.length (splice1 index (players g)))%nat then
                    if (index <? currentPlayerIndex g)%nat then (currentPlayerIndex g - 1)%nat
                    else if (List.length (splice1 index (players g)) <=? currentPlayerIndex g)%nat
                         then 0%nat else currentPlayerIndex g
                  else 0%nat).
Proof.
  intro Hi. destruct (findIndex_find _ _ Hi) as [player [_ [Hn Hp]]].
  exists player. split; [exact Hn|]. split; [now apply String.eqb_eq in Hp|].
  unfold removePlayer. rewrite Hi, Hn.
  destruct (List.length (hand player) =? 0)%nat; simpl;
    destruct (Phase_eqb (phase g) LOBBY); simpl;
    try (repeat split; reflexivity);
    destruct (0 <? List.length (splice1 index (players g)))%nat; simpl;
    try (repeat split; reflexivity);
    destruct (index <? currentPlayerIndex g)%nat; simpl;
    try (repeat split; reflexivity);
    destruct (List.length (splice1 index (players g)) <=? currentPlayerIndex g)%nat; simpl;
    repeat split; reflexivity.
Qed.

Lemma shuffleAndDistribute_frame (rnd : nat -> Q) (g : Game) :
  let g' := shuffleAndDistribute rnd g in
  deck g' = deck g
  /\ List.map hand (players g') = List.map hand (players g)
  /\ List.map p_id (players g') = List.map p_id (players g)
  /\ battleHistory g' = battleHistory g
  /\ lastAttackId g' = lastAttackId g
  /\ phase g' = phase g
  /\ winnerId g' = winnerId g
  /\ isFirstRound g' = isFirstRound g
  /\ globalTradeInCount g' = globalTradeInCount g
  /\ Forall (fun p => 0 <= pool p) (players g').
Proof.
  unfold shuffleAndDistribute. cbv zeta.
  cbn [deck players set_players set_map battleHistory lastAttackId phase winnerId
       isFirstRound globalTradeInCount].
  frame_facts.
  apply Forall_forall. intros p Hp. apply in_map_iff in Hp.
  destruct Hp as [q [<- _]]. simpl. apply Math_max_lower.
Qed.

Lemma startGame_refused (rnd : nat -> Q) (g : Game) :
  canStartGame g = false -> startGame rnd g = (false, g).
Proof. unfold startGame. intros ->. reflexivity. Qed.

Lemma startGame_accepted (rnd : nat -> Q) (g : Game) :
  canStartGame g = true ->
  startGame rnd g
  = (true,
     set_currentPlayerIndex 0
       (shuffleAndDistribute
          (fun k => rnd (List.length (baseCards (deck g)) - 1 + k)%nat)
          (set_deck (deck_reset rnd (deck g))
             (set_globalTradeInCount 0
                (set_players
                   (List.map
                      (fun player =>
                         set_conqueredThisTurn false
                           (set_ready false
                              (set_pool (getStartingPool (List.length (players g))) player)))
                      (players g))
                   (set_pendingCardEarned None
                      (set_winnerId None (set_isFirstRound true (set_phase SETUP g))))))))).
Proof. intro H. unfold startGame. rewrite H. reflexivity. Qed.

(** The effect of a start that is accepted. *)
Lemma startGame_effect (rnd : nat -> Q) (g : Game) :
  canStartGame g = true ->
  let g' := snd (startGame rnd g) in
  fst (startGame rnd g) = true
  /\ phase g' = SETUP
  /\ currentPlayerIndex g' = 0%nat
  /\ isFirstRound g' = true
  /\ winnerId g' = None
  /\ globalTradeInCount g' = 0%nat
  /\ deck g' = deck_reset rnd (deck g)
  /\ List.map hand (players g') = List.map hand (players g)
  /\ List.map p_id (players g') = List.map p_id (players g)
  /\ battleHistory g' = battleHistory g
  /\ lastAttackId g' = lastAttackId g
  /\ Forall (fun p => 0 <= pool p) (players g').
Proof.
  intro H. rewrite (startGame_accepted rnd g H). cbv zeta. unfold fst, snd.
  match goal with
  | |- context [shuffleAndDistribute ?r ?h] =>
      set (g4 := h);
      destruct (shuffleAndDistribute_frame r g4)
        as [F1 [F2 [F3 [F4 [F5 [F6 [F7 [F8 [F9 F10]]]]]]]]];
      cbv zeta in F1, F2, F3, F4, F5, F6, F7, F8, F9, F10;
      set (g5 := shuffleAndDistribute r g4) in *
  end.
  clearbody g5.
  change (true = true /\ phase g5 = SETUP /\ 0%nat = 0%nat /\ isFirstRound g5 = true
          /\ winnerId g5 = None /\ globalTradeInCount g5 = 0%nat
          /\ deck g5 = deck_reset rnd (deck g)
          /\ List.map hand (players g5) = List.map hand (players g)
          /\ List.map p_id (players g5) = List.map p_id (players g)
          /\ battleHistory g5 = battleHistory g
          /\ lastAttackId g5 = lastAttackId g
          /\ Forall (fun p => 0 <= pool p) (players g5)).
  rewrite F1, F2, F3, F4, F5, F6, F7, F8, F9.
  repeat split; try reflexivity; try assumption;
    unfold g4; cbn [players set_deck set_globalTradeInCount set_players];
    apply map_map_same; reflexivity.
Qed.

Lemma conquer_cards (g : Game) (playerId fromId toId : string) (requested : Q) (aL : nat) :
  let g' := snd (conquer playerId fromId toId requested aL g) in
  deck g' = deck g
  /\ List.map hand (players g') = List.map hand (players g)
  /\ List.map p_id (players g') = List.map p_id (players g)
  /\ List.map pool (players g') = List.map pool (players g)
  /\ battleHistory g' = battleHistory g
  /\ lastAttackId g' = lastAttackId g
  /\ phase g' = phase g
  /\ currentPlayerIndex g' = currentPlayerIndex g.
Proof.
  unfold conquer, checkForWinner. cbv zeta.
  destruct (negb (JS.truthy_str playerId)); [simpl; frame_facts|].
  match goal with |- context [if ?c then _ else _] => destruct c end; simpl; frame_facts.
Qed.

(** What the resolution of an attack leaves alone, and what it records. *)
Lemma resolveBattle_frame (rnd : nat -> Q) (g : Game) (playerId fromId toId : string)
      (requested : Q) (to : Territory) :
  let r := fst (resolveBattle rnd g playerId fromId toId requested to) in
  let g' := snd (resolveBattle rnd g playerId fromId toId requested to) in
  deck g' = deck g
  /\ List.map hand (players g') = List.map hand (players g)
  /\ List.map p_id (players g') = List.map p_id (players g)
  /\ List.map pool (players g') = List.map pool (players g)
  /\ phase g' = phase g
  /\ currentPlayerIndex g' = currentPlayerIndex g
  /\ lastAttackId g' = (lastAttackId g + 1)%nat
  /\ a_id r = (lastAttackId g + 1)%nat
  /\ lastAttack g' = Some r
  /\ battleHistory g' = pushCapped (battleHistory g) r 50.
Proof.
  unfold resolveBattle. cbv zeta.
  destruct (compareDice _ _) as [aL dL].
  destruct (Qleb (troopsOf (applyLosses fromId toId aL dL g) toId) 0).
  - destruct (conquer_cards (applyLosses fromId toId aL dL g) playerId fromId toId requested aL)
      as [F1 [F2 [F3 [F4 [F5 [F6 [F7 F8]]]]]]].
    cbv zeta in F1, F2, F3, F4, F5, F6, F7, F8.
    destruct (conquer playerId fromId toId requested aL (applyLosses fromId toId aL dL g))
      as [w h].
    unfold snd in F1, F2, F3, F4, F5, F6, F7, F8.
    unfold recordAttack. cbv zeta. unfold fst, snd.
    cbn [deck players phase currentPlayerIndex lastAttackId lastAttack battleHistory a_id
         set_battleHistory set_lastAttack set_lastAttackId].
    rewrite F1, F2, F3, F4, F5, F6, F7, F8.
    unfold applyLosses, modTerritory. cbn [deck players phase currentPlayerIndex lastAttackId
                                           battleHistory set_map].
    repeat split; reflexivity.
  - unfold recordAttack, applyLosses, modTerritory. simpl. repeat split; reflexivity.
Qed.

(** A call of [attack] either changes nothing or is resolved. *)
Lemma attack_resolved (rnd : nat -> Q) (g : Game) (playerId fromId toId : string)
      (count : JS.number) :
  attack rnd g playerId fromId toId count = (None, g)
  \/ exists requested to,
      phase g = TURN_ATTACK
      /\ attack rnd g playerId fromId toId count
         = (Some (fst (resolveBattle rnd g playerId fromId toId requested to)),
            snd (resolveBattle rnd g playerId fromId toId requested to)).
Proof.
  unfold attack.
  destruct (JS.truthy_opt (winnerId g)); [now left|].
  destruct (phase g) eqn:Ep; try (now left). simpl.
  destruct (notCurrentPlayer g playerId); [now left|].
  destruct (getTerritory g fromId) as [from|]; [|now left].
  destruct (getTerritory g toId) as [to|]; [|now left].
  match goal with |- context [if ?c then _ else _] => destruct c end; [now left|].
  match goal with |- context [if ?c then _ else _] => destruct c end; [now left|].
  match goal with |- context [if ?c then _ else _] => destruct c end; [now left|].
  destruct count as [requested| | |]; try (now left).
  destruct (Qltb requested 1); [now left|].
  destruct (Qltb (troops from - 1) requested); [now left|].
  destruct (Qltb 3 requested); [now left|].
  right. exists requested, to. split; [reflexivity|].
  destruct (resolveBattle rnd g playerId fromId toId requested to). reflexivity.
Qed.

Lemma addPlayer_cases (sanitize : list Player -> string -> string) (g : Game)
      (socketId requestedName : string) :
  addPlayer sanitize g socketId requestedName = (false, g)
  \/ exists player,
      phase g = LOBBY
      /\ (List.length (players g) < 4)%nat
      /\ socketId <> ""%string
      /\ find (is_player socketId) (players g) = None
      /\ p_id player = socketId /\ pool player = 0 /\ hand player = []
      /\ ready player = false
      /\ addPlayer sanitize g socketId requestedName
         = (true, set_players (players g ++ [player]) g).
Proof.
  unfold addPlayer.
  destruct (phase g) eqn:Ep; try (now left). cbn [Phase_eqb negb].
  destruct (4 <=? List.length (players g))%nat eqn:E4; [now left|].
  destruct (JS.truthy_str socketId) eqn:Es; [|now left]. cbn [negb].
  destruct (existsb (is_player socketId) (players g)) eqn:Ee; [now left|].
  right. eexists. split; [reflexivity|]. apply Nat.leb_gt in E4.
  split; [exact E4|]. split.
  { intros ->. discriminate. }
  split.
  { destruct (find (is_player socketId) (players g)) as [p|] eqn:Ef; [|reflexivity].
    apply find_some in Ef. destruct Ef as [Hin Hp].
    assert (existsb (is_player socketId) (players g) = true)
      by (apply existsb_exists; eauto).
    congruence. }
  repeat split; reflexivity.
Qed.

(** ** The turn cursor *)

Lemma turnCursorOk_same (g g' : Game) :
  currentPlayerIndex g' = currentPlayerIndex g ->
  phase g' = phase g ->
  List.length (players g') = List.length (players g) ->
  turnCursorOk g -> turnCursorOk g'.
Proof. unfold turnCursorOk. intros -> -> ->. tauto. Qed.

Lemma map_length_eq (A B : Type) (h : A -> B) (l l' : list A) :
  List.map h l' = List.map h l -> List.length l' = List.length l.
Proof. intro H. apply (f_equal (@List.length B)) in H. now rewrite !length_map in H. Qed.

Lemma advanceCursor_ok (g : Game) :
  players g <> [] -> phase g <> LOBBY -> turnCursorOk (advanceCursor g).
Proof.
  intros Hp Hl. right. split; [exact Hl|]. simpl.
  apply Nat.mod_upper_bound. destruct (players g); [congruence|discriminate].
Qed.

Lemma turnStart_cursor (continents : list Continent) (g : Game) :
  players g <> [] -> turnCursorOk (turnStart continents g).
Proof.
  intro Hp. unfold turnStart.
  destruct (currentPlayerIndex (advanceCursor g) =? 0)%nat.
  - left. reflexivity.
  - right. split; [discriminate|]. simpl.
    apply Nat.mod_upper_bound. destruct (players g); [congruence|discriminate].
Qed.

Lemma nextTurn_cursor (continents : list Continent) (rnd : nat -> Q) (g : Game) :
  turnCursorOk (nextTurn continents rnd g).
Proof.
  rewrite nextTurn_unfold. destruct (List.length (players g) =? 0)%nat eqn:E.
  - left. reflexivity.
  - apply turnStart_cursor. apply Nat.eqb_neq in E.
    destruct (turnEnd_frame rnd g) as [_ [_ [_ [_ [_ [_ [_ [_ [_ [_ [_ H]]]]]]]]]]].
    intro Hn. rewrite Hn in H. simpl in H. congruence.
Qed.

Lemma deployCompletion_cursor (continents : list Continent) (poolNow : Q) (g : Game) :
  players g <> [] -> turnCursorOk g ->
  turnCursorOk (deployCompletion continents poolNow g).
Proof.
  intros Hp Hc. unfold deployCompletion. destruct (phase g) eqn:Ep; try exact Hc.
  - destruct (areAllPoolsEmpty g).
    + destruct (isFirstRound (set_currentPlayerIndex 0 g)); left; reflexivity.
    + destruct (Qeqb poolNow 0); [|exact Hc].
      apply advanceCursor_ok; [exact Hp|congruence].
  - destruct (Qeqb poolNow 0); [|exact Hc].
    destruct (currentPlayerIndex (advanceCursor g) =? 0)%nat.
    + left. reflexivity.
    + apply advanceCursor_ok; [exact Hp|congruence].
Qed.

Lemma find_some_nonempty (A : Type) (p : A -> bool) (l : list A) (x : A) :
  find p l = Some x -> l <> [].
Proof. destruct l; [discriminate|discriminate]. Qed.

Lemma removePlayer_cursor (g : Game) (socketId : string) :
  turnCursorOk g -> turnCursorOk (snd (removePlayer g socketId)).
Proof.
  intro Hc. destruct (findIndex (is_player socketId) (players g)) as [index|] eqn:Ei.
  - destruct (removePlayer_effect g socketId Ei)
      as [player [Hn [_ [_ [Hp [_ [Hph [_ [_ [_ [_ Hcur]]]]]]]]]]].
    cbv zeta in Hp, Hph, Hcur.
    assert (Hlen : S (List.length (splice1 index (players g))) = List.length (players g)).
    { apply splice1_length. apply nth_error_Some. congruence. }
    unfold turnCursorOk. rewrite Hcur, Hp, Hph.
    destruct (phase g) eqn:Ep; simpl;
      try (destruct Hc as [Hc|[Hc _]]; [left; exact Hc|congruence]);
      (destruct (0 <? List.length (splice1 index (players g)))%nat; [|now left];
       destruct (index <? currentPlayerIndex g)%nat eqn:E1;
       [ apply Nat.ltb_lt in E1; right; split; [discriminate|];
         destruct Hc as [Hc|[_ Hc]]; lia
       | destruct (List.length (splice1 index (players g)) <=? currentPlayerIndex g)%nat eqn:E2;
         [ now left | apply Nat.leb_gt in E2; right; split; [discriminate|exact E2] ] ]).
  - rewrite removePlayer_absent by exact Ei. exact Hc.
Qed.

(** Across every operation of the game the turn cursor stays at 0 or, in a
    running match, on one of the players; so whenever the match has players
    afterwards, [getCurrentPlayer] finds one. *)
Theorem operations_keep_cursor
        (territories : list MapTerritory) (continents : list Continent)
        (sanitize : list Player -> string -> string) (g g' : Game) :
  operation territories continents sanitize anyCount g g' ->
  turnCursorOk g ->
  turnCursorOk g'
  /\ (players g' <> [] -> exists p, getCurrentPlayer g' = Some p).
Proof.
  intros Hop Hc.
  assert (H : turnCursorOk g').
  { destruct Hop as [g socketId requestedName|g socketId|g socketId readyValue|g socketId
                     |rnd g|g|g playerId territoryId count _|rnd g|rnd g|g
                     |g playerId selectedCardUids|rnd g playerId fromId toId count _
                     |rnd g playerId fromId toId count _|rnd g].
    - destruct (addPlayer_cases sanitize g socketId requestedName)
        as [E|[player [Hl [_ [_ [_ [_ [_ [_ [_ E]]]]]]]]]]; rewrite E; [exact Hc|].
      destruct Hc as [Hc|[Hc _]]; [left; exact Hc|congruence].
    - apply removePlayer_cursor, Hc.
    - unfold setPlayerReady. destruct (negb (Phase_eqb (phase g) LOBBY)); [exact Hc|].
      destruct (getPlayer g socketId); [|exact Hc].
      apply turnCursorOk_same with (g := g); try reflexivity; [|exact Hc].
      apply update_first_length.
    - unfold togglePlayerReady. destruct (negb (Phase_eqb (phase g) LOBBY)); [exact Hc|].
      destruct (getPlayer g socketId); [|exact Hc].
      apply turnCursorOk_same with (g := g); try reflexivity; [|exact Hc].
      apply update_first_length.
    - destruct (canStartGame g) eqn:E.
      + destruct (startGame_effect rnd g E) as [_ [_ [H0 _]]]. left. exact H0.
      + rewrite startGame_refused by exact E. exact Hc.
    - left. reflexivity.
    - destruct (deploy_cases continents g playerId territoryId count)
        as [E|[player [territory [amount [_ [Hp [_ [_ [_ [_ [_ [_ E]]]]]]]]]]]];
        rewrite E; [exact Hc|].
      destruct (deployMove_frame playerId territoryId amount g)
        as [_ [_ [F1 [_ [_ [_ [F2 [F3 _]]]]]]]]. cbv zeta in F1, F2, F3.
      apply deployCompletion_cursor.
      + intro Hn. apply map_length_eq in F1. rewrite Hn in F1.
        apply find_some_nonempty in Hp. destruct (players g); [congruence|discriminate].
      + apply turnCursorOk_same with (g := g); auto. eapply map_length_eq, F1.
    - destruct (nextPhase_cases continents rnd g)
        as [E|[[Hp [Hn [E|E]]]|[[Hp E]|[Hp E]]]]; cbv zeta in E; rewrite E.
      + exact Hc.
      + apply advanceCursor_ok; [exact Hn|congruence].
      + destruct (advanceCursor_ok g Hn) as [H|[_ H]]; [congruence|now left|].
        right. split; [discriminate|exact H].
      + destruct Hc as [Hc|[_ Hc]]; [now left|]. right. split; [discriminate|exact Hc].
      + apply nextTurn_cursor.
    - apply nextTurn_cursor.
    - exact Hc.
    - destruct (tradeCards_cases g playerId selectedCardUids)
        as [E|[player [awarded [_ [_ [_ [_ [_ [_ [_ [_ [_ E]]]]]]]]]]]]; rewrite E; [exact Hc|].
      apply turnCursorOk_same with (g := g); try reflexivity; [|exact Hc].
      unfold modPlayer. simpl. now rewrite !update_first_length.
    - destruct (attack_resolved rnd g playerId fromId toId count)
        as [E|[requested [to [_ E]]]]; rewrite E; [exact Hc|].
      destruct (resolveBattle_frame rnd g playerId fromId toId requested to)
        as [_ [_ [F1 [_ [F2 [F3 _]]]]]]. cbv zeta in F1, F2, F3.
      apply turnCursorOk_same with (g := g); auto. eapply map_length_eq, F1.
    - destruct (fst (fortify continents rnd g playerId fromId toId count)) eqn:E.
      + assert (E' : fortify continents rnd g playerId fromId toId count
                     = (true, snd (fortify continents rnd g playerId fromId toId count))).
        { destruct (fortify continents rnd g playerId fromId toId count). simpl in E.
          now subst. }
        apply fortify_accepted in E'.
        destruct E' as [_ [_ [_ [_ [_ [from [to [moveCount E']]]]]]]].
        destruct E' as [_ [_ [_ [_ [_ [_ [_ [_ [_ E']]]]]]]]].
        cbv zeta in E'. destruct E' as [_ [_ E']]. rewrite E'. apply nextTurn_cursor.
      + rewrite fortify_rejected_unchanged by exact E. exact Hc.
    - left. reflexivity. }
  split; [exact H|]. intro Hn.
  unfold getCurrentPlayer. destruct H as [H|[_ H]].
  - rewrite H. destruct (players g') as [|p l]; [congruence|]. exists p. reflexivity.
  - destruct (nth_error (players g') (currentPlayerIndex g')) as [p|] eqn:E.
    + exists p. reflexivity.
    + apply nth_error_None in E. lia.
Qed.

Lemma fortify_cases (continents : list Continent) (rnd : nat -> Q) (g : Game)
      (playerId fromId toId : string) (count : JS.number) :
  fortify continents rnd g playerId fromId toId count = (false, g)
  \/ exists moveCount,
      fortify continents rnd g playerId fromId toId count
      = (true,
         nextTurn continents rnd
           (modTerritory toId (fun t => set_troops (troops t + moveCount) t)
              (modTerritory fromId (fun t => set_troops (troops t - moveCount) t) g))).
Proof.
  destruct (fst (fortify continents rnd g playerId fromId toId count)) eqn:E.
  - assert (E' : fortify continents rnd g playerId fromId toId count
                 = (true, snd (fortify continents rnd g playerId fromId toId count))).
    { destruct (fortify continents rnd g playerId fromId toId count). simpl in E.
      now subst. }
    pose proof (fortify_accepted _ _ _ _ _ _ _ E') as H.
    destruct H as [_ [_ [_ [_ [_ [from [to [moveCount H]]]]]]]].
    destruct H as [_ [_ [_ [_ [_ [_ [_ [_ [_ H]]]]]]]]].
    cbv zeta in H. destruct H as [_ [_ H]].
    right. exists moveCount. rewrite E'. now rewrite H.
  - left. apply fortify_rejected_unchanged, E.
Qed.

Ltac each_operation Hop :=
  destruct Hop as [g socketId requestedName|g socketId|g socketId readyValue|g socketId
                   |rnd g|g|g playerId territoryId count _|rnd g|rnd g|g
                   |g playerId selectedCardUids|rnd g playerId fromId toId count _
                   |rnd g playerId fromId toId count _|rnd g].

(** ** The players of the match *)

Lemma playersOk_ids (g g' : Game) :
  List.map p_id (players g') = List.map p_id (players g) ->
  playersOk g -> playersOk g'.
Proof.
  unfold playersOk. intros E [H1 [H2 H3]]. split; [|split].
  - rewrite <- (length_map p_id (players g')), E, length_map. exact H1.
  - apply Forall_forall. intros p Hp.
    assert (Hin : In (p_id p) (List.map p_id (players g'))) by (apply in_map; exact Hp).
    rewrite E in Hin. apply in_map_iff in Hin. destruct Hin as [q [Eq Hq]].
    rewrite <- Eq. rewrite Forall_forall in H2. apply H2. exact Hq.
  - rewrite E. exact H3.
Qed.

Lemma lobbyPlayers_ids (ps : list Player) :
  List.map p_id
    (filter (fun player => JS.truthy_str (p_id player))
       (List.map (fun player =>
                    mkPlayer (p_id player) (displayName player) (color player)
                             0 0 false [] false) ps))
  = filter JS.truthy_str (List.map p_id ps).
Proof.
  induction ps as [|p ps IH]; simpl; [reflexivity|].
  destruct (JS.truthy_str (p_id p)); simpl; now rewrite IH.
Qed.

(** Across every operation of the game there are at most four players,
    and their ids stay non-empty and pairwise distinct. *)
Theorem operations_keep_players
        (territories : list MapTerritory) (continents : list Continent)
        (sanitize : list Player -> string -> string) (g g' : Game) :
  operation territories continents sanitize anyCount g g' ->
  playersOk g -> playersOk g'.
Proof.
  intros Hop Hk. each_operation Hop.
  - destruct (addPlayer_cases sanitize g socketId requestedName)
      as [E|[player [_ [Hl [Hs [Hf [Hid _]]]]]]].
    + rewrite E. exact Hk.
    + destruct (addPlayer_cases sanitize g socketId requestedName)
        as [E|[player' [_ [_ [_ [_ [Hid' [_ [_ [_ E]]]]]]]]]].
      * rewrite E. exact Hk.
      * rewrite E. destruct Hk as [H1 [H2 H3]]. unfold playersOk. simpl.
        rewrite length_app, List.map_app. simpl. split; [lia|]. split.
        -- apply Forall_app. split; [exact H2|]. constructor; [congruence|constructor].
        -- rewrite Hid'. apply NoDup_app; [exact H3|repeat constructor; intros []|].
           intros x Hx [<-|[]]. apply in_map_iff in Hx. destruct Hx as [q [Eq Hq]].
           apply (find_none _ _ Hf) in Hq. unfold is_player in Hq.
           rewrite Eq, String.eqb_refl in Hq. discriminate.
  - destruct (findIndex (is_player socketId) (players g)) as [index|] eqn:Ei.
    + destruct (removePlayer_effect g socketId Ei) as [player [Hn [_ [_ [Hp _]]]]].
      cbv zeta in Hp. destruct Hk as [H1 [H2 H3]]. unfold playersOk. rewrite Hp.
      split.
      * assert (S (List.length (splice1 index (players g))) = List.length (players g)).
        { apply splice1_length. apply nth_error_Some. congruence. }
        lia.
      * split; [apply splice1_sublist_Forall, H2|].
        rewrite splice1_map. apply splice1_NoDup, H3.
    + rewrite removePlayer_absent by exact Ei. exact Hk.
  - unfold setPlayerReady. destruct (negb (Phase_eqb (phase g) LOBBY)); [exact Hk|].
    destruct (getPlayer g socketId); [|exact Hk].
    apply playersOk_ids with (g := g); [|exact Hk]. apply update_first_map. reflexivity.
  - unfold togglePlayerReady. destruct (negb (Phase_eqb (phase g) LOBBY)); [exact Hk|].
    destruct (getPlayer g socketId); [|exact Hk].
    apply playersOk_ids with (g := g); [|exact Hk]. apply update_first_map. reflexivity.
  - destruct (canStartGame g) eqn:E.
    + destruct (startGame_effect rnd g E) as [_ [_ [_ [_ [_ [_ [_ [_ [H0 _]]]]]]]]].
      apply playersOk_ids with (g := g); assumption.
    + rewrite startGame_refused by exact E. exact Hk.
  - apply playersOk_ids with (g := g); [|exact Hk]. apply startNewRound_frame.
  - destruct (deploy_cases continents g playerId territoryId count)
      as [E|[player [territory [amount [_ [_ [_ [_ [_ [_ [_ [_ E]]]]]]]]]]]];
      rewrite E; [exact Hk|].
    apply playersOk_ids with (g := g); [|exact Hk].
    destruct (deployCompletion_frame continents (pool player - amount)
                (deployMove playerId territoryId amount g)) as [_ [_ [F _]]].
    cbv zeta in F. unfold snd. rewrite F. apply deployMove_frame.
  - destruct (nextPhase_cases continents rnd g)
      as [E|[[_ [_ [E|E]]]|[[_ E]|[_ E]]]]; cbv zeta in E; rewrite E;
      try exact Hk; try (apply playersOk_ids with (g := g); [reflexivity|exact Hk]).
    apply playersOk_ids with (g := g); [|exact Hk]. apply nextTurn_frame.
  - apply playersOk_ids with (g := g); [|exact Hk]. apply nextTurn_frame.
  - exact Hk.
  - destruct (tradeCards_cases g playerId selectedCardUids)
      as [E|[player [awarded [_ [_ [_ [_ [_ [_ [_ [_ [_ E]]]]]]]]]]]]; rewrite E; [exact Hk|].
    apply playersOk_ids with (g := g); [|exact Hk].
    unfold modPlayer. simpl. rewrite update_first_map by reflexivity.
    apply update_first_map. reflexivity.
  - destruct (attack_resolved rnd g playerId fromId toId count)
      as [E|[requested [to [_ E]]]]; rewrite E; [exact Hk|].
    apply playersOk_ids with (g := g); [|exact Hk]. apply resolveBattle_frame.
  - destruct (fortify_cases continents rnd g playerId fromId toId count)
      as [E|[moveCount E]]; rewrite E; [exact Hk|].
    apply playersOk_ids with (g := g); [|exact Hk]. unfold snd.
    match goal with |- context [nextTurn ?c ?r ?h] =>
      destruct (nextTurn_frame c r h) as [F _] end.
    cbv zeta in F. rewrite F. reflexivity.
  - destruct Hk as [H1 [H2 H3]]. unfold playersOk, resetGame.
    cbn [players]. rewrite lobbyPlayers_ids. split; [|split].
    + rewrite <- (length_map p_id), lobbyPlayers_ids.
      pose proof (filter_length_le JS.truthy_str (List.map p_id (players g))) as H.
      rewrite length_map in H. lia.
    + apply Forall_forall. intros p Hp. apply filter_In in Hp. destruct Hp as [_ Hp].
      simpl in Hp. intro E. rewrite E in Hp. discriminate.
    + apply NoDup_filter, H3.
Qed.

(** ** The pools *)

Lemma Forall_map_eq (A B : Type) (P : B -> Prop) (h : A -> B) (l l' : list A) :
  List.map h l' = List.map h l ->
  Forall (fun x => P (h x)) l -> Forall (fun x => P (h x)) l'.
Proof. intros E H. apply Forall_map. rewrite E. apply Forall_map. exact H. Qed.

Lemma poolsNonNegative_pools (g g' : Game) :
  List.map pool (players g') = List.map pool (players g) ->
  poolsNonNegative g -> poolsNonNegative g'.
Proof. unfold poolsNonNegative. apply (Forall_map_eq (fun q => 0 <= q)). Qed.

Lemma getContinentBonus_nonneg (continents : list Continent) (g : Game) (playerId : string) :
  Forall (fun c => 0 <= c_bonus c) continents ->
  0 <= getContinentBonus continents g playerId.
Proof.
  intro H. unfold getContinentBonus.
  match goal with
  | |- 0 <= fold_left ?f _ _ =>
      assert (HH : forall acc, 0 <= acc -> 0 <= fold_left f continents acc);
      [|apply HH; lra]
  end.
  induction H as [|c l Hc _ IH]; intros acc Hacc; simpl; [exact Hacc|].
  apply IH.
  destruct (List.length (filter (fun t => String.eqb (t_continent t) (c_name c)) (map g)) =? 0)%nat;
    [exact Hacc|].
  destruct (forallb (owns playerId)
                    (filter (fun t => String.eqb (t_continent t) (c_name c)) (map g)));
    [|exact Hacc].
  lra.
Qed.

(** Every player is given at least three troops at the start of a
    round. *)
Lemma calculateReinforcements_min (continents : list Continent) (g : Game) (playerId : string) :
  Forall (fun c => 0 <= c_bonus c) continents ->
  3 <= calculateReinforcements continents g playerId.
Proof.
  intro H. unfold calculateReinforcements. cbv zeta.
  pose proof (getContinentBonus_nonneg g playerId H) as Hb.
  set (n := (List.length (filter (owns playerId) (map g)) / 3)%nat).
  assert (Hn : 3 <= Qnat (if (n <? 3)%nat then 3%nat else n)).
  { change 3 with (Qnat 3) at 1. apply Qnat_le.
    destruct (n <? 3)%nat eqn:E; [lia|]. apply Nat.ltb_ge in E. exact E. }
  lra.
Qed.

Lemma startNewRound_pools (continents : list Continent) (g : Game) :
  Forall (fun c => 0 <= c_bonus c) continents ->
  poolsNonNegative (startNewRound continents g).
Proof.
  intro H. unfold poolsNonNegative, startNewRound. simpl.
  apply Forall_forall. intros p Hp. apply in_map_iff in Hp. destruct Hp as [q [<- _]].
  simpl. pose proof (calculateReinforcements_min g (p_id q) H). lra.
Qed.

Lemma turnStart_pools (continents : list Continent) (g : Game) :
  Forall (fun c => 0 <= c_bonus c) continents ->
  poolsNonNegative g -> poolsNonNegative (turnStart continents g).
Proof.
  intros H Hp. unfold turnStart.
  destruct (currentPlayerIndex (advanceCursor g) =? 0)%nat.
  - apply startNewRound_pools, H.
  - exact Hp.
Qed.

Lemma nextTurn_pools (continents : list Continent) (rnd : nat -> Q) (g : Game) :
  Forall (fun c => 0 <= c_bonus c) continents ->
  poolsNonNegative g -> poolsNonNegative (nextTurn continents rnd g).
Proof.
  intros H Hp. rewrite nextTurn_unfold.
  destruct (List.length (players g) =? 0)%nat; [exact Hp|].
  apply turnStart_pools; [exact H|].
  apply poolsNonNegative_pools with (g := g); [|exact Hp]. apply turnEnd_frame.
Qed.

Lemma deployCompletion_pools (continents : list Continent) (poolNow : Q) (g : Game) :
  Forall (fun c => 0 <= c_bonus c) continents ->
  poolsNonNegative g -> poolsNonNegative (deployCompletion continents poolNow g).
Proof.
  intros H Hp. unfold deployCompletion. destruct (phase g); try exact Hp.
  - destruct (areAllPoolsEmpty g).
    + destruct (isFirstRound (set_currentPlayerIndex 0 g));
        [exact Hp|apply startNewRound_pools, H].
    + destruct (Qeqb poolNow 0); exact Hp.
  - destruct (Qeqb poolNow 0); [|exact Hp].
    destruct (currentPlayerIndex (advanceCursor g) =? 0)%nat; exact Hp.
Qed.

(** When no continent has a negative bonus, no operation of the game
    makes a pool negative. *)
Theorem operations_keep_pools
        (territories : list MapTerritory) (continents : list Continent)
        (sanitize : list Player -> string -> string) (g g' : Game) :
  Forall (fun c => 0 <= c_bonus c) continents ->
  operation territories continents sanitize anyCount g g' ->
  poolsNonNegative g -> poolsNonNegative g'.
Proof.
  intros Hb Hop Hk. each_operation Hop.
  - destruct (addPlayer_cases sanitize g socketId requestedName)
      as [E|[player [_ [_ [_ [_ [_ [Hpool [_ [_ E]]]]]]]]]]; rewrite E; [exact Hk|].
    unfold poolsNonNegative. simpl. apply Forall_app. split; [exact Hk|].
    constructor; [|constructor]. rewrite Hpool. lra.
  - destruct (findIndex (is_player socketId) (players g)) as [index|] eqn:Ei.
    + destruct (removePlayer_effect g socketId Ei) as [player [Hn [_ [_ [Hp _]]]]].
      cbv zeta in Hp. unfold poolsNonNegative. rewrite Hp.
      apply splice1_sublist_Forall, Hk.
    + rewrite removePlayer_absent by exact Ei. exact Hk.
  - unfold setPlayerReady. destruct (negb (Phase_eqb (phase g) LOBBY)); [exact Hk|].
    destruct (getPlayer g socketId); [|exact Hk].
    apply poolsNonNegative_pools with (g := g); [|exact Hk].
    apply update_first_map. reflexivity.
  - unfold togglePlayerReady. destruct (negb (Phase_eqb (phase g) LOBBY)); [exact Hk|].
    destruct (getPlayer g socketId); [|exact Hk].
    apply poolsNonNegative_pools with (g := g); [|exact Hk].
    apply update_first_map. reflexivity.
  - destruct (canStartGame g) eqn:E.
    + apply (startGame_effect rnd g E).
    + rewrite startGame_refused by exact E. exact Hk.
  - apply startNewRound_pools, Hb.
  - destruct (deploy_cases continents g playerId territoryId count)
      as [E|[player [territory [amount [_ [Hp [_ [_ [_ [_ [_ [Ha E]]]]]]]]]]]];
      rewrite E; [exact Hk|].
    apply deployCompletion_pools; [exact Hb|].
    unfold poolsNonNegative, deployMove, modPlayer, modTerritory. simpl.
    apply update_first_Forall_found with (x := player); [exact Hp|exact Hk|].
    simpl. lra.
  - destruct (nextPhase_cases continents rnd g)
      as [E|[[_ [_ [E|E]]]|[[_ E]|[_ E]]]]; cbv zeta in E; rewrite E; try exact Hk.
    apply nextTurn_pools; assumption.
  - apply nextTurn_pools; assumption.
  - exact Hk.
  - destruct (tradeCards_cases g playerId selectedCardUids)
      as [E|[player [awarded [_ [_ [_ [_ [_ [_ [_ [_ [Ha E]]]]]]]]]]]]; rewrite E; [exact Hk|].
    unfold poolsNonNegative, modPlayer. simpl.
    apply update_first_Forall.
    + apply update_first_Forall; [exact Hk|]. intros x _ _ Hx. exact Hx.
    + intros x _ _ Hx. simpl. lra.
  - destruct (attack_resolved rnd g playerId fromId toId count)
      as [E|[requested [to [_ E]]]]; rewrite E; [exact Hk|].
    apply poolsNonNegative_pools with (g := g); [|exact Hk]. apply resolveBattle_frame.
  - destruct (fortify_cases continents rnd g playerId fromId toId count)
      as [E|[moveCount E]]; rewrite E; [exact Hk|].
    apply nextTurn_pools; [exact Hb|exact Hk].
  - unfold poolsNonNegative, resetGame. cbn [players].
    apply Forall_forall. intros p Hp. apply filter_In in Hp. destruct Hp as [Hp _].
    apply in_map_iff in Hp. destruct Hp as [q [<- _]]. simpl. lra.
Qed.

(** ** The battle history *)

Lemma StronglySorted_snoc (l : list nat) (x : nat) :
  StronglySorted lt l -> Forall (fun y => (y < x)%nat) l -> StronglySorted lt (l ++ [x]).
Proof.
  induction 1 as [|a l Hs IH Ha]; intro H; simpl.
  - repeat constructor.
  - inversion H; subst. constructor; [apply IH; assumption|].
    apply Forall_app. split; [exact Ha|]. repeat constructor. assumption.
Qed.

Lemma pushCapped_history (l : list AttackRecord) (r : AttackRecord) (n : nat) :
  a_id r = (n + 1)%nat ->
  (List.length l <= 50)%nat ->
  StronglySorted lt (List.map a_id l) ->
  Forall (fun a => (a_id a <= n)%nat) l ->
  (List.length (pushCapped l r 50) <= 50)%nat
  /\ StronglySorted lt (List.map a_id (pushCapped l r 50))
  /\ Forall (fun a => (a_id a <= n + 1)%nat) (pushCapped l r 50)
  /\ exists older, pushCapped l r 50 = older ++ [r].
Proof.
  intros Hr Hl Hs Hf.
  assert (Hs' : StronglySorted lt (List.map a_id (l ++ [r]))).
  { rewrite List.map_app. simpl. apply StronglySorted_snoc; [exact Hs|].
    apply Forall_map. eapply Forall_impl; [|exact Hf]. simpl. intros a Ha. lia. }
  assert (Hf' : Forall (fun a => (a_id a <= n + 1)%nat) (l ++ [r])).
  { apply Forall_app. split.
    - eapply Forall_impl; [|exact Hf]. simpl. intros a Ha. lia.
    - repeat constructor. lia. }
  unfold pushCapped. cbv zeta.
  destruct (50 <? List.length (l ++ [r]))%nat eqn:E.
  - rewrite length_app in E. simpl in E. apply Nat.ltb_lt in E.
    destruct l as [|a l]; [simpl in E; lia|]. simpl app. cbn [tl].
    simpl in Hl. split; [rewrite length_app; simpl; lia|]. split; [|split].
    + simpl in Hs'. inversion Hs'; assumption.
    + simpl in Hf'. inversion Hf'; assumption.
    + exists l. reflexivity.
  - apply Nat.ltb_ge in E. split; [exact E|]. split; [exact Hs'|]. split; [exact Hf'|].
    exists l. reflexivity.
Qed.

Lemma historyOk_same (g g' : Game) :
  battleHistory g' = battleHistory g -> lastAttackId g' = lastAttackId g ->
  historyOk g -> historyOk g'.
Proof. unfold historyOk. intros -> ->. tauto. Qed.

(** Across every operation of the game the battle history holds at most
    50 records, whose ids increase strictly and never exceed
    [lastAttackId]; so no two records of the history share an id. *)
Theorem operations_keep_history
        (territories : list MapTerritory) (continents : list Continent)
        (sanitize : list Player -> string -> string) (g g' : Game) :
  operation territories continents sanitize anyCount g g' ->
  historyOk g -> historyOk g' /\ NoDup (List.map a_id (battleHistory g')).
Proof.
  intros Hop Hk.
  assert (H : historyOk g').
  { each_operation Hop.
    - destruct (addPlayer_cases sanitize g socketId requestedName)
        as [E|[player [_ [_ [_ [_ [_ [_ [_ [_ E]]]]]]]]]]; rewrite E; exact Hk.
    - destruct (findIndex (is_player socketId) (players g)) as [index|] eqn:Ei.
      + destruct (removePlayer_effect g socketId Ei)
          as [player [_ [_ [_ [_ [_ [_ [H1 [H2 _]]]]]]]]].
        apply historyOk_same with (g := g); assumption.
      + rewrite removePlayer_absent by exact Ei. exact Hk.
    - unfold setPlayerReady. destruct (negb (Phase_eqb (phase g) LOBBY)); [exact Hk|].
      destruct (getPlayer g socketId); exact Hk.
    - unfold togglePlayerReady. destruct (negb (Phase_eqb (phase g) LOBBY)); [exact Hk|].
      destruct (getPlayer g socketId); exact Hk.
    - destruct (canStartGame g) eqn:E.
      + destruct (startGame_effect rnd g E) as [_ [_ [_ [_ [_ [_ [_ [_ [_ [H1 [H2 _]]]]]]]]]]].
        apply historyOk_same with (g := g); assumption.
      + rewrite startGame_refused by exact E. exact Hk.
    - exact Hk.
    - destruct (deploy_cases continents g playerId territoryId count)
        as [E|[player [territory [amount [_ [_ [_ [_ [_ [_ [_ [_ E]]]]]]]]]]]];
        rewrite E; [exact Hk|].
      destruct (deployCompletion_frame continents (pool player - amount)
                  (deployMove playerId territoryId amount g)) as [_ [_ [_ [F1 [F2 _]]]]].
      cbv zeta in F1, F2.
      apply historyOk_same with (g := g); [cbn [snd]; rewrite F1|cbn [snd]; rewrite F2|exact Hk]; reflexivity.
    - destruct (nextPhase_cases continents rnd g)
        as [E|[[_ [_ [E|E]]]|[[_ E]|[_ E]]]]; cbv zeta in E; rewrite E; try exact Hk.
      apply historyOk_same with (g := g); [apply nextTurn_frame|apply nextTurn_frame|exact Hk].
    - apply historyOk_same with (g := g); [apply nextTurn_frame|apply nextTurn_frame|exact Hk].
    - exact Hk.
    - destruct (tradeCards_cases g playerId selectedCardUids)
        as [E|[player [awarded [_ [_ [_ [_ [_ [_ [_ [_ [_ E]]]]]]]]]]]]; rewrite E; exact Hk.
    - destruct (attack_resolved rnd g playerId fromId toId count)
        as [E|[requested [to [_ E]]]]; rewrite E; [exact Hk|].
      destruct (resolveBattle_frame rnd g playerId fromId toId requested to)
        as [_ [_ [_ [_ [_ [_ [F1 [F2 [_ F3]]]]]]]]]. cbv zeta in F1, F2, F3.
      destruct Hk as [H1 [H2 H3]]. unfold historyOk. cbn [snd]. rewrite F1, F3.
      destruct (@pushCapped_history _ _ _ F2 H1 H2 H3) as [P1 [P2 [P3 _]]]. auto.
    - destruct (fortify_cases continents rnd g playerId fromId toId count)
        as [E|[moveCount E]]; rewrite E; [exact Hk|]. unfold snd.
      match goal with |- context [nextTurn ?c ?r ?h] =>
        destruct (nextTurn_frame c r h) as [_ [F1 [F2 _]]] end.
      cbv zeta in F1, F2.
      apply historyOk_same with (g := g); [cbn [snd]; rewrite F1|cbn [snd]; rewrite F2|exact Hk]; reflexivity.
    - unfold historyOk, resetGame. simpl. repeat constructor. }
  split; [exact H|]. destruct H as [_ [H _]].
  clear -H. induction H as [|a l Hs IH Ha]; constructor; [|exact IH].
  intro Hin. rewrite Forall_forall in Ha. apply Ha in Hin. lia.
Qed.

(** ** Cards selected for a trade *)

Lemma filter_partition (A : Type) (f : A -> bool) (l : list A) :
  Permutation l (filter f l ++ filter (fun x => negb (f x)) l).
Proof.
  induction l as [|x l IH]; simpl; [constructor|].
  destruct (f x); simpl.
  - constructor. exact IH.
  - apply Permutation_cons_app. exact IH.
Qed.

Lemma filter_or_disjoint (A : Type) (p q : A -> bool) (l : list A) :
  (forall x, In x l -> p x = true -> q x = false) ->
  Permutation (filter (fun x => p x || q x) l) (filter p l ++ filter q l).
Proof.
  induction l as [|x l IH]; intro H; simpl; [constructor|].
  assert (IH' := IH (fun y Hy => H y (or_intror Hy))).
  destruct (p x) eqn:Ep; simpl.
  - rewrite (H x (or_introl eq_refl) Ep). constructor. exact IH'.
  - destruct (q x); [|exact IH']. apply Permutation_cons_app. exact IH'.
Qed.

Lemma somes_length_le (A : Type) (l : list (option A)) :
  (List.length (somes l) <= List.length l)%nat.
Proof.
  induction l as [|[x|] l IH]; simpl; lia.
Qed.

Lemma uniq_spec (seen l : list string) :
  NoDup (uniq seen l)
  /\ forall x, In x (uniq seen l) <-> In x l /\ ~ In x seen.
Proof.
  revert seen. induction l as [|y l IH]; intro seen; simpl.
  - split; [constructor|]. intro x. tauto.
  - destruct (set_has seen y) eqn:E.
    + apply set_has_In in E. destruct (IH seen) as [H1 H2]. split; [exact H1|].
      intro x. rewrite H2. split; [tauto|]. intros [[<-|Hx] Hn]; tauto.
    + assert (Hy : ~ In y seen).
      { intro Hy. apply set_has_In in Hy. congruence. }
      destruct (IH (y :: seen)) as [H1 H2]. split.
      * constructor; [|exact H1]. rewrite H2. simpl. tauto.
      * intro x. simpl. rewrite H2. simpl. split.
        -- intros [<-|[Hx Hn]]; tauto.
        -- intros [[<-|Hx] Hn]; [now left|].
           destruct (string_dec y x) as [->|Hne]; [now left|right; tauto].
Qed.

Lemma filter_hasUid_unique (uid : string) (hand : list Card) (c : Card) :
  NoDup (List.map card_uid hand) ->
  find (hasUid uid) hand = Some c ->
  filter (hasUid uid) hand = [c].
Proof.
  induction hand as [|x hand IH]; simpl; [discriminate|].
  intros Hn Hf. inversion Hn as [|? ? Hx Hn']; subst.
  destruct (hasUid uid x) eqn:Ex.
  - injection Hf as <-. f_equal.
    destruct (filter (hasUid uid) hand) as [|y rest] eqn:Ef; [reflexivity|].
    exfalso. assert (Hy : In y (filter (hasUid uid) hand)) by (rewrite Ef; now left).
    apply filter_In in Hy. destruct Hy as [Hy1 Hy2].
    apply opt_is_eq in Ex, Hy2. apply Hx. rewrite Ex, <- Hy2.
    apply in_map. exact Hy1.
  - apply IH; assumption.
Qed.

Lemma selected_filter (uids : list string) (hand : list Card) :
  NoDup uids ->
  NoDup (List.map card_uid hand) ->
  List.length (somes (List.map (fun uid => find (hasUid uid) hand) uids))
  = List.length uids ->
  Permutation (filter (inUidSet uids) hand)
              (somes (List.map (fun uid => find (hasUid uid) hand) uids)).
Proof.
  intros Hu Hh. induction Hu as [|u us Hnot Hu IH]; intro Hl.
  - simpl. rewrite (filter_ext (inUidSet []) (fun _ => false)).
    + rewrite filter_false. constructor.
    + intro c. unfold inUidSet. destruct (card_uid c); reflexivity.
  - simpl in Hl. simpl.
    pose proof (somes_length_le (List.map (fun uid => find (hasUid uid) hand) us)) as Hle.
    rewrite length_map in Hle.
    destruct (find (hasUid u) hand) as [c|] eqn:Ef; [|lia].
    simpl in Hl. injection Hl as Hl.
    rewrite (filter_ext (inUidSet (u :: us)) (fun c => hasUid u c || inUidSet us c)).
    + rewrite filter_or_disjoint.
      * rewrite (@filter_hasUid_unique u hand c Hh Ef). simpl. constructor. apply IH, Hl.
      * intros x _ Hx. apply opt_is_eq in Hx. unfold inUidSet. rewrite Hx.
        destruct (set_has us u) eqn:E; [|reflexivity].
        apply set_has_In in E. contradiction.
    + intro x. unfold inUidSet, hasUid, JS.opt_is.
      destruct (card_uid x); [|reflexivity]. apply set_has_cons.
Qed.

(** In a hand whose cards carry distinct uids, the cards that a trade
    removes from the hand are the three selected cards. *)
Lemma trade_partition (uids : list string) (hand : list Card) :
  NoDup uids ->
  NoDup (List.map card_uid hand) ->
  List.length (somes (List.map (fun uid => find (hasUid uid) hand) uids))
  = List.length uids ->
  Permutation hand
              (somes (List.map (fun uid => find (hasUid uid) hand) uids)
               ++ filter (fun c => negb (inUidSet uids c)) hand).
Proof.
  intros Hu Hh Hl. rewrite (filter_partition (inUidSet uids) hand) at 1.
  apply Permutation_app_tail, selected_filter; assumption.
Qed.

Lemma uniqueUids_NoDup (selectedCardUids : list string) :
  NoDup (filter JS.truthy_str (uniq [] selectedCardUids)).
Proof. apply NoDup_filter, uniq_spec. Qed.

(** ** Conservation of the cards *)

Lemma allHands_split (g : Game) (l1 l2 : list Player) (p : Player) :
  players g = l1 ++ p :: l2 ->
  allHands g
  = List.concat (List.map hand l1) ++ hand p ++ List.concat (List.map hand l2).
Proof.
  intro E. unfold allHands. rewrite E, List.map_app, concat_app. reflexivity.
Qed.

Lemma cardsConserved_same (g g' : Game) :
  deck g' = deck g -> allHands g' = allHands g ->
  cardsConserved g -> cardsConserved g'.
Proof.
  unfold cardsConserved, cardsInPlay. intros -> ->. tauto.
Qed.

Lemma allHands_hands (g g' : Game) :
  List.map hand (players g') = List.map hand (players g) -> allHands g' = allHands g.
Proof. unfold allHands. now intros ->. Qed.

Lemma deckInvariant_same (g g' : Game) :
  deck g' = deck g ->
  List.map hand (players g') = List.map hand (players g) ->
  (phase g' = LOBBY -> phase g = LOBBY) ->
  deckInvariant g -> deckInvariant g'.
Proof.
  intros Hd Hh Hp [H1 H2]. apply allHands_hands in Hh. split.
  - apply cardsConserved_same with (g := g); assumption.
  - intro E. rewrite Hh. auto.
Qed.

Lemma NoDup_app_drop (A : Type) (a b c : list A) :
  NoDup (a ++ b ++ c) -> NoDup (a ++ c).
Proof.
  intro H. apply (NoDup_app_remove_l b).
  eapply Permutation_NoDup; [|exact H]. apply Permutation_app_swap_app.
Qed.

(** Removing a player conserves the cards: the hand goes to the discard
    pile. *)
Lemma removePlayer_conserves (g : Game) (socketId : string) :
  cardsConserved g -> cardsConserved (snd (removePlayer g socketId)).
Proof.
  intros [H1 [H2 H3]].
  destruct (findIndex (is_player socketId) (players g)) as [index|] eqn:Ei;
    [|rewrite removePlayer_absent by exact Ei; repeat split; assumption].
  destruct (removePlayer_effect g socketId Ei) as [player [Hn [_ [_ [Hp [Hd _]]]]]].
  cbv zeta in Hp, Hd.
  destruct (nth_error_split_update _ _ Hn) as [l1 [l2 [El [_ [Hs _]]]]].
  rewrite Hs in Hp.
  assert (Hall : allHands g
                 = List.concat (List.map hand l1) ++ hand player
                   ++ List.concat (List.map hand l2))
    by (apply allHands_split; exact El).
  assert (Hall' : allHands (snd (removePlayer g socketId))
                  = List.concat (List.map hand l1) ++ List.concat (List.map hand l2)).
  { unfold allHands. rewrite Hp, List.map_app, concat_app. reflexivity. }
  assert (Hdeck : nextUid (deck (snd (removePlayer g socketId))) = nextUid (deck g)
                  /\ baseCards (deck (snd (removePlayer g socketId))) = baseCards (deck g)
                  /\ drawPile (deck (snd (removePlayer g socketId))) = drawPile (deck g)
                  /\ discardPile (deck (snd (removePlayer g socketId)))
                     = discardPile (deck g) ++ List.map discarded (hand player)).
  { rewrite Hd. destruct (hand player) as [|c h]; simpl.
    - rewrite app_nil_r. auto.
    - auto. }
  destruct Hdeck as [D1 [D2 [D3 D4]]].
  unfold cardsConserved, cardsInPlay. rewrite Hall', D1, D2, D3, D4.
  unfold cardsInPlay in H1. rewrite Hall in H1, H2, H3. split; [|split].
  - rewrite <- H1. rewrite !List.map_app, map_discarded_idem.
    apply Permutation_app_head. rewrite <- app_assoc. apply Permutation_app_head.
    apply Permutation_app_swap_app.
  - apply Forall_app in H2. destruct H2 as [Ha H2]. apply Forall_app in H2.
    apply Forall_app. tauto.
  - rewrite !List.map_app in H3. rewrite List.map_app.
    apply NoDup_app_drop in H3. exact H3.
Qed.

Lemma mintedBelow_S (n : nat) (c : Card) : mintedBelow n c -> mintedBelow (S n) c.
Proof. intros [k [Hk E]]. exists k. split; [lia|exact E]. Qed.

(** The end of a turn conserves the cards: a card that is drawn moves
    from the piles to the hand of the player, under a uid that no card in
    a hand carries. *)
Lemma turnEnd_conserves (rnd : nat -> Q) (g : Game) :
  cardsConserved g -> cardsConserved (turnEnd rnd g).
Proof.
  intros [H1 [H2 H3]].
  destruct (turnEnd_cards rnd g)
    as [[Hd [Hh _]]|[p [card [d' [Hc [_ [Hdraw [Hd [Hp _]]]]]]]]].
  - apply cardsConserved_same with (g := g);
      [exact Hd|apply allHands_hands, Hh|repeat split; assumption].
  - destruct (draw_spec rnd (deck g))
      as [[_ [_ E]]|[card0 [d'' [E [D1 [D2 [D3 _]]]]]]]; rewrite E in Hdraw; [discriminate|].
    injection Hdraw as <- <-.
    unfold getCurrentPlayer in Hc.
    destruct (nth_error_split_update _ _ Hc) as [l1 [l2 [El [_ [_ Hu]]]]].
    rewrite Hu in Hp.
    assert (Hall : allHands g
                   = List.concat (List.map hand l1) ++ hand p
                     ++ List.concat (List.map hand l2))
      by (apply allHands_split; exact El).
    assert (Hall' : allHands (turnEnd rnd g)
                    = List.concat (List.map hand l1)
                      ++ (hand p ++ [with_uid (card_uid_of (nextUid (deck g))) card0])
                      ++ List.concat (List.map hand l2)).
    { apply allHands_split with (p := set_conqueredThisTurn false
             (set_hand (hand p ++ [with_uid (card_uid_of (nextUid (deck g))) card0]) p)).
      exact Hp. }
    unfold cardsConserved, cardsInPlay. rewrite Hall', Hd, D1, D2.
    unfold cardsInPlay in H1. rewrite Hall in H1, H2, H3. split; [|split].
    + rewrite <- H1.
      rewrite (app_assoc (drawPile (deck g))), <- D3.
      rewrite (app_assoc (drawPile d'')).
      set (X := drawPile d'' ++ discardPile d'').
      set (c' := with_uid (card_uid_of (nextUid (deck g))) card0).
      assert (Hperm : Permutation
                        (X ++ List.concat (List.map hand l1) ++ (hand p ++ [c'])
                           ++ List.concat (List.map hand l2))
                        (c' :: X ++ List.concat (List.map hand l1) ++ hand p
                            ++ List.concat (List.map hand l2))).
      { rewrite <- (app_assoc (hand p)). simpl. rewrite !app_assoc.
        symmetry. apply Permutation_middle. }
      apply (Permutation_map discarded) in Hperm. exact Hperm.
    + apply Forall_app in H2. destruct H2 as [Ha H2]. apply Forall_app in H2.
      destruct H2 as [Hb Hc'].
      apply Forall_app. split; [eapply Forall_impl; [apply mintedBelow_S|exact Ha]|].
      apply Forall_app. split; [|eapply Forall_impl; [apply mintedBelow_S|exact Hc']].
      apply Forall_app. split; [eapply Forall_impl; [apply mintedBelow_S|exact Hb]|].
      constructor; [|constructor]. exists (nextUid (deck g)). split; [lia|reflexivity].
    + set (c' := with_uid (card_uid_of (nextUid (deck g))) card0).
      set (A := List.concat (List.map hand l1)) in *.
      set (B := List.concat (List.map hand l2)) in *.
      apply Permutation_NoDup with (l := List.map card_uid (c' :: (A ++ hand p) ++ B)).
      * apply Permutation_map. rewrite <- (app_assoc (hand p)).
        rewrite (app_assoc A (hand p)). apply Permutation_middle.
      * simpl. constructor.
        -- intro Hin. apply in_map_iff in Hin. destruct Hin as [c [Ec Hin]].
           rewrite <- app_assoc in Hin.
           rewrite Forall_forall in H2. destruct (H2 c Hin) as [k [Hk Ek]].
           assert (Ec' : card_uid_of k = card_uid_of (nextUid (deck g))).
           { rewrite Ek in Ec. unfold c', with_uid in Ec. cbn [card_uid] in Ec.
             congruence. }
           apply card_uid_of_inj in Ec'. lia.
        -- rewrite <- app_assoc. exact H3.
Qed.

Lemma NoDup_map_filter_middle (A B : Type) (f : A -> B) (q : A -> bool) (a b c : list A) :
  NoDup (List.map f (a ++ b ++ c)) -> NoDup (List.map f (a ++ filter q b ++ c)).
Proof.
  intro H.
  assert (P : Permutation (a ++ b ++ c)
                          (filter (fun x => negb (q x)) b ++ (a ++ filter q b ++ c))).
  { rewrite (filter_partition q b) at 1.
    rewrite <- app_assoc.
    etransitivity; [|apply Permutation_app_swap_app].
    apply Permutation_app_head, Permutation_app_swap_app. }
  apply (Permutation_map f) in P.
  rewrite (List.map_app f (filter (fun x => negb (q x)) b)) in P.
  eapply NoDup_app_remove_l, Permutation_NoDup; [exact P|exact H].
Qed.

(** A trade conserves the cards: the three selected cards move from the
    hand to the discard pile. *)
Lemma tradeCards_conserves (g : Game) (playerId : string) (selectedCardUids : list string) :
  cardsConserved g -> cardsConserved (snd (tradeCards g playerId selectedCardUids)).
Proof.
  intros [H1 [H2 H3]].
  destruct (tradeCards_cases g playerId selectedCardUids)
    as [E|[player [awarded [_ [_ [Hp [_ [L3 [L4 [_ [_ [_ E]]]]]]]]]]]]; rewrite E;
    [repeat split; assumption|].
  cbv zeta in L3, L4. unfold snd.
  set (uids := filter JS.truthy_str (uniq [] selectedCardUids)) in *.
  set (sel := somes (List.map (fun uid => find (hasUid uid) (hand player)) uids)) in *.
  unfold getPlayer in Hp.
  destruct (find_split_update _ _ Hp) as [l1 [l2 [El [_ Hu]]]].
  set (A := List.concat (List.map hand l1)) in *.
  set (B := List.concat (List.map hand l2)) in *.
  assert (Hall : allHands g = A ++ hand player ++ B) by (apply allHands_split; exact El).
  match goal with
  | |- cardsConserved ?h =>
      assert (Hall' : allHands h
                      = A ++ filter (fun c => negb (inUidSet uids c)) (hand player) ++ B)
  end.
  { unfold allHands, modPlayer. cbn [players set_players set_globalTradeInCount set_deck].
    rewrite update_first_map by reflexivity.
    rewrite Hu, List.map_app, concat_app. reflexivity. }
  unfold cardsConserved, cardsInPlay. rewrite Hall'.
  unfold modPlayer. cbn [deck set_players set_globalTradeInCount set_deck discard
                         drawPile discardPile nextUid baseCards].
  unfold cardsInPlay in H1. rewrite Hall in H1, H2, H3.
  assert (Hhand : NoDup (List.map card_uid (hand player))).
  { rewrite !List.map_app in H3. apply NoDup_app_remove_l in H3.
    apply NoDup_app_remove_r in H3. exact H3. }
  assert (Hpart : Permutation (hand player)
                    (sel ++ filter (fun c => negb (inUidSet uids c)) (hand player))).
  { apply trade_partition; [apply uniqueUids_NoDup|exact Hhand|].
    transitivity 3%nat; [exact L4|symmetry; exact L3]. }
  split; [|split].
  - rewrite <- H1. rewrite !List.map_app, map_discarded_idem.
    apply Permutation_app_head. rewrite <- app_assoc. apply Permutation_app_head.
    etransitivity; [apply Permutation_app_swap_app|]. apply Permutation_app_head.
    rewrite app_assoc. apply Permutation_app_tail.
    rewrite <- List.map_app. apply Permutation_map. symmetry. exact Hpart.
  - apply Forall_app in H2. destruct H2 as [Ha H2]. apply Forall_app in H2.
    destruct H2 as [Hb Hc].
    apply Forall_app. split; [exact Ha|]. apply Forall_app. split; [|exact Hc].
    apply Forall_forall. intros c Hin. apply filter_In in Hin.
    rewrite Forall_forall in Hb. apply Hb, Hin.
  - apply NoDup_map_filter_middle. exact H3.
Qed.

Lemma deck_reset_conserves (rnd : nat -> Q) (g g' : Game) :
  deck g' = deck_reset rnd (deck g) -> allHands g' = [] -> cardsConserved g'.
Proof.
  intros Hd Hh. unfold cardsConserved, cardsInPlay. rewrite Hh, Hd. simpl.
  rewrite !app_nil_r. split; [|split; constructor].
  apply Permutation_map, shuffle_Permutation.
Qed.

Lemma nextTurn_deck (continents : list Continent) (rnd : nat -> Q) (g : Game) :
  deckInvariant g -> deckInvariant (nextTurn continents rnd g).
Proof.
  intros [H1 H2]. rewrite nextTurn_unfold.
  destruct (List.length (players g) =? 0)%nat.
  - split; [exact H1|exact H2].
  - destruct (turnStart_frame continents (turnEnd rnd g)) as [F1 [F2 [_ [_ [_ [_ [_ F3]]]]]]].
    cbv zeta in F1, F2, F3. split; [|intro E; contradiction].
    apply cardsConserved_same with (g := turnEnd rnd g);
      [exact F1|apply allHands_hands, F2|apply turnEnd_conserves, H1].
Qed.

(** Across every operation of the game the cards are conserved: up to the
    fields that [discard] normalises, the draw pile, the discard pile and
    the hands together hold exactly the cards of the base deck; the cards
    in the hands carry pairwise distinct uids, all minted by the deck; and
    in the lobby nobody holds a card. *)
Theorem operations_keep_deck
        (territories : list MapTerritory) (continents : list Continent)
        (sanitize : list Player -> string -> string) (g g' : Game) :
  operation territories continents sanitize anyCount g g' ->
  deckInvariant g -> deckInvariant g'.
Proof.
  intros Hop Hk. each_operation Hop.
  - destruct (addPlayer_cases sanitize g socketId requestedName)
      as [E|[player [_ [_ [_ [_ [_ [_ [Hh [_ E]]]]]]]]]]; rewrite E; [exact Hk|].
    destruct Hk as [H1 H2].
    assert (Hall : allHands (set_players (players g ++ [player]) g) = allHands g).
    { unfold allHands. simpl. rewrite List.map_app, concat_app. simpl.
      rewrite Hh. simpl. now rewrite app_nil_r. }
    split.
    + apply cardsConserved_same with (g := g); [reflexivity|exact Hall|exact H1].
    + unfold snd. rewrite Hall. exact H2.
  - destruct Hk as [H1 H2]. split; [apply removePlayer_conserves, H1|].
    destruct (findIndex (is_player socketId) (players g)) as [index|] eqn:Ei;
      [|rewrite removePlayer_absent by exact Ei; exact H2].
    destruct (removePlayer_effect g socketId Ei) as [player [Hn [_ [_ [Hp [_ [Hph _]]]]]]].
    cbv zeta in Hp, Hph. rewrite Hph. intro E. specialize (H2 E).
    destruct (nth_error_split_update _ _ Hn) as [l1 [l2 [El [_ [Hs _]]]]].
    rewrite (@allHands_split g l1 l2 player El) in H2.
    apply app_eq_nil in H2. destruct H2 as [Ha H2]. apply app_eq_nil in H2.
    unfold allHands. rewrite Hp, Hs, List.map_app, concat_app, Ha.
    destruct H2 as [_ ->]. reflexivity.
  - unfold setPlayerReady. destruct (negb (Phase_eqb (phase g) LOBBY)); [exact Hk|].
    destruct (getPlayer g socketId); [|exact Hk].
    apply deckInvariant_same with (g := g); auto. apply update_first_map. reflexivity.
  - unfold togglePlayerReady. destruct (negb (Phase_eqb (phase g) LOBBY)); [exact Hk|].
    destruct (getPlayer g socketId); [|exact Hk].
    apply deckInvariant_same with (g := g); auto. apply update_first_map. reflexivity.
  - destruct (canStartGame g) eqn:E; [|rewrite startGame_refused by exact E; exact Hk].
    destruct (startGame_effect rnd g E) as [_ [Hph [_ [_ [_ [_ [Hd [Hh _]]]]]]]].
    cbv zeta in Hph, Hd, Hh.
    assert (Hl : phase g = LOBBY).
    { unfold canStartGame in E. destruct (phase g); try discriminate. reflexivity. }
    destruct Hk as [_ H2]. specialize (H2 Hl). apply allHands_hands in Hh.
    split; [|rewrite Hph; discriminate].
    apply deck_reset_conserves with (rnd := rnd) (g := g); [exact Hd|congruence].
  - apply deckInvariant_same with (g := g); try exact Hk; try apply startNewRound_frame.
    discriminate.
  - destruct (deploy_cases continents g playerId territoryId count)
      as [E|[player [territory [amount [_ [_ [_ [_ [_ [_ [_ [_ E]]]]]]]]]]]];
      rewrite E; [exact Hk|].
    destruct (deployCompletion_frame continents (pool player - amount)
                (deployMove playerId territoryId amount g)) as [F1 [F2 [_ [_ [_ [_ [_ F3]]]]]]].
    destruct (deployMove_frame playerId territoryId amount g)
      as [M1 [M2 [_ [_ [_ [_ [M3 _]]]]]]].
    cbv zeta in F1, F2, F3, M1, M2, M3. unfold snd.
    apply deckInvariant_same with (g := g); try exact Hk; try congruence.
    intro El. rewrite <- M3. apply F3, El.
  - destruct (nextPhase_cases continents rnd g)
      as [E|[[Hp [_ [E|E]]]|[[Hp E]|[_ E]]]]; cbv zeta in E; rewrite E; try exact Hk;
      try (apply deckInvariant_same with (g := g); try exact Hk; try reflexivity;
           simpl; congruence).
    apply nextTurn_deck, Hk.
  - apply nextTurn_deck, Hk.
  - apply deckInvariant_same with (g := g); auto.
  - destruct Hk as [H1 H2]. split; [apply tradeCards_conserves, H1|].
    destruct (tradeCards_cases g playerId selectedCardUids)
      as [E|[player [awarded [_ [Hl [_ [_ [_ [_ [_ [_ [_ E]]]]]]]]]]]]; rewrite E; [exact H2|].
    intro El. simpl in El. contradiction.
  - destruct (attack_resolved rnd g playerId fromId toId count)
      as [E|[requested [to [_ E]]]]; rewrite E; [exact Hk|].
    destruct (resolveBattle_frame rnd g playerId fromId toId requested to)
      as [F1 [F2 [_ [_ [F3 _]]]]]. cbv zeta in F1, F2, F3.
    apply deckInvariant_same with (g := g); try exact Hk; try assumption.
    cbn [snd]. rewrite F3. auto.
  - destruct (fortify_cases continents rnd g playerId fromId toId count)
      as [E|[moveCount E]]; rewrite E; [exact Hk|].
    apply nextTurn_deck.
    apply deckInvariant_same with (g := g); auto.
  - split; [|intros _; unfold allHands, resetGame; cbn [players]].
    + apply deck_reset_conserves with (rnd := rnd) (g := g); [reflexivity|].
      unfold allHands, resetGame. cbn [players].
      induction (players g) as [|p ps IH]; simpl; [reflexivity|].
      destruct (JS.truthy_str (p_id p)); simpl; exact IH.
    + induction (players g) as [|p ps IH]; simpl; [reflexivity|].
      destruct (JS.truthy_str (p_id p)); simpl; exact IH.
Qed.

(** ** The base deck *)

Lemma territoryCards_length (index : nat) (territories : list MapTerritory) :
  List.length (territoryCards index territories) = List.length territories.
Proof.
  revert index. induction territories as [|t ts IH]; intro index; simpl; [reflexivity|].
  now rewrite IH.
Qed.

Lemma territoryCards_nth (index i : nat) (territories : list MapTerritory) (t : MapTerritory) :
  nth_error territories i = Some t ->
  nth_error (territoryCards index territories) i = Some (territoryCard (index + i) t).
Proof.
  revert index i. induction territories as [|x ts IH]; intros index [|i] H; simpl in *;
    try discriminate.
  - injection H as ->. now rewrite Nat.add_0_r.
  - rewrite (IH (S index) i H). f_equal. f_equal. lia.
Qed.

Lemma cardTypeAt_cycle (q : nat) :
  cardTypeAt (3 * q) = "INFANTRY"%string
  /\ cardTypeAt (S (3 * q)) = "CAVALRY"%string
  /\ cardTypeAt (S (S (3 * q))) = "ARTILLERY"%string.
Proof.
  unfold cardTypeAt. cbn [List.length CARD_TYPES].
  replace (3 * q)%nat with (0 + q * 3)%nat by lia.
  replace (S (0 + q * 3)) with (1 + q * 3)%nat by lia.
  replace (S (1 + q * 3)) with (2 + q * 3)%nat by lia.
  rewrite !Nat.Div0.mod_add. repeat split; reflexivity.
Qed.

Lemma cardTypeAt_tag (index : nat) : In (cardTypeAt index) CARD_TYPES.
Proof.
  unfold cardTypeAt. apply nth_In. cbn [List.length CARD_TYPES].
  apply Nat.mod_upper_bound. discriminate.
Qed.

Lemma div3_step (k : nat) : (S (S (S k)) / 3 = S (k / 3))%nat.
Proof.
  replace (S (S (S k))) with (k + 1 * 3)%nat by lia.
  rewrite Nat.div_add by discriminate. lia.
Qed.

(** The number of cards of one type. *)
Lemma typeCount_territoryCards (m : nat) :
  forall (territories : list MapTerritory) (q : nat),
    (List.length territories <= 3 * m)%nat ->
    let count type :=
      List.length (filter (fun c => String.eqb (card_type c) type)
                          (territoryCards (3 * q) territories)) in
    let n := List.length territories in
    count "INFANTRY"%string = ((n + 2) / 3)%nat
    /\ count "CAVALRY"%string = ((n + 1) / 3)%nat
    /\ count "ARTILLERY"%string = (n / 3)%nat
    /\ count WILD_TYPE = 0%nat.
Proof.
  induction m as [|m IH]; intros territories q Hl; cbv zeta.
  - destruct territories; [|simpl in Hl; lia]. simpl. auto.
  - destruct (cardTypeAt_cycle q) as [T0 [T1 T2]].
    destruct territories as [|a [|b [|c rest]]].
    + simpl. auto.
    + cbn [territoryCards filter card_type territoryCard List.length]. rewrite T0. simpl. auto.
    + cbn [territoryCards filter card_type territoryCard List.length]. rewrite T0, T1.
      simpl. auto.
    + cbn [territoryCards filter card_type territoryCard]. rewrite T0, T1, T2.
      replace (S (S (S (3 * q)))) with (3 * S q)%nat by lia.
      assert (Hr : (List.length rest <= 3 * m)%nat) by (simpl in Hl; lia).
      destruct (IH rest (S q) Hr) as [I0 [I1 [I2 I3]]].
      cbn [String.eqb Ascii.eqb Bool.eqb andb List.length WILD_TYPE].
      cbn [String.eqb Ascii.eqb Bool.eqb andb List.length WILD_TYPE] in I0, I1, I2, I3.
      rewrite I0, I1, I2, I3.
      cbn [Nat.add]. rewrite !div3_step. repeat split; reflexivity.
Qed.

Lemma buildBaseDeck_cards_length (territories : list MapTerritory) :
  List.length (buildBaseDeck territories) = (List.length territories + 2)%nat.
Proof.
  unfold buildBaseDeck. rewrite length_app, territoryCards_length. reflexivity.
Qed.

(** The base deck built for [n] territories holds [n + 2] cards: one card
    per territory, in the order of the territories and typed INFANTRY,
    CAVALRY, ARTILLERY in rotation, followed by two wild cards.  So every
    card carries one of the four tags, exactly two cards are wild, and the
    three troop types are dealt evenly: their numbers are [n / 3] rounded
    up for INFANTRY, [(n + 1) / 3] rounded down for CAVALRY and [n / 3]
    rounded down for ARTILLERY. *)
Theorem buildBaseDeck_cards (territories : list MapTerritory) :
  let deck := buildBaseDeck territories in
  let n := List.length territories in
  let count type :=
    List.length (filter (fun c => String.eqb (card_type c) type) deck) in
  List.length deck = (n + 2)%nat
  /\ (forall i t, nth_error territories i = Some t ->
                  nth_error deck i = Some (territoryCard i t))
  /\ (forall c, In c deck -> In (card_type c) (CARD_TYPES ++ [WILD_TYPE]))
  /\ count WILD_TYPE = 2%nat
  /\ count "INFANTRY"%string = ((n + 2) / 3)%nat
  /\ count "CAVALRY"%string = ((n + 1) / 3)%nat
  /\ count "ARTILLERY"%string = (n / 3)%nat.
Proof.
  cbv zeta. unfold buildBaseDeck.
  destruct (@typeCount_territoryCards (List.length territories) territories 0)
    as [C0 [C1 [C2 C3]]]; [lia|]. cbv zeta in C0, C1, C2, C3.
  change (3 * 0)%nat with 0%nat in C0, C1, C2, C3.
  split; [apply buildBaseDeck_cards_length|].
  split.
  { intros i t H. rewrite nth_error_app1.
    - apply (territoryCards_nth 0 _ _ H).
    - rewrite territoryCards_length. apply nth_error_Some. congruence. }
  split.
  { intros c Hc. apply in_app_or in Hc. destruct Hc as [Hc|[<-|[<-|[]]]].
    - apply in_or_app. left.
      assert (H : forall index ts, In c (territoryCards index ts) ->
                                   In (card_type c) CARD_TYPES).
      { intros index ts. revert index. induction ts as [|t ts IH]; intros index Hin;
          simpl in Hin; [contradiction|].
        destruct Hin as [<-|Hin]; [apply cardTypeAt_tag|eapply IH; exact Hin]. }
      eapply H; exact Hc.
    - simpl. auto.
    - simpl. auto. }
  rewrite !filter_app, !length_app, C0, C1, C2, C3. simpl. repeat split; lia.
Qed.

(** ** Shuffling and drawing *)

Lemma swap_exchanges (A : Type) (i j : nat) (arr : list A) :
  (i < List.length arr)%nat -> (j < List.length arr)%nat ->
  nth_error (swap i j arr) i = nth_error arr j
  /\ nth_error (swap i j arr) j = nth_error arr i
  /\ (forall n, n <> i -> n <> j -> nth_error (swap i j arr) n = nth_error arr n).
Proof.
  intros Hi Hj. unfold swap.
  destruct (nth_error arr i) as [x|] eqn:Ex; [|apply nth_error_None in Ex; lia].
  destruct (nth_error arr j) as [y|] eqn:Ey; [|apply nth_error_None in Ey; lia].
  rewrite !nth_error_update_nth, !Nat.eqb_refl.
  split; [|split].
  - destruct (i =? j)%nat; rewrite ?Ex, ?Ey; reflexivity.
  - destruct (j =? i)%nat eqn:E.
    + apply Nat.eqb_eq in E. subst j. rewrite Ey in *. simpl. congruence.
    + rewrite Ey. reflexivity.
  - intros n Hni Hnj. rewrite !nth_error_update_nth.
    apply Nat.eqb_neq in Hni, Hnj. rewrite Hni, Hnj. reflexivity.
Qed.

(** With random numbers that are doubles in [0, 1), [shuffle] returns a
    permutation of the array it is given.  At the position [i] the loop
    draws the index [j = floor(random * (i + 1))], which is one of [0..i]
    and so lies inside the array, and exchanges the elements at [i] and [j],
    leaving every other element where it is. *)
Theorem shuffle_permutes (A : Type) (rnd : nat -> Q) (cards : list A) :
  validRandom rnd ->
  (Z.of_nat (List.length cards) <= 2 ^ 53)%Z ->
  Permutation (shuffle rnd cards) cards
  /\ List.length (shuffle rnd cards) = List.length cards
  /\ forall (k i : nat) (arr : list A),
       (i < List.length cards)%nat -> List.length arr = List.length cards ->
       let j := Z.to_nat (Qfloor (fl (rnd k * Qnat (i + 1)))) in
       (j <= i)%nat
       /\ nth_error (swap i j arr) i = nth_error arr j
       /\ nth_error (swap i j arr) j = nth_error arr i
       /\ (forall n, n <> i -> n <> j -> nth_error (swap i j arr) n = nth_error arr n)
       /\ (i <> 0%nat ->
           shuffle_from rnd k i arr = shuffle_from rnd (S k) (i - 1) (swap i j arr)).
Proof.
  intros Hv Hb. pose proof (shuffle_Permutation rnd cards) as H.
  split; [exact H|]. split; [apply Permutation_length, H|].
  intros k i arr Hi Hlen. cbv zeta.
  assert (Hj : (Z.to_nat (Qfloor (fl (rnd k * Qnat (i + 1)))) <= i)%nat).
  { apply shuffle_index_range; [exact Hv | lia]. }
  split; [exact Hj|].
  destruct (@swap_exchanges A i (Z.to_nat (Qfloor (fl (rnd k * Qnat (i + 1))))) arr)
    as [S1 [S2 S3]]; [lia | lia |].
  split; [exact S1|]. split; [exact S2|]. split; [exact S3|].
  intro Hi0. destruct i as [|i']; [congruence|].
  simpl. rewrite Nat.sub_0_r. reflexivity.
Qed.

(** [draw] returns nothing, and leaves the deck alone, exactly when both
    piles are empty.  Otherwise it returns one card of the piles under the
    uid [card_<nextUid>] and increments [nextUid]; the cards left in the
    piles are the other cards, and with a non-empty draw pile the card is
    the last one of that pile and the discard pile is untouched. *)
Theorem draw_takes_one_card (rnd : nat -> Q) (d : CardDeck) :
  match draw rnd d with
  | (None, d') => drawPile d = [] /\ discardPile d = [] /\ d' = d
  | (Some c, d') =>
      (drawPile d <> [] \/ discardPile d <> [])
      /\ card_uid c = Some (card_uid_of (nextUid d))
      /\ nextUid d' = S (nextUid d)
      /\ baseCards d' = baseCards d
      /\ Permutation (List.map discarded (c :: drawPile d' ++ discardPile d'))
                     (List.map discarded (drawPile d ++ discardPile d))
      /\ (drawPile d <> [] ->
          discardPile d' = discardPile d
          /\ exists top, drawPile d = drawPile d' ++ [top]
                         /\ c = with_uid (card_uid_of (nextUid d)) top)
  end.
Proof.
  destruct (draw_spec rnd d) as [[H1 [H2 E]]|[card [d' [E [H1 [H2 [H3 H4]]]]]]]; rewrite E.
  - auto.
  - split.
    { destruct (drawPile d) as [|x l] eqn:Ed; [|left; discriminate].
      destruct (discardPile d) as [|y l] eqn:Es; [|right; discriminate].
      apply Permutation_sym, Permutation_nil in H3. discriminate. }
    split; [reflexivity|]. split; [exact H1|]. split; [exact H2|]. split.
    + apply (Permutation_map discarded) in H3. exact H3.
    + intro Hn. destruct (H4 Hn) as [Hd Hs]. split; [exact Hs|].
      exists card. auto.
Qed.

Lemma createFreshMap_fresh (territories : list MapTerritory) :
  Forall (fun t => ownerId t = None /\ troops t == 0) (createFreshMap territories).
Proof.
  unfold createFreshMap. apply Forall_forall. intros t Ht. apply in_map_iff in Ht.
  destruct Ht as [m [<- _]]. simpl. split; [reflexivity|reflexivity].
Qed.

(** A new match is an empty lobby that satisfies the invariants of the
    match: the draw pile holds the shuffled base deck, one card per
    territory and two wild cards, nobody holds a card, no territory has an
    owner or troops, and the history is empty. *)
Theorem newRiskGame_invariants (rnd : nat -> Q) (territories : list MapTerritory) :
  let g := newRiskGame rnd territories in
  phase g = LOBBY
  /\ players g = []
  /\ deckInvariant g
  /\ turnCursorOk g
  /\ playersOk g
  /\ poolsNonNegative g
  /\ historyOk g
  /\ Permutation (drawPile (deck g)) (buildBaseDeck territories)
  /\ List.length (drawPile (deck g)) = (List.length territories + 2)%nat
  /\ Forall (fun t => ownerId t = None /\ troops t == 0) (map g).
Proof.
  cbv zeta. unfold newRiskGame, newCardDeck.
  split; [reflexivity|]. split; [reflexivity|]. split.
  { split; [|reflexivity].
    eapply deck_reset_conserves with (rnd := rnd)
                                     (g := mkGame [] LOBBY true 0 None 0 None [] 0 None
                                                  (mkDeck 1 (buildBaseDeck territories) [] [])
                                                  (createFreshMap territories));
      reflexivity. }
  split; [left; reflexivity|]. split.
  { unfold playersOk. simpl. split; [lia|]. split; constructor. }
  split; [constructor|]. split.
  { unfold historyOk. simpl. split; [lia|]. split; constructor. }
  cbn [deck drawPile deck_reset baseCards map].
  pose proof (shuffle_Permutation rnd (buildBaseDeck territories)) as H.
  split; [exact H|]. split.
  - rewrite (Permutation_length H). apply buildBaseDeck_cards_length.
  - apply createFreshMap_fresh.
Qed.

(** ** Trading cards *)



(** ** A player leaves a running match *)

Lemma nth_error_splice1 (A : Type) (i k : nat) (l : list A) :
  nth_error (splice1 i l) k
  = if (k <? i)%nat then nth_error l k else nth_error l (S k).
Proof.
  revert i k. induction l as [|x l IH]; intros [|i] [|k]; simpl; try reflexivity.
  - destruct (S k <? S i)%nat; reflexivity.
  - rewrite IH. reflexivity.
Qed.

Lemma owns_set_ownerId (q o : string) (t : Territory) :
  owns q (set_ownerId (Some o) t) = String.eqb o q.
Proof. reflexivity. Qed.

Lemma neutralize_map (playerId : string) (g : Game) :
  let m' := map (neutralizePlayerTerritories playerId g) in
  List.map troops m' = List.map troops (map g)
  /\ List.map t_id m' = List.map t_id (map g)
  /\ (playerId <> NEUTRAL_ID -> Forall (fun t => owns playerId t = false) m')
  /\ (forall q, q <> playerId -> q <> NEUTRAL_ID ->
                filter (owns q) m' = filter (owns q) (map g))
  /\ Forall2 (fun t t' => owns playerId t = true -> ownerId t' = Some NEUTRAL_ID) (map g) m'.
Proof.
  unfold neutralizePlayerTerritories. cbn [map set_map].
  induction (map g) as [|t m IH]; cbn [List.map filter].
  - repeat split; try constructor.
  - destruct IH as [I1 [I2 [I3 [I4 I5]]]].
    destruct (owns playerId t) eqn:Eo.
    + cbn [troops t_id set_ownerId]. rewrite I1, I2.
      split; [reflexivity|]. split; [reflexivity|]. split; [|split].
      * intro Hn. constructor; [|apply I3, Hn].
        rewrite owns_set_ownerId. apply String.eqb_neq. intro E. apply Hn. now symmetry.
      * intros q Hq Hn.
        change (mkTerritory (t_id t) (t_name t) (t_continent t) (t_neighbors t)
                            (Some NEUTRAL_ID) (troops t))
          with (set_ownerId (Some NEUTRAL_ID) t).
        rewrite owns_set_ownerId.
        assert (E1 : String.eqb NEUTRAL_ID q = false).
        { apply String.eqb_neq. intro E. apply Hn. now symmetry. }
        assert (E2 : owns q t = false).
        { apply opt_is_neq. apply opt_is_eq in Eo. rewrite Eo. congruence. }
        rewrite E1, E2. apply I4; assumption.
      * constructor; [reflexivity|exact I5].
    + rewrite I1, I2. split; [reflexivity|]. split; [reflexivity|]. split; [|split].
      * intro Hn. constructor; [exact Eo|apply I3, Hn].
      * intros q Hq Hn. rewrite (I4 q Hq Hn). reflexivity.
      * constructor; [congruence|exact I5].
Qed.

(** When a player leaves a running match, the player is taken out of the
    list, the territories of that player become neutral with their troops,
    and the other territories are untouched.  The turn stays with the
    current player when somebody else leaves; when the current player
    leaves, it passes to the next player in order, or to the first one if
    the leaver was the last of the list. *)
Theorem removePlayer_repairs_turn
        (g : Game) (socketId : string) (index : nat) (current : Player) :
  phase g <> LOBBY ->
  findIndex (is_player socketId) (players g) = Some index ->
  getCurrentPlayer g = Some current ->
  let g' := snd (removePlayer g socketId) in
  fst (removePlayer g socketId) = true
  /\ players g' = splice1 index (players g)
  /\ S (List.length (players g')) = List.length (players g)
  /\ (index <> currentPlayerIndex g -> getCurrentPlayer g' = Some current)
  /\ (index = currentPlayerIndex g ->
      getCurrentPlayer g'
      = match nth_error (players g) (S index) with
        | Some next => Some next
        | None => hd_error (players g')
        end)
  /\ List.map troops (map g') = List.map troops (map g)
  /\ (socketId <> NEUTRAL_ID -> Forall (fun t => owns socketId t = false) (map g'))
  /\ (forall q, q <> socketId -> q <> NEUTRAL_ID ->
                filter (owns q) (map g') = filter (owns q) (map g))
  /\ Forall2 (fun t t' => owns socketId t = true -> ownerId t' = Some NEUTRAL_ID)
             (map g) (map g').
Proof.
  intros Hl Hi Hc. cbv zeta.
  destruct (removePlayer_effect g socketId Hi)
    as [player [Hn [_ [Hf [Hp [_ [_ [_ [_ [_ [Hm Hcur]]]]]]]]]]].
  cbv zeta in Hf, Hp, Hm, Hcur.
  assert (Ep : Phase_eqb (phase g) LOBBY = false).
  { destruct (phase g); try reflexivity. congruence. }
  rewrite Ep in Hm, Hcur.
  assert (Hlen : S (List.length (splice1 index (players g))) = List.length (players g)).
  { apply splice1_length. apply nth_error_Some. congruence. }
  assert (Hlt : (currentPlayerIndex g < List.length (players g))%nat).
  { apply nth_error_Some. unfold getCurrentPlayer in Hc. congruence. }
  assert (Hidx : (index < List.length (players g))%nat).
  { apply nth_error_Some. congruence. }
  destruct (neutralize_map socketId g) as [N1 [_ [N3 [N4 N5]]]]. cbv zeta in N1, N3, N4, N5.
  split; [exact Hf|]. split; [exact Hp|]. split; [rewrite Hp; exact Hlen|].
  rewrite Hm. split; [|split; [|auto]].
  - intro Hne. unfold getCurrentPlayer. rewrite Hp, Hcur, nth_error_splice1.
    unfold getCurrentPlayer in Hc.
    destruct (0 <? List.length (splice1 index (players g)))%nat eqn:E0;
      [|apply Nat.ltb_ge in E0; lia].
    destruct (index <? currentPlayerIndex g)%nat eqn:E1.
    + apply Nat.ltb_lt in E1.
      destruct (currentPlayerIndex g - 1 <? index)%nat eqn:E2;
        [apply Nat.ltb_lt in E2; lia|].
      replace (S (currentPlayerIndex g - 1)) with (currentPlayerIndex g) by lia. exact Hc.
    + apply Nat.ltb_ge in E1.
      destruct (List.length (splice1 index (players g)) <=? currentPlayerIndex g)%nat eqn:E2.
      * apply Nat.leb_le in E2.
        assert (index < List.length (players g))%nat by (apply nth_error_Some; congruence).
        lia.
      * destruct (currentPlayerIndex g <? index)%nat eqn:E3; [exact Hc|].
        apply Nat.ltb_ge in E3. lia.
  - intro He. unfold getCurrentPlayer. rewrite Hp, Hcur, <- He, Nat.ltb_irrefl.
    destruct (0 <? List.length (splice1 index (players g)))%nat eqn:E0.
    + destruct (List.length (splice1 index (players g)) <=? index)%nat eqn:E2.
      * apply Nat.leb_le in E2.
        assert (En : nth_error (players g) (S index) = None)
          by (apply nth_error_None; lia).
        rewrite En. destruct (splice1 index (players g)); reflexivity.
      * apply Nat.leb_gt in E2. rewrite nth_error_splice1, Nat.ltb_irrefl.
        destruct (nth_error (players g) (S index)) as [next|] eqn:En; [reflexivity|].
        apply nth_error_None in En. lia.
    + apply Nat.ltb_ge in E0.
      assert (En : nth_error (players g) (S index) = None)
        by (apply nth_error_None; lia).
      rewrite En. destruct (splice1 index (players g)); reflexivity.
Qed.

(** ** The deal of the territories at the start of a match *)


















(** ** Calls that are refused *)

(** A method of the engine that reports a failure has changed nothing. *)
Theorem refused_calls_change_nothing
        (continents : list Continent) (sanitize : list Player -> string -> string)
        (rnd : nat -> Q) (g : Game) (id other : string) (name : string)
        (value : bool) (count : JS.number) (uids : list string) :
  (fst (addPlayer sanitize g id name) = false -> snd (addPlayer sanitize g id name) = g)
  /\ (fst (removePlayer g id) = false -> snd (removePlayer g id) = g)
  /\ (fst (setPlayerReady g id value) = false -> snd (setPlayerReady g id value) = g)
  /\ (fst (togglePlayerReady g id) = false -> snd (togglePlayerReady g id) = g)
  /\ (fst (startGame rnd g) = false -> snd (startGame rnd g) = g)
  /\ (fst (deploy continents g id other count) = false ->
      snd (deploy continents g id other count) = g)
  /\ (fst (nextPhase continents rnd g) = false -> snd (nextPhase continents rnd g) = g)
  /\ (fst (tradeCards g id uids) = None -> snd (tradeCards g id uids) = g)
  /\ (fst (attack rnd g id other name count) = None ->
      snd (attack rnd g id other name count) = g)
  /\ (fst (fortify continents rnd g id other name count) = false ->
      snd (fortify continents rnd g id other name count) = g).
Proof.
  repeat split.
  - destruct (addPlayer_cases sanitize g id name)
      as [E|[p [_ [_ [_ [_ [_ [_ [_ [_ E]]]]]]]]]]; rewrite E; [reflexivity|discriminate].
  - destruct (findIndex (is_player id) (players g)) as [index|] eqn:Ei.
    + destruct (removePlayer_effect g id Ei) as [p [_ [_ [H _]]]]. rewrite H. discriminate.
    + rewrite removePlayer_absent by exact Ei. reflexivity.
  - unfold setPlayerReady. destruct (negb (Phase_eqb (phase g) LOBBY)); [reflexivity|].
    destruct (getPlayer g id); [discriminate|reflexivity].
  - unfold togglePlayerReady. destruct (negb (Phase_eqb (phase g) LOBBY)); [reflexivity|].
    destruct (getPlayer g id); [discriminate|reflexivity].
  - destruct (canStartGame g) eqn:E.
    + rewrite (startGame_accepted rnd g E). discriminate.
    + rewrite startGame_refused by exact E. reflexivity.
  - destruct (deploy_cases continents g id other count)
      as [E|[p [t [a [_ [_ [_ [_ [_ [_ [_ [_ E]]]]]]]]]]]]; rewrite E;
      [reflexivity|discriminate].
  - unfold nextPhase. destruct (JS.truthy_opt (winnerId g)); [reflexivity|].
    destruct (phase g); try discriminate.
    destruct (getCurrentPlayer g) as [p|]; [|discriminate].
    destruct (Qeqb (pool p) 0); [|discriminate].
    destruct (currentPlayerIndex (advanceCursor g) =? 0)%nat; discriminate.
  - destruct (tradeCards_cases g id uids)
      as [E|[p [a [_ [_ [_ [_ [_ [_ [_ [_ [_ E]]]]]]]]]]]]; rewrite E;
      [reflexivity|discriminate].
  - destruct (attack_resolved rnd g id other name count)
      as [E|[requested [to [_ E]]]]; rewrite E; [reflexivity|discriminate].
  - destruct (fortify_cases continents rnd g id other name count)
      as [E|[moveCount E]]; rewrite E; [reflexivity|discriminate].
Qed.

(** Once a winner is recorded, every move of the match is refused:
    deploying, attacking, fortifying, ending a phase and trading cards. *)
Lemma winner_locks_match
        (continents : list Continent) (rnd : nat -> Q) (g : Game)
        (playerId a b : string) (count : JS.number) (uids : list string) :
  JS.truthy_opt (winnerId g) = true ->
  deploy continents g playerId a count = (false, g)
  /\ attack rnd g playerId a b count = (None, g)
  /\ fortify continents rnd g playerId a b count = (false, g)
  /\ nextPhase continents rnd g = (false, g)
  /\ tradeCards g playerId uids = (None, g).
Proof.
  intro H. unfold deploy, attack, fortify, nextPhase, tradeCards. rewrite H.
  repeat split; reflexivity.
Qed.

(** ** Returning to the lobby *)

Lemma lobbyPlayers_twice (ps : list Player) :
  let lobby := List.map (fun player =>
                           mkPlayer (p_id player) (displayName player) (color player)
                                    0 0 false [] false) in
  let kept := filter (fun player => JS.truthy_str (p_id player)) in
  kept (lobby (kept (lobby ps))) = kept (lobby ps).
Proof.
  cbv zeta. induction ps as [|p ps IH]; simpl; [reflexivity|].
  destruct (JS.truthy_str (p_id p)) eqn:E; simpl; [rewrite E|]; now rewrite IH.
Qed.

(** [resetGame] returns the match to a fresh lobby: no winner, no battle
    on record, no trade counted, the deck reset, every territory without
    owner and troops, and the players, in their order, with an empty pool,
    an empty hand and not ready.  Such a match cannot be started before the
    players are ready again, and resetting twice is the same as resetting
    once. *)
Theorem resetGame_fresh_lobby
        (territories : list MapTerritory) (rnd rnd' : nat -> Q) (g : Game) :
  let g' := resetGame territories rnd g in
  phase g' = LOBBY
  /\ currentPlayerIndex g' = 0%nat
  /\ isFirstRound g' = true
  /\ winnerId g' = None
  /\ lastAttack g' = None /\ lastAttackId g' = 0%nat /\ battleHistory g' = []
  /\ globalTradeInCount g' = 0%nat
  /\ pendingCardEarned g' = None
  /\ deck g' = deck_reset rnd (deck g)
  /\ Forall (fun t => ownerId t = None /\ troops t == 0) (map g')
  /\ List.map t_id (map g') = List.map m_id territories
  /\ List.map p_id (players g') = filter JS.truthy_str (List.map p_id (players g))
  /\ Forall (fun p => pool p == 0 /\ ready p = false /\ hand p = []
                      /\ conqueredThisTurn p = false) (players g')
  /\ startGame rnd' g' = (false, g')
  /\ resetGame territories rnd g' = g'.
Proof.
  cbv zeta. unfold resetGame at 1 2 3 4 5 6 7 8 9 10 11 12 13 14. cbn.
  repeat (split; [reflexivity|]).
  split; [apply createFreshMap_fresh|]. split.
  { unfold createFreshMap. rewrite List.map_map. reflexivity. }
  split; [apply lobbyPlayers_ids|]. split.
  { apply Forall_forall. intros p Hp. apply filter_In in Hp. destruct Hp as [Hp _].
    apply in_map_iff in Hp. destruct Hp as [q [<- _]]. simpl.
    repeat split; reflexivity. }
  split.
  - apply startGame_refused. unfold canStartGame, areAllPlayersReady, resetGame.
    cbn [phase players Phase_eqb andb].
    match goal with |- (if ?c then _ else _) = _ => destruct c eqn:E end; [reflexivity|].
    apply Nat.ltb_ge in E.
    match goal with
    | |- forallb ready ?lst = false => destruct lst as [|p rest] eqn:El
    end; [simpl in E; lia|].
    assert (Hp : In p (p :: rest)) by now left. rewrite <- El in Hp.
    apply filter_In in Hp. destruct Hp as [Hp _]. apply in_map_iff in Hp.
    destruct Hp as [q [<- _]]. reflexivity.
  - unfold resetGame. cbn [players deck]. f_equal.
    apply (lobbyPlayers_twice (players g)).
Qed.

(** ** Connectivity as a relation *)

Lemma ownedPath_trans (g : Game) (playerId a b c : string) :
  ownedPath g playerId a b -> ownedPath g playerId b c -> ownedPath g playerId a c.
Proof.
  induction 1 as [a Ha|a b' b Ha Hab _ IH]; intro H; [exact H|].
  eapply path_step; [exact Ha|exact Hab|apply IH, H].
Qed.

(** [isConnected] is reflexive on the territories the player owns and
    transitive; and it is symmetric whenever the neighbour lists of the
    map are, that is when each territory is listed by its neighbours. *)
Theorem isConnected_relation (g : Game) (playerId : string) :
  (forall a, isConnected g playerId a a = true <-> In a (ownedIds g playerId))
  /\ (forall a b c,
        isConnected g playerId a b = true -> isConnected g playerId b c = true ->
        isConnected g playerId a c = true)
  /\ ((forall a b, In a (ownedIds g playerId) -> In b (ownedIds g playerId) ->
                   adjacent g a b -> adjacent g b a) ->
      forall a b, isConnected g playerId a b = isConnected g playerId b a).
Proof.
  split; [|split].
  - intro a. rewrite isConnected_iff. split.
    + apply ownedPath_start.
    + apply path_end.
  - intros a b c. rewrite !isConnected_iff. apply ownedPath_trans.
  - intros Hsym.
    assert (H : forall a b, ownedPath g playerId a b -> ownedPath g playerId b a).
    { induction 1 as [a Ha|a b c Ha Hab Hbc IH]; [apply path_end, Ha|].
      eapply ownedPath_snoc; [exact IH| |exact Ha].
      apply Hsym; [exact Ha| |exact Hab]. eapply ownedPath_start, Hbc. }
    intros a b. apply eq_true_iff_eq. rewrite !isConnected_iff. split; apply H.
Qed.

(** ** Troops moved by fortify and deploy *)



Lemma deployCompletion_phase (continents : list Continent) (poolNow : Q) (g : Game) :
  let g' := deployCompletion continents poolNow g in
  match phase g with
  | SETUP =>
      if areAllPoolsEmpty g then
        currentPlayerIndex g' = 0%nat
        /\ phase g' = (if isFirstRound g then TURN_ATTACK else GLOBAL_REINFORCE)
      else
        phase g' = SETUP
        /\ currentPlayerIndex g'
           = (if Qeqb poolNow 0
              then ((currentPlayerIndex g + 1) mod List.length (players g))%nat
              else currentPlayerIndex g)
  | GLOBAL_REINFORCE =>
      if Qeqb poolNow 0 then
        currentPlayerIndex g' = ((currentPlayerIndex g + 1) mod List.length (players g))%nat
        /\ phase g' = (if (currentPlayerIndex g' =? 0)%nat then TURN_ATTACK
                       else GLOBAL_REINFORCE)
      else g' = g
  | _ => g' = g
  end.
Proof.
  unfold deployCompletion. destruct (phase g) eqn:Ep; try reflexivity.
  - destruct (areAllPoolsEmpty g).
    + cbn [isFirstRound set_currentPlayerIndex].
      destruct (isFirstRound g); simpl; auto.
    + destruct (Qeqb poolNow 0); simpl; auto.
  - destruct (Qeqb poolNow 0); [|reflexivity].
    destruct (currentPlayerIndex (advanceCursor g) =? 0)%nat eqn:E.
    + apply Nat.eqb_eq in E. simpl in E. simpl. rewrite E. auto.
    + simpl in E. simpl. rewrite E. auto.
Qed.

Lemma find_map_player (i : string) (f : Player -> Player) (ps : list Player) :
  (forall x, p_id (f x) = p_id x) ->
  find (is_player i) (List.map f ps) = option_map f (find (is_player i) ps).
Proof.
  intro Hf. induction ps as [|p ps IH]; simpl; [reflexivity|].
  unfold is_player at 1. rewrite Hf. fold (is_player i p).
  destruct (is_player i p); [reflexivity | exact IH].
Qed.

Lemma calculateReinforcements_map (continents : list Continent) (g h : Game) (i : string) :
  map g = map h ->
  calculateReinforcements continents g i = calculateReinforcements continents h i.
Proof.
  intro E. unfold calculateReinforcements, getContinentBonus. rewrite E. reflexivity.
Qed.

(** The players after the phase-specific end of [deploy]: they are as they
    were, unless the deploy ends the setup of a later round, when every
    pool is set to the reinforcements of its player. *)
Lemma deployCompletion_players (continents : list Continent) (poolNow : Q) (g : Game) :
  let g' := deployCompletion continents poolNow g in
  players g' = players g
  \/ (phase g = SETUP /\ isFirstRound g = false /\ phase g' = GLOBAL_REINFORCE
      /\ map g' = map g
      /\ players g'
         = List.map (fun p => set_pool (calculateReinforcements continents g (p_id p)) p)
                    (players g)).
Proof.
  cbv zeta. unfold deployCompletion. destruct (phase g) eqn:Ep; try (left; reflexivity).
  - destruct (areAllPoolsEmpty g).
    + cbv zeta. cbn [isFirstRound set_currentPlayerIndex].
      destruct (isFirstRound g) eqn:Ef; [left; reflexivity|].
      right. repeat split; reflexivity.
    + destruct (Qeqb poolNow 0); left; reflexivity.
  - destruct (Qeqb poolNow 0); [|left; reflexivity]. cbv zeta.
    destruct (currentPlayerIndex (advanceCursor g) =? 0)%nat; left; reflexivity.
Qed.

(** What an accepted deploy does to the territory, to the player and to
    the others. *)
Lemma deploy_effect
      (continents : list Continent) (g g' : Game) (playerId territoryId : string)
      (count : JS.number) :
  deploy continents g playerId territoryId count = (true, g') ->
  exists player territory amount territory' player',
    JS.truthy_opt (winnerId g) = false
    /\ notCurrentPlayer g playerId = false
    /\ getPlayer g playerId = Some player
    /\ getTerritory g territoryId = Some territory
    /\ owns playerId territory = true
    /\ deployAmount count = JS.Fin amount /\ 1 <= amount /\ amount <= pool player
    /\ g' = deployCompletion continents (pool player - amount)
                             (deployMove playerId territoryId amount g)
    /\ getTerritory g' territoryId = Some territory'
    /\ troops territory' = troops territory + amount
    /\ (t_id territory' = t_id territory /\ t_name territory' = t_name territory
        /\ t_continent territory' = t_continent territory
        /\ t_neighbors territory' = t_neighbors territory
        /\ ownerId territory' = ownerId territory)
    /\ (forall id, id <> territoryId -> getTerritory g' id = getTerritory g id)
    /\ getPlayer g' playerId = Some player'
    /\ (p_id player' = p_id player /\ displayName player' = displayName player
        /\ color player' = color player /\ p_troops player' = p_troops player
        /\ ready player' = ready player /\ hand player' = hand player
        /\ conqueredThisTurn player' = conqueredThisTurn player)
    /\ ((pool player' = pool player - amount
         /\ forall id, id <> playerId -> getPlayer g' id = getPlayer g id)
        \/ (phase g = SETUP /\ isFirstRound g = false /\ phase g' = GLOBAL_REINFORCE
            /\ forall id p, getPlayer g' id = Some p ->
                            pool p = calculateReinforcements continents g' id)).
Proof.
  intro H. unfold deploy in H.
  destruct (JS.truthy_opt (winnerId g)) eqn:Ew; [discriminate|].
  destruct (getPlayer g playerId) as [player|] eqn:Epl; [|discriminate].
  destruct (notCurrentPlayer g playerId) eqn:Ec; [discriminate|].
  destruct (getTerritory g territoryId) as [territory|] eqn:Et; [|discriminate].
  destruct (owns playerId territory) eqn:Eo; [|discriminate]. simpl in H.
  destruct (deployAmount_range count) as [[amount [Ea Ha]]|Ea]; rewrite Ea in H;
    [|discriminate].
  destruct (Qltb (pool player) amount) eqn:El; [discriminate|].
  apply Qltb_ge in El. injection H as <-.
  set (moved := deployMove playerId territoryId amount g).
  assert (Hmap : map (deployCompletion continents (pool player - amount) moved) = map moved).
  { apply (deployCompletion_frame continents (pool player - amount) moved). }
  assert (Hmoved : map moved = update_first (has_id territoryId)
                                 (fun t => set_troops (troops t + amount) t) (map g))
    by reflexivity.
  assert (Hpm : getPlayer moved playerId = Some (set_pool (pool player - amount) player)).
  { unfold moved, deployMove.
    apply (@getPlayer_modPlayer_same _ playerId (fun p => set_pool (pool p - amount) p) player);
      [reflexivity|]. exact Epl. }
  assert (Hom : forall id, id <> playerId -> getPlayer moved id = getPlayer g id).
  { intros id Hid. unfold moved, deployMove, getPlayer, modPlayer, modTerritory.
    cbn [players set_players set_map].
    apply find_update_first_other.
    - intro x. reflexivity.
    - intros x Hx. unfold is_player in *. apply String.eqb_eq in Hx.
      apply String.eqb_neq. congruence. }
  pose proof (deployCompletion_players continents (pool player - amount) moved) as Hpl.
  cbv zeta in Hpl.
  set (g' := deployCompletion continents (pool player - amount) moved) in *.
  assert (Hterr : getTerritory g' territoryId
                  = Some (set_troops (troops territory + amount) territory)).
  { unfold getTerritory. rewrite Hmap, Hmoved.
    apply (@find_update_first_hit _ (has_id territoryId)
             (fun t => set_troops (troops t + amount) t) (map g) territory Et).
    apply (find_some _ _ Et). }
  assert (Hothers : forall id, id <> territoryId -> getTerritory g' id = getTerritory g id).
  { intros id Hid. unfold getTerritory. rewrite Hmap, Hmoved.
    apply find_update_first_other.
    - intro x. reflexivity.
    - intro x. apply has_id_other. congruence. }
  destruct Hpl as [Hsame|[R1 [R2 [R3 [R4 R5]]]]].
  - exists player, territory, amount, (set_troops (troops territory + amount) territory),
           (set_pool (pool player - amount) player).
    do 5 (split; [first [reflexivity | assumption]|]). split; [exact Ea|].
    split; [exact Ha|]. split; [exact El|]. split; [reflexivity|].
    split; [exact Hterr|]. split; [reflexivity|]. split; [repeat split; reflexivity|].
    split; [exact Hothers|].
    split; [unfold getPlayer; rewrite Hsame; exact Hpm|].
    split; [repeat split; reflexivity|].
    left. split; [reflexivity|].
    intros id Hid. unfold getPlayer. rewrite Hsame. apply (Hom id Hid).
  - exists player, territory, amount, (set_troops (troops territory + amount) territory),
           (set_pool (calculateReinforcements continents moved playerId)
                     (set_pool (pool player - amount) player)).
    do 5 (split; [first [reflexivity | assumption]|]). split; [exact Ea|].
    split; [exact Ha|]. split; [exact El|]. split; [reflexivity|].
    split; [exact Hterr|]. split; [reflexivity|]. split; [repeat split; reflexivity|].
    split; [exact Hothers|].
    assert (Hpid : p_id player = playerId).
    { unfold getPlayer in Epl. apply find_some in Epl. destruct Epl as [_ E].
      apply String.eqb_eq in E. exact E. }
    split.
    { unfold getPlayer. rewrite R5, find_map_player by reflexivity.
      unfold getPlayer in Hpm. rewrite Hpm. cbn. rewrite Hpid. reflexivity. }
    split; [repeat split; reflexivity|].
    right. split; [exact R1|]. split; [exact R2|]. split; [exact R3|].
    intros id p Hp. unfold getPlayer in Hp. rewrite R5, find_map_player in Hp by reflexivity.
    destruct (find (is_player id) (players moved)) as [q|] eqn:Eq; [|discriminate].
    injection Hp as <-. apply find_some in Eq. destruct Eq as [_ Eq].
    apply String.eqb_eq in Eq. cbn [pool set_pool]. rewrite Eq.
    apply calculateReinforcements_map. symmetry. exact R4.
Qed.

(** C10: a count that is 0, negative, NaN or otherwise not numeric is
    deployed as exactly 1: when every other check passes and the pool holds
    at least 1, [deploy] succeeds with the amount 1.  Nothing changes on
    the map but the troops of the territory, and nothing of the player but
    the pool.  On whole numbers, where the code computes without rounding,
    the territory has one troop more and the pool one troop less --
    unless the deploy ends the setup of a later round, when every pool is
    set to the reinforcements of its player. *)
Theorem deploy_coerces_count
        (continents : list Continent) (g : Game) (playerId territoryId : string)
        (count : JS.number) (player : Player) (territory : Territory) :
  (count = JS.NaN \/ count = JS.NegInf \/ exists q, count = JS.Fin q /\ q <= 0) ->
  JS.truthy_opt (winnerId g) = false ->
  getPlayer g playerId = Some player ->
  notCurrentPlayer g playerId = false ->
  getTerritory g territoryId = Some territory ->
  owns playerId territory = true ->
  1 <= pool player ->
  exists g' territory' player',
    deployAmount count = JS.Fin 1
    /\ deploy continents g playerId territoryId count = (true, g')
    /\ getTerritory g' territoryId = Some territory'
    /\ (t_id territory' = t_id territory /\ t_name territory' = t_name territory
        /\ t_continent territory' = t_continent territory
        /\ t_neighbors territory' = t_neighbors territory
        /\ ownerId territory' = ownerId territory)
    /\ (forall id, id <> territoryId -> getTerritory g' id = getTerritory g id)
    /\ getPlayer g' playerId = Some player'
    /\ (p_id player' = p_id player /\ displayName player' = displayName player
        /\ color player' = color player /\ p_troops player' = p_troops player
        /\ ready player' = ready player /\ hand player' = hand player
        /\ conqueredThisTurn player' = conqueredThisTurn player)
    /\ (wholeNumber (troops territory) ->
        troops territory' = troops territory + 1
        /\ fl (troops territory + 1) == troops territory + 1)
    /\ (wholeNumber (pool player) ->
        fl (pool player - 1) == pool player - 1
        /\ (phase g <> SETUP \/ isFirstRound g = true ->
            pool player' = pool player - 1
            /\ forall id, id <> playerId -> getPlayer g' id = getPlayer g id)
        /\ (phase g = SETUP -> isFirstRound g = false ->
            (pool player' = pool player - 1
             /\ forall id, id <> playerId -> getPlayer g' id = getPlayer g id)
            \/ (phase g' = GLOBAL_REINFORCE
                /\ forall id p, getPlayer g' id = Some p ->
                                pool p = calculateReinforcements continents g' id))).
Proof.
  intros Hc Hw Hp Hcur Ht Hown Hpool.
  assert (Hrun : deploy continents g playerId territoryId count
                 = (true, deployCompletion continents (pool player - 1)
                            (deployMove playerId territoryId 1 g))).
  { unfold deploy. rewrite Hw, Hp, Hcur, Ht, Hown, (deployAmount_coerced Hc). simpl.
    destruct (Qltb (pool player) 1) eqn:E; [apply Qltb_lt in E; lra | reflexivity]. }
  destruct (deploy_effect _ _ _ _ _ Hrun)
    as [player0 [territory0 [amount [territory' [player' H]]]]].
  destruct H as [_ [_ [Hp0 [Ht0 [_ [Ea [_ [_ [_ [Ht' [Htr [Hft [Hot [Hp' [Hfp Hcase]]]]]]]]]]]]]]].
  rewrite Hp in Hp0. injection Hp0 as <-. rewrite Ht in Ht0. injection Ht0 as <-.
  rewrite (deployAmount_coerced Hc) in Ea. injection Ea as <-.
  assert (W1 : wholeNumber 1) by (exists 1%Z; split; [reflexivity | vm_compute; discriminate]).
  eexists. exists territory', player'.
  split; [apply deployAmount_coerced; exact Hc|]. split; [exact Hrun|].
  split; [exact Ht'|]. split; [exact Hft|]. split; [exact Hot|].
  split; [exact Hp'|]. split; [exact Hfp|]. split.
  - intro Wt. split; [exact Htr|]. apply (wholeNumber_exact Wt W1).
  - intro Wp. split; [apply (wholeNumber_exact Wp W1)|]. split.
    + intro Hph. destruct Hcase as [Hcase|[R1 [R2 _]]]; [exact Hcase|].
      destruct Hph as [Hph|Hph]; congruence.
    + intros _ _. destruct Hcase as [Hcase|[_ [_ [R3 R4]]]]; [left; exact Hcase|].
      right. split; [exact R3 | exact R4].
Qed.

Lemma example_whole (z : Z) : (Z.abs z <= 2 ^ 52)%Z -> wholeNumber (inject_Z z).
Proof. intro H. exists z. split; [reflexivity | exact H]. Qed.

Lemma deploy_coerces_count_witness :
  exists g' territory' player',
    deploy Example.continents Example.setupGame "p1" "A" JS.NaN = (true, g')
    /\ getTerritory g' "A" = Some territory' /\ troops territory' = 3 + 1
    /\ getPlayer g' "p1" = Some player' /\ pool player' = 5 - 1.
Proof.
  destruct (@deploy_coerces_count Example.continents Example.setupGame "p1" "A" JS.NaN
              (Example.player "p1" 5)
              (Example.territory "A" ["B"]%string (Some "p1"%string) 3))
    as [g' [territory' [player' [_ [E [Ht [_ [_ [Hp [_ [Wt Wp]]]]]]]]]]]; try reflexivity.
  - left. reflexivity.
  - simpl. lra.
  - exists g', territory', player'. split; [exact E|]. split; [exact Ht|].
    split; [apply Wt; apply (example_whole 3); vm_compute; discriminate|].
    split; [exact Hp|].
    apply Wp; [apply (example_whole 5); vm_compute; discriminate|].
    right. reflexivity.
Defined.

Lemma deployAmount_wholeNumber (count : JS.number) (amount : Q) :
  (forall q, count = JS.Fin q -> wholeNumber q) ->
  deployAmount count = JS.Fin amount -> wholeNumber amount.
Proof.
  intros Hc E.
  assert (W1 : wholeNumber 1) by (exists 1%Z; split; [reflexivity | vm_compute; discriminate]).
  unfold deployAmount, JS.or in E. destruct count as [q| | |]; simpl in E.
  - destruct (Qeqb q 0); simpl in E; injection E as <-.
    + unfold Math_max. destruct (Qleb 1 0); [|exact W1].
      exists 0%Z. split; [reflexivity | vm_compute; discriminate].
    + destruct (Math_max_spec 1 q) as [[_ ->]|[_ ->]]; [apply Hc; reflexivity | exact W1].
  - injection E as <-. unfold Math_max. simpl. exists 1%Z.
    split; [reflexivity | vm_compute; discriminate].
  - discriminate.
  - injection E as <-. exact W1.
Qed.

(** A deploy that is accepted, in a match with whole numbers.  The caller
    is the current player and owns the territory; the amount,
    [max(1, count)], is a whole number, at least 1 and at most the pool;
    the sum and the difference the code computes are not rounded.  The
    territory gains the amount and nothing else changes on the map, so the
    troops of the map grow by the amount; the pool of the caller loses the
    amount and nothing else changes for the players -- unless the deploy
    ends the setup of a later round, when every pool is set to the
    reinforcements of its player.  In SETUP the turn passes on when the
    pool is used up, and when all pools are empty the match goes to
    TURN_ATTACK (first round) with the first player; in GLOBAL_REINFORCE
    the turn passes on when the pool is used up, and the match goes to
    TURN_ATTACK when the turn comes back to the first player; in any other
    phase nothing else happens. *)
Theorem deploy_accepted
        (continents : list Continent) (g g' : Game) (playerId territoryId : string)
        (count : JS.number) :
  Forall (fun t => wholeNumber (troops t)) (map g) ->
  Forall (fun p => wholeNumber (pool p)) (players g) ->
  (forall q, count = JS.Fin q -> wholeNumber q) ->
  deploy continents g playerId territoryId count = (true, g') ->
  exists player territory amount territory' player',
    JS.truthy_opt (winnerId g) = false
    /\ (exists p, getCurrentPlayer g = Some p /\ p_id p = playerId)
    /\ getPlayer g playerId = Some player
    /\ getTerritory g territoryId = Some territory
    /\ ownerId territory = Some playerId
    /\ deployAmount count = JS.Fin amount
    /\ 1 <= amount /\ amount <= pool player
    /\ wholeNumber amount
    /\ fl (troops territory + amount) == troops territory + amount
    /\ fl (pool player - amount) == pool player - amount
    /\ getTerritory g' territoryId = Some territory'
    /\ troops territory' = troops territory + amount
    /\ (t_id territory' = t_id territory /\ t_name territory' = t_name territory
        /\ t_continent territory' = t_continent territory
        /\ t_neighbors territory' = t_neighbors territory
        /\ ownerId territory' = ownerId territory)
    /\ (forall id, id <> territoryId -> getTerritory g' id = getTerritory g id)
    /\ List.map ownerId (map g') = List.map ownerId (map g)
    /\ total troops (map g') == total troops (map g) + amount
    /\ getPlayer g' playerId = Some player'
    /\ (p_id player' = p_id player /\ displayName player' = displayName player
        /\ color player' = color player /\ p_troops player' = p_troops player
        /\ ready player' = ready player /\ hand player' = hand player
        /\ conqueredThisTurn player' = conqueredThisTurn player)
    /\ ((pool player' = pool player - amount
         /\ forall id, id <> playerId -> getPlayer g' id = getPlayer g id)
        \/ (phase g = SETUP /\ isFirstRound g = false /\ phase g' = GLOBAL_REINFORCE
            /\ forall id p, getPlayer g' id = Some p ->
                            pool p = calculateReinforcements continents g' id))
    /\ let moved := deployMove playerId territoryId amount g in
       match phase g with
       | SETUP =>
           if areAllPoolsEmpty moved then
             currentPlayerIndex g' = 0%nat
             /\ phase g' = (if isFirstRound g then TURN_ATTACK else GLOBAL_REINFORCE)
           else
             phase g' = SETUP
             /\ currentPlayerIndex g'
                = (if Qeqb (pool player - amount) 0
                   then ((currentPlayerIndex g + 1) mod List.length (players g))%nat
                   else currentPlayerIndex g)
       | GLOBAL_REINFORCE =>
           if Qeqb (pool player - amount) 0 then
             currentPlayerIndex g'
             = ((currentPlayerIndex g + 1) mod List.length (players g))%nat
             /\ phase g' = (if (currentPlayerIndex g' =? 0)%nat then TURN_ATTACK
                            else GLOBAL_REINFORCE)
           else g' = moved
       | _ => g' = moved
       end.
Proof.
  intros Wt Wp Wc H.
  destruct (deploy_effect _ _ _ _ _ H)
    as [player [territory [amount [territory' [player' E]]]]].
  destruct E as [Hw [Hc [Hp [Ht [Ho [Ha [H1 [H2 [Eg [Ht' [Htr [Hft [Hot [Hp' [Hfp Hcase]]]]]]]]]]]]]]].
  assert (Wa : wholeNumber amount) by (apply (deployAmount_wholeNumber Wc Ha)).
  assert (Wtt : wholeNumber (troops territory)).
  { rewrite Forall_forall in Wt. apply Wt. apply (find_some _ _ Ht). }
  assert (Wpp : wholeNumber (pool player)).
  { rewrite Forall_forall in Wp. apply Wp. apply (find_some _ _ Hp). }
  exists player, territory, amount, territory', player'.
  split; [exact Hw|]. split; [apply notCurrentPlayer_false, Hc|].
  split; [exact Hp|]. split; [exact Ht|]. split; [apply opt_is_eq, Ho|].
  split; [exact Ha|]. split; [exact H1|]. split; [exact H2|]. split; [exact Wa|].
  split; [apply (wholeNumber_exact Wtt Wa)|]. split; [apply (wholeNumber_exact Wpp Wa)|].
  split; [exact Ht'|]. split; [exact Htr|]. split; [exact Hft|]. split; [exact Hot|].
  destruct (deployCompletion_frame continents (pool player - amount)
              (deployMove playerId territoryId amount g)) as [_ [_ [_ [_ [_ [Fm _]]]]]].
  cbv zeta in Fm.
  assert (Hmap : map g' = update_first (has_id territoryId)
                            (fun t => set_troops (troops t + amount) t) (map g)).
  { rewrite Eg, Fm. reflexivity. }
  split; [rewrite Hmap; apply update_first_map; reflexivity|].
  split.
  { rewrite Hmap.
    rewrite (@total_update_first troops (has_id territoryId) _ (map g) territory Ht).
    simpl. ring. }
  split; [exact Hp'|]. split; [exact Hfp|]. split; [exact Hcase|].
  cbv zeta.
  pose proof (deployCompletion_phase continents (pool player - amount)
                (deployMove playerId territoryId amount g)) as Hph.
  cbv zeta in Hph.
  destruct (deployMove_frame playerId territoryId amount g)
    as [_ [_ [Hids [_ [_ [_ [M1 [M2 M3]]]]]]]]. cbv zeta in Hids, M1, M2, M3.
  rewrite M1, M2, M3 in Hph. rewrite (map_length_eq _ _ _ Hids) in Hph.
  rewrite Eg. exact Hph.
Qed.

(** ** The end of a turn *)

Lemma getContinentBonus_upper (continents : list Continent) (g : Game) (playerId : string) :
  Forall (fun c => 0 <= c_bonus c) continents ->
  getContinentBonus continents g playerId
  <= fold_right (fun c acc => c_bonus c + acc) 0 continents.
Proof.
  intro H. unfold getContinentBonus.
  match goal with
  | |- fold_left ?f _ _ <= _ =>
      assert (HH : forall acc,
                 fold_left f continents acc
                 <= acc + fold_right (fun c a => c_bonus c + a) 0 continents)
  end.
  { induction H as [|c l Hc Hl IH]; intro acc; simpl; [lra|].
    assert (Hs : 0 <= fold_right (fun c a => c_bonus c + a) 0 l).
    { clear -Hl. induction Hl as [|x l Hx _ IH]; simpl; lra. }
    eapply Qle_trans; [apply IH|].
    destruct (List.length (filter (fun t => String.eqb (t_continent t) (c_name c)) (map g)) =? 0)%nat;
      [lra|].
    destruct (forallb (owns playerId)
                      (filter (fun t => String.eqb (t_continent t) (c_name c)) (map g)));
      lra. }
  eapply Qle_trans; [apply HH|]. lra.
Qed.

Lemma getContinentBonus_none (continents : list Continent) (g : Game) (playerId : string) :
  filter (owns playerId) (map g) = [] ->
  getContinentBonus continents g playerId = 0.
Proof.
  intro H0. unfold getContinentBonus.
  match goal with
  | |- fold_left ?f _ _ = _ =>
      assert (HH : forall acc, fold_left f continents acc = acc); [|apply HH]
  end.
  induction continents as [|c l IH]; intro acc; simpl; [reflexivity|].
  set (ts := filter (fun t => String.eqb (t_continent t) (c_name c)) (map g)).
  assert (Hin : forall t, In t ts -> owns playerId t = false).
  { intros t Ht. apply filter_In in Ht. destruct Ht as [Ht _].
    destruct (owns playerId t) eqn:E; [|reflexivity].
    assert (Hf : In t (filter (owns playerId) (map g))) by (apply filter_In; auto).
    rewrite H0 in Hf. destruct Hf. }
  destruct ts as [|t ts']; simpl; [apply IH|].
  rewrite (Hin t (or_introl eq_refl)). simpl. apply IH.
Qed.

(** The reinforcements of a player.  A player who owns no territory
    receives exactly 3, whatever the continents are.  When no continent has
    a negative bonus, the reinforcements are at least 3, at least a third of
    the territories owned, and at most the larger of the two plus the
    bonuses of all continents. *)
Theorem calculateReinforcements_bounds
        (continents : list Continent) (g : Game) (playerId : string) :
  let owned := getPlayerTerritoryCount g playerId in
  (owned = 0%nat -> calculateReinforcements continents g playerId == 3)
  /\ (Forall (fun c => 0 <= c_bonus c) continents ->
      3 <= calculateReinforcements continents g playerId
      /\ Qnat (owned / 3) <= calculateReinforcements continents g playerId
      /\ calculateReinforcements continents g playerId
         <= Qnat (Nat.max 3 (owned / 3))
            + fold_right (fun c acc => c_bonus c + acc) 0 continents).
Proof.
  cbv zeta. unfold getPlayerTerritoryCount. split.
  - intro H0. unfold calculateReinforcements. cbv zeta.
    rewrite (@getContinentBonus_none continents g playerId)
      by (apply length_zero_iff_nil; exact H0).
    rewrite H0. reflexivity.
  - intro H.
    pose proof (getContinentBonus_nonneg g playerId H) as Hb.
    pose proof (getContinentBonus_upper g playerId H) as Hu.
    unfold calculateReinforcements. cbv zeta.
    set (n := (List.length (filter (owns playerId) (map g)) / 3)%nat) in *.
    assert (Hn : Qnat (if (n <? 3)%nat then 3%nat else n) == Qnat (Nat.max 3 n)).
    { destruct (n <? 3)%nat eqn:E.
      - apply Nat.ltb_lt in E. now rewrite Nat.max_l by lia.
      - apply Nat.ltb_ge in E. now rewrite Nat.max_r by lia. }
    rewrite Hn.
    assert (H3 : 3 <= Qnat (Nat.max 3 n)).
    { change 3 with (Qnat 3) at 1. apply Qnat_le. lia. }
    assert (Hge : Qnat n <= Qnat (Nat.max 3 n)) by (apply Qnat_le; lia).
    split; [lra|]. split; lra.
Qed.

Lemma turnCard_none (rnd : nat -> Q) (g : Game) (current : Player) :
  turnCard rnd g current = None
  <-> conqueredThisTurn current = false
      \/ (drawPile (deck g) = [] /\ discardPile (deck g) = []).
Proof.
  unfold turnCard. destruct (conqueredThisTurn current).
  - destruct (draw_spec rnd (deck g)) as [[H1 [H2 H3]]|[card [d' [H3 _]]]]; rewrite H3; simpl.
    + split; auto.
    + split; [discriminate|]. intros [H|[H1 H2]]; [discriminate|].
      exfalso. unfold draw in H3. rewrite H1, H2 in H3. simpl in H3. rewrite H1 in H3.
      simpl in H3. discriminate.
  - split; auto.
Qed.

(** The end of a turn, player by player. *)
Lemma turnEnd_players (rnd : nat -> Q) (g : Game) (current : Player) :
  getCurrentPlayer g = Some current ->
  let h := turnEnd rnd g in
  (exists p,
      nth_error (players h) (currentPlayerIndex g) = Some p
      /\ p_id p = p_id current /\ conqueredThisTurn p = false
      /\ match turnCard rnd g current with
         | Some card =>
             hand p = hand current ++ [card]
             /\ pendingCardEarned h = Some (p_id current, card)
             /\ deck h = snd (draw rnd (deck g))
         | None =>
             hand p = hand current /\ pendingCardEarned h = None /\ deck h = deck g
         end)
  /\ (forall i, i <> currentPlayerIndex g ->
                nth_error (players h) i = nth_error (players g) i).
Proof.
  intro Hc. cbv zeta. unfold turnEnd, grantTurnCardIfEligible, turnCard.
  change (getCurrentPlayer (set_pendingCardEarned None g)) with (getCurrentPlayer g).
  rewrite Hc. unfold getCurrentPlayer in Hc.
  change (deck (set_pendingCardEarned None g)) with (deck g).
  destruct (conqueredThisTurn current) eqn:Ec; cbn [negb].
  - destruct (draw_spec rnd (deck g)) as [[H1 [H2 H3]]|[card [d' [H3 _]]]]; rewrite H3.
    + cbn. split.
      * rewrite nth_error_update_nth, Nat.eqb_refl, Hc. cbn.
        eexists. split; [reflexivity|]. repeat split; reflexivity.
      * intros i Hi. rewrite nth_error_update_nth.
        apply Nat.eqb_neq in Hi. rewrite Hi. reflexivity.
    + cbn. rewrite update_nth_twice. split.
      * rewrite nth_error_update_nth, Nat.eqb_refl, Hc. cbn.
        eexists. split; [reflexivity|]. repeat split; reflexivity.
      * intros i Hi. rewrite nth_error_update_nth.
        apply Nat.eqb_neq in Hi. rewrite Hi. reflexivity.
  - cbn. split.
    + rewrite nth_error_update_nth, Nat.eqb_refl, Hc. cbn.
      eexists. split; [reflexivity|]. repeat split; reflexivity.
    + intros i Hi. rewrite nth_error_update_nth.
      apply Nat.eqb_neq in Hi. rewrite Hi. reflexivity.
Qed.

(** The start of the next turn touches the pools only. *)
Lemma turnStart_players (continents : list Continent) (h : Game) (i : nat) :
  let g' := turnStart continents h in
  deck g' = deck h /\ pendingCardEarned g' = pendingCardEarned h
  /\ option_map hand (nth_error (players g') i) = option_map hand (nth_error (players h) i)
  /\ option_map p_id (nth_error (players g') i) = option_map p_id (nth_error (players h) i)
  /\ option_map conqueredThisTurn (nth_error (players g') i)
     = option_map conqueredThisTurn (nth_error (players h) i).
Proof.
  cbv zeta. unfold turnStart. cbv zeta.
  destruct (currentPlayerIndex (advanceCursor h) =? 0)%nat.
  - destruct (isFirstRound (advanceCursor h)); unfold startNewRound; cbn;
      rewrite nth_error_map; destruct (nth_error (players h) i); repeat split; reflexivity.
  - cbn. repeat split; reflexivity.
Qed.

(** [nextTurn] in a match with players.  The player who moved loses the
    conquest flag and, if the flag was set and the piles of the deck are
    not both empty, has drawn one card: the card is added to the hand,
    recorded as the pending card and taken from the deck.  Otherwise the
    hand, the deck and the (empty) pending card are as before.  Nobody else
    draws or has a flag changed.  The turn passes to the next player in
    rotation and the phase becomes TURN_ATTACK, unless the rotation is
    complete: then the first round is over, every player receives the
    reinforcements for the territories held, and the phase becomes
    GLOBAL_REINFORCE with the first player to move.  The map is not
    touched. *)
Theorem nextTurn_passes_turn
        (continents : list Continent) (rnd : nat -> Q) (g : Game) (current : Player) :
  getCurrentPlayer g = Some current ->
  let g' := nextTurn continents rnd g in
  let next := ((currentPlayerIndex g + 1) mod List.length (players g))%nat in
  currentPlayerIndex g' = next
  /\ map g' = map g
  /\ List.map p_id (players g') = List.map p_id (players g)
  /\ (next <> 0%nat ->
      phase g' = TURN_ATTACK /\ isFirstRound g' = isFirstRound g
      /\ List.map pool (players g') = List.map pool (players g))
  /\ (next = 0%nat ->
      phase g' = GLOBAL_REINFORCE /\ isFirstRound g' = false
      /\ Forall (fun p => pool p = calculateReinforcements continents g (p_id p))
                (players g'))
  /\ (exists p,
         nth_error (players g') (currentPlayerIndex g) = Some p
         /\ p_id p = p_id current /\ conqueredThisTurn p = false
         /\ match turnCard rnd g current with
            | Some card =>
                hand p = hand current ++ [card]
                /\ pendingCardEarned g' = Some (p_id current, card)
                /\ deck g' = snd (draw rnd (deck g))
            | None =>
                hand p = hand current /\ pendingCardEarned g' = None /\ deck g' = deck g
            end)
  /\ (turnCard rnd g current = None
      <-> conqueredThisTurn current = false
          \/ (drawPile (deck g) = [] /\ discardPile (deck g) = []))
  /\ (forall i, i <> currentPlayerIndex g ->
        option_map hand (nth_error (players g') i)
        = option_map hand (nth_error (players g) i)
        /\ option_map conqueredThisTurn (nth_error (players g') i)
           = option_map conqueredThisTurn (nth_error (players g) i)).
Proof.
  intro Hc. cbv zeta. rewrite nextTurn_unfold.
  assert (Hlen : (currentPlayerIndex g < List.length (players g))%nat).
  { apply nth_error_Some. unfold getCurrentPlayer in Hc. congruence. }
  destruct (List.length (players g) =? 0)%nat eqn:E0; [apply Nat.eqb_eq in E0; lia|].
  destruct (turnEnd_frame rnd g)
    as [F1 [F2 [F3 [F4 [F5 [F6 [F7 [F8 [F9 [F10 [F11 F12]]]]]]]]]]].
  destruct (turnEnd_players rnd g Hc) as [Hcur Hoth]. cbv zeta in Hcur, Hoth.
  set (h := turnEnd rnd g) in *.
  assert (Hst : forall i,
             deck (turnStart continents h) = deck h
             /\ pendingCardEarned (turnStart continents h) = pendingCardEarned h
             /\ option_map hand (nth_error (players (turnStart continents h)) i)
                = option_map hand (nth_error (players h) i)
             /\ option_map p_id (nth_error (players (turnStart continents h)) i)
                = option_map p_id (nth_error (players h) i)
             /\ option_map conqueredThisTurn (nth_error (players (turnStart continents h)) i)
                = option_map conqueredThisTurn (nth_error (players h) i))
    by (intro i; apply (turnStart_players continents h i)).
  assert (Hcards :
            (exists p,
                nth_error (players (turnStart continents h)) (currentPlayerIndex g) = Some p
                /\ p_id p = p_id current /\ conqueredThisTurn p = false
                /\ match turnCard rnd g current with
                   | Some card =>
                       hand p = hand current ++ [card]
                       /\ pendingCardEarned (turnStart continents h)
                          = Some (p_id current, card)
                       /\ deck (turnStart continents h) = snd (draw rnd (deck g))
                   | None =>
                       hand p = hand current
                       /\ pendingCardEarned (turnStart continents h) = None
                       /\ deck (turnStart continents h) = deck g
                   end)
            /\ (forall i, i <> currentPlayerIndex g ->
                  option_map hand (nth_error (players (turnStart continents h)) i)
                  = option_map hand (nth_error (players g) i)
                  /\ option_map conqueredThisTurn
                       (nth_error (players (turnStart continents h)) i)
                     = option_map conqueredThisTurn (nth_error (players g) i))).
  { split.
    - destruct Hcur as [p [Ep [Hid [Hfl Hcard]]]].
      destruct (Hst (currentPlayerIndex g)) as [S1 [S2 [S3 [S4 S5]]]].
      rewrite Ep in S3, S4, S5.
      destruct (nth_error (players (turnStart continents h)) (currentPlayerIndex g))
        as [p'|]; [|discriminate].
      simpl in S3, S4, S5. injection S3 as S3. injection S4 as S4. injection S5 as S5.
      exists p'. split; [reflexivity|]. split; [congruence|]. split; [congruence|].
      rewrite S1, S2, S3. exact Hcard.
    - intros i Hi. destruct (Hst i) as [_ [_ [S3 [_ S5]]]].
      rewrite S3, S5, (Hoth i Hi). split; reflexivity. }
  destruct Hcards as [Hc1 Hc2].
  unfold turnStart in *. cbv zeta in *.
  change (currentPlayerIndex (advanceCursor h))
    with ((currentPlayerIndex h + 1) mod List.length (players h))%nat in *.
  rewrite F2, F12 in *.
  destruct ((currentPlayerIndex g + 1) mod List.length (players g) =? 0)%nat eqn:En.
  - apply Nat.eqb_eq in En. rewrite En.
    split; [reflexivity|].
    split; [now destruct (isFirstRound (advanceCursor h))|].
    split.
    { destruct (isFirstRound (advanceCursor h)); simpl;
        rewrite map_map_same by reflexivity; exact F10. }
    split; [intro; congruence|]. split.
    { intros _. split; [reflexivity|]. split.
      - destruct (isFirstRound (advanceCursor h)) eqn:Ef; [reflexivity|exact Ef].
      - apply Forall_forall. intros p Hp.
        assert (Hmap : forall k, map k = map g -> players k = players h ->
                                 In p (players (startNewRound continents k)) ->
                                 pool p = calculateReinforcements continents g (p_id p)).
        { intros k Hk Hpk Hin. unfold startNewRound in Hin. simpl in Hin.
          apply in_map_iff in Hin. destruct Hin as [q [<- _]]. simpl.
          unfold calculateReinforcements, getContinentBonus. rewrite Hk. reflexivity. }
        destruct (isFirstRound (advanceCursor h)); eapply Hmap; try exact Hp;
          try reflexivity; exact F3. }
    split; [exact Hc1|]. split; [apply turnCard_none | exact Hc2].
  - apply Nat.eqb_neq in En.
    split; [simpl; rewrite F2, F12; reflexivity|]. split; [exact F3|]. split; [exact F10|].
    split; [intros _; simpl; auto|]. split; [intro; contradiction|].
    split; [exact Hc1|]. split; [apply turnCard_none | exact Hc2].
Qed.

(** ** The state sent to the clients *)







(** ** Display names *)

Lemma PLAYER_CALLSIGNS_NoDup : NoDup PLAYER_CALLSIGNS.
Proof.
  unfold PLAYER_CALLSIGNS.
  repeat (constructor; [simpl; intuition discriminate|]). constructor.
Qed.

(** With fewer than eight players, as in every match (a lobby takes four),
    [getNextDisplayName] proposes a call sign of the list that no player
    carries as display name. *)
Theorem getNextDisplayName_unused (g : Game) :
  (List.length (players g) < 8)%nat ->
  In (getNextDisplayName g) PLAYER_CALLSIGNS
  /\ forall p, In p (players g) -> displayName p <> getNextDisplayName g.
Proof.
  intro Hl. unfold getNextDisplayName. cbv zeta.
  set (used := filter JS.truthy_str (List.map displayName (players g))).
  destruct (find (fun name => negb (set_has used name)) PLAYER_CALLSIGNS) as [name|] eqn:Ef.
  - apply find_some in Ef. destruct Ef as [Hin Hn]. split; [exact Hin|].
    intros p Hp E. apply negb_true_iff in Hn.
    assert (Hu : set_has used name = true).
    { apply set_has_In. unfold used. apply filter_In. split.
      - rewrite <- E. apply in_map. exact Hp.
      - unfold PLAYER_CALLSIGNS in Hin. simpl in Hin.
        repeat (destruct Hin as [<-|Hin]; [reflexivity|]). contradiction. }
    congruence.
  - exfalso.
    assert (Hincl : incl PLAYER_CALLSIGNS used).
    { intros name Hin. pose proof (find_none _ _ Ef name Hin) as H.
      apply negb_false_iff in H. apply set_has_In, H. }
    pose proof (NoDup_incl_length PLAYER_CALLSIGNS_NoDup Hincl) as H.
    pose proof (filter_length_le JS.truthy_str (List.map displayName (players g))) as H'.
    rewrite length_map in H'. fold used in H'.
    change (List.length PLAYER_CALLSIGNS) with 8%nat in H. lia.
Qed.

(** ** Battle session: the commit-roll that completes the pair *)

Section CompletedPair.

Variable resolveAttack :
  Game -> string -> string -> string -> Q -> Q -> option AttackRecord * Game.
Variable pruneInactivePlayers : Game -> Game.

(** When the defender has committed, the commit-roll of the attacker closes
    the session and has the engine resolve the attack with the attacker's
    count clamped into [1, max] -- the count itself when it lies in that
    range -- and the count the defender committed (the defender's maximum
    if that count is 0).  The clients are told of the commitment and then
    either that the battle is cancelled, when the engine refuses, or of the
    result and, if it names a winner, of the end of the match. *)
Theorem commit_roll_completes_pair
        (s : Server) (b : Battle) (sentId : option string) (requested : Q) :
  activeBattle s = Some b ->
  JS.truthy_opt sentId && JS.truthy_str (battleId b)
    && negb (JS.opt_is sentId (battleId b)) = false ->
  defenderRolled b = true ->
  let capped := Math_max 1 (Math_min (maxAttackerDice b) requested) in
  let answer :=
    resolveAttack (game s) (b_attackerId b) (b_fromId b) (b_toId b) capped
                  (orElse (b_defenderDice b) (maxDefenderDice b)) in
  1 <= capped
  /\ (1 <= maxAttackerDice b -> capped <= maxAttackerDice b)
  /\ (1 <= requested -> requested <= maxAttackerDice b -> capped == requested)
  /\ commit_roll resolveAttack pruneInactivePlayers s (b_attackerId b) sentId
                 (JS.Fin requested)
     = (mkServer None (pruneInactivePlayers (pruneInactivePlayers (snd answer))),
        [ResetInactivityTimer; CombatArenaUpdate (battleId b) true true]
          ++ match fst answer with
             | None => [BattleCancelled; RefreshTurnTimer; GameUpdate]
             | Some r =>
                 [ResetInactivityTimer; BattleResult r "both_committed";
                  RefreshTurnTimer; GameUpdate]
                   ++ match a_winnerId r with
                      | Some w => if JS.truthy_str w then [GameOver w] else []
                      | None => []
                      end
             end).
Proof.
  intros Hb Hid Hd. cbv zeta.
  destruct (clamp_range (maxAttackerDice b) requested) as [C1 [C2 [C3 C4]]].
  cbv zeta in C1, C2, C3, C4.
  split; [exact C1|]. split; [exact C2|]. split; [exact C3|].
  unfold commit_roll. rewrite Hb, Hid, String.eqb_refl.
  unfold maybeResolveActiveBattle, resolveActiveBattle, emitCombatArenaUpdate.
  cbn [activeBattle game attackerRolled defenderRolled commitAttacker negb orb
       b_attackerDice b_defenderDice maxAttackerDice maxDefenderDice b_attackerId
       b_fromId b_toId battleId].
  rewrite Hd. cbn [negb orb]. rewrite C4.
  destruct (resolveAttack (game s) (b_attackerId b) (b_fromId b) (b_toId b)
              (Math_max 1 (Math_min (maxAttackerDice b) requested))
              (orElse (b_defenderDice b) (maxDefenderDice b))) as [[r|] g1];
    reflexivity.
Qed.

End CompletedPair.

(** ** After the win *)

Lemma Forall2_map_right (A B : Type) (R : A -> B -> Prop) (f : A -> B) (l : list A) :
  (forall x, R x (f x)) -> Forall2 R l (List.map f l).
Proof. intro H. induction l; simpl; constructor; auto. Qed.

Lemma neutralize_sameButNeutral (socketId : string) (g : Game) :
  Forall2 (sameButNeutral socketId) (map g) (map (neutralizePlayerTerritories socketId g)).
Proof.
  unfold neutralizePlayerTerritories. cbn [map set_map].
  apply Forall2_map_right. intro t. unfold sameButNeutral.
  destruct (owns socketId t) eqn:E; cbn; repeat split; auto.
  right. split; [apply opt_is_eq; exact E | reflexivity].
Qed.

Lemma same_sameButNeutral (socketId : string) (m : list Territory) :
  Forall2 (sameButNeutral socketId) m m.
Proof.
  induction m; constructor; auto. unfold sameButNeutral. repeat split; auto.
Qed.

(** Once a winner is recorded, [deploy], [attack], [fortify], [nextPhase]
    and [tradeCards] are refused and change nothing.  The winner stays
    recorded across every operation but an accepted [startGame] and
    [resetGame], which alone clear it; and until then no operation moves a
    troop or changes an owner, except that [removePlayer] turns the
    territories of the player who leaves into neutral ones. *)
Theorem winner_ends_play
        (territories : list MapTerritory) (continents : list Continent)
        (sanitize : list Player -> string -> string) (g g' : Game) :
  operation territories continents sanitize anyCount g g' ->
  JS.truthy_opt (winnerId g) = true ->
  (forall rnd playerId a b count uids,
      deploy continents g playerId a count = (false, g)
      /\ attack rnd g playerId a b count = (None, g)
      /\ fortify continents rnd g playerId a b count = (false, g)
      /\ nextPhase continents rnd g = (false, g)
      /\ tradeCards g playerId uids = (None, g))
  /\ ((winnerId g' = None
       /\ ((exists rnd, canStartGame g = true /\ g' = snd (startGame rnd g))
           \/ exists rnd, g' = resetGame territories rnd g))
      \/ (winnerId g' = winnerId g
          /\ (map g' = map g
              \/ exists socketId,
                  g' = snd (removePlayer g socketId)
                  /\ Forall2 (sameButNeutral socketId) (map g) (map g')))).
Proof.
  intros Hop Hw.
  split.
  { intros rnd playerId a b count uids.
    apply (@winner_locks_match continents rnd g playerId a b count uids Hw). }
  each_operation Hop.
  - right. destruct (addPlayer_cases sanitize g socketId requestedName)
      as [E|[player [_ [_ [_ [_ [_ [_ [_ [_ E]]]]]]]]]]; rewrite E; auto.
  - right. destruct (findIndex (is_player socketId) (players g)) as [index|] eqn:Ei.
    + destruct (removePlayer_effect g socketId Ei)
        as [player [_ [_ [_ [_ [_ [_ [_ [_ [H1 [H2 _]]]]]]]]]]].
      cbv zeta in H1, H2. split; [exact H1|].
      right. exists socketId. split; [reflexivity|]. rewrite H2.
      destruct (Phase_eqb (phase g) LOBBY);
        [apply same_sameButNeutral | apply neutralize_sameButNeutral].
    + rewrite removePlayer_absent by exact Ei. auto.
  - right. unfold setPlayerReady. destruct (negb (Phase_eqb (phase g) LOBBY)); [auto|].
    destruct (getPlayer g socketId); auto.
  - right. unfold togglePlayerReady. destruct (negb (Phase_eqb (phase g) LOBBY)); [auto|].
    destruct (getPlayer g socketId); auto.
  - destruct (canStartGame g) eqn:E.
    + left. split; [apply (startGame_effect rnd g E)|]. left. exists rnd. auto.
    + right. rewrite startGame_refused by exact E. auto.
  - right. destruct (startNewRound_frame continents g) as [_ [_ [_ [_ [_ [H1 [H2 _]]]]]]].
    auto.
  - right. rewrite (proj1 (@winner_locks_match continents (fun _ => 0) g playerId
                             territoryId territoryId count [] Hw)). auto.
  - right. destruct (@winner_locks_match continents rnd g ""%string ""%string ""%string
                       JS.NaN [] Hw) as [_ [_ [_ [E _]]]].
    rewrite E. auto.
  - right. destruct (nextTurn_frame continents rnd g) as [_ [_ [_ [H1 H2]]]]. auto.
  - right. auto.
  - right. destruct (@winner_locks_match continents (fun _ => 0) g playerId
                       ""%string ""%string JS.NaN selectedCardUids Hw) as [_ [_ [_ [_ E]]]].
    rewrite E. auto.
  - right. destruct (@winner_locks_match continents rnd g playerId fromId toId count [] Hw)
      as [_ [E _]].
    rewrite E. auto.
  - right. destruct (@winner_locks_match continents rnd g playerId fromId toId count [] Hw)
      as [_ [_ [E _]]].
    rewrite E. auto.
  - left. split; [reflexivity|]. right. exists rnd. reflexivity.
Qed.

(** ** The properties on the example matches *)

Lemma example_quarter_valid : validRandom Example.quarter.
Proof.
  intro k. split; [vm_compute; reflexivity|]. unfold Example.quarter. split; lra.
Qed.

Lemma shuffle_permutes_witness :
  validRandom Example.quarter
  /\ Permutation (shuffle Example.quarter [1; 2; 3]%nat) [1; 2; 3]%nat
  /\ shuffle Example.quarter [1; 2; 3]%nat = [2; 3; 1]%nat.
Proof.
  split; [exact example_quarter_valid|]. split; [|reflexivity].
  assert (Hb : (Z.of_nat (List.length [1; 2; 3]%nat) <= 2 ^ 53)%Z) by (simpl; lia).
  exact (proj1 (@shuffle_permutes nat Example.quarter [1; 2; 3]%nat example_quarter_valid Hb)).
Defined.

Lemma isValidTradeSet_Permutation_witness :
  isValidTradeSet [Example.card "INFANTRY"; Example.card "WILD"; Example.card "CAVALRY"]
  = isValidTradeSet [Example.card "WILD"; Example.card "CAVALRY"; Example.card "INFANTRY"].
Proof.
  apply isValidTradeSet_Permutation.
  apply (Permutation_cons_app [Example.card "WILD"; Example.card "CAVALRY"] []).
  apply Permutation_refl.
Defined.

Lemma mustTrade_canTrade_witness :
  hs_canTradeAnySet (getHandState Example.fullHandGame "p1") = true.
Proof.
  apply mustTrade_canTrade; [|reflexivity].
  intros c Hc. simpl in Hc.
  destruct Hc as [<-|[<-|[<-|[<-|[<-|[]]]]]]; simpl; auto.
Defined.


Lemma example_tradeGame_deck : deckInvariant Example.tradeGame.
Proof.
  split; [split; [|split]|discriminate].
  - apply Permutation_refl.
  - apply Forall_cons; [exists 1%nat; split; [simpl; lia|reflexivity]|].
    apply Forall_cons; [exists 2%nat; split; [simpl; lia|reflexivity]|].
    apply Forall_cons; [exists 3%nat; split; [simpl; lia|reflexivity]|].
    apply Forall_nil.
  - repeat constructor; simpl; intuition discriminate.
Qed.

Lemma operations_keep_deck_witness :
  deckInvariant
    (snd (tradeCards Example.tradeGame "p1" [card_uid_of 1; card_uid_of 2; card_uid_of 3])).
Proof.
  apply (@operations_keep_deck [] Example.continents (fun _ s => s) Example.tradeGame _
           (op_tradeCards [] Example.continents (fun _ s => s) anyCount
                          Example.tradeGame "p1"
                          [card_uid_of 1; card_uid_of 2; card_uid_of 3])
           example_tradeGame_deck).
Defined.

Lemma operations_keep_cursor_witness :
  exists p,
    getCurrentPlayer (snd (nextPhase Example.continents Example.low Example.fortifyGame))
    = Some p.
Proof.
  apply (@operations_keep_cursor [] Example.continents (fun _ s => s) Example.fortifyGame _
           (op_nextPhase [] Example.continents (fun _ s => s) anyCount
                         Example.low Example.fortifyGame)
           (or_introl eq_refl)).
  discriminate.
Defined.

Lemma example_lobby_players : playersOk Example.lobbyGame.
Proof.
  split; [simpl; lia|]. split.
  - repeat constructor; discriminate.
  - repeat constructor; simpl; intuition discriminate.
Qed.

Lemma operations_keep_players_witness :
  playersOk (snd (addPlayer (fun _ s => s) Example.lobbyGame "p3" "Third")).
Proof.
  apply (@operations_keep_players [] Example.continents (fun _ s => s) Example.lobbyGame _
           (op_addPlayer [] Example.continents (fun _ s => s) anyCount
                         Example.lobbyGame "p3" "Third")
           example_lobby_players).
Defined.

Lemma example_continents_bonus : Forall (fun c => 0 <= c_bonus c) Example.continents.
Proof. repeat constructor. simpl. lra. Qed.

Lemma example_setup_pools : poolsNonNegative Example.setupGame.
Proof. repeat constructor; simpl; lra. Qed.

Lemma operations_keep_pools_witness :
  poolsNonNegative (snd (deploy Example.continents Example.setupGame "p1" "A" (JS.Fin 2))).
Proof.
  apply (@operations_keep_pools [] Example.continents (fun _ s => s) Example.setupGame _
           example_continents_bonus
           (op_deploy [] Example.continents (fun _ s => s) anyCount
                      Example.setupGame "p1" "A" (JS.Fin 2) I)
           example_setup_pools).
Defined.

Lemma example_attack_history : historyOk Example.attackGame.
Proof. split; [simpl; lia|]. split; constructor. Qed.

Lemma operations_keep_history_witness :
  NoDup (List.map a_id
           (battleHistory (snd (attack Example.high Example.attackGame "p1" "A" "B" (JS.Fin 2))))).
Proof.
  apply (@operations_keep_history [] Example.continents (fun _ s => s) Example.attackGame _
           (op_attack [] Example.continents (fun _ s => s) anyCount
                      Example.high Example.attackGame "p1" "A" "B" (JS.Fin 2) I)
           example_attack_history).
Defined.

Lemma removePlayer_repairs_turn_witness :
  getCurrentPlayer (snd (removePlayer Example.attackGame "p2")) = Some (Example.player "p1" 5).
Proof.
  destruct (@removePlayer_repairs_turn Example.attackGame "p2" 1 (Example.player "p1" 5))
    as [_ [_ [_ [H _]]]].
  - discriminate.
  - reflexivity.
  - reflexivity.
  - apply H. discriminate.
Defined.



Lemma example_setup_whole :
  Forall (fun t => wholeNumber (troops t)) (map Example.setupGame)
  /\ Forall (fun p => wholeNumber (pool p)) (players Example.setupGame).
Proof.
  split.
  - repeat (apply Forall_cons;
            [first [apply (example_whole 3) | apply (example_whole 2)];
             vm_compute; discriminate|]).
    apply Forall_nil.
  - repeat (apply Forall_cons; [apply (example_whole 5); vm_compute; discriminate|]).
    apply Forall_nil.
Qed.

Lemma deploy_accepted_witness :
  total troops
        (map (snd (deploy Example.continents Example.setupGame "p1" "A" (JS.Fin 2))))
  == total troops (map Example.setupGame) + 2.
Proof.
  assert (Wc : forall q, JS.Fin 2 = JS.Fin q -> wholeNumber q).
  { intros q E. injection E as <-. apply (example_whole 2). vm_compute. discriminate. }
  destruct (@deploy_accepted
              Example.continents Example.setupGame
              (snd (deploy Example.continents Example.setupGame "p1" "A" (JS.Fin 2)))
              "p1" "A" (JS.Fin 2) (proj1 example_setup_whole) (proj2 example_setup_whole)
              Wc eq_refl)
    as [player [territory [amount [territory' [player' H]]]]].
  destruct H as [_ [_ [_ [_ [_ [Ha [_ [_ [_ [_ [_ [_ [_ [_ [_ [_ [H _]]]]]]]]]]]]]]]]].
  injection Ha as <-. exact H.
Defined.

Lemma nextTurn_passes_turn_witness :
  currentPlayerIndex (nextTurn Example.continents Example.low Example.fortifyGame) = 1%nat.
Proof.
  exact (proj1 (@nextTurn_passes_turn Example.continents Example.low Example.fortifyGame
                  (Example.player "p1" 5) eq_refl)).
Defined.

Lemma calculateReinforcements_bounds_witness :
  3 <= calculateReinforcements Example.continents Example.attackGame "p1".
Proof.
  exact (proj1 (proj2 (@calculateReinforcements_bounds Example.continents
                         Example.attackGame "p1")
                  example_continents_bonus)).
Defined.

Lemma getNextDisplayName_unused_witness :
  In (getNextDisplayName Example.attackGame) PLAYER_CALLSIGNS.
Proof.
  apply (@getNextDisplayName_unused Example.attackGame). simpl. lia.
Defined.

Lemma winner_ends_play_witness :
  let g' := snd (removePlayer Example.wonGame "p2") in
  winnerId g' = winnerId Example.wonGame
  /\ List.map ownerId (map g') = [Some "p1"; Some NEUTRAL_ID; Some NEUTRAL_ID]%string
  /\ deploy Example.continents Example.wonGame "p1" "A" (JS.Fin 1) = (false, Example.wonGame).
Proof.
  destruct (@winner_ends_play [] Example.continents (fun _ s => s) Example.wonGame _
              (op_removePlayer [] Example.continents (fun _ s => s) anyCount
                               Example.wonGame "p2")
              eq_refl) as [R [[H _]|[H _]]].
  - discriminate H.
  - split; [exact H|]. split; [reflexivity|].
    apply (R Example.low "p1"%string "A"%string "A"%string (JS.Fin 1) []).
Defined.

Lemma commit_roll_completes_pair_witness :
  activeBattle
    (fst (commit_roll Example.cancelAttack Example.nobodyStale Example.defended
                      "p1" None (JS.Fin 3)))
  = None.
Proof.
  destruct (@commit_roll_completes_pair Example.cancelAttack Example.nobodyStale
              Example.defended (commitDefender 2 Example.battle) None 3
              eq_refl eq_refl eq_refl) as [_ [_ [_ H]]].
  change (b_attackerId (commitDefender 2 Example.battle)) with "p1"%string in H.
  rewrite H. reflexivity.
Defined.
